(** * Qucs netlist checker (qucs-core/src/check_netlist.cpp)

    A shallow embedding of the semantic checker and subcircuit expander of
    the Qucs circuit simulator, followed by the properties its specification
    states about it.

    Conventions of the embedding:
    - C [struct]s are records; a field keeps its C name behind a short prefix
      naming the struct ([d_type] is [definition_t::type], [v_ident] is
      [value_t::ident], ...), because several structs share field names.
    - A [char *] that the code compares with [NULL] is an [option string].
    - A [NULL]-terminated linked list is a [list]; a pointer into such a list
      is an index into it.
    - [double] is the primitive binary64 [float]; the libm functions [pow] and
      [modf] and the C cast to [int] are parameters of the development.
    - The checker's globals and the diagnostics printed through [logprint] are
      the state of a state-and-failure monad [M]; failure ([None]) stands for
      a run that does not return: a [NULL] dereference, a failed [assert], or
      a recursion that exhausts its fuel.
    - [int] counters are [Z]; no count of this file comes near to 2^31. *)

From Stdlib Require Import ZArith List String Ascii Bool Lia Floats Relations.
Import ListNotations.
Open Scope string_scope.
Open Scope list_scope.
Open Scope Z_scope.
Set Warnings "-register-all,-inexact-float".

(** ** Data model (check_netlist.h, netdefs.h) *)

(** The variable tags of equation.h the checker assigns. *)
Inductive tag_t := TAG_UNKNOWN | TAG_DOUBLE | TAG_VECTOR.

(** [struct value_t]; the [next] pointer of a value is kept by the owning
    pair ([p_next]). *)
Record value_t := mk_value {
  v_ident : option string;
  v_value : float;
  v_scale : option string;
  v_unit : option string;
  v_var : tag_t;
  v_subst : Z
}.

(** [struct pair_t]: [p_value] is [pair->value], [p_next] the chain
    [pair->value->next], [pair->value->next->next], ... *)
Record pair_t := mk_pair {
  p_key : string;
  p_value : value_t;
  p_next : list value_t
}.

(** [struct node_t]; [n_node = None] is the blank node left by the expander. *)
Record node_t := mk_node {
  n_node : option string;
  n_xlate : option string;
  n_xlatenr : Z
}.

(** Modelled from the spec: [struct property_t] and the macros [PROP_IS_VAL],
    [PROP_IS_INT], [PROP_IS_LST] and [PROP_HAS_RANGE] of netdefs.h, which is
    not part of the sources at hand.  A descriptor gives a key, the
    numeric-or-identifier kind, the integer-only flag, the list-allowed flag
    and an optional numeric range. *)
Record property_t := mk_property {
  prop_key : string;
  PROP_IS_VAL : bool;
  PROP_IS_INT : bool;
  PROP_IS_LST : bool;
  prop_range : option (float * float)
}.

(** Modelled from the spec: [struct define_t], a catalog entry.  The arrays
    [required] and [optional], closed in C by an entry that fails
    [PROP_IS_PROP], are lists. *)
Record define_t := mk_define {
  a_type : string;
  a_nodes : Z;
  a_action : Z;
  a_substrate : Z;
  a_nonlinear : Z;
  a_required : list property_t;
  a_optional : list property_t
}.

(** Modelled from the spec: the constants of netdefs.h.  [PROP_NODES] marks
    an entry that takes any number of nodes, at least one. *)
Definition PROP_NODES : Z := -1.
Definition PROP_COMPONENT : Z := 0.
Definition PROP_ACTION : Z := 1.

(** [struct definition_t]; [d_sub] is the body of a [Def] statement. *)
Inductive definition_t := mk_definition {
  d_type : string;
  d_instance : string;
  d_nodes : list node_t;
  d_pairs : list pair_t;
  d_sub : list definition_t;
  d_subcircuit : option string;
  d_duplicate : Z;
  d_action : Z;
  d_substrate : Z;
  d_nonlinear : Z;
  d_nodeset : Z;
  d_line : Z;
  d_copy : Z;
  d_ncount : Z;
  d_define : option define_t
}.

(** Field updates. *)
Definition set_v_value (x : float) (v : value_t) : value_t :=
  mk_value (v_ident v) x (v_scale v) (v_unit v) (v_var v) (v_subst v).
Definition set_v_scale (x : option string) (v : value_t) : value_t :=
  mk_value (v_ident v) (v_value v) x (v_unit v) (v_var v) (v_subst v).
Definition set_v_unit (x : option string) (v : value_t) : value_t :=
  mk_value (v_ident v) (v_value v) (v_scale v) x (v_var v) (v_subst v).
Definition set_v_var (x : tag_t) (v : value_t) : value_t :=
  mk_value (v_ident v) (v_value v) (v_scale v) (v_unit v) x (v_subst v).
Definition set_v_subst (x : Z) (v : value_t) : value_t :=
  mk_value (v_ident v) (v_value v) (v_scale v) (v_unit v) (v_var v) x.

Definition set_p_value (x : value_t) (p : pair_t) : pair_t :=
  mk_pair (p_key p) x (p_next p).
Definition set_p_next (x : list value_t) (p : pair_t) : pair_t :=
  mk_pair (p_key p) (p_value p) x.

Definition set_d_pairs (x : list pair_t) (d : definition_t) : definition_t :=
  mk_definition (d_type d) (d_instance d) (d_nodes d) x (d_sub d)
    (d_subcircuit d) (d_duplicate d) (d_action d) (d_substrate d)
    (d_nonlinear d) (d_nodeset d) (d_line d) (d_copy d) (d_ncount d)
    (d_define d).
Definition set_d_nodes (x : list node_t) (d : definition_t) : definition_t :=
  mk_definition (d_type d) (d_instance d) x (d_pairs d) (d_sub d)
    (d_subcircuit d) (d_duplicate d) (d_action d) (d_substrate d)
    (d_nonlinear d) (d_nodeset d) (d_line d) (d_copy d) (d_ncount d)
    (d_define d).
Definition set_d_sub (x : list definition_t) (d : definition_t) : definition_t :=
  mk_definition (d_type d) (d_instance d) (d_nodes d) (d_pairs d) x
    (d_subcircuit d) (d_duplicate d) (d_action d) (d_substrate d)
    (d_nonlinear d) (d_nodeset d) (d_line d) (d_copy d) (d_ncount d)
    (d_define d).
Definition set_d_duplicate (x : Z) (d : definition_t) : definition_t :=
  mk_definition (d_type d) (d_instance d) (d_nodes d) (d_pairs d) (d_sub d)
    (d_subcircuit d) x (d_action d) (d_substrate d)
    (d_nonlinear d) (d_nodeset d) (d_line d) (d_copy d) (d_ncount d)
    (d_define d).
(** The annotations [netlist_checker_intern] saves in a statement whose type
    the catalog knows. *)
Definition set_d_available (ns : Z) (av : define_t) (n : Z) (d : definition_t)
  : definition_t :=
  mk_definition (d_type d) (d_instance d) (d_nodes d) (d_pairs d) (d_sub d)
    (d_subcircuit d) (d_duplicate d) (d_action d) (a_substrate av)
    (a_nonlinear av) ns (d_line d) (d_copy d) n (Some av).

(** Replacing the element at an index; out of range nothing changes (the
    code only writes through pointers it has just found in the list). *)
Fixpoint update {A : Type} (l : list A) (i : nat) (f : A -> A) : list A :=
  match l, i with
  | [], _ => []
  | x :: r, O => f x :: r
  | x :: r, S i' => x :: update r i' f
  end.

(** [strcmp (a, b) == 0] with [a] possibly [NULL] and both sides tested. *)
Definition opt_streq (a : option string) (b : string) : bool :=
  match a with Some s => String.eqb s b | None => false end.

(** ** Diagnostics

    One constructor for each [logprint (LOG_ERROR, ...)] of the file, with the
    arguments of its format. *)
Inductive diag :=
| ErrNoReference (line : Z) (key type instance : string)
| ErrInvalidSpecial (line : Z) (ident key type instance : string)
| ErrNoSuchVariable (line : Z) (ident type instance : string)
| ErrCyclicSweep (instance : string) (deps : list string)
| ErrSelfReference (line : Z) (type instance : string)
| ErrNoSuchAction (line : Z) (ident type instance : string)
| ErrDuplicatePort (line : Z) (type prop : string) (p : Z)
    (instance ptype pinstance : string)
| ErrRequiredMissing (line : Z) (key type instance : string)
| ErrSingleConstant (line : Z) (key type instance : string)
| ErrExtraneous (line : Z) (key type instance : string)
| ErrNoActions
| ErrNoPac (n : Z)
| ErrManyDC (n : Z)
| ErrDCRequired (c : Z)
| ErrNoSuchSubstrate (line : Z) (ident type instance : string)
| ErrNoSuchNode (line : Z) (node type instance : string)
| ErrNodeNotUnique (line : Z) (node type instance : string)
| ErrSingleValue (key type instance : string)
| ErrOutOfRange (key : string) (v l h : float) (type instance : string)
| ErrNotInteger (key : string) (v : float) (type instance : string)
| ErrNotIdentifier (key : string) (v : float) (type instance : string)
| ErrCyclicSubcircuit (type instance : string) (deps : list string)
| ErrNoSuchSubcircuit (line : Z) (ident type instance : string)
| ErrSubcircuitNodes (line : Z) (sub : string) (n2 : Z)
    (type instance : string) (n1 : Z)
| ErrInvalidType (line : Z) (type : string)
| ErrAtLeastOneNode (line : Z) (type instance : string) (n : Z)
| ErrNodeCount (line : Z) (required : Z) (type instance : string) (n : Z)
| ErrRequiredCount (line : Z) (key : string) (n : Z) (type instance : string)
| ErrOptionalCount (line : Z) (key : string) (n : Z) (type instance : string)
| ErrDefinitionCount (n : Z) (type instance : string).

(** ** Globals and the checker monad *)

Record globals := mk_globals {
  definition_root : list definition_t;
  subcircuit_root : list definition_t;
  checker_sub_cycles : Z;
  (** the diagnostics printed so far, the latest first *)
  log : list diag
}.

Definition M (A : Type) : Type := globals -> option (A * globals).

Definition ret {A} (x : A) : M A := fun g => Some (x, g).
Definition bind {A B} (c : M A) (k : A -> M B) : M B :=
  fun g => match c g with
           | Some (x, g') => k x g'
           | None => None
           end.
(** A run that does not return. *)
Definition crash {A} : M A := fun _ => None.
Definition logprint (d : diag) : M unit :=
  fun g => Some (tt, mk_globals (definition_root g) (subcircuit_root g)
                       (checker_sub_cycles g) (d :: log g)).
Definition get_subcircuit_root : M (list definition_t) :=
  fun g => Some (subcircuit_root g, g).
Definition set_subcircuit_root (r : list definition_t) : M unit :=
  fun g => Some (tt, mk_globals (definition_root g) r
                       (checker_sub_cycles g) (log g)).
Definition get_definition_root : M (list definition_t) :=
  fun g => Some (definition_root g, g).
Definition set_definition_root (r : list definition_t) : M unit :=
  fun g => Some (tt, mk_globals r (subcircuit_root g)
                       (checker_sub_cycles g) (log g)).
Definition get_sub_cycles : M Z :=
  fun g => Some (checker_sub_cycles g, g).
Definition set_sub_cycles (n : Z) : M unit :=
  fun g => Some (tt, mk_globals (definition_root g) (subcircuit_root g)
                       n (log g)).
(** Dereferencing a pointer that may be [NULL]. *)
Definition deref {A} (o : option A) : M A :=
  match o with Some x => ret x | None => crash end.

Declare Scope checker_scope.
Delimit Scope checker_scope with checker.
Notation "x <- c ;; k" := (bind c (fun x => k))
  (at level 61, c at next level, right associativity) : checker_scope.
Notation "' p <- c ;; k" := (bind c (fun x => match x with p => k end))
  (at level 61, p pattern, c at next level, right associativity)
  : checker_scope.
Notation "c ;;; k" := (bind c (fun _ => k))
  (at level 61, right associativity) : checker_scope.
Open Scope checker_scope.

(** ** The [strlist] class (strlist.h), as a list of strings *)

Definition strlist := list string.

Definition strlist_contains (l : strlist) (s : string) : bool :=
  existsb (String.eqb s) l.
Definition strlist_append (l : strlist) (s : string) : strlist := l ++ [s].
(** [toString (".")]: the entries joined by a dot. *)
Fixpoint strlist_toString (l : strlist) : string :=
  match l with
  | [] => ""
  | [s] => s
  | s :: r => (s ++ "." ++ strlist_toString r)%string
  end.

(** ** Looking up statements, properties and values *)

(** List of available microstrip components. *)
Definition strip_available : list string :=
  ["MLIN"; "MCORN"; "MMBEND"; "MSTEP"; "MOPEN"; "MGAP"; "MCOUPLED"; "MTEE";
   "MCROSS"; "MVIA"; "CLIN"].

(** The function counts the nodes in a definition line. *)
Definition checker_count_nodes (def : definition_t) : Z :=
  Z.of_nat (List.length (d_nodes def)).

(** The number of properties with the given key in a property list. *)
Fixpoint checker_find_property (key : string) (pairs : list pair_t) : Z :=
  match pairs with
  | [] => 0
  | p :: next =>
      (if String.eqb (p_key p) key then 1 else 0)
      + checker_find_property key next
  end.

(** Whether the key is a required or an optional property of the catalog
    entry. *)
Definition checker_is_property (available : define_t) (key : string) : bool :=
  existsb (fun p => String.eqb (prop_key p) key) (a_required available)
  || existsb (fun p => String.eqb (prop_key p) key) (a_optional available).

(** Counts the statements of the given type and instance name, marking each
    one after the first as a duplicate.  [count] is the running counter of
    the C loop. *)
Fixpoint count_definition_from (count : Z) (root : list definition_t)
    (type instance : string) : list definition_t * Z :=
  match root with
  | [] => ([], count)
  | def :: next =>
      if String.eqb (d_type def) type
         && String.eqb (d_instance def) instance then
        let count := count + 1 in
        let def := if 1 <? count then set_d_duplicate 1 def else def in
        let '(next, n) := count_definition_from count next type instance in
        (def :: next, n)
      else
        let '(next, n) := count_definition_from count next type instance in
        (def :: next, n)
  end.

Definition checker_count_definition (root : list definition_t)
    (type instance : string) : list definition_t * Z :=
  count_definition_from 0 root type instance.

(** The first property of the list, from index [j] on, with the given key
    whose value is the identifier [ident]. *)
Fixpoint find_variable_pair (pairs : list pair_t) (key : string)
    (ident : option string) (j : nat) : option nat :=
  match pairs with
  | [] => None
  | pr :: next =>
      if String.eqb (p_key pr) key
         && match v_ident (p_value pr), ident with
            | Some a, Some b => String.eqb a b
            | _, _ => false
            end
      then Some j
      else find_variable_pair next key ident (S j)
  end.

Fixpoint find_variable_from (i : nat) (root : list definition_t)
    (type key : string) (ident : option string) : option (nat * nat) :=
  match root with
  | [] => None
  | def :: next =>
      match (if String.eqb (d_type def) type
             then find_variable_pair (d_pairs def) key ident 0
             else None) with
      | Some j => Some (i, j)
      | None => find_variable_from (S i) next type key ident
      end
  end.

(** Returns the value for a given definition type, key and variable
    identifier: the place (statement index, property index) of the value
    pointer the C function returns. *)
Definition checker_find_variable (root : list definition_t)
    (type key : string) (ident : option string) : option (nat * nat) :=
  find_variable_from 0 root type key ident.

(** The value of the first property with the given key that is a reference
    (an identifier). *)
Fixpoint find_reference_pair (pairs : list pair_t) (key : string)
  : option value_t :=
  match pairs with
  | [] => None
  | pr :: next =>
      if String.eqb (p_key pr) key then
        match v_ident (p_value pr) with
        | Some _ => Some (p_value pr)
        | None => find_reference_pair next key
        end
      else find_reference_pair next key
  end.

Definition checker_find_reference (def : definition_t) (key : string)
  : option value_t :=
  find_reference_pair (d_pairs def) key.

(** The first property with the given key whose value is not an identifier,
    with its index in the property list. *)
Fixpoint find_prop_value_pair (pairs : list pair_t) (key : string) (j : nat)
  : option (nat * pair_t) :=
  match pairs with
  | [] => None
  | pr :: next =>
      if String.eqb (p_key pr) key then
        match v_ident (p_value pr) with
        | None => Some (j, pr)
        | Some _ => find_prop_value_pair next key (S j)
        end
      else find_prop_value_pair next key (S j)
  end.

Definition checker_find_prop_value (def : definition_t) (key : string)
  : option (nat * pair_t) :=
  find_prop_value_pair (d_pairs def) key 0.

(** As [checker_find_reference], with an error message when there is no
    such reference. *)
Definition checker_validate_reference (def : definition_t) (key : string)
  : M (option value_t) :=
  match checker_find_reference def key with
  | None =>
      logprint (ErrNoReference (d_line def) key (d_type def) (d_instance def))
      ;;; ret None
  | Some val => ret (Some val)
  end.

(** [struct special_t] and the list of special identifiers. *)
Record special_t := mk_special {
  sp_type : string;
  sp_key : string;
  sp_value : list string
}.

Definition checker_specials : list special_t :=
  let ms := ["Kirschning"; "Kobayashi"; "Yamashita"; "Getsinger"; "Schneider";
             "Pramanick"; "Hammerstad"] in
  let mm := ["Wheeler"; "Schneider"; "Hammerstad"] in
  [ mk_special "JFET" "Type" ["nfet"; "pfet"];
    mk_special "BJT" "Type" ["npn"; "pnp"];
    mk_special "MOSFET" "Type" ["nfet"; "pfet"];
    mk_special "SP" "Noise" ["yes"; "no"];
    mk_special "SP" "Type" ["lin"; "log"; "list"; "const"];
    mk_special "AC" "Type" ["lin"; "log"; "list"; "const"];
    mk_special "AC" "Noise" ["yes"; "no"];
    mk_special "DC" "saveOPs" ["yes"; "no"];
    mk_special "DC" "saveAll" ["yes"; "no"];
    mk_special "DC" "convHelper"
      ["none"; "SourceStepping"; "gMinStepping"; "LineSearch"; "Attenuation";
       "SteepestDescent"];
    mk_special "TR" "Type" ["lin"; "log"];
    mk_special "TR" "IntegrationMethod"
      ["Euler"; "Trapezoidal"; "Gear"; "AdamsMoulton"];
    mk_special "MLIN" "DispModel" ms;
    mk_special "MLIN" "Model" mm;
    mk_special "CLIN" "Backside" ["Metal"; "Air"];
    mk_special "SW" "Type" ["lin"; "log"; "list"; "const"];
    mk_special "SPfile" "Data" ["rectangular"; "polar"];
    mk_special "MSTEP" "MSDispModel" ms;
    mk_special "MSTEP" "MSModel" mm;
    mk_special "MOPEN" "MSDispModel" ms;
    mk_special "MOPEN" "MSModel" mm;
    mk_special "MOPEN" "Model" ["Kirschning"; "Hammerstad"; "Alexopoulos"];
    mk_special "MGAP" "MSDispModel" ms;
    mk_special "MGAP" "MSModel" mm;
    mk_special "MCOUPLED" "Model" ["Kirschning"; "Hammerstad"];
    mk_special "MCOUPLED" "DispModel" ["Kirschning"; "Getsinger"] ].

(** The inner loop of [checker_validate_special]: [found] grows by one for
    each allowed value equal to the identifier. *)
Fixpoint count_special_values (values : list string) (ident : string)
    (found : Z) : Z :=
  match values with
  | [] => found
  | v :: next =>
      count_special_values next ident
        (if String.eqb v ident then found + 1 else found)
  end.

Fixpoint validate_special_from (specials : list special_t)
    (root : list definition_t) (def : definition_t) (ident : string)
    (found : Z) : M Z :=
  match specials with
  | [] => ret found
  | special :: next =>
      match checker_find_variable root (sp_type special) (sp_key special)
              (Some ident) with
      | Some _ =>
          let found := count_special_values (sp_value special) ident found in
          (if found =? 0
           then logprint (ErrInvalidSpecial (d_line def) ident
                            (sp_key special) (d_type def) (d_instance def))
           else ret tt)
          ;;; validate_special_from next root def ident found
      | None => validate_special_from next root def ident found
      end
  end.

(** Checks whether the identifier is a special identifier of some property;
    zero when it is not. *)
Definition checker_validate_special (root : list definition_t)
    (def : definition_t) (ident : string) : M Z :=
  validate_special_from checker_specials root def ident 0.

(** The [Subst] reference of a microstrip component when it is the given
    identifier. *)
Fixpoint find_substrate_from (strips : list string) (def : definition_t)
    (ident : option string) : option value_t :=
  match strips with
  | [] => None
  | strip :: next =>
      if String.eqb strip (d_type def) then
        match checker_find_reference def "Subst" with
        | Some val =>
            match ident with
            | Some id =>
                if opt_streq (v_ident val) id then Some val
                else find_substrate_from next def ident
            | None => find_substrate_from next def ident
            end
        | None => find_substrate_from next def ident
        end
      else find_substrate_from next def ident
  end.

Definition checker_find_substrate (def : definition_t)
    (ident : option string) : option value_t :=
  find_substrate_from strip_available def ident.

(** Writing through a value pointer: the value [pr->value] of property [j]
    of statement [i]. *)
Definition update_value (root : list definition_t) (i j : nat)
    (f : value_t -> value_t) : list definition_t :=
  update root i (fun def =>
    set_d_pairs (update (d_pairs def) j (fun pr =>
      set_p_value (f (p_value pr)) pr)) def).

(** Resolves the variable of a property value.  Returns non-zero on
    success, otherwise zero.  [def] is statement [i] of [root] and [value]
    the value of its property [j]. *)
Definition checker_resolve_variable (root : list definition_t) (i j : nat)
  : M (list definition_t * Z) :=
  def <- deref (nth_error root i) ;;
  pr <- deref (nth_error (d_pairs def) j) ;;
  let value := p_value pr in
  match v_ident value with
  | Some ident =>
      let found := 0 in
      (* 1. find variable in parameter sweeps *)
      let '(root, found) :=
        match checker_find_variable root "SW" "Param" (Some ident) with
        | Some (i', j') =>
            let root := update_value root i' j' (set_v_var TAG_DOUBLE) in
            let root := update_value root i j (set_v_var TAG_DOUBLE) in
            (root, found + 1)
        | None => (root, found)
        end in
      (* 2. find analysis in parameter sweeps *)
      let found :=
        match checker_find_variable root "SW" "Sim" (Some ident) with
        | Some _ => found + 1
        | None => found
        end in
      (* 3. find substrate in microstrip components *)
      let '(root, found) :=
        match checker_find_substrate def (Some ident) with
        | Some _ => (update_value root i j (set_v_subst 1), found + 1)
        | None => (root, found)
        end in
      (* 4. find subcircuit definition in subcircuit components *)
      let found :=
        match checker_find_variable root "Sub" "Type" (Some ident) with
        | Some _ => found + 1
        | None => found
        end in
      (* 5. find special identifiers in certain properties *)
      special <- checker_validate_special root def ident ;;
      let found := if special =? 0 then found else found + 1 in
      (* 6. find file reference in S-parameter file components *)
      let found :=
        match checker_find_variable root "SPfile" "File" (Some ident) with
        | Some _ => found + 1
        | None => found
        end in
      if found =? 0 then
        logprint (ErrNoSuchVariable (d_line def) ident (d_type def)
                    (d_instance def)) ;;;
        ret (root, 0)
      else ret (root, 1)
  | None => ret (root, 1)
  end.

Section Checker.

(** The catalog of qucsdefs.h, which is not part of the sources at hand. *)
Variable qucs_definition_available : list define_t.
(** The libm functions [pow] and [modf] (the fractional part it returns) and
    the C conversion of a [double] to [int]. *)
Variable pow : float -> float -> float.
Variable modf : float -> float.
Variable int_of_double : float -> Z.

(** Returns the catalog entry for the given type, if there is one. *)
Definition checker_find_definition (type : string) (action : Z)
  : option define_t :=
  find (fun def => String.eqb type (a_type def) && (action =? a_action def))
       qucs_definition_available.

(** ** Unit scales *)

(** Evaluates the unit scale in a property value.  It adjusts the actual
    value and omits the scale.  The function returns non-zero on success and
    zero otherwise.  [scale_prefix] is the [switch] of the function: from the
    scale string and the value it gives the rest of the string, the value and
    the factor. *)
Definition scale_prefix (scale : string) (val : float)
  : string * float * float :=
  match scale with
  | String "T" rest => (rest, val, 1e12%float)
  | String "G" rest => (rest, val, 1e9%float)
  | String "M" rest => (rest, val, 1e6%float)
  | String "k" rest => (rest, val, 1e3%float)
  | String "m" rest => (rest, val, 1e-3%float)
  | String "u" rest => (rest, val, 1e-6%float)
  | String "n" rest => (rest, val, 1e-9%float)
  | String "p" rest => (rest, val, 1e-12%float)
  | String "f" rest => (rest, val, 1e-15%float)
  | String "a" rest => (rest, val, 1e-18%float)
  | String "d" rest =>
      match rest with
      | String "B" rest =>
          let val := pow 10%float (val / 10)%float in
          match rest with
          | String "m" rest => (rest, val, 1e-3%float)
          | _ => (rest, val, 1%float)
          end
      | _ => (rest, val, 1%float)
      end
  | _ => (scale, val, 1%float)
  end.

Definition checker_evaluate_scale (value : value_t) : value_t * Z :=
  match v_scale value with
  | Some scale =>
      let '(scale, val, factor) := scale_prefix scale (v_value value) in
      let value :=
        match scale with
        | EmptyString => value
        | _ => set_v_unit (Some scale) value
        end in
      let value := set_v_scale None value in
      (set_v_value (val * factor)%float value, 1)
  | None => (set_v_value (v_value value * 1)%float value, 1)
  end.

(** ** Counting statements *)

(** The number of statements of the given type ([None]: of any type) and
    action class. *)
Fixpoint checker_count_definitions (root : list definition_t)
    (type : option string) (action : Z) : Z :=
  match root with
  | [] => 0
  | def :: next =>
      (if d_action def =? action then
         match type with
         | None => 1
         | Some t => if String.eqb (d_type def) t then 1 else 0
         end
       else 0)
      + checker_count_definitions next type action
  end.

(** Looks for the subcircuit type in a list of subcircuits. *)
Definition find_subcircuit_in (subcircuits : list definition_t)
    (n : option string) : option definition_t :=
  find (fun def => match n with
                   | Some n => String.eqb (d_instance def) n
                   | None => false
                   end) subcircuits.

(** Looks for the subcircuit type in the list of available subcircuits. *)
Definition checker_find_subcircuit (n : option string)
  : M (option definition_t) :=
  subcircuits <- get_subcircuit_root ;;
  ret (find_subcircuit_in subcircuits n).

(** The subcircuit definition for the given subcircuit instance. *)
Definition checker_get_subcircuit (def : definition_t)
  : M (option definition_t) :=
  match checker_find_reference def "Type" with
  | Some val => checker_find_subcircuit (v_ident val)
  | None => ret None
  end.

(** The number of circuit instances requiring a DC analysis (being
    nonlinear) in the list of definitions.  [count_nonlinearities_from] is
    the loop of the function, [recurse] its recursive call, and [fuel]
    bounds the depth of the recursion. *)
Fixpoint count_nonlinearities_from
    (recurse : list definition_t -> M Z) (root : list definition_t)
    (count : Z) : M Z :=
  match root with
  | [] => ret count
  | def :: next =>
      let count := if d_nonlinear def =? 0 then count else count + 1 in
      (* also recurse into subcircuits if possible *)
      cycles <- get_sub_cycles ;;
      count <-
        (if cycles <=? 0 then
           if String.eqb (d_type def) "Sub" then
             sub <- checker_get_subcircuit def ;;
             match sub with
             | Some sub =>
                 n <- recurse (d_sub sub) ;;
                 ret (count + n)
             | None => ret count
             end
           else ret count
         else ret count) ;;
      count_nonlinearities_from recurse next count
  end.

Fixpoint checker_count_nonlinearities (fuel : nat)
    (root : list definition_t) : M Z :=
  match fuel with
  | O => crash
  | S fuel =>
      count_nonlinearities_from (checker_count_nonlinearities fuel) root 0
  end.

(** The number of action definitions with the given instance name. *)
Fixpoint checker_count_action (root : list definition_t) (instance : string)
  : Z :=
  match root with
  | [] => 0
  | def :: next =>
      (if (d_action def =? 1) && String.eqb (d_instance def) instance
       then 1 else 0)
      + checker_count_action next instance
  end.

(** ** Parameter sweeps *)

(** Detects cyclic definitions of parameter sweeps for the given instance
    name; [deps] passes the dependencies.  Zero when the sweep is not
    cyclic.  [validate_para_cycles_from] is the loop of the function,
    [recurse] its recursive call, and [fuel] bounds the depth of the
    recursion. *)
Fixpoint validate_para_cycles_from
    (recurse : string -> strlist -> M Z) (defs : list definition_t)
    (instance : string) (deps : strlist) : M Z :=
  match defs with
  | [] => ret 0
  | def :: next =>
      (* find the appropriate definition for the given instance *)
      if (d_action def =? 1) && String.eqb (d_instance def) instance then
        if strlist_contains deps instance then
          logprint (ErrCyclicSweep instance deps) ;;;
          ret 1
        else
          let deps := strlist_append deps instance in
          (* recurse into parameter sweeps *)
          if String.eqb (d_type def) "SW" then
            match checker_find_reference def "Sim" with
            | Some val =>
                ident <- deref (v_ident val) ;;
                recurse ident deps
            | None => validate_para_cycles_from recurse next instance deps
            end
          else validate_para_cycles_from recurse next instance deps
      else validate_para_cycles_from recurse next instance deps
  end.

Fixpoint checker_validate_para_cycles (fuel : nat) (root : list definition_t)
    (instance : string) (deps : strlist) : M Z :=
  match fuel with
  | O => crash
  | S fuel =>
      validate_para_cycles_from (checker_validate_para_cycles fuel root)
        root instance deps
  end.

(** Validates each parameter sweep of the list [root]; [defs] is the rest
    of the list the loop has still to look at. *)
Fixpoint validate_para_from (fuel : nat) (root defs : list definition_t)
    (errors : Z) : M Z :=
  match defs with
  | [] => ret errors
  | def :: next =>
      (* find parameter sweep *)
      if (d_action def =? 1) && String.eqb (d_type def) "SW" then
        (* the 'Sim' property must be an identifier *)
        val <- checker_validate_reference def "Sim" ;;
        match val with
        | None => validate_para_from fuel root next (errors + 1)
        | Some val =>
            ident <- deref (v_ident val) ;;
            (* check for self-referring sweeps *)
            errors <-
              (if String.eqb (d_instance def) ident then
                 logprint (ErrSelfReference (d_line def) (d_type def)
                             (d_instance def)) ;;;
                 ret (errors + 1)
               else ret errors) ;;
            (* look for the referred analysis action definition *)
            errors <-
              (if checker_count_action root ident =? 1 then ret errors
               else
                 logprint (ErrNoSuchAction (d_line def) ident (d_type def)
                             (d_instance def)) ;;;
                 ret (errors + 1)) ;;
            (* finally detect cyclic definitions *)
            e <- checker_validate_para_cycles fuel root ident [] ;;
            validate_para_from fuel root next (errors + e)
        end
      else validate_para_from fuel root next errors
  end.

Definition checker_validate_para (fuel : nat) (root : list definition_t)
  : M Z :=
  validate_para_from fuel root root 0.

(** ** Ports *)

(** Whether the statement is a port definition, the test of
    [checker_find_port]. *)
Definition is_port (def : definition_t) : bool :=
  (d_action def =? PROP_COMPONENT) && String.eqb (d_type def) "Pac".

(** The inner loop of [checker_validate_ports]: the ports of the list other
    than the port at index [i] are compared with its number [p]. *)
Fixpoint validate_ports_against (def : definition_t) (i : nat) (p : Z)
    (k : nat) (ports : list definition_t) (errors : Z) : M Z :=
  match ports with
  | [] => ret errors
  | port :: next =>
      errors <-
        (if is_port port && negb (Nat.eqb k i) then
           match checker_find_prop_value port "Num" with
           | Some (_, pr) =>
               if p =? int_of_double (v_value (p_value pr)) then
                 logprint (ErrDuplicatePort (d_line def) (d_type def) "Num" p
                             (d_instance def) (d_type port)
                             (d_instance port)) ;;;
                 ret (errors + 1)
               else ret errors
           | None => ret errors
           end
         else ret errors) ;;
      validate_ports_against def i p (S k) next errors
  end.

(** Checks whether the port numbers for the S-parameter analysis are
    unique.  The two [while ((def = checker_find_port (def)) != NULL)] loops
    visit the port definitions of the list in order. *)
Fixpoint validate_ports_from (root defs : list definition_t) (i : nat)
    (errors : Z) : M Z :=
  match defs with
  | [] => ret errors
  | def :: next =>
      errors <-
        (if is_port def then
           match checker_find_prop_value def "Num" with
           | Some (_, pr) =>
               validate_ports_against def i
                 (int_of_double (v_value (p_value pr))) 0 root errors
           | None => ret errors
           end
         else ret errors) ;;
      validate_ports_from root next (S i) errors
  end.

Definition checker_validate_ports (root : list definition_t) : M Z :=
  validate_ports_from root root 0%nat 0.

(** ** Loops over a statement list

    [for (def = root; def != NULL; def = def->next) body], where the body
    may write to the statements of the list it walks (never to its links).
    [i] is the index of [def], [n] the number of statements left, and [s]
    the local variables the body updates. *)
Fixpoint for_definitions {L : Type}
    (body : list definition_t -> nat -> definition_t -> L
            -> M (list definition_t * L))
    (n i : nat) (root : list definition_t) (s : L)
  : M (list definition_t * L) :=
  match n with
  | O => ret (root, s)
  | S n =>
      match nth_error root i with
      | None => ret (root, s)
      | Some def =>
          '(root, s) <- body root i def s ;;
          for_definitions body n (S i) root s
      end
  end.

(** ** Sweep lists *)

(** [for (; val != NULL; val = val->next) if (!checker_evaluate_scale (val))
    errors++;] *)
Fixpoint evaluate_scale_chain (vals : list value_t) (errors : Z)
  : list value_t * Z :=
  match vals with
  | [] => ([], errors)
  | val :: next =>
      let '(val, ok) := checker_evaluate_scale val in
      let errors := if ok =? 0 then errors + 1 else errors in
      let '(next, errors) := evaluate_scale_chain next errors in
      (val :: next, errors)
  end.

(** A property that has to be there as a value, and one that must not. *)
Definition required_prop_value (def : definition_t) (key : string)
    (errors : Z) : M Z :=
  match checker_find_prop_value def key with
  | None =>
      logprint (ErrRequiredMissing (d_line def) key (d_type def)
                  (d_instance def)) ;;;
      ret (errors + 1)
  | Some _ => ret errors
  end.

Definition extraneous_prop_value (def : definition_t) (key : string)
    (errors : Z) : M Z :=
  match checker_find_prop_value def key with
  | Some _ =>
      logprint (ErrExtraneous (d_line def) key (d_type def)
                  (d_instance def)) ;;;
      ret (errors + 1)
  | None => ret errors
  end.

(** The body of the loop of [checker_validate_lists]. *)
Definition validate_lists_body (def : definition_t) (errors : Z)
  : M (definition_t * Z) :=
  (* sweeps possible in parameter sweep, ac-analysis and s-parameter
     analysis *)
  if (d_action def =? 1)
     && (String.eqb (d_type def) "SW" || String.eqb (d_type def) "AC"
         || String.eqb (d_type def) "SP")
  then
    val <- deref (checker_find_reference def "Type") ;;
    let type := v_ident val in
    (* list of constant values and constant values *)
    if opt_streq type "const" || opt_streq type "list" then
      (* property 'Values' is required *)
      '(def, errors) <-
        match checker_find_prop_value def "Values" with
        | None =>
            logprint (ErrRequiredMissing (d_line def) "Values" (d_type def)
                        (d_instance def)) ;;;
            ret (def, errors + 1)
        | Some (j, pr) =>
            errors <-
              (if opt_streq type "const" then
                 (* in constant sweeps only one value allowed *)
                 match p_next pr with
                 | [] => ret errors
                 | _ =>
                     logprint (ErrSingleConstant (d_line def) "Values"
                                 (d_type def) (d_instance def)) ;;;
                     ret (errors + 1)
                 end
               else ret errors) ;;
            let val := set_v_var TAG_VECTOR (p_value pr) in
            (* check and evaluate the unit scale in a value list *)
            let '(vals, errors) :=
              evaluate_scale_chain (val :: p_next pr) errors in
            let pr :=
              match vals with
              | val :: next => set_p_next next (set_p_value val pr)
              | [] => pr
              end in
            ret (set_d_pairs (update (d_pairs def) j (fun _ => pr)) def,
                 errors)
        end ;;
      (* property 'Start', 'Stop' and 'Points' are invalid *)
      errors <- extraneous_prop_value def "Start" errors ;;
      errors <- extraneous_prop_value def "Stop" errors ;;
      errors <- extraneous_prop_value def "Points" errors ;;
      ret (def, errors)
    (* linearly and logarithmically stepped sweeps *)
    else if opt_streq type "lin" || opt_streq type "log" then
      errors <- required_prop_value def "Start" errors ;;
      errors <- required_prop_value def "Stop" errors ;;
      errors <- required_prop_value def "Points" errors ;;
      errors <- extraneous_prop_value def "Values" errors ;;
      ret (def, errors)
    else ret (def, errors)
  else ret (def, errors).

(** Checks whether the parametric sweeps in the netlist are valid. *)
Fixpoint validate_lists_from (root : list definition_t) (errors : Z)
  : M (list definition_t * Z) :=
  match root with
  | [] => ret ([], errors)
  | def :: next =>
      '(def, errors) <- validate_lists_body def errors ;;
      '(next, errors) <- validate_lists_from next errors ;;
      ret (def :: next, errors)
  end.

Definition checker_validate_lists (root : list definition_t)
  : M (list definition_t * Z) :=
  validate_lists_from root 0.

(** ** Actions *)

(** Checks the actions to be taken in the netlist.  It returns zero on
    success, non-zero otherwise. *)
Definition checker_validate_actions (fuel : nat) (root : list definition_t)
  : M (list definition_t * Z) :=
  let n := checker_count_definitions root None 1 in
  errors <-
    (if n <? 1 then
       logprint ErrNoActions ;;;
       ret 1
     else
       (* check requirements for s-parameter analysis *)
       let a := checker_count_definitions root (Some "SP") 1 in
       errors <-
         (if 1 <=? a then
            let n := checker_count_definitions root (Some "Pac") 0 in
            if n <? 1 then logprint (ErrNoPac n) ;;; ret 1 else ret 0
          else ret 0) ;;
       (* count analyses requiring a DC solution *)
       let a := a + checker_count_definitions root (Some "AC") 1 in
       (* check dc-analysis requirements *)
       c <- checker_count_nonlinearities fuel root ;;
       let n := checker_count_definitions root (Some "DC") 1 in
       errors <-
         (if 1 <? n then logprint (ErrManyDC n) ;;; ret (errors + 1)
          else ret errors) ;;
       (if (1 <=? a) && (1 <=? c) && (n <? 1) then
          logprint (ErrDCRequired c) ;;; ret (errors + 1)
        else ret errors)) ;;
  e <- checker_validate_para fuel root ;;
  let errors := errors + e in
  e <- checker_validate_ports root ;;
  let errors := errors + e in
  '(root, e) <- checker_validate_lists root ;;
  ret (root, errors + e).

(** ** Microstrip components *)

(** The loop over [strip_available] in [checker_validate_strips]. *)
Fixpoint validate_strips_def (strips : list string)
    (root : list definition_t) (def : definition_t) (errors : Z)
  : M (list definition_t * Z) :=
  match strips with
  | [] => ret (root, errors)
  | strip :: next =>
      if String.eqb strip (d_type def) then
        (* check validity of 'Subst' property *)
        val <- checker_validate_reference def "Subst" ;;
        match val with
        | None => validate_strips_def next root def (errors + 1)
        | Some val =>
            ident <- deref (v_ident val) ;;
            let '(root, n) := checker_count_definition root "SUBST" ident in
            if n =? 1 then validate_strips_def next root def errors
            else
              logprint (ErrNoSuchSubstrate (d_line def) ident (d_type def)
                          (d_instance def)) ;;;
              validate_strips_def next root def (errors + 1)
        end
      else validate_strips_def next root def errors
  end.

(** Checks the validity of each microstrip component and its substrate
    reference. *)
Definition checker_validate_strips (root : list definition_t)
  : M (list definition_t * Z) :=
  for_definitions
    (fun root _ def errors =>
       if d_action def =? 0 then
         validate_strips_def strip_available root def errors
       else ret (root, errors))
    (List.length root) 0 root 0.

(** ** Nodesets *)

(** [strcmp (node->node, n)] over a node list, counting the equal ones; a
    blank node cannot be compared. *)
Fixpoint count_node_names (nodes : list node_t) (n : string) (count : Z)
  : M Z :=
  match nodes with
  | [] => ret count
  | node :: next =>
      name <- deref (n_node node) ;;
      count_node_names next n (if String.eqb name n then count + 1 else count)
  end.

(** Counts the occurrences of the node name in the components of the list
    (the second [checker_count_nodes] of the C++ file). *)
Fixpoint count_nodes_from (root : list definition_t) (n : string) (count : Z)
  : M Z :=
  match root with
  | [] => ret count
  | def :: next =>
      count <-
        (if (d_action def =? 0) && (d_nodeset def =? 0)
         then count_node_names (d_nodes def) n count
         else ret count) ;;
      count_nodes_from next n count
  end.

Definition checker_count_nodes_in (root : list definition_t) (n : string)
  : M Z :=
  count_nodes_from root n 0.

(** The name of the first node of a statement: [def->nodes->node]. *)
Definition first_node (def : definition_t) : M string :=
  node <- deref (hd_error (d_nodes def)) ;;
  deref (n_node node).

(** Identifies duplicate nodesets for the same node, marking each one after
    the first as a duplicate. *)
Fixpoint count_nodesets_from (count : Z) (root : list definition_t)
    (n : string) : M (list definition_t * Z) :=
  match root with
  | [] => ret ([], count)
  | def :: next =>
      if negb (d_nodeset def =? 0) && (d_duplicate def =? 0) then
        node <- first_node def ;;
        if String.eqb node n then
          let count := count + 1 in
          let def := if 1 <? count then set_d_duplicate 1 def else def in
          '(next, c) <- count_nodesets_from count next n ;;
          ret (def :: next, c)
        else
          '(next, c) <- count_nodesets_from count next n ;;
          ret (def :: next, c)
      else
        '(next, c) <- count_nodesets_from count next n ;;
        ret (def :: next, c)
  end.

Definition checker_count_nodesets (root : list definition_t) (n : string)
  : M (list definition_t * Z) :=
  count_nodesets_from 0 root n.

(** Checks whether the nodes specified by the nodeset functionality are
    valid in the current scope. *)
Definition checker_validate_nodesets (root : list definition_t)
  : M (list definition_t * Z) :=
  for_definitions
    (fun root _ def errors =>
       if negb (d_nodeset def =? 0) && (checker_count_nodes def =? 1) then
         node <- first_node def ;;
         n <- checker_count_nodes_in root node ;;
         errors <-
           (if n <=? 0 then
              logprint (ErrNoSuchNode (d_line def) node (d_type def)
                          (d_instance def)) ;;;
              ret (errors + 1)
            else ret errors) ;;
         '(root, n) <- checker_count_nodesets root node ;;
         if 1 <? n then
           logprint (ErrNodeNotUnique (d_line def) node (d_type def)
                       (d_instance def)) ;;;
           ret (root, errors + 1)
         else ret (root, errors)
       else ret (root, errors))
    (List.length root) 0 root 0.

(** ** Ranges of property values *)

(** [for (; val != NULL; val = val->next)] of [checker_value_in_prop_range]:
    each value outside of the range is an error. *)
Fixpoint values_in_range (pr : pair_t) (def : define_t) (instance : string)
    (l h : float) (vals : list value_t) (errors : Z) : M Z :=
  match vals with
  | [] => ret errors
  | val :: next =>
      errors <-
        (if PrimFloat.ltb (v_value val) l || PrimFloat.ltb h (v_value val)
         then
           logprint (ErrOutOfRange (p_key pr) (v_value val) l h (a_type def)
                       instance) ;;;
           ret (errors + 1)
         else ret errors) ;;
      values_in_range pr def instance l h next errors
  end.

(** Checks whether the key-value combination is inside the range the
    property definition allows; returns the number of errors. *)
Definition checker_value_in_prop_range (instance : string) (def : define_t)
    (pr : pair_t) (prop : property_t) : M Z :=
  (* check values *)
  if PROP_IS_VAL prop then
    errors <-
      (if negb (PROP_IS_LST prop) then
         (* lists of values possible? *)
         match p_next pr with
         | [] => ret 0
         | _ =>
             logprint (ErrSingleValue (p_key pr) (a_type def) instance) ;;;
             ret 1
         end
       else ret 0) ;;
    (* check range of all values *)
    errors <-
      match prop_range prop with
      | Some (l, h) =>
          values_in_range pr def instance l h (p_value pr :: p_next pr) errors
      | None => ret errors
      end ;;
    (* check fraction of integers *)
    if PROP_IS_INT prop then
      if PrimFloat.eqb (modf (v_value (p_value pr))) 0%float then ret errors
      else
        logprint (ErrNotInteger (p_key pr) (v_value (p_value pr)) (a_type def)
                    instance) ;;;
        ret (errors + 1)
    else ret errors
  (* check identifiers *)
  else
    match v_ident (p_value pr) with
    | None =>
        logprint (ErrNotIdentifier (p_key pr) (v_value (p_value pr))
                    (a_type def) instance) ;;;
        ret 1
    | Some _ => ret 0
    end.

(** The loops of [checker_value_in_range] over the required and the
    optional properties. *)
Fixpoint value_in_range_props (instance : string) (def : define_t)
    (pr : pair_t) (props : list property_t) (errors : Z) : M Z :=
  match props with
  | [] => ret errors
  | prop :: next =>
      errors <-
        (if String.eqb (prop_key prop) (p_key pr) then
           e <- checker_value_in_prop_range instance def pr prop ;;
           ret (errors + e)
         else ret errors) ;;
      value_in_range_props instance def pr next errors
  end.

(** Zero when the key-value combination is out of the allowed range,
    non-zero otherwise. *)
Definition checker_value_in_range (instance : string) (def : define_t)
    (pr : pair_t) : M Z :=
  errors <- value_in_range_props instance def pr (a_required def) 0 ;;
  errors <- value_in_range_props instance def pr (a_optional def) errors ;;
  ret (if errors =? 0 then 1 else 0).

(** ** Building the list of subcircuits *)

(** [checker_build_subcircuits] applied to the body of a [Def] statement:
    the nested subcircuit definitions go to the list of subcircuits first,
    the statement itself is put in front of them by its caller. *)
Fixpoint build_subcircuits_def (def : definition_t)
    (subcircuits : list definition_t) : definition_t * list definition_t :=
  let '(sub, subcircuits) :=
    (fix build (root subcircuits : list definition_t)
       : list definition_t * list definition_t :=
       match root with
       | [] => ([], subcircuits)
       | d :: next =>
           if String.eqb (d_type d) "Def" then
             let '(d, subcircuits) := build_subcircuits_def d subcircuits in
             build next (d :: subcircuits)
           else
             let '(next, subcircuits) := build next subcircuits in
             (d :: next, subcircuits)
       end) (d_sub def) subcircuits in
  (set_d_sub sub def, subcircuits).

Fixpoint build_subcircuits_from (root subcircuits : list definition_t)
  : list definition_t * list definition_t :=
  match root with
  | [] => ([], subcircuits)
  | def :: next =>
      if String.eqb (d_type def) "Def" then
        let '(def, subcircuits) := build_subcircuits_def def subcircuits in
        build_subcircuits_from next (def :: subcircuits)
      else
        let '(next, subcircuits) := build_subcircuits_from next subcircuits in
        (def :: next, subcircuits)
  end.

(** Determines the subcircuit definitions of the netlist and builds the
    subcircuit definition list.  It returns the given definition list with
    the subcircuits removed. *)
Definition checker_build_subcircuits (root : list definition_t)
  : M (list definition_t) :=
  subcircuits <- get_subcircuit_root ;;
  let '(root, subcircuits) := build_subcircuits_from root subcircuits in
  set_subcircuit_root subcircuits ;;;
  ret root.

(** ** Copying a subcircuit *)

(** A copy of the circuit definition, marked as a copy; the nodes and the
    instance name are not part of it ([calloc] leaves them empty). *)
Definition checker_copy_subcircuit (sub : definition_t) : definition_t :=
  mk_definition (d_type sub) "" [] (d_pairs sub) [] None 0 (d_action sub)
    (d_substrate sub) (d_nonlinear sub) (d_nodeset sub) 0 1 0 (d_define sub).

Definition set_d_instance (instance : string) (subcircuit : option string)
    (d : definition_t) : definition_t :=
  mk_definition (d_type d) instance (d_nodes d) (d_pairs d) (d_sub d)
    subcircuit (d_duplicate d) (d_action d) (d_substrate d)
    (d_nonlinear d) (d_nodeset d) (d_line d) (d_copy d) (d_ncount d)
    (d_define d).

(** The inner loop of [checker_xlat_subcircuit_nodes]: each node of the
    element named as the formal node [ntype] gets the name of the actual
    node [ninst] and the position [i]. *)
Fixpoint xlat_node (ntype ninst : node_t) (i : Z) (nodes : list node_t)
  : M (list node_t) :=
  match nodes with
  | [] => ret []
  | n :: next =>
      name <- deref (n_node n) ;;
      formal <- deref (n_node ntype) ;;
      n <-
        (if String.eqb name formal then
           actual <- deref (n_node ninst) ;;
           ret (mk_node (n_node n) (Some actual) i)
         else ret n) ;;
      next <- xlat_node ntype ninst i next ;;
      ret (n :: next)
  end.

(** The outer loop: the formal nodes of the subcircuit and the nodes of the
    instance side by side; an instance with fewer nodes than the subcircuit
    runs the loop off the end of its node list. *)
Fixpoint xlat_nodes (ntype ninst : list node_t) (i : Z) (nodes : list node_t)
  : M (list node_t) :=
  match ntype, ninst with
  | [], _ => ret nodes
  | _ :: _, [] => crash
  | nt :: ntype, ni :: ninst =>
      nodes <- xlat_node nt ni i nodes ;;
      xlat_nodes ntype ninst (i + 1) nodes
  end.

(** Translates the node definitions of the subcircuit element [sub]: the
    translation is saved in the [xlate] fields of its nodes.

    The C function writes into the element of the subcircuit body, and
    [checker_cleanup_xlat_nodes] clears these fields again before the next
    element is looked at; here the translated element is a value of its own
    and the body keeps the empty fields it got from the parser. *)
Definition checker_xlat_subcircuit_nodes (type inst sub : definition_t)
  : M definition_t :=
  nodes <- xlat_nodes (d_nodes type) (d_nodes inst) 1 (d_nodes sub) ;;
  ret (set_d_nodes nodes sub).

(** The function cleans the translated nodes of a subcircuit template. *)
Definition checker_cleanup_xlat_nodes (sub : definition_t) : definition_t :=
  set_d_nodes (map (fun n => mk_node (n_node n) None 0) (d_nodes sub)) sub.

(** [sprintf (txt, "%s.%s.%s.%s", ...)], the [instances] left out when
    [NULL]. *)
Definition checker_subcircuit_node (type : string) (instances : option string)
    (instance node : string) : string :=
  match instances with
  | Some instances =>
      (type ++ "." ++ instances ++ "." ++ instance ++ "." ++ node)%string
  | None => (type ++ "." ++ instance ++ "." ++ node)%string
  end.

(** Reverses the order of the given node list. *)
Fixpoint reverse_nodes_onto (root nodes : list node_t) : list node_t :=
  match nodes with
  | [] => root
  | n :: next => reverse_nodes_onto (n :: root) next
  end.

Definition netlist_reverse_nodes (nodes : list node_t) : list node_t :=
  reverse_nodes_onto [] nodes.

(** The loop of [checker_copy_subcircuit_nodes]: the new nodes are chained
    in front of [root]. *)
Fixpoint copy_subcircuit_nodes_onto (root : list node_t)
    (type inst : definition_t) (instances : option string)
    (nodes : list node_t) : M (list node_t) :=
  match nodes with
  | [] => ret root
  | n :: next =>
      (* create new node based upon the node translation *)
      node <-
        match n_xlate n with
        | Some xlate => (* translated node *)
            match instances with
            | None => ret (Some xlate)
            | Some _ => ret None (* leave it blank yet *)
            end
        | None =>
            name <- deref (n_node n) ;;
            if String.eqb name "gnd" then ret (Some name) (* ground node *)
            else (* internal subcircuit element node *)
              ret (Some (checker_subcircuit_node (d_instance type) instances
                           (d_instance inst) name))
        end ;;
      copy_subcircuit_nodes_onto (mk_node node None (n_xlatenr n) :: root)
        type inst instances next
  end.

(** Assigns new node names to the subcircuit element [copy] based upon the
    node translation between the subcircuit [type] and the instance [inst].
    The global [gnd] node is not touched. *)
Definition checker_copy_subcircuit_nodes (type inst sub copy : definition_t)
    (instances : option string) : M definition_t :=
  root <- copy_subcircuit_nodes_onto [] type inst instances (d_nodes sub) ;;
  ret (set_d_nodes (netlist_reverse_nodes root) copy).

(** Returns the node at the given position, counted from one; stepping off
    the list fails the [assert]. *)
Definition checker_get_circuit_node (root : list node_t) (n : Z) : M node_t :=
  deref (nth_error root (Z.to_nat (n - 1))).

(** The loop of [checker_copy_circuit_nodes]. *)
Fixpoint copy_circuit_nodes_in (type inst sub : definition_t)
    (instances : option string) (nodes : list node_t) : M (list node_t) :=
  match nodes with
  | [] => ret []
  | ncopy :: next =>
      ncopy <-
        match n_node ncopy with
        | None => (* these NULL nodes have intentionally been blanked *)
            if n_xlatenr ncopy =? 0 then crash
            else
              (* get translated node *)
              n <- checker_get_circuit_node (d_nodes sub) (n_xlatenr ncopy) ;;
              node <-
                match n_xlate n with
                | Some xlate => (* translated node *)
                    match instances with
                    | None => ret (Some xlate)
                    | Some _ => ret None (* keep blank *)
                    end
                | None =>
                    name <- deref (n_node n) ;;
                    if String.eqb name "gnd" then ret (Some name)
                    else
                      ret (Some (checker_subcircuit_node (d_instance type)
                                   instances (d_instance inst) name))
                end ;;
              ret (mk_node node (n_xlate ncopy) (n_xlatenr n))
        | Some _ => ret ncopy
        end ;;
      next <- copy_circuit_nodes_in type inst sub instances next ;;
      ret (ncopy :: next)
  end.

(** Assigns the nodes of the [copy] subcircuit element which were left
    blank by the element copy in order to indicate an external node.  If the
    current node translation indicates an external node again it is blanked
    again, otherwise the node gets a unique internal name. *)
Definition checker_copy_circuit_nodes (type inst sub copy : definition_t)
    (instances : option string) : M definition_t :=
  nodes <- copy_circuit_nodes_in type inst sub instances (d_nodes copy) ;;
  ret (set_d_nodes nodes copy).

(** The "."-concatenated string of the instance identifier list, or
    [NULL]. *)
Definition checker_subcircuit_instance_list (instances : option strlist)
  : option string :=
  match instances with
  | Some l =>
      if (0 <? List.length l)%nat then Some (strlist_toString l) else None
  | None => None
  end.

(** Creates a subcircuit instance name consisting of the given arguments. *)
Definition checker_subcircuit_instance (type : string)
    (instances : option string) (instance base : string) : string :=
  match instances with
  | Some instances =>
      (type ++ "." ++ instances ++ "." ++ instance ++ "." ++ base)%string
  | None => (type ++ "." ++ instance ++ "." ++ base)%string
  end.

(** [for (c = copy; c != NULL; c = c->next) checker_copy_circuit_nodes
    (type, inst, def, c, list);] with [instances] for [list] *)
Fixpoint copy_circuit_nodes_all (type inst def : definition_t)
    (instances : option string) (copy : list definition_t)
  : M (list definition_t) :=
  match copy with
  | [] => ret []
  | c :: next =>
      c <- checker_copy_circuit_nodes type inst def c instances ;;
      next <- copy_circuit_nodes_all type inst def instances next ;;
      ret (c :: next)
  end.

(** Produces a copy of the subcircuit [type] containing the subcircuit
    elements, with the element instances and node names of the instance
    [inst].  The function returns the circuit element list in reverse
    order.  [instances] is [*instances], whose final value no caller reads:
    [checker_expand_subcircuits] deletes it and the recursive call below is
    followed by [*instances = instcopy].  [copy_subcircuits_from] is the
    loop of the function over the elements [defs] of the subcircuit, which
    chains the copies in front of [root]; [recurse] is the recursive call,
    and [fuel] bounds the depth of the recursion, which does not end for a
    subcircuit that contains itself. *)
Fixpoint copy_subcircuits_from
    (recurse : definition_t -> definition_t -> option strlist
               -> M (list definition_t))
    (type inst : definition_t) (defs : list definition_t)
    (instances : option strlist) (root : list definition_t)
  : M (list definition_t) :=
  match defs with
  | [] => ret root
  | def :: next =>
      (* translate the node list *)
      def <- checker_xlat_subcircuit_nodes type inst def ;;
      (* allow recursive subcircuits *)
      if String.eqb (d_type def) "Sub" then
        (* get subcircuit template definition *)
        sub <- checker_get_subcircuit def ;;
        (* create a copy of the current subcircuit instance list *)
        let instcopy := match instances with Some l => l | None => [] end in
        (* append instance name to recursive instance list *)
        let instances := strlist_append instcopy (d_instance inst) in
        sub <- deref sub ;;
        copy <- recurse sub def (Some instances) ;;
        (* put the expanded definitions into the sublist *)
        root <-
          match copy with
          | [] => ret root
          | _ =>
              let ilist :=
                checker_subcircuit_instance_list (Some instcopy) in
              (* assign blanked node names to each subcircuit *)
              copy <- copy_circuit_nodes_all type inst def ilist copy ;;
              (* append the copies to the subcircuit list *)
              ret (copy ++ root)
          end ;;
        (* restore original instance list *)
        copy_subcircuits_from recurse type inst next (Some instcopy) root
      else
        (* element copy *)
        let copy := checker_copy_subcircuit def in
        (* assign new instance name to the element *)
        let ilist := checker_subcircuit_instance_list instances in
        let copy :=
          set_d_instance
            (checker_subcircuit_instance (d_instance type) ilist
               (d_instance inst) (d_instance def))
            (Some (d_instance type)) copy in
        (* assign node list *)
        copy <- checker_copy_subcircuit_nodes type inst def copy ilist ;;
        (* chain definition (circuit) list *)
        copy_subcircuits_from recurse type inst next instances (copy :: root)
  end.

Fixpoint checker_copy_subcircuits (fuel : nat) (type inst : definition_t)
    (instances : option strlist) : M (list definition_t) :=
  match fuel with
  | O => crash
  | S fuel =>
      copy_subcircuits_from (checker_copy_subcircuits fuel) type inst
        (d_sub type) instances []
  end.

(** ** Cyclic subcircuit definitions *)

(** Checks whether the subcircuit [instance] with the subcircuit [type] is
    defined in cycles.  It goes through the definitions recursively and
    emits an error message if necessary.  The function returns zero if there
    are no cycles detected and non-zero with cycles found.  [deps] is
    [*deps]; the list the function leaves there is returned with the error
    count.  [validate_sub_cycles_from] is the loop of the function over the
    elements of the subcircuit, with the list [checked] of the subcircuit
    types already tested; [recurse] is the recursive call and [fuel] bounds
    the depth of the recursion. *)
Fixpoint validate_sub_cycles_from
    (recurse : definition_t -> strlist -> M (Z * strlist))
    (defs : list definition_t) (checked deps : strlist) (errors : Z)
  : M (Z * strlist) :=
  match defs with
  | [] => ret (errors, deps)
  | def :: next =>
      (* find the appropriate definitions *)
      if String.eqb (d_type def) "Sub" then
        (* recurse into subcircuit instances *)
        match checker_find_reference def "Type" with
        | Some val =>
            ident <- deref (v_ident val) ;;
            if strlist_contains checked ident then
              validate_sub_cycles_from recurse next checked deps errors
            else
              (* only if not already checked *)
              let checked := strlist_append checked ident in
              (* copy current dependencies *)
              let copy := deps in
              (* validate subcircuit *)
              sub <- checker_find_subcircuit (Some ident) ;;
              sub <- deref sub ;;
              '(error, deps) <- recurse sub deps ;;
              if error =? 0 then
                (* no errors: restore original dependencies *)
                validate_sub_cycles_from recurse next checked copy errors
              else
                (* on errors: go on *)
                validate_sub_cycles_from recurse next checked deps
                  (errors + error)
        | None => validate_sub_cycles_from recurse next checked deps errors
        end
      else validate_sub_cycles_from recurse next checked deps errors
  end.

Fixpoint checker_validate_sub_cycles (fuel : nat) (root : definition_t)
    (type instance : string) (deps : strlist) : M (Z * strlist) :=
  match fuel with
  | O => crash
  | S fuel =>
      (* emit an appropriate error message if the subcircuit type is already
         in the dependencies *)
      if strlist_contains deps type then
        logprint (ErrCyclicSubcircuit type instance deps) ;;;
        ret (1, deps)
      else
        let deps := strlist_append deps type in
        validate_sub_cycles_from
          (fun sub deps =>
             checker_validate_sub_cycles fuel sub (d_instance sub) instance
               deps)
          (d_sub root) [] deps 0
  end.

(** Validates the subcircuits; zero with no errors. *)
Fixpoint validate_subcircuits_from (fuel : nat) (defs : list definition_t)
    (errors : Z) : M Z :=
  match defs with
  | [] => ret errors
  | def :: next =>
      (* check subcircuit instances *)
      if String.eqb (d_type def) "Sub" then
        (* validate the 'Type' reference *)
        val <- checker_validate_reference def "Type" ;;
        match val with
        | None => validate_subcircuits_from fuel next (errors + 1)
        | Some val =>
            (* find an appropriate subcircuit type *)
            sub <- checker_find_subcircuit (v_ident val) ;;
            match sub with
            | None =>
                ident <- deref (v_ident val) ;;
                logprint (ErrNoSuchSubcircuit (d_line def) ident
                            (d_type def) (d_instance def)) ;;;
                validate_subcircuits_from fuel next (errors + 1)
            | Some sub =>
                (* check the number of nodes of the instance and the type *)
                let n1 := checker_count_nodes def in
                let n2 := checker_count_nodes sub in
                errors <-
                  (if n1 =? n2 then ret errors
                   else
                     logprint (ErrSubcircuitNodes (d_line def)
                                 (d_instance sub) n2 (d_type def)
                                 (d_instance def) n1) ;;;
                     ret (errors + 1)) ;;
                (* and finally check for cyclic definitions *)
                '(err, _) <-
                  checker_validate_sub_cycles fuel sub (d_instance sub)
                    (d_instance def) [] ;;
                set_sub_cycles err ;;;
                validate_subcircuits_from fuel next (errors + err)
            end
        end
      else validate_subcircuits_from fuel next errors
  end.

Definition checker_validate_subcircuits (fuel : nat)
    (root : list definition_t) : M Z :=
  validate_subcircuits_from fuel root 0.

(** ** Expanding the subcircuits *)

(** The loop of [checker_expand_subcircuits].  The list [root] of the C
    function is [before ++ rest]: [def] is the head of [rest] and [prev]
    the last statement of [before].  After a subcircuit instance has been
    replaced by a non-empty [copy] the C loop goes on with [prev] at the end
    of the copy and [next] at the former head of the list.  [fuel] bounds
    the number of steps and the depth of [checker_copy_subcircuits]. *)
Fixpoint expand_subcircuits_loop (fuel : nat)
    (before rest : list definition_t) : M (list definition_t) :=
  match fuel with
  | O => crash
  | S fuel =>
      match rest with
      | [] => ret before
      | def :: next =>
          (* is this a subcircuit instance definition ? *)
          if String.eqb (d_type def) "Sub" then
            (* get the subcircuit type definition and make a copy of it *)
            sub <- checker_get_subcircuit def ;;
            sub <- deref sub ;;
            copy <- checker_copy_subcircuits fuel sub def None ;;
            (* remove the subcircuit instance from the original list and
               put the expanded definitions into the netlist *)
            match copy with
            | [] => expand_subcircuits_loop fuel before next
            | _ => expand_subcircuits_loop fuel copy (before ++ next)
            end
          else expand_subcircuits_loop fuel (before ++ [def]) next
      end
  end.

(** Expands the subcircuits within the given definition list and returns
    the expanded list with the subcircuit definitions removed. *)
Definition checker_expand_subcircuits (fuel : nat)
    (root : list definition_t) : M (list definition_t) :=
  expand_subcircuits_loop fuel [] root.

(** ** The checker routine for a parsed netlist *)

(** [for (i = 0; PROP_IS_PROP (available->required[i]); i++)]: each
    required property has to occur once. *)
Fixpoint check_required (def : definition_t) (props : list property_t)
    (errors : Z) : M Z :=
  match props with
  | [] => ret errors
  | prop :: next =>
      let n := checker_find_property (prop_key prop) (d_pairs def) in
      errors <-
        (if n =? 1 then ret errors
         else
           logprint (ErrRequiredCount (d_line def) (prop_key prop) n
                       (d_type def) (d_instance def)) ;;;
           ret (errors + 1)) ;;
      check_required def next errors
  end.

(** Each optional property may occur once at most. *)
Fixpoint check_optional (def : definition_t) (props : list property_t)
    (errors : Z) : M Z :=
  match props with
  | [] => ret errors
  | prop :: next =>
      let n := checker_find_property (prop_key prop) (d_pairs def) in
      errors <-
        (if 2 <=? n then
           logprint (ErrOptionalCount (d_line def) (prop_key prop) n
                       (d_type def) (d_instance def)) ;;;
           ret (errors + 1)
         else ret errors) ;;
      check_optional def next errors
  end.

(** [for (pair = def->pairs; pair != NULL; pair = pair->next)]: the checks
    of property [j] of statement [i], [n] properties being left. *)
Fixpoint check_pairs (available : define_t) (n i j : nat)
    (root : list definition_t) (errors : Z) : M (list definition_t * Z) :=
  match n with
  | O => ret (root, errors)
  | S n =>
      def <- deref (nth_error root i) ;;
      match nth_error (d_pairs def) j with
      | None => ret (root, errors)
      | Some pr =>
          (* check whether properties are either required or optional *)
          errors <-
            (if checker_is_property available (p_key pr) then ret errors
             else
               logprint (ErrExtraneous (d_line def) (p_key pr) (d_type def)
                           (d_instance def)) ;;;
               ret (errors + 1)) ;;
          (* check and evaluate the unit scale in a property *)
          let '(value, ok) := checker_evaluate_scale (p_value pr) in
          let root := update_value root i j (fun _ => value) in
          let pr := set_p_value value pr in
          let errors := if ok =? 0 then errors + 1 else errors in
          (* check whether properties are in range *)
          ok <- checker_value_in_range (d_instance def) available pr ;;
          let errors := if ok =? 0 then errors + 1 else errors in
          (* check variables in properties *)
          '(root, ok) <- checker_resolve_variable root i j ;;
          let errors := if ok =? 0 then errors + 1 else errors in
          check_pairs available n i (S j) root errors
      end
  end.

(** The first part of the body of the loop of [netlist_checker_intern]:
    statement [i] is checked against its catalog entry. *)
Definition check_available (root : list definition_t) (i : nat)
    (def : definition_t) (errors : Z) : M (list definition_t * Z) :=
  (* check whether the definition type is known *)
  match checker_find_definition (d_type def) (d_action def) with
  | None =>
      logprint (ErrInvalidType (d_line def) (d_type def)) ;;;
      ret (root, errors + 1)
  | Some available =>
      (* mark nodeset, nonlinear and substrate definitions, save the
         available definition and the number of given nodes *)
      let n := checker_count_nodes def in
      let def :=
        set_d_available (if String.eqb (d_type def) "NodeSet" then 1 else 0)
          available n def in
      let root := update root i (fun _ => def) in
      (* check whether the number of nodes is correct *)
      errors <-
        (if a_nodes available =? PROP_NODES then
           if n <? 1 then
             logprint (ErrAtLeastOneNode (d_line def) (d_type def)
                         (d_instance def) n) ;;;
             ret (errors + 1)
           else ret errors
         else if a_nodes available =? n then ret errors
         else
           logprint (ErrNodeCount (d_line def) (a_nodes available)
                       (d_type def) (d_instance def) n) ;;;
           ret (errors + 1)) ;;
      (* check whether the required properties are given *)
      errors <- check_required def (a_required available) errors ;;
      (* check whether the optional properties are given zero/once *)
      errors <- check_optional def (a_optional available) errors ;;
      (* check the properties *)
      check_pairs available (List.length (d_pairs def)) i 0 root errors
  end.

(** The body of the loop of [netlist_checker_intern] for statement [i]. *)
Definition netlist_checker_def (root : list definition_t) (i : nat)
    (def : definition_t) (errors : Z) : M (list definition_t * Z) :=
  '(root, errors) <- check_available root i def errors ;;
  (* check the number of definitions *)
  let '(root, n) :=
    checker_count_definition root (d_type def) (d_instance def) in
  def <- deref (nth_error root i) ;;
  if negb (n =? 1) && (d_duplicate def =? 0) then
    logprint (ErrDefinitionCount n (d_type def) (d_instance def)) ;;;
    ret (root, errors + 1)
  else ret (root, errors).

(** The checker routine for a parsed netlist.  It returns zero on success
    or non-zero if the parsed netlist contained errors. *)
Definition netlist_checker_intern (fuel : nat) (root : list definition_t)
  : M (list definition_t * Z) :=
  (* go through all definitions *)
  '(root, errors) <-
    for_definitions netlist_checker_def (List.length root) 0 root 0 ;;
  (* check microstrip definitions *)
  '(root, e) <- checker_validate_strips root ;;
  let errors := errors + e in
  (* check subcircuit definitions *)
  e <- checker_validate_subcircuits fuel root ;;
  let errors := errors + e in
  (* check nodeset definitions *)
  '(root, e) <- checker_validate_nodesets root ;;
  ret (root, errors + e).

(** [for (def = subcircuit_root; def != NULL; def = def->next) errors +=
    netlist_checker_intern (def->sub);] for the subcircuit at index [i], [n]
    subcircuits being left. *)
Fixpoint check_subcircuit_lists (fuel n i : nat) (errors : Z) : M Z :=
  match n with
  | O => ret errors
  | S n =>
      subcircuits <- get_subcircuit_root ;;
      match nth_error subcircuits i with
      | None => ret errors
      | Some def =>
          '(sub, e) <- netlist_checker_intern fuel (d_sub def) ;;
          subcircuits <- get_subcircuit_root ;;
          set_subcircuit_root (update subcircuits i (set_d_sub sub)) ;;;
          check_subcircuit_lists fuel n (S i) (errors + e)
      end
  end.

(** This is the global netlist checker.  It returns zero on success and
    non-zero on errors. *)
Definition netlist_checker (fuel : nat) : M Z :=
  (* first create the subcircuit list *)
  root <- get_definition_root ;;
  root <- checker_build_subcircuits root ;;
  set_definition_root root ;;;
  (* check global netlist *)
  '(root, e) <- netlist_checker_intern fuel root ;;
  set_definition_root root ;;;
  let errors := e in
  (* check list of subcircuits *)
  subcircuits <- get_subcircuit_root ;;
  '(subcircuits, e) <- netlist_checker_intern fuel subcircuits ;;
  set_subcircuit_root subcircuits ;;;
  let errors := errors + e in
  (* then check each subcircuit list *)
  errors <- check_subcircuit_lists fuel (List.length subcircuits) 0 errors ;;
  (* check actions *)
  root <- get_definition_root ;;
  '(root, e) <- checker_validate_actions fuel root ;;
  set_definition_root root ;;;
  let errors := errors + e in
  (if errors =? 0 then
     (* and finally expand the subcircuits into the global netlist *)
     root <- get_definition_root ;;
     root <- checker_expand_subcircuits fuel root ;;
     set_definition_root root
   else ret tt) ;;;
  ret (if errors =? 0 then 0 else -1).


(** * Properties *)

(** ** Reasoning about runs of the checker monad

    [returns c g Q]: the run of [c] from the globals [g] returns, with a
    result and globals that satisfy [Q].  [safely c g Q] asks this only of
    a run that returns. *)
Definition returns {A} (c : M A) (g : globals)
    (Q : A -> globals -> Prop) : Prop :=
  match c g with
  | Some (x, g') => Q x g'
  | None => False
  end.

Definition safely {A} (c : M A) (g : globals)
    (Q : A -> globals -> Prop) : Prop :=
  match c g with
  | Some (x, g') => Q x g'
  | None => True
  end.

Lemma returns_ret {A} (x : A) g (Q : A -> globals -> Prop) :
  Q x g -> returns (ret x) g Q.
Proof. intros H. exact H. Qed.

Lemma returns_bind {A B} (c : M A) (k : A -> M B) g Q :
  returns c g (fun x g' => returns (k x) g' Q) -> returns (bind c k) g Q.
Proof.
  unfold returns, bind. destruct (c g) as [[x g']|]; auto.
Qed.

Lemma returns_bind_inv {A B} (c : M A) (k : A -> M B) g Q :
  returns (bind c k) g Q -> returns c g (fun x g' => returns (k x) g' Q).
Proof.
  unfold returns, bind. destruct (c g) as [[x g']|]; auto.
Qed.

Lemma returns_weaken {A} (c : M A) g (Q Q' : A -> globals -> Prop) :
  returns c g Q -> (forall x g', Q x g' -> Q' x g') -> returns c g Q'.
Proof.
  unfold returns. destruct (c g) as [[x g']|]; auto.
Qed.

Lemma returns_eq {A} (c : M A) g Q :
  returns c g Q <-> exists x g', c g = Some (x, g') /\ Q x g'.
Proof.
  unfold returns. split.
  - destruct (c g) as [[x g']|]; [eauto | tauto].
  - intros (x & g' & -> & H). exact H.
Qed.

Lemma returns_safely {A} (c : M A) g (Q : A -> globals -> Prop) :
  returns c g Q -> safely c g Q.
Proof. unfold returns, safely. destruct (c g) as [[x g']|]; tauto. Qed.

Lemma returns_and {A} (c : M A) g (Q Q' : A -> globals -> Prop) :
  returns c g Q -> safely c g Q' ->
  returns c g (fun x g' => Q x g' /\ Q' x g').
Proof. unfold returns, safely. destruct (c g) as [[x g']|]; tauto. Qed.

Lemma safely_ret {A} (x : A) g (Q : A -> globals -> Prop) :
  Q x g -> safely (ret x) g Q.
Proof. intros H. exact H. Qed.

Lemma safely_crash {A} g (Q : A -> globals -> Prop) : safely crash g Q.
Proof. exact I. Qed.

Lemma safely_bind {A B} (c : M A) (k : A -> M B) g Q :
  safely c g (fun x g' => safely (k x) g' Q) -> safely (bind c k) g Q.
Proof.
  unfold safely, bind. destruct (c g) as [[x g']|]; auto.
Qed.

Lemma safely_weaken {A} (c : M A) g (Q Q' : A -> globals -> Prop) :
  safely c g Q -> (forall x g', Q x g' -> Q' x g') -> safely c g Q'.
Proof.
  unfold safely. destruct (c g) as [[x g']|]; auto.
Qed.

Lemma safely_eq {A} (c : M A) g Q :
  safely c g Q <-> forall x g', c g = Some (x, g') -> Q x g'.
Proof.
  unfold safely. split.
  - destruct (c g) as [[x g']|]; intros H y g2 E; [now inversion E; subst | discriminate].
  - intros H. destruct (c g) as [[x g']|]; auto.
Qed.

Lemma safely_deref {A} (o : option A) g (Q : A -> globals -> Prop) :
  (forall x, o = Some x -> Q x g) -> safely (deref o) g Q.
Proof. destruct o; simpl; intros H; [now apply H | exact I]. Qed.

Lemma safely_logprint d g (Q : unit -> globals -> Prop) :
  Q tt (mk_globals (definition_root g) (subcircuit_root g)
          (checker_sub_cycles g) (d :: log g)) ->
  safely (logprint d) g Q.
Proof. intros H. exact H. Qed.

Lemma returns_logprint d g (Q : unit -> globals -> Prop) :
  Q tt (mk_globals (definition_root g) (subcircuit_root g)
          (checker_sub_cycles g) (d :: log g)) ->
  returns (logprint d) g Q.
Proof. intros H. exact H. Qed.

(** ** Unit scales (C5) *)





(** The value as the parser hands it over: the number [x] followed by the
    letters [scale]. *)
Definition scaled_value (x : float) (scale : string) : value_t :=
  mk_value None x (Some scale) None TAG_UNKNOWN 0.



(** The factor of each prefix letter. *)
Lemma evaluate_scale_kilo (x : float) :
  fst (checker_evaluate_scale (scaled_value x "k"))
  = mk_value None (x * 1000)%float None None TAG_UNKNOWN 0.
Proof. reflexivity. Qed.


Lemma safely_set_sub_cycles n g (Q : unit -> globals -> Prop) :
  Q tt (mk_globals (definition_root g) (subcircuit_root g) n (log g)) ->
  safely (set_sub_cycles n) g Q.
Proof. intros H. exact H. Qed.

Lemma safely_get_sub_cycles g (Q : Z -> globals -> Prop) :
  Q (checker_sub_cycles g) g -> safely get_sub_cycles g Q.
Proof. intros H. exact H. Qed.

Lemma safely_get_subcircuit_root g
    (Q : list definition_t -> globals -> Prop) :
  Q (subcircuit_root g) g -> safely get_subcircuit_root g Q.
Proof. intros H. exact H. Qed.

(** Stepping through a run that returns: a bind, a return, a message, and
    the case distinctions of the code. *)
Ltac step_returns :=
  lazymatch goal with
  | |- returns (bind _ _) _ _ => apply returns_bind
  | |- returns (ret _) _ _ => apply returns_ret
  | |- returns (logprint _) _ _ => apply returns_logprint
  | |- returns (let '(_, _) := ?x in _) _ _ => destruct x eqn:?
  | |- returns (match ?x with _ => _ end) _ _ => destruct x eqn:?
  end.

Ltac step_safely :=
  lazymatch goal with
  | |- safely (bind _ _) _ _ => apply safely_bind
  | |- safely (ret _) _ _ => apply safely_ret
  | |- safely crash _ _ => apply safely_crash
  | |- safely (logprint _) _ _ => apply safely_logprint
  | |- safely (deref _) _ _ => apply safely_deref; intros
  | |- safely (set_sub_cycles _) _ _ => apply safely_set_sub_cycles
  | |- safely get_sub_cycles _ _ => apply safely_get_sub_cycles
  | |- safely get_subcircuit_root _ _ => apply safely_get_subcircuit_root
  | |- safely (let '(_, _) := ?x in _) _ _ => destruct x eqn:?
  | |- safely (match ?x with _ => _ end) _ _ => destruct x eqn:?
  end.

(** ** Sweep lists (C9) *)

(** The statements [checker_validate_lists] looks at: the parameter sweep,
    the ac-analysis and the s-parameter analysis. *)
Definition is_sweep_action (def : definition_t) : bool :=
  (d_action def =? 1)
  && (String.eqb (d_type def) "SW" || String.eqb (d_type def) "AC"
      || String.eqb (d_type def) "SP").

Lemma required_prop_value_returns def key errors g
    (Q : Z -> globals -> Prop) :
  (forall x g', Q x g') -> returns (required_prop_value def key errors) g Q.
Proof.
  intros HQ. unfold required_prop_value.
  repeat (step_returns; auto).
Qed.

Lemma extraneous_prop_value_returns def key errors g
    (Q : Z -> globals -> Prop) :
  (forall x g', Q x g') -> returns (extraneous_prop_value def key errors) g Q.
Proof.
  intros HQ. unfold extraneous_prop_value.
  repeat (step_returns; auto).
Qed.

Lemma validate_lists_body_returns def errors g :
  (is_sweep_action def = true -> checker_find_reference def "Type" <> None) ->
  returns (validate_lists_body def errors) g (fun _ _ => True).
Proof.
  intros H. unfold validate_lists_body. fold (is_sweep_action def).
  destruct (is_sweep_action def); [|exact I].
  destruct (checker_find_reference def "Type") as [val|];
    [|now exfalso; apply H].
  apply returns_bind, returns_ret.
  repeat first
    [ apply required_prop_value_returns; intros
    | apply extraneous_prop_value_returns; intros
    | step_returns
    | exact I ].
Qed.

Lemma validate_lists_body_crashes def errors g :
  is_sweep_action def = true -> checker_find_reference def "Type" = None ->
  validate_lists_body def errors g = None.
Proof.
  intros Ha Hr. unfold validate_lists_body. fold (is_sweep_action def).
  rewrite Ha, Hr. reflexivity.
Qed.

Lemma validate_lists_from_returns root :
  forall errors g,
    (exists r, validate_lists_from root errors g = Some r)
    <-> Forall (fun def => is_sweep_action def = true ->
                           checker_find_reference def "Type" <> None) root.
Proof.
  induction root as [|def next IH]; intros errors g.
  - split; [constructor | intros _; simpl; unfold ret; eauto].
  - simpl. unfold bind at 1. split.
    + intros [r Hr].
      destruct (validate_lists_body def errors g) as [[[def' e] g1]|] eqn:Hb;
        [|discriminate].
      constructor.
      * intros Ha Hn.
        rewrite (validate_lists_body_crashes _ _ _ Ha Hn) in Hb.
        discriminate.
      * apply (IH e g1). unfold bind in Hr.
        destruct (validate_lists_from next e g1) as [r1|]; [eauto|discriminate].
    + intros HF. inversion HF as [|? ? Hd Hn]; subst.
      pose proof (validate_lists_body_returns def errors g Hd) as Hb.
      unfold returns in Hb.
      destruct (validate_lists_body def errors g) as [[[def' e] g1]|];
        [|contradiction].
      apply (IH e g1) in Hn. destruct Hn as [[[next' e'] g2] Hn].
      unfold bind. rewrite Hn. unfold ret. eauto.
Qed.

(** C9: [checker_validate_lists] reads the identifier of the [Type]
    reference of each SW, AC and SP action without looking whether there is
    one.  Its run returns exactly when each such action of the list has a
    [Type] property that is an identifier. *)
Theorem validate_lists_needs_type (root : list definition_t) (g : globals) :
  (exists r, checker_validate_lists root g = Some r)
  <-> Forall (fun def => is_sweep_action def = true ->
                         checker_find_reference def "Type" <> None) root.
Proof. apply validate_lists_from_returns. Qed.

(** ** Runs that only print diagnostics *)

(** The globals [g'] differ from [g] by further diagnostics only. *)
Definition only_logs (g g' : globals) : Prop :=
  definition_root g' = definition_root g
  /\ subcircuit_root g' = subcircuit_root g
  /\ checker_sub_cycles g' = checker_sub_cycles g
  /\ exists l, log g' = l ++ log g.

Lemma only_logs_refl g : only_logs g g.
Proof. repeat split. now exists []. Qed.

Lemma only_logs_trans g1 g2 g3 :
  only_logs g1 g2 -> only_logs g2 g3 -> only_logs g1 g3.
Proof.
  intros (A1 & B1 & C1 & l1 & D1) (A2 & B2 & C2 & l2 & D2).
  repeat split; try congruence.
  exists (l2 ++ l1). rewrite D2, D1. now rewrite app_assoc.
Qed.

Lemma only_logs_logprint d g :
  only_logs g (mk_globals (definition_root g) (subcircuit_root g)
                 (checker_sub_cycles g) (d :: log g)).
Proof. repeat split. now exists [d]. Qed.

Lemma only_logs_In d g g' : only_logs g g' -> In d (log g) -> In d (log g').
Proof.
  intros (_ & _ & _ & l & E) H. rewrite E. apply in_or_app. now right.
Qed.

Ltac solve_only_logs :=
  solve [ repeat first
    [ apply only_logs_refl
    | apply only_logs_logprint
    | assumption
    | match goal with
      | H : only_logs ?b ?c |- only_logs ?a ?c =>
          apply (only_logs_trans a b c); [clear H|exact H]
      | |- only_logs ?a (mk_globals (definition_root ?b) (subcircuit_root ?b)
                           (checker_sub_cycles ?b) (_ :: log ?b)) =>
          apply (only_logs_trans a b); [|apply only_logs_logprint]
      end ] ].

Create HintDb checker.
#[local] Hint Extern 2 (only_logs _ _) => solve_only_logs : checker.

(** ** Actions (C10) *)

Lemma count_definitions_no_action root type :
  Forall (fun def => d_action def <> 1) root ->
  checker_count_definitions root type 1 = 0.
Proof.
  induction 1 as [|def next Hd _ IH]; simpl; [reflexivity|].
  rewrite IH. destruct (d_action def =? 1) eqn:E; [|reflexivity].
  apply Z.eqb_eq in E. contradiction.
Qed.

Lemma validate_para_no_action fuel root defs :
  Forall (fun def => d_action def <> 1) defs ->
  forall errors g, validate_para_from fuel root defs errors g
                   = Some (errors, g).
Proof.
  induction 1 as [|def next Hd _ IH]; intros errors g; simpl; [reflexivity|].
  destruct (d_action def =? 1) eqn:E; [|apply IH].
  apply Z.eqb_eq in E. contradiction.
Qed.

Lemma validate_lists_no_action defs :
  Forall (fun def => d_action def <> 1) defs ->
  forall errors g, validate_lists_from defs errors g
                   = Some ((defs, errors), g).
Proof.
  induction 1 as [|def next Hd _ IH]; intros errors g; simpl; [reflexivity|].
  unfold bind, validate_lists_body.
  destruct (d_action def =? 1) eqn:E.
  - apply Z.eqb_eq in E. contradiction.
  - simpl. now rewrite IH.
Qed.

Lemma validate_ports_against_returns def i p ports :
  forall k errors g,
    returns (validate_ports_against def i p k ports errors) g
      (fun e g' => errors <= e /\ only_logs g g').
Proof.
  induction ports as [|port next IH]; intros k errors g; simpl.
  - apply returns_ret. split; [lia | auto with checker].
  - repeat first
      [ step_returns
      | eapply returns_weaken; [apply IH|]; cbv beta; intros ? ? [? ?] ];
      (split; [lia | solve_only_logs]).
Qed.

Lemma validate_ports_from_returns root defs :
  forall i errors g,
    returns (validate_ports_from root defs i errors) g
      (fun e g' => errors <= e /\ only_logs g g').
Proof.
  induction defs as [|def next IH]; intros i errors g; simpl.
  - apply returns_ret. split; [lia | auto with checker].
  - repeat first
      [ step_returns
      | eapply returns_weaken; [apply validate_ports_against_returns|];
        cbv beta; intros ? ? [? ?]
      | eapply returns_weaken; [apply IH|]; cbv beta; intros ? ? [? ?] ];
      (split; [lia | solve_only_logs]).
Qed.

(** On a netlist without any action the action check prints the
    "no actions" message and returns an error count of one at least,
    whatever the statements of the netlist are. *)
Lemma validate_actions_without_action (fuel : nat)
    (root : list definition_t) (g : globals) :
  Forall (fun def => d_action def <> 1) root ->
  returns (checker_validate_actions fuel root) g
    (fun r g' => fst r = root /\ 1 <= snd r /\ In ErrNoActions (log g')
                 /\ only_logs g g').
Proof.
  intros Hroot. unfold checker_validate_actions.
  rewrite (count_definitions_no_action root None Hroot). simpl (0 <? 1).
  cbv iota.
  repeat (apply returns_bind; try apply returns_logprint; try apply returns_ret).
  unfold checker_validate_para.
  unfold returns at 1. rewrite validate_para_no_action by assumption.
  apply returns_bind. unfold checker_validate_ports.
  eapply returns_weaken; [apply validate_ports_from_returns|].
  intros e g' [He Hg]. unfold checker_validate_lists.
  apply returns_bind. unfold returns at 1.
  rewrite validate_lists_no_action by assumption.
  apply returns_ret. cbn [fst snd].
  split; [reflexivity|]. split; [lia|]. split.
  - eapply only_logs_In; [eassumption|]. now left.
  - solve_only_logs.
Qed.

(** ** Resolving identifiers (C6) *)




Lemma length_update {A} (l : list A) i f :
  List.length (update l i f) = List.length l.
Proof.
  revert i. induction l as [|x r IH]; intros [|i]; simpl; auto.
Qed.

Lemma map_update {A B} (h : A -> B) (l : list A) i f :
  (forall x, h (f x) = h x) -> map h (update l i f) = map h l.
Proof.
  intros H. revert i.
  induction l as [|x r IH]; intros [|i]; simpl; try rewrite H;
    try rewrite IH; auto.
Qed.









(** The count [checker_validate_special] returns. *)
Fixpoint special_found (specials : list special_t) (root : list definition_t)
    (ident : string) (found : Z) : Z :=
  match specials with
  | [] => found
  | special :: next =>
      match checker_find_variable root (sp_type special) (sp_key special)
              (Some ident) with
      | Some _ =>
          special_found next root ident
            (count_special_values (sp_value special) ident found)
      | None => special_found next root ident found
      end
  end.



(** Whether a search has found a value. *)
Definition found_value {A} (o : option A) : bool :=
  match o with Some _ => true | None => false end.

(** The six resolution domains of an identifier used in statement [def] of
    the list [root], in the order of the code. *)
Definition resolution_domains (root : list definition_t)
    (def : definition_t) (ident : string) : list bool :=
  [ found_value (checker_find_variable root "SW" "Param" (Some ident));
    found_value (checker_find_variable root "SW" "Sim" (Some ident));
    found_value (checker_find_substrate def (Some ident));
    found_value (checker_find_variable root "Sub" "Type" (Some ident));
    negb (special_found checker_specials root ident 0 =? 0);
    found_value (checker_find_variable root "SPfile" "File" (Some ident)) ].




(** The fifth domain: some entry of the list of special identifiers whose
    type and key carry the identifier somewhere in the netlist allows it. *)
Lemma count_special_values_spec values ident :
  forall found,
    0 <= found ->
    found <= count_special_values values ident found
    /\ (count_special_values values ident found <> 0
        <-> found <> 0 \/ In ident values).
Proof.
  induction values as [|v next IH]; intros found Hf; simpl.
  - split; [lia | tauto].
  - destruct (String.eqb_spec v ident) as [->|Hn].
    + destruct (IH (found + 1)) as [H1 H2]; [lia|].
      split; [lia|]. rewrite H2. split; [tauto | intros _; lia].
    + destruct (IH found Hf) as [H1 H2]. split; [assumption|].
      rewrite H2. intuition congruence.
Qed.

Lemma special_found_spec specials root ident :
  forall found,
    0 <= found ->
    0 <= special_found specials root ident found
    /\ (special_found specials root ident found <> 0
        <-> found <> 0
            \/ exists special,
                 In special specials
                 /\ found_value (checker_find_variable root (sp_type special)
                                   (sp_key special) (Some ident)) = true
                 /\ In ident (sp_value special)).
Proof.
  induction specials as [|special next IH]; intros found Hf; simpl.
  - split; [assumption|]. split; [tauto|]. intros [H|(? & [] & _)]. exact H.
  - destruct (checker_find_variable root (sp_type special) (sp_key special)
                (Some ident)) eqn:E.
    + destruct (count_special_values_spec (sp_value special) ident found Hf)
        as [H1 H2].
      destruct (IH (count_special_values (sp_value special) ident found))
        as [H3 H4]; [lia|].
      split; [assumption|]. rewrite H4, H2. split.
      * intros [[H|H]|(sp & Hin & Hv & Hi)]; [tauto| |].
        -- right. exists special. rewrite E. simpl. tauto.
        -- right. exists sp. tauto.
      * intros [H|(sp & [<-|Hin] & Hv & Hi)]; [tauto|tauto|].
        right. exists sp. tauto.
    + destruct (IH found Hf) as [H3 H4]. split; [assumption|].
      rewrite H4. split.
      * intros [H|(sp & Hin & Hv & Hi)]; [tauto|]. right. exists sp. tauto.
      * intros [H|(sp & [<-|Hin] & Hv & Hi)]; [tauto| |].
        -- rewrite E in Hv. discriminate.
        -- right. exists sp. tauto.
Qed.

(** ** The exit of the checker (C1) *)



(** ** Runs that leave the globals alone *)

Definition reads {A} (c : M A) : Prop :=
  forall g x g', c g = Some (x, g') -> g' = g.

Lemma reads_ret {A} (x : A) : reads (ret x).
Proof. intros g y g' H. now inversion H. Qed.

Lemma reads_crash {A} : reads (@crash A).
Proof. intros g y g' H. discriminate. Qed.

Lemma reads_deref {A} (o : option A) : reads (deref o).
Proof. destruct o; [apply reads_ret | apply reads_crash]. Qed.

Lemma reads_get_subcircuit_root : reads get_subcircuit_root.
Proof. intros g y g' H. now inversion H. Qed.

Lemma reads_bind {A B} (c : M A) (k : A -> M B) :
  reads c -> (forall x, reads (k x)) -> reads (bind c k).
Proof.
  intros Hc Hk g y g' H. unfold bind in H.
  destruct (c g) as [[x g1]|] eqn:E; [|discriminate].
  apply Hc in E. subst g1. now apply Hk in H.
Qed.

Ltac prove_reads :=
  repeat first
    [ assumption
    | apply reads_ret
    | apply reads_crash
    | apply reads_deref
    | apply reads_get_subcircuit_root
    | apply reads_bind; [|intros]
    | match goal with
      | |- reads (let '(_, _) := ?x in _) => destruct x
      | |- reads (match ?x with _ => _ end) => destruct x
      end ].

Lemma reads_find_subcircuit n : reads (checker_find_subcircuit n).
Proof. unfold checker_find_subcircuit. prove_reads. Qed.

Lemma reads_get_subcircuit def : reads (checker_get_subcircuit def).
Proof.
  unfold checker_get_subcircuit.
  destruct (checker_find_reference def "Type");
    [apply reads_find_subcircuit | apply reads_ret].
Qed.

Lemma reads_xlat_node ntype ninst i nodes :
  reads (xlat_node ntype ninst i nodes).
Proof. induction nodes as [|n next IH]; simpl; prove_reads. Qed.

Lemma reads_xlat_nodes ntype :
  forall ninst i nodes, reads (xlat_nodes ntype ninst i nodes).
Proof.
  induction ntype as [|nt ntype IH]; intros [|ni ninst] i nodes; simpl;
    prove_reads; auto using reads_xlat_node.
Qed.

Lemma reads_xlat_subcircuit_nodes type inst sub :
  reads (checker_xlat_subcircuit_nodes type inst sub).
Proof.
  unfold checker_xlat_subcircuit_nodes.
  prove_reads; auto using reads_xlat_nodes.
Qed.

Lemma reads_copy_subcircuit_nodes_onto type inst instances nodes :
  forall root,
    reads (copy_subcircuit_nodes_onto root type inst instances nodes).
Proof.
  induction nodes as [|n next IH]; intros root; simpl; prove_reads; auto.
Qed.

Lemma reads_copy_subcircuit_nodes type inst sub copy instances :
  reads (checker_copy_subcircuit_nodes type inst sub copy instances).
Proof.
  unfold checker_copy_subcircuit_nodes.
  prove_reads; auto using reads_copy_subcircuit_nodes_onto.
Qed.

Lemma reads_copy_circuit_nodes_in type inst sub instances nodes :
  reads (copy_circuit_nodes_in type inst sub instances nodes).
Proof.
  induction nodes as [|n next IH]; simpl; prove_reads.
Qed.

Lemma reads_copy_circuit_nodes type inst sub copy instances :
  reads (checker_copy_circuit_nodes type inst sub copy instances).
Proof.
  unfold checker_copy_circuit_nodes.
  prove_reads; auto using reads_copy_circuit_nodes_in.
Qed.

Lemma reads_copy_circuit_nodes_all type inst def instances copy :
  reads (copy_circuit_nodes_all type inst def instances copy).
Proof.
  induction copy as [|c next IH]; simpl; [apply reads_ret|].
  apply reads_bind; [apply reads_copy_circuit_nodes|]. intros c'.
  apply reads_bind; [apply IH|]. intros. apply reads_ret.
Qed.

Lemma reads_copy_subcircuits_from recurse type inst defs :
  (forall sub def instances, reads (recurse sub def instances)) ->
  forall instances root,
    reads (copy_subcircuits_from recurse type inst defs instances root).
Proof.
  intros Hr. induction defs as [|def next IH]; intros instances root; simpl.
  - apply reads_ret.
  - apply reads_bind; [apply reads_xlat_subcircuit_nodes|]. intros def'.
    destruct (String.eqb (d_type def') "Sub").
    + apply reads_bind; [apply reads_get_subcircuit|]. intros sub.
      apply reads_bind; [apply reads_deref|]. intros sub'.
      apply reads_bind; [apply Hr|]. intros copy.
      apply reads_bind; [|intros; apply IH].
      destruct copy; [apply reads_ret|].
      apply reads_bind; [apply reads_copy_circuit_nodes_all|].
      intros. apply reads_ret.
    + apply reads_bind; [apply reads_copy_subcircuit_nodes|].
      intros. apply IH.
Qed.

Lemma reads_copy_subcircuits fuel :
  forall type inst instances,
    reads (checker_copy_subcircuits fuel type inst instances).
Proof.
  induction fuel as [|fuel IH]; intros type inst instances; simpl.
  - apply reads_crash.
  - apply reads_copy_subcircuits_from. exact IH.
Qed.

(** ** The order of the copies (C7) *)

(** The loop of [checker_copy_subcircuits] chains what it produces in front
    of the list it has so far. *)
Lemma copy_subcircuits_from_onto recurse type inst defs :
  forall instances root g,
    copy_subcircuits_from recurse type inst defs instances root g
    = match copy_subcircuits_from recurse type inst defs instances [] g with
      | Some (copies, g') => Some (copies ++ root, g')
      | None => None
      end.
Proof.
  induction defs as [|def next IH]; intros instances root g; simpl.
  - reflexivity.
  - unfold bind.
    destruct (checker_xlat_subcircuit_nodes type inst def g)
      as [[def' g1]|]; [|reflexivity].
    destruct (String.eqb (d_type def') "Sub").
    + unfold bind.
      destruct (checker_get_subcircuit def' g1) as [[sub g2]|];
        [|reflexivity].
      unfold bind. destruct (deref sub g2) as [[sub' g3]|];
        [|reflexivity].
      unfold bind.
      destruct (recurse sub' def' _ g3) as [[copy g4]|]; [|reflexivity].
      unfold bind.
      destruct copy as [|c copy].
      * unfold ret. rewrite IH. reflexivity.
      * unfold bind.
        destruct (copy_circuit_nodes_all type inst def' _ (c :: copy) g4)
          as [[copy' g5]|]; [|reflexivity].
        unfold ret. rewrite IH.
        rewrite (IH _ (copy' ++ [])).
        destruct (copy_subcircuits_from recurse type inst next _ [] g5)
          as [[copies g6]|]; [|reflexivity].
        now rewrite app_nil_r, app_assoc.
    + unfold bind.
      destruct (checker_copy_subcircuit_nodes type inst def' _ _ g1)
        as [[copy g2]|]; [|reflexivity].
      rewrite IH. rewrite (IH _ [copy]).
      destruct (copy_subcircuits_from recurse type inst next _ [] g2)
        as [[copies g3]|]; [|reflexivity].
      now rewrite <- app_assoc.
Qed.

(** A [NULL] list of instances and an empty one give the same copies. *)
Lemma copy_subcircuits_from_no_instances recurse type inst defs :
  forall root g,
    copy_subcircuits_from recurse type inst defs (Some []) root g
    = copy_subcircuits_from recurse type inst defs None root g.
Proof.
  induction defs as [|def next IH]; intros root g; simpl.
  - reflexivity.
  - unfold bind.
    destruct (checker_xlat_subcircuit_nodes type inst def g)
      as [[def' g1]|]; [|reflexivity].
    destruct (String.eqb (d_type def') "Sub"); [reflexivity|].
    unfold bind.
    destruct (checker_copy_subcircuit_nodes type inst def' _ _ g1)
      as [[copy g2]|]; [|reflexivity].
    apply IH.
Qed.

(** The copies of a list of elements come in front of the copies of the
    elements before them. *)
Lemma copy_subcircuits_from_app recurse type inst defs1 defs2 :
  forall instances root g,
    copy_subcircuits_from recurse type inst (defs1 ++ defs2) instances root g
    = match copy_subcircuits_from recurse type inst defs1 instances root g
      with
      | Some (copies, g') =>
          copy_subcircuits_from recurse type inst defs2 instances copies g'
      | None => None
      end.
Proof.
  induction defs1 as [|def next IH]; intros instances root g; simpl.
  - reflexivity.
  - unfold bind.
    destruct (checker_xlat_subcircuit_nodes type inst def g)
      as [[def' g1]|]; [|reflexivity].
    destruct (String.eqb (d_type def') "Sub").
    + unfold bind.
      destruct (checker_get_subcircuit def' g1) as [[sub g2]|];
        [|reflexivity].
      unfold bind. destruct (deref sub g2) as [[sub' g3]|];
        [|reflexivity].
      unfold bind.
      destruct (recurse sub' def' _ g3) as [[copy g4]|]; [|reflexivity].
      unfold bind.
      destruct (match copy with
                | [] => ret root
                | _ :: _ => _
                end g4) as [[root' g5]|]; [|reflexivity].
      rewrite IH.
      destruct (copy_subcircuits_from recurse type inst next _ root' g5)
        as [[copies g6]|]; [|reflexivity].
      destruct instances as [l|]; [reflexivity|].
      apply copy_subcircuits_from_no_instances.
    + unfold bind.
      destruct (checker_copy_subcircuit_nodes type inst def' _ _ g1)
        as [[copy g2]|]; [|reflexivity].
      apply IH.
Qed.

(** More fuel does not change a copy. *)
Lemma copy_subcircuits_from_fuel (recurse recurse' :
    definition_t -> definition_t -> option strlist -> M (list definition_t))
    type inst defs :
  (forall sub def instances g r,
     recurse sub def instances g = Some r ->
     recurse' sub def instances g = Some r) ->
  forall instances root g r,
    copy_subcircuits_from recurse type inst defs instances root g = Some r ->
    copy_subcircuits_from recurse' type inst defs instances root g = Some r.
Proof.
  intros Hr. induction defs as [|def next IH]; intros instances root g r;
    simpl; [auto|].
  unfold bind.
  destruct (checker_xlat_subcircuit_nodes type inst def g)
    as [[def' g1]|]; [|discriminate].
  destruct (String.eqb (d_type def') "Sub").
  - unfold bind.
    destruct (checker_get_subcircuit def' g1) as [[sub g2]|]; [|discriminate].
    unfold bind. destruct (deref sub g2) as [[sub' g3]|];
      [|discriminate].
    unfold bind.
    destruct (recurse sub' def' _ g3) as [[copy g4]|] eqn:E; [|discriminate].
    rewrite (Hr _ _ _ _ _ E).
    unfold bind.
    destruct (match copy with
              | [] => ret root
              | _ :: _ => _
              end g4) as [[root' g5]|]; [|discriminate].
    apply IH.
  - unfold bind.
    destruct (checker_copy_subcircuit_nodes type inst def' _ _ g1)
      as [[copy g2]|]; [|discriminate].
    apply IH.
Qed.

Lemma copy_subcircuits_fuel n :
  forall m type inst instances g r,
    (n <= m)%nat ->
    checker_copy_subcircuits n type inst instances g = Some r ->
    checker_copy_subcircuits m type inst instances g = Some r.
Proof.
  induction n as [|n IH]; intros m type inst instances g r Hm; simpl;
    [discriminate|].
  destruct m as [|m]; [lia|]. simpl.
  apply copy_subcircuits_from_fuel. intros. eapply IH; [lia|eassumption].
Qed.

(** The copies of the elements [defs] of the subcircuit [type] for the
    instance [inst] of the top level: the loop of
    [checker_copy_subcircuits] from an empty list. *)
Definition element_copies (fuel : nat) (type inst : definition_t)
    (defs : list definition_t) : M (list definition_t) :=
  copy_subcircuits_from (checker_copy_subcircuits fuel) type inst defs
    None [].

Definition not_sub (def : definition_t) : Prop := d_type def <> "Sub".

Lemma xlat_subcircuit_nodes_shape type inst sub g def g' :
  checker_xlat_subcircuit_nodes type inst sub g = Some (def, g') ->
  exists nodes, def = set_d_nodes nodes sub.
Proof.
  unfold checker_xlat_subcircuit_nodes, bind, ret.
  destruct (xlat_nodes _ _ _ _ g) as [[nodes g1]|]; [|discriminate].
  intros H. inversion H. eauto.
Qed.

Lemma copy_subcircuit_nodes_shape type inst sub copy instances g c g' :
  checker_copy_subcircuit_nodes type inst sub copy instances g
  = Some (c, g') ->
  exists nodes, c = set_d_nodes nodes copy.
Proof.
  unfold checker_copy_subcircuit_nodes, bind, ret.
  destruct (copy_subcircuit_nodes_onto _ _ _ _ _ g) as [[nodes g1]|];
    [|discriminate].
  intros H. inversion H. eauto.
Qed.

(** Without nested instances each element gives one copy, and the copy of
    the last element is the first of the list. *)
Lemma copy_subcircuits_from_flat recurse type inst defs :
  Forall not_sub defs ->
  forall instances root g copies g',
    copy_subcircuits_from recurse type inst defs instances root g
    = Some (copies, g') ->
    map d_instance copies
    = rev (map (fun def =>
                  checker_subcircuit_instance (d_instance type)
                    (checker_subcircuit_instance_list instances)
                    (d_instance inst) (d_instance def)) defs)
      ++ map d_instance root.
Proof.
  induction 1 as [|def next Hd _ IH]; intros instances root g copies g';
    simpl.
  - unfold ret. intros H. now inversion H.
  - unfold bind.
    destruct (checker_xlat_subcircuit_nodes type inst def g)
      as [[def' g1]|] eqn:E; [|discriminate].
    apply xlat_subcircuit_nodes_shape in E. destruct E as [nodes ->].
    cbn [d_type set_d_nodes d_instance].
    destruct (String.eqb_spec (d_type def) "Sub") as [Hs|_];
      [contradiction|].
    destruct (checker_copy_subcircuit_nodes type inst _ _ _ g1)
      as [[copy g2]|] eqn:E; [|discriminate].
    apply copy_subcircuit_nodes_shape in E. destruct E as [nodes' ->].
    intros H. apply IH in H. rewrite H. cbn [map d_instance set_d_nodes
      set_d_instance checker_copy_subcircuit].
    now rewrite <- app_assoc.
Qed.

(** The loop of [checker_expand_subcircuits] over statements that are no
    subcircuit instances. *)
Lemma expand_subcircuits_loop_no_sub rest :
  Forall not_sub rest ->
  forall fuel before g,
    (List.length rest < fuel)%nat ->
    expand_subcircuits_loop fuel before rest g = Some (before ++ rest, g).
Proof.
  induction 1 as [|def next Hd _ IH]; intros fuel before g Hf;
    (destruct fuel as [|fuel]; [simpl in Hf; lia|]); simpl.
  - now rewrite app_nil_r.
  - destruct (String.eqb_spec (d_type def) "Sub") as [Hs|_];
      [contradiction|].
    rewrite IH by (simpl in Hf; lia). now rewrite <- app_assoc.
Qed.

Lemma expand_subcircuits_loop_skip pre :
  Forall not_sub pre ->
  forall fuel before rest g,
    expand_subcircuits_loop (List.length pre + fuel) before (pre ++ rest) g
    = expand_subcircuits_loop fuel (before ++ pre) rest g.
Proof.
  induction 1 as [|def next Hd _ IH]; intros fuel before rest g; simpl.
  - now rewrite app_nil_r.
  - destruct (String.eqb_spec (d_type def) "Sub") as [Hs|_];
      [contradiction|].
    rewrite IH. now rewrite <- app_assoc.
Qed.

(** C7, as the code has it: the statements copied from the body of the
    subcircuit are put at the head of the statement list, in front of the
    statements that came before the instance, and the instance is
    removed.  [checker_copy_subcircuits] returns them in reverse order and
    they stay so: the copies of a later part of the body come before the
    copies of an earlier part, and for a body without nested instances the
    instance names are those of the body, last element first. *)
Theorem expansion_puts_reversed_copies_in_front (n fuel : nat) (g : globals)
    (pre post : list definition_t) (inst sub : definition_t)
    (copy : list definition_t) :
  Forall not_sub pre -> Forall not_sub post -> d_type inst = "Sub" ->
  checker_get_subcircuit inst g = Some (Some sub, g) ->
  checker_copy_subcircuits (S n) sub inst None g = Some (copy, g) ->
  (n + 2 * List.length pre + List.length post + 3 <= fuel)%nat ->
  checker_expand_subcircuits fuel (pre ++ inst :: post) g
  = Some (copy ++ pre ++ post, g)
  /\ (forall defs1 defs2,
        d_sub sub = defs1 ++ defs2 ->
        exists copy1 copy2,
          element_copies n sub inst defs1 g = Some (copy1, g)
          /\ element_copies n sub inst defs2 g = Some (copy2, g)
          /\ copy = copy2 ++ copy1)
  /\ (Forall not_sub (d_sub sub) ->
      map d_instance copy
      = rev (map (fun def =>
                    checker_subcircuit_instance (d_instance sub) None
                      (d_instance inst) (d_instance def)) (d_sub sub))).
Proof.
  intros Hpre Hpost Hinst Hsub Hcopy Hfuel. split; [|split].
  - unfold checker_expand_subcircuits.
    replace fuel
      with (List.length pre
            + S (fuel - List.length pre - 1))%nat by lia.
    rewrite expand_subcircuits_loop_skip by assumption. simpl.
    rewrite Hinst. simpl. unfold bind. rewrite Hsub. simpl.
    rewrite (copy_subcircuits_fuel (S n) _ sub inst None g (copy, g))
      by (lia || assumption).
    cbn [app].
    destruct copy as [|c copy]; cbn [app].
    + apply expand_subcircuits_loop_no_sub; [assumption|lia].
    + rewrite expand_subcircuits_loop_no_sub.
      * reflexivity.
      * apply Forall_app. split; assumption.
      * rewrite length_app. lia.
  - intros defs1 defs2 Hbody. simpl in Hcopy. rewrite Hbody in Hcopy.
    rewrite copy_subcircuits_from_app in Hcopy. unfold element_copies.
    destruct (copy_subcircuits_from (checker_copy_subcircuits n) sub inst
                defs1 None [] g) as [[copy1 g1]|] eqn:E1; [|discriminate].
    assert (g1 = g) as ->.
    { eapply reads_copy_subcircuits_from; [|exact E1].
      apply reads_copy_subcircuits. }
    rewrite copy_subcircuits_from_onto in Hcopy.
    destruct (copy_subcircuits_from (checker_copy_subcircuits n) sub inst
                defs2 None [] g) as [[copy2 g2]|] eqn:E2; [|discriminate].
    assert (g2 = g) as ->.
    { eapply reads_copy_subcircuits_from; [|exact E2].
      apply reads_copy_subcircuits. }
    exists copy1, copy2. inversion Hcopy. auto.
  - intros Hflat. simpl in Hcopy.
    apply (copy_subcircuits_from_flat _ _ _ _ Hflat) in Hcopy.
    rewrite Hcopy. simpl. now rewrite app_nil_r.
Qed.

(** ** Node names of the copies (C4) *)

(** What the loops over node lists compute, node by node. *)

(** The outer loop of [checker_xlat_subcircuit_nodes] seen from one node
    of the element: each formal node of the same name overwrites the
    translation. *)
Fixpoint xlat_pure (ntype ninst : list node_t) (i : Z) (n : node_t)
  : node_t :=
  match ntype, ninst with
  | nt :: ntype, ni :: ninst =>
      xlat_pure ntype ninst (i + 1)
        (match n_node n, n_node nt with
         | Some name, Some formal =>
             if String.eqb name formal then mk_node (n_node n) (n_node ni) i
             else n
         | _, _ => n
         end)
  | _, _ => n
  end.

Lemma xlat_node_pure nt ni i nodes g nodes' g' :
  xlat_node nt ni i nodes g = Some (nodes', g') ->
  nodes'
  = map (fun n =>
           match n_node n, n_node nt with
           | Some name, Some formal =>
               if String.eqb name formal then mk_node (n_node n) (n_node ni) i
               else n
           | _, _ => n
           end) nodes.
Proof.
  revert g nodes' g'.
  induction nodes as [|n next IH]; intros g nodes' g'; simpl.
  - unfold ret. intros H. now inversion H.
  - unfold bind. destruct (n_node n) as [name|]; [|discriminate]. simpl.
    destruct (n_node nt) as [formal|]; [|discriminate]. simpl.
    destruct (String.eqb name formal).
    + destruct (n_node ni) as [actual|]; [|discriminate]. simpl.
      destruct (xlat_node nt ni i next g) as [[next' g1]|] eqn:E;
        [|discriminate].
      apply IH in E. subst next'. unfold ret. intros H. now inversion H.
    + simpl.
      destruct (xlat_node nt ni i next g) as [[next' g1]|] eqn:E;
        [|discriminate].
      apply IH in E. subst next'. unfold ret. intros H. now inversion H.
Qed.

Lemma xlat_nodes_pure ntype :
  forall ninst i nodes g nodes' g',
    xlat_nodes ntype ninst i nodes g = Some (nodes', g') ->
    nodes' = map (xlat_pure ntype ninst i) nodes.
Proof.
  induction ntype as [|nt ntype IH]; intros [|ni ninst] i nodes g nodes' g';
    simpl; try discriminate.
  - unfold ret. intros H. inversion H. now rewrite map_id.
  - unfold ret. intros H. inversion H. now rewrite map_id.
  - unfold bind.
    destruct (xlat_node nt ni i nodes g) as [[nodes1 g1]|] eqn:E;
      [|discriminate].
    apply xlat_node_pure in E. subst nodes1. intros H. apply IH in H.
    rewrite H, map_map. reflexivity.
Qed.

Lemma xlat_subcircuit_nodes_pure type inst sub g def g' :
  checker_xlat_subcircuit_nodes type inst sub g = Some (def, g') ->
  def = set_d_nodes
          (map (xlat_pure (d_nodes type) (d_nodes inst) 1) (d_nodes sub)) sub.
Proof.
  unfold checker_xlat_subcircuit_nodes, bind, ret.
  destruct (xlat_nodes _ _ _ _ g) as [[nodes g1]|] eqn:E; [|discriminate].
  apply xlat_nodes_pure in E. subst nodes. intros H. now inversion H.
Qed.

(** The name [checker_copy_subcircuit_nodes] and
    [checker_copy_circuit_nodes] give to the copy of the node [n]. *)
Definition copied_name (type inst : definition_t) (instances : option string)
    (n : node_t) : option string :=
  match n_xlate n with
  | Some xlate =>
      match instances with
      | None => Some xlate
      | Some _ => None
      end
  | None =>
      match n_node n with
      | Some name =>
          if String.eqb name "gnd" then Some name
          else Some (checker_subcircuit_node (d_instance type) instances
                       (d_instance inst) name)
      | None => None
      end
  end.

Lemma reverse_nodes_onto_rev nodes :
  forall root, reverse_nodes_onto root nodes = rev nodes ++ root.
Proof.
  induction nodes as [|n next IH]; intros root; simpl; [reflexivity|].
  rewrite IH. now rewrite <- app_assoc.
Qed.

Lemma copy_subcircuit_nodes_onto_pure type inst instances nodes :
  forall root g root' g',
    copy_subcircuit_nodes_onto root type inst instances nodes g
    = Some (root', g') ->
    root'
    = rev (map (fun n => mk_node (copied_name type inst instances n) None
                           (n_xlatenr n)) nodes) ++ root.
Proof.
  induction nodes as [|n next IH]; intros root g root' g'; simpl.
  - unfold ret. intros H. now inversion H.
  - unfold bind, copied_name.
    destruct (n_xlate n) as [xlate|].
    + destruct instances; simpl; intros H; apply IH in H; rewrite H;
        now rewrite <- app_assoc.
    + destruct (n_node n) as [name|]; [|discriminate]. simpl.
      destruct (String.eqb name "gnd"); simpl; intros H; apply IH in H;
        rewrite H; now rewrite <- app_assoc.
Qed.

Lemma copy_subcircuit_nodes_pure type inst sub copy instances g c g' :
  checker_copy_subcircuit_nodes type inst sub copy instances g
  = Some (c, g') ->
  c = set_d_nodes
        (map (fun n => mk_node (copied_name type inst instances n) None
                         (n_xlatenr n)) (d_nodes sub)) copy.
Proof.
  unfold checker_copy_subcircuit_nodes, bind, ret.
  destruct (copy_subcircuit_nodes_onto _ _ _ _ _ g) as [[root g1]|] eqn:E;
    [|discriminate].
  apply copy_subcircuit_nodes_onto_pure in E. subst root.
  intros H. inversion H. unfold netlist_reverse_nodes.
  now rewrite reverse_nodes_onto_rev, !app_nil_r, rev_involutive.
Qed.

(** The node [checker_copy_circuit_nodes] makes of a node of a copy. *)
Definition resolved_node (type inst sub : definition_t)
    (instances : option string) (ncopy : node_t) : node_t :=
  match n_node ncopy with
  | Some _ => ncopy
  | None =>
      match nth_error (d_nodes sub) (Z.to_nat (n_xlatenr ncopy - 1)) with
      | Some n =>
          mk_node (copied_name type inst instances n) (n_xlate ncopy)
            (n_xlatenr n)
      | None => ncopy
      end
  end.

Lemma copy_circuit_nodes_in_pure type inst sub instances nodes :
  forall g nodes' g',
    copy_circuit_nodes_in type inst sub instances nodes g
    = Some (nodes', g') ->
    nodes' = map (resolved_node type inst sub instances) nodes.
Proof.
  induction nodes as [|ncopy next IH]; intros g nodes' g'; simpl.
  - unfold ret. intros H. now inversion H.
  - unfold bind, resolved_node at 1, checker_get_circuit_node, copied_name.
    destruct (n_node ncopy) as [name|].
    + simpl.
      destruct (copy_circuit_nodes_in type inst sub instances next g)
        as [[next' g1]|] eqn:E; [|discriminate].
      apply IH in E. subst next'. unfold ret. intros H. now inversion H.
    + destruct (n_xlatenr ncopy =? 0); [discriminate|].
      destruct (nth_error (d_nodes sub) (Z.to_nat (n_xlatenr ncopy - 1)))
        as [n|]; [|discriminate]. simpl.
      destruct (n_xlate n) as [xlate|].
      * destruct instances; simpl;
          (destruct (copy_circuit_nodes_in type inst sub _ next g)
             as [[next' g1]|] eqn:E; [|discriminate]);
          apply IH in E; subst next'; unfold ret; intros H;
          now inversion H.
      * destruct (n_node n) as [name|]; [|discriminate]. simpl.
        destruct (String.eqb name "gnd"); simpl;
          (destruct (copy_circuit_nodes_in type inst sub _ next g)
             as [[next' g1]|] eqn:E; [|discriminate]);
          apply IH in E; subst next'; unfold ret; intros H;
          now inversion H.
Qed.

Lemma copy_circuit_nodes_all_pure type inst def instances copy :
  forall g copy' g',
    copy_circuit_nodes_all type inst def instances copy g
    = Some (copy', g') ->
    copy'
    = map (fun c => set_d_nodes
                      (map (resolved_node type inst def instances)
                         (d_nodes c)) c) copy.
Proof.
  induction copy as [|c next IH]; intros g copy' g'; simpl.
  - unfold ret. intros H. now inversion H.
  - unfold bind, checker_copy_circuit_nodes, bind, ret.
    destruct (copy_circuit_nodes_in type inst def instances (d_nodes c) g)
      as [[nodes g1]|] eqn:E; [|discriminate].
    apply copy_circuit_nodes_in_pure in E. subst nodes.
    destruct (copy_circuit_nodes_all type inst def instances next g1)
      as [[next' g2]|] eqn:E; [|discriminate].
    apply IH in E. subst next'. intros H. now inversion H.
Qed.

(** The translation of a node whose name is no formal node of the
    subcircuit, and of a node named as a formal node. *)
Definition no_formal (formals : list node_t) (x : string) : Prop :=
  ~ In (Some x) (map n_node formals).

(** [x] is the name of the formal node at index [k], and of no later one
    (the later one would overwrite the translation). *)
Definition last_formal (formals : list node_t) (x : string) (k : nat)
  : Prop :=
  exists l1 nt l2,
    formals = l1 ++ nt :: l2 /\ n_node nt = Some x
    /\ List.length l1 = k /\ no_formal l2 x.

Definition clean (n : node_t) : Prop := n_xlate n = None /\ n_xlatenr n = 0.

Lemma xlat_pure_name ntype :
  forall ninst i n, n_node (xlat_pure ntype ninst i n) = n_node n.
Proof.
  induction ntype as [|nt ntype IH]; intros [|ni ninst] i n; simpl; auto.
  rewrite IH. destruct (n_node n) as [name|] eqn:E; [|exact E].
  destruct (n_node nt) as [formal|]; [|exact E].
  destruct (String.eqb name formal); [reflexivity|exact E].
Qed.

Lemma xlat_pure_no_formal ntype x :
  no_formal ntype x ->
  forall ninst i n, n_node n = Some x -> xlat_pure ntype ninst i n = n.
Proof.
  unfold no_formal.
  induction ntype as [|nt ntype IH]; intros Hx [|ni ninst] i n Hn; simpl;
    auto.
  simpl in Hx. rewrite Hn.
  destruct (n_node nt) as [formal|] eqn:E.
  - destruct (String.eqb_spec x formal) as [->|_]; [tauto|].
    apply IH; [tauto|assumption].
  - apply IH; [tauto|assumption].
Qed.

Lemma xlat_pure_last_formal l1 :
  forall nt l2 ninst ni i n x,
    n_node nt = Some x -> no_formal l2 x -> n_node n = Some x ->
    nth_error ninst (List.length l1) = Some ni ->
    xlat_pure (l1 ++ nt :: l2) ninst i n
    = mk_node (Some x) (n_node ni) (i + Z.of_nat (List.length l1)).
Proof.
  induction l1 as [|f l1 IH]; intros nt l2 ninst ni i n x Hnt Hl2 Hn Hni.
  - destruct ninst as [|ni' ninst]; [discriminate|].
    simpl in Hni. inversion Hni; subst ni'. simpl.
    rewrite Hn, Hnt, String.eqb_refl.
    rewrite xlat_pure_no_formal with (x := x); auto.
    now rewrite Z.add_0_r.
  - destruct ninst as [|ni' ninst]; [discriminate|].
    simpl in Hni. cbn [app xlat_pure].
    rewrite (IH nt l2 ninst ni (i + 1) _ x Hnt Hl2); auto.
    + f_equal. cbn [List.length]. lia.
    + rewrite Hn. destruct (n_node f) as [formal|]; [|exact Hn].
      destruct (String.eqb x formal); [reflexivity|exact Hn].
Qed.

(** The copies of one element of a subcircuit that is no nested
    instance. *)
Lemma copy_subcircuits_from_element recurse type inst def instances g
    copies g' :
  not_sub def ->
  copy_subcircuits_from recurse type inst [def] instances [] g
  = Some (copies, g') ->
  let ilist := checker_subcircuit_instance_list instances in
  copies
  = [ set_d_nodes
        (map (fun n =>
                let n := xlat_pure (d_nodes type) (d_nodes inst) 1 n in
                mk_node (copied_name type inst ilist n) None (n_xlatenr n))
           (d_nodes def))
        (set_d_instance
           (checker_subcircuit_instance (d_instance type) ilist
              (d_instance inst) (d_instance def))
           (Some (d_instance type)) (checker_copy_subcircuit def)) ].
Proof.
  intros Hd. cbn [copy_subcircuits_from]. unfold bind.
  destruct (checker_xlat_subcircuit_nodes type inst def g)
    as [[def' g1]|] eqn:E; [|discriminate].
  apply xlat_subcircuit_nodes_pure in E. subst def'.
  cbn [d_type set_d_nodes].
  destruct (String.eqb_spec (d_type def) "Sub") as [Hs|_]; [contradiction|].
  destruct (checker_copy_subcircuit_nodes type inst _ _ _ g1)
    as [[copy g2]|] eqn:E; [|discriminate].
  apply copy_subcircuit_nodes_pure in E. subst copy.
  unfold ret. intros H. inversion H. cbn [d_nodes set_d_nodes d_instance].
  rewrite map_map. reflexivity.
Qed.

(** The copies of one element that is a nested instance: the copies of the
    subcircuit it names, made for the element with its translated nodes
    and with the instance name added to the list of instances, and then
    given their blank nodes. *)
Lemma copy_subcircuits_from_instance recurse type inst def instances g
    copies g' :
  (forall sub def instances, reads (recurse sub def instances)) ->
  d_type def = "Sub" ->
  copy_subcircuits_from recurse type inst [def] instances [] g
  = Some (copies, g') ->
  let def' :=
    set_d_nodes
      (map (xlat_pure (d_nodes type) (d_nodes inst) 1) (d_nodes def)) def in
  let instcopy := match instances with Some l => l | None => [] end in
  exists sub copy,
    checker_get_subcircuit def g = Some (Some sub, g)
    /\ recurse sub def' (Some (strlist_append instcopy (d_instance inst))) g
       = Some (copy, g)
    /\ copies
       = map (fun c =>
                set_d_nodes
                  (map (resolved_node type inst def'
                          (checker_subcircuit_instance_list (Some instcopy)))
                     (d_nodes c)) c) copy.
Proof.
  intros Hr Hd. cbn [copy_subcircuits_from]. unfold bind.
  destruct (checker_xlat_subcircuit_nodes type inst def g)
    as [[def' g1]|] eqn:E; [|discriminate].
  pose proof (reads_xlat_subcircuit_nodes _ _ _ _ _ _ E). subst g1.
  apply xlat_subcircuit_nodes_pure in E. subst def'.
  cbn [d_type set_d_nodes]. rewrite Hd, String.eqb_refl.
  match goal with
  | |- context [checker_get_subcircuit ?d g] =>
      change (checker_get_subcircuit d g) with (checker_get_subcircuit def g)
  end.
  destruct (checker_get_subcircuit def g) as [[[sub|] g1]|] eqn:E;
    try discriminate.
  pose proof (reads_get_subcircuit _ _ _ _ E). subst g1. simpl.
  match goal with
  | |- context [recurse sub ?d ?i g] =>
      destruct (recurse sub d i g) as [[copy g1]|] eqn:E1; [|discriminate]
  end.
  pose proof (Hr _ _ _ _ _ _ E1). subst g1.
  intros H. exists sub, copy. split; [reflexivity|]. split; [exact E1|].
  destruct copy as [|c copy].
  - unfold ret in H. now inversion H.
  - match type of H with
    | context [copy_circuit_nodes_all ?t ?i ?d ?l ?c g] =>
        destruct (copy_circuit_nodes_all t i d l c g) as [[copy' g1]|] eqn:E2;
          [|discriminate]
    end.
    apply copy_circuit_nodes_all_pure in E2. subst copy'.
    unfold ret in H. inversion H. now rewrite app_nil_r.
Qed.

(** The copies of an element are among the copies of the body. *)
Lemma copy_subcircuits_from_In recurse type inst defs def instances g
    copies g' :
  (forall sub def instances, reads (recurse sub def instances)) ->
  In def defs ->
  copy_subcircuits_from recurse type inst defs instances [] g
  = Some (copies, g') ->
  exists copy,
    copy_subcircuits_from recurse type inst [def] instances [] g
    = Some (copy, g)
    /\ incl copy copies.
Proof.
  intros Hr Hin H. apply in_split in Hin. destruct Hin as (l1 & l2 & ->).
  rewrite copy_subcircuits_from_app in H.
  destruct (copy_subcircuits_from recurse type inst l1 instances [] g)
    as [[c1 g1]|] eqn:E1; [|discriminate].
  pose proof (reads_copy_subcircuits_from _ _ _ _ Hr _ _ _ _ _ E1).
  subst g1.
  change (def :: l2) with ([def] ++ l2) in H.
  rewrite copy_subcircuits_from_app in H.
  rewrite copy_subcircuits_from_onto in H.
  destruct (copy_subcircuits_from recurse type inst [def] instances [] g)
    as [[c g1]|] eqn:E2; [|discriminate].
  pose proof (reads_copy_subcircuits_from _ _ _ _ Hr _ _ _ _ _ E2).
  subst g1.
  rewrite copy_subcircuits_from_onto in H.
  destruct (copy_subcircuits_from recurse type inst l2 instances [] g)
    as [[c2 g2]|]; [|discriminate].
  inversion H. exists c. split; [reflexivity|].
  intros x Hx. apply in_or_app. right. apply in_or_app. now left.
Qed.

(** C4: the node names of a statement copied through two levels of
    subcircuits.  The subcircuit [outerT] has the instance [innerInst] of
    the subcircuit [inner] in its body, [e] is an element of the body of
    [inner], and [outer] is an instance of [outerT] in the netlist.  In the
    copy of [e] made for [outer]
    - a node of [e] that is no formal node of [inner] keeps its name when
      it is [gnd], and is named [inner.outer.innerInst.node] otherwise;
    - a node that is a formal node of [inner] takes the node of
      [innerInst] at this position, seen from [outerT]: the node [outer]
      has at its position when it is a formal node of [outerT], [gnd] when
      it is [gnd], and [outerT.outer.node] for any other node. *)
Theorem nested_copy_node_names (fuel : nat) (g g' : globals)
    (outerT outer inner innerInst e : definition_t)
    (copies : list definition_t) :
  In innerInst (d_sub outerT) -> d_type innerInst = "Sub" ->
  checker_get_subcircuit innerInst g = Some (Some inner, g) ->
  In e (d_sub inner) -> not_sub e ->
  Forall clean (d_nodes e) -> Forall clean (d_nodes innerInst) ->
  checker_copy_subcircuits fuel outerT outer None g = Some (copies, g') ->
  exists c,
    In c copies
    /\ d_instance c
       = (d_instance inner ++ "." ++ d_instance outer ++ "."
          ++ d_instance innerInst ++ "." ++ d_instance e)%string
    /\ List.length (d_nodes c) = List.length (d_nodes e)
    /\ forall k n x,
         nth_error (d_nodes e) k = Some n -> n_node n = Some x ->
         exists n',
           nth_error (d_nodes c) k = Some n'
           /\ (no_formal (d_nodes inner) x -> x <> "gnd" ->
               n_node n'
               = Some (d_instance inner ++ "." ++ d_instance outer ++ "."
                       ++ d_instance innerInst ++ "." ++ x)%string)
           /\ (no_formal (d_nodes inner) x -> x = "gnd" ->
               n_node n' = Some "gnd")
           /\ (forall p na a,
                 last_formal (d_nodes inner) x p ->
                 nth_error (d_nodes innerInst) p = Some na ->
                 n_node na = Some a ->
                 (forall q no ext,
                    last_formal (d_nodes outerT) a q ->
                    nth_error (d_nodes outer) q = Some no ->
                    n_node no = Some ext ->
                    n_node n' = Some ext)
                 /\ (no_formal (d_nodes outerT) a -> a = "gnd" ->
                     n_node n' = Some "gnd")
                 /\ (no_formal (d_nodes outerT) a -> a <> "gnd" ->
                     n_node n'
                     = Some (d_instance outerT ++ "." ++ d_instance outer
                             ++ "." ++ a)%string)).
Proof.
  intros Hinner Hsub Hget He Hnot Hce Hci Hcopy.
  destruct fuel as [|fuel]; [discriminate|]. cbn [checker_copy_subcircuits] in Hcopy.
  destruct (copy_subcircuits_from_In _ _ _ _ _ _ _ _ _
              (reads_copy_subcircuits fuel) Hinner Hcopy)
    as (copy1 & Hcopy1 & Hincl1).
  destruct (copy_subcircuits_from_instance _ _ _ _ _ _ _ _
              (reads_copy_subcircuits fuel) Hsub Hcopy1)
    as (sub & copy0 & Hget' & Hcopy0 & ->).
  rewrite Hget in Hget'. inversion Hget'; subst sub. clear Hget'.
  set (innerInst' :=
         set_d_nodes
           (map (xlat_pure (d_nodes outerT) (d_nodes outer) 1)
              (d_nodes innerInst)) innerInst) in *.
  destruct fuel as [|fuel]; [discriminate|].
  cbn [checker_copy_subcircuits] in Hcopy0.
  destruct (copy_subcircuits_from_In _ _ _ _ _ _ _ _ _
              (reads_copy_subcircuits fuel) He Hcopy0)
    as (copye & Hcopye & Hincle).
  apply copy_subcircuits_from_element in Hcopye; [|assumption].
  cbv zeta in Hcopye.
  change (checker_subcircuit_instance_list
            (Some (strlist_append [] (d_instance outer))))
    with (Some (d_instance outer)) in Hcopye.
  change (checker_subcircuit_instance_list (Some [])) with (@None string)
    in Hincl1.
  match type of Hcopye with _ = [?t] => set (ce := t) in * end.
  exists (set_d_nodes
            (map (resolved_node outerT outer innerInst' None) (d_nodes ce))
            ce).
  split.
  { apply Hincl1. apply in_map_iff. exists ce. split; [reflexivity|].
    apply Hincle. rewrite Hcopye. now left. }
  split; [reflexivity|].
  split.
  { cbn [d_nodes set_d_nodes]. subst ce. cbn [d_nodes set_d_nodes].
    now rewrite !length_map. }
  intros k n x Hn Hx.
  cbn [d_nodes set_d_nodes]. subst ce. cbn [d_nodes set_d_nodes].
  rewrite !nth_error_map, Hn. cbn [option_map].
  eexists. split; [reflexivity|].
  assert (Hclean : clean n).
  { eapply Forall_forall; [exact Hce|]. eapply nth_error_In; eassumption. }
  destruct Hclean as [Hxl Hxn].
  split; [|split].
  - intros Hnf Hgnd.
    rewrite (xlat_pure_no_formal _ x Hnf) by assumption.
    unfold resolved_node, copied_name. cbn [n_node].
    rewrite Hxl, Hx.
    destruct (String.eqb_spec x "gnd") as [|_]; [contradiction|].
    reflexivity.
  - intros Hnf Hgnd.
    rewrite (xlat_pure_no_formal _ x Hnf) by assumption.
    unfold resolved_node, copied_name. cbn [n_node].
    rewrite Hxl, Hx. subst x. reflexivity.
  - intros p na a (l1 & nt & l2 & Hf & Hnt & Hl1 & Hl2) Hna Ha.
    assert (Hna' : nth_error (d_nodes innerInst') p
                   = Some (xlat_pure (d_nodes outerT) (d_nodes outer) 1 na)).
    { subst innerInst'. cbn [d_nodes set_d_nodes].
      now rewrite nth_error_map, Hna. }
    rewrite Hf.
    rewrite (xlat_pure_last_formal l1 nt l2 (d_nodes innerInst') _ 1 n x
               Hnt Hl2 Hx) by (rewrite Hl1; exact Hna').
    match goal with
    | |- context [resolved_node ?t ?i ?d ?l ?c] =>
        assert (Hres : resolved_node t i d l c
                       = mk_node
                           (copied_name outerT outer None
                              (xlat_pure (d_nodes outerT) (d_nodes outer) 1
                                 na))
                           None
                           (n_xlatenr
                              (xlat_pure (d_nodes outerT) (d_nodes outer) 1
                                 na)))
    end.
    { unfold resolved_node, copied_name at 1.
      cbn [n_node n_xlate n_xlatenr].
      rewrite xlat_pure_name, Ha.
      replace (Z.to_nat (1 + Z.of_nat (List.length l1) - 1)) with p by lia.
      now rewrite Hna'. }
    rewrite Hres. cbn [n_node]. clear Hres.
    assert (Hclean : clean na).
    { eapply Forall_forall; [exact Hci|]. eapply nth_error_In; eassumption. }
    destruct Hclean as [Hal Han].
    split; [|split].
    + intros q no ext (m1 & mt & m2 & Hg & Hmt & Hm1 & Hm2) Hno Hext.
      rewrite Hg.
      rewrite (xlat_pure_last_formal m1 mt m2 (d_nodes outer) no 1 na a
                 Hmt Hm2 Ha) by (rewrite Hm1; exact Hno).
      unfold copied_name. cbn [n_xlate]. now rewrite Hext.
    + intros Hnf Hgnd.
      rewrite (xlat_pure_no_formal _ a Hnf) by assumption.
      unfold copied_name. rewrite Hal, Ha. subst a. reflexivity.
    + intros Hnf Hgnd.
      rewrite (xlat_pure_no_formal _ a Hnf) by assumption.
      unfold copied_name. rewrite Hal, Ha.
      destruct (String.eqb_spec a "gnd") as [|_]; [contradiction|].
      reflexivity.
Qed.

(** ** Duplicate definitions (C8) *)

(** The message about the number of definitions of a statement. *)
Definition is_definition_count (d : diag) : bool :=
  match d with
  | ErrDefinitionCount _ _ _ => true
  | _ => false
  end.

(** The run from [g] to [g'] has printed no such message. *)
Definition quiet (g g' : globals) : Prop :=
  exists l, log g' = l ++ log g
            /\ forallb (fun d => negb (is_definition_count d)) l = true.

Lemma quiet_refl g : quiet g g.
Proof. now exists []. Qed.

Lemma quiet_trans g1 g2 g3 : quiet g1 g2 -> quiet g2 g3 -> quiet g1 g3.
Proof.
  intros (l1 & E1 & F1) (l2 & E2 & F2). exists (l2 ++ l1). split.
  - rewrite E2, E1. now rewrite app_assoc.
  - rewrite forallb_app. now rewrite F1, F2.
Qed.

Lemma quiet_same_log g g' : log g' = log g -> quiet g g'.
Proof. intros E. now exists []. Qed.

Lemma quiet_logprint d g g' :
  is_definition_count d = false -> log g' = d :: log g -> quiet g g'.
Proof. intros Hd E. exists [d]. split; [exact E|]. simpl. now rewrite Hd. Qed.

Lemma quiet_filter (P : diag -> bool) g g' :
  (forall d, P d = true -> is_definition_count d = true) ->
  quiet g g' -> filter P (log g') = filter P (log g).
Proof.
  intros HP (l & E & F). rewrite E, filter_app.
  assert (Hl : filter P l = []).
  { clear E. induction l as [|d l IH]; [reflexivity|].
    simpl in *. apply andb_true_iff in F. destruct F as [Fd Fl].
    destruct (P d) eqn:Ed.
    - apply HP in Ed. rewrite Ed in Fd. discriminate.
    - auto. }
  now rewrite Hl.
Qed.

Ltac solve_quiet :=
  solve [ repeat first
    [ apply quiet_refl
    | assumption
    | match goal with
      | H : quiet ?b ?c |- quiet ?a ?c =>
          apply (quiet_trans a b c); [clear H|exact H]
      | |- quiet ?a (mk_globals _ _ _ (?d :: log ?b)) =>
          apply (quiet_trans a b); [|apply (quiet_logprint d); reflexivity]
      | |- quiet ?a (mk_globals _ _ _ (log ?b)) =>
          apply (quiet_trans a b); [|apply quiet_same_log; reflexivity]
      end ] ].

(** Stepping through a run that may not return, with [tac] for the calls
    of functions whose lemma is known. *)
Ltac run_safely tac :=
  repeat first
    [ step_safely
    | eapply safely_weaken; [solve [tac]|]; cbv beta; intros ].

Lemma quiet_validate_reference def key g :
  safely (checker_validate_reference def key) g (fun _ g' => quiet g g').
Proof.
  unfold checker_validate_reference. run_safely fail; solve_quiet.
Qed.

Lemma quiet_check_required def props :
  forall errors g,
    safely (check_required def props errors) g (fun _ g' => quiet g g').
Proof.
  induction props as [|prop next IH]; intros errors g; simpl;
    run_safely ltac:(apply IH); solve_quiet.
Qed.

Lemma quiet_check_optional def props :
  forall errors g,
    safely (check_optional def props errors) g (fun _ g' => quiet g g').
Proof.
  induction props as [|prop next IH]; intros errors g; simpl;
    run_safely ltac:(apply IH); solve_quiet.
Qed.

Lemma quiet_values_in_range pr def instance l h vals :
  forall errors g,
    safely (values_in_range pr def instance l h vals errors) g
      (fun _ g' => quiet g g').
Proof.
  induction vals as [|val next IH]; intros errors g; simpl;
    run_safely ltac:(apply IH); solve_quiet.
Qed.

Lemma quiet_value_in_prop_range instance def pr prop g :
  safely (checker_value_in_prop_range instance def pr prop) g
    (fun _ g' => quiet g g').
Proof.
  unfold checker_value_in_prop_range.
  run_safely ltac:(apply quiet_values_in_range); solve_quiet.
Qed.

Lemma quiet_value_in_range_props instance def pr props :
  forall errors g,
    safely (value_in_range_props instance def pr props errors) g
      (fun _ g' => quiet g g').
Proof.
  induction props as [|prop next IH]; intros errors g; simpl;
    run_safely ltac:(first [apply IH | apply quiet_value_in_prop_range]);
    solve_quiet.
Qed.

Lemma quiet_value_in_range instance def pr g :
  safely (checker_value_in_range instance def pr) g
    (fun _ g' => quiet g g').
Proof.
  unfold checker_value_in_range.
  run_safely ltac:(apply quiet_value_in_range_props); solve_quiet.
Qed.

Lemma quiet_validate_special_from specials root def ident :
  forall found g,
    safely (validate_special_from specials root def ident found) g
      (fun _ g' => quiet g g').
Proof.
  induction specials as [|special next IH]; intros found g; simpl;
    run_safely ltac:(apply IH); solve_quiet.
Qed.

(** What identifies a statement, and the statements of an identity. *)
Definition statement_key (def : definition_t) : string * string :=
  (d_type def, d_instance def).

Definition is_key (type instance : string) (def : definition_t) : bool :=
  String.eqb (d_type def) type && String.eqb (d_instance def) instance.

Fixpoint count_key (type instance : string) (root : list definition_t) : Z :=
  match root with
  | [] => 0
  | def :: next =>
      (if is_key type instance def then 1 else 0)
      + count_key type instance next
  end.

Lemma count_key_nonneg type instance root :
  0 <= count_key type instance root.
Proof.
  induction root as [|def next IH]; simpl; [lia|].
  destruct (is_key type instance def); lia.
Qed.

Lemma count_key_app type instance l1 l2 :
  count_key type instance (l1 ++ l2)
  = count_key type instance l1 + count_key type instance l2.
Proof.
  induction l1 as [|def next IH]; simpl; [reflexivity|]. rewrite IH. lia.
Qed.

Lemma is_key_statement_key type instance d d' :
  statement_key d = statement_key d' ->
  is_key type instance d = is_key type instance d'.
Proof. unfold statement_key, is_key. intros H. now inversion H. Qed.

Lemma count_key_same_keys type instance l :
  forall l',
    map statement_key l = map statement_key l' ->
    count_key type instance l = count_key type instance l'.
Proof.
  induction l as [|d l IH]; intros [|d' l'] H; simpl in *;
    try discriminate; [reflexivity|].
  injection H as Ht Hi Hl. rewrite (IH l' Hl).
  unfold is_key. now rewrite Ht, Hi.
Qed.

Lemma firstn_succ_nth {A} (l : list A) i x :
  nth_error l i = Some x -> firstn (S i) l = firstn i l ++ [x].
Proof.
  revert i. induction l as [|y l IH]; intros [|i] H; simpl in *;
    try discriminate.
  - now inversion H.
  - now rewrite (IH i H).
Qed.

Lemma is_key_self def : is_key (d_type def) (d_instance def) def = true.
Proof. unfold is_key. now rewrite !String.eqb_refl. Qed.

Lemma count_key_In type instance root def :
  In def root -> is_key type instance def = true ->
  1 <= count_key type instance root.
Proof.
  induction root as [|d next IH]; simpl; [tauto|].
  intros [->|Hin] Hk.
  - rewrite Hk. pose proof (count_key_nonneg type instance next). lia.
  - specialize (IH Hin Hk). destruct (is_key type instance d); lia.
Qed.

(** [checker_count_definition] returns the number of statements of the
    identity and marks each of them that has one before it. *)
Lemma count_definition_from_spec type instance root :
  forall count root' n,
    count_definition_from count root type instance = (root', n) ->
    n = count + count_key type instance root
    /\ List.length root' = List.length root
    /\ forall j def,
         nth_error root j = Some def ->
         nth_error root' j
         = Some (if is_key type instance def
                    && (1 <=? count
                              + count_key type instance (firstn j root))
                 then set_d_duplicate 1 def else def).
Proof.
  induction root as [|def next IH]; intros count root' n; simpl.
  - intros H. inversion H. split; [lia|]. split; [reflexivity|].
    intros [|j] d Hd; discriminate.
  - fold (is_key type instance def).
    destruct (is_key type instance def) eqn:Ek.
    + destruct (count_definition_from (count + 1) next type instance)
        as [next' n'] eqn:E. apply IH in E. destruct E as (-> & Hl & Hn).
      intros H. inversion H. split; [lia|]. split; [simpl; lia|].
      intros [|j] d Hd; simpl in *.
      * inversion Hd; subst d. rewrite Ek, Z.add_0_r. simpl.
        destruct (1 <? count + 1) eqn:E1, (1 <=? count) eqn:E2;
          try reflexivity; lia.
      * rewrite (Hn j d Hd), Ek.
        replace (count + 1 + count_key type instance (firstn j next))
          with (count + (1 + count_key type instance (firstn j next)))
          by lia.
        reflexivity.
    + destruct (count_definition_from count next type instance)
        as [next' n'] eqn:E. apply IH in E. destruct E as (-> & Hl & Hn).
      intros H. inversion H. split; [lia|]. split; [simpl; lia|].
      intros [|j] d Hd; simpl in *.
      * inversion Hd; subst d. now rewrite Ek.
      * rewrite (Hn j d Hd), Ek. reflexivity.
Qed.

(** The parts of a statement the count of definitions looks at. *)
Definition marks (def : definition_t) : string * string * Z :=
  (d_type def, d_instance def, d_duplicate def).

Lemma map_update_at {A B} (h : A -> B) (l : list A) i f x :
  nth_error l i = Some x -> h (f x) = h x -> map h (update l i f) = map h l.
Proof.
  revert i. induction l as [|y r IH]; intros [|i] Hx Hf; simpl in *;
    try discriminate.
  - inversion Hx; subst y. now rewrite Hf.
  - now rewrite (IH i).
Qed.

Lemma marks_update_value root i j f :
  map marks (update_value root i j f) = map marks root.
Proof. unfold update_value. apply map_update. now intros []. Qed.

Lemma marks_resolve_variable root i j g :
  safely (checker_resolve_variable root i j) g
    (fun r g' => map marks (fst r) = map marks root /\ quiet g g').
Proof.
  unfold checker_resolve_variable.
  apply safely_bind, safely_deref. intros def _.
  apply safely_bind, safely_deref. intros pr _.
  destruct (v_ident (p_value pr)) as [ident|];
    [|apply safely_ret; split; [reflexivity|apply quiet_refl]].
  destruct (checker_find_variable root "SW" "Param" (Some ident))
    as [[i' j']|]; cbv beta iota zeta;
  match goal with
  | |- context [checker_find_variable ?r "SW" "Sim" ?x] =>
      destruct (checker_find_variable r "SW" "Sim" x)
  end;
  destruct (checker_find_substrate def (Some ident)); cbv beta iota zeta;
  match goal with
  | |- context [checker_find_variable ?r "Sub" "Type" ?x] =>
      destruct (checker_find_variable r "Sub" "Type" x)
  end;
  (apply safely_bind; eapply safely_weaken;
   [apply quiet_validate_special_from|]; cbv beta; intros special g1 Hq);
  destruct (special =? 0);
  match goal with
  | |- context [checker_find_variable ?r "SPfile" "File" ?x] =>
      destruct (checker_find_variable r "SPfile" "File" x)
  end;
  cbn [Z.add Z.eqb Pos.add Pos.succ];
  run_safely fail; cbn [fst];
  (split; [now rewrite ?marks_update_value | solve_quiet]).
Qed.

Lemma marks_check_pairs available n :
  forall i j root errors g,
    safely (check_pairs available n i j root errors) g
      (fun r g' => map marks (fst r) = map marks root /\ quiet g g').
Proof.
  induction n as [|n IH]; intros i j root errors g; simpl.
  - apply safely_ret. split; [reflexivity|apply quiet_refl].
  - apply safely_bind, safely_deref. intros def _.
    destruct (nth_error (d_pairs def) j) as [pr|];
      [|apply safely_ret; split; [reflexivity|apply quiet_refl]].
    apply safely_bind.
    assert (Hfirst :
      safely
        (if checker_is_property available (p_key pr) then ret errors
         else
           logprint (ErrExtraneous (d_line def) (p_key pr) (d_type def)
                       (d_instance def)) ;;;
           ret (errors + 1)) g (fun _ g' => quiet g g')).
    { run_safely fail; solve_quiet. }
    eapply safely_weaken; [exact Hfirst|]. cbv beta. intros e1 g1 H1.
    destruct (checker_evaluate_scale (p_value pr)) as [value ok].
    apply safely_bind. eapply safely_weaken; [apply quiet_value_in_range|].
    cbv beta. intros ok2 g2 H2.
    apply safely_bind. eapply safely_weaken; [apply marks_resolve_variable|].
    cbv beta. intros [root3 ok3] g3 [H3 H3'].
    eapply safely_weaken; [apply IH|]. cbv beta. intros r g4 [H4 H4'].
    split; [|solve_quiet].
    rewrite H4. cbn [fst] in H3. rewrite H3. apply marks_update_value.
Qed.

Lemma marks_check_available root i def errors g :
  nth_error root i = Some def ->
  safely (check_available root i def errors) g
    (fun r g' => map marks (fst r) = map marks root /\ quiet g g').
Proof.
  intros Hd. unfold check_available.
  destruct (checker_find_definition (d_type def) (d_action def))
    as [available|].
  - cbv zeta. apply safely_bind.
    match goal with
    | |- safely ?c g _ =>
        assert (Hfirst : safely c g (fun _ g' => quiet g g'))
    end.
    { run_safely fail; solve_quiet. }
    eapply safely_weaken; [exact Hfirst|]. cbv beta. intros e1 g1 H1.
    apply safely_bind. eapply safely_weaken; [apply quiet_check_required|].
    cbv beta. intros e2 g2 H2.
    apply safely_bind. eapply safely_weaken; [apply quiet_check_optional|].
    cbv beta. intros e3 g3 H3.
    eapply safely_weaken; [apply marks_check_pairs|].
    cbv beta. intros r g4 [H4 H4']. split; [|solve_quiet].
    rewrite H4. apply (map_update_at marks root i _ def Hd). reflexivity.
  - run_safely fail. cbn [fst]. split; [reflexivity|solve_quiet].
Qed.

(** The loop over a statement list keeps what each round keeps. *)
Lemma for_definitions_inv {L : Type}
    (body : list definition_t -> nat -> definition_t -> L
            -> M (list definition_t * L))
    (Inv : nat -> list definition_t -> L -> globals -> Prop) (N : nat) :
  (forall i root s g, Inv i root s g -> List.length root = N) ->
  (forall i root s g def,
     Inv i root s g -> nth_error root i = Some def ->
     safely (body root i def s) g
       (fun r g' => Inv (S i) (fst r) (snd r) g')) ->
  forall n i root s g,
    (i + n = N)%nat -> Inv i root s g ->
    safely (for_definitions body n i root s) g
      (fun r g' => Inv N (fst r) (snd r) g').
Proof.
  intros Hlen Hbody. induction n as [|n IH]; intros i root s g Hn Hinv;
    simpl.
  - apply safely_ret. simpl. now replace N with i by lia.
  - destruct (nth_error root i) as [def|] eqn:E.
    + apply safely_bind. eapply safely_weaken; [now apply Hbody|].
      cbv beta. intros [root1 s1] g1 H1. apply IH; [lia|exact H1].
    + apply nth_error_None in E. apply Hlen in Hinv. lia.
Qed.

(** The messages about the number of definitions of one identity. *)
Definition is_definition_count_of (type instance : string) (d : diag)
  : bool :=
  match d with
  | ErrDefinitionCount _ t s => String.eqb t type && String.eqb s instance
  | _ => false
  end.

Definition definition_counts (type instance : string) (g : globals) : Z :=
  Z.of_nat (List.length
              (filter (is_definition_count_of type instance) (log g))).

Lemma quiet_definition_counts type instance g g' :
  quiet g g' ->
  definition_counts type instance g' = definition_counts type instance g.
Proof.
  intros H. unfold definition_counts. f_equal. f_equal.
  apply quiet_filter; [|exact H]. now intros [].
Qed.

Lemma map_eq_nth_error {A B} (h : A -> B) (l l' : list A) j x :
  map h l' = map h l -> nth_error l j = Some x ->
  exists x', nth_error l' j = Some x' /\ h x' = h x.
Proof.
  intros E H. apply (map_nth_error h) in H. rewrite <- E in H.
  rewrite nth_error_map in H.
  destruct (nth_error l' j) as [x'|]; [|discriminate].
  exists x'. split; [reflexivity|]. now inversion H.
Qed.

Lemma count_key_firstn_same_keys type instance l l' j :
  map statement_key l = map statement_key l' ->
  count_key type instance (firstn j l) = count_key type instance (firstn j l').
Proof.
  intros E. apply count_key_same_keys. now rewrite <- !firstn_map, E.
Qed.

(** What the loop of [netlist_checker_intern] has done when it reaches
    statement [i] of the list that was [root0] at the start, with the
    globals [g0]: the statements keep their identities; a statement is
    marked when a statement of its identity is before it and the loop has
    passed the first of them; and one message has been printed for each
    identity with two statements or more whose first statement the loop
    has passed. *)
Definition duplicates_inv (root0 : list definition_t) (g0 : globals)
    (i : nat) (root : list definition_t) (g : globals) : Prop :=
  map statement_key root = map statement_key root0
  /\ (forall j d0 d,
        nth_error root0 j = Some d0 -> nth_error root j = Some d ->
        d_duplicate d
        = if (1 <=? count_key (d_type d0) (d_instance d0) (firstn j root0))
             && (1 <=? count_key (d_type d0) (d_instance d0)
                         (firstn i root0))
          then 1 else 0)
  /\ (forall type instance,
        definition_counts type instance g
        = definition_counts type instance g0
          + if (1 <=? count_key type instance (firstn i root0))
               && (2 <=? count_key type instance root0)
            then 1 else 0).

Lemma is_key_true type instance def :
  is_key type instance def = true ->
  d_type def = type /\ d_instance def = instance.
Proof.
  unfold is_key. intros H. apply andb_true_iff in H. destruct H as [H1 H2].
  apply String.eqb_eq in H1, H2. auto.
Qed.

Lemma is_key_sym d d' :
  is_key (d_type d) (d_instance d) d' = is_key (d_type d') (d_instance d') d.
Proof.
  unfold is_key.
  now rewrite (String.eqb_sym (d_type d')), (String.eqb_sym (d_instance d')).
Qed.

Lemma duplicates_inv_step root0 g0 i root errors g def :
  duplicates_inv root0 g0 i root g -> nth_error root i = Some def ->
  safely (netlist_checker_def root i def errors) g
    (fun r g' => duplicates_inv root0 g0 (S i) (fst r) g').
Proof.
  intros (Hkeys & Hmarks & Hlog) Hdef. unfold netlist_checker_def.
  apply safely_bind.
  eapply safely_weaken; [apply marks_check_available; exact Hdef|].
  cbv beta. intros [root1 e1] g1 [H1 Hq]. cbn [fst] in H1.
  destruct (checker_count_definition root1 (d_type def) (d_instance def))
    as [root2 n] eqn:Ec.
  apply count_definition_from_spec in Ec.
  destruct Ec as (Hn & Hlen2 & Hnth2). rewrite Z.add_0_l in Hn.
  (* the statement of the original list at index [i] *)
  destruct (map_eq_nth_error statement_key root root0 i def
              (eq_sym Hkeys) Hdef) as (d0i & Hd0i & Hk0i).
  assert (Hki : is_key (d_type def) (d_instance def) d0i = true).
  { unfold statement_key in Hk0i. inversion Hk0i. apply is_key_self. }
  assert (Hkeys1 : map statement_key root1 = map statement_key root0).
  { rewrite <- Hkeys.
    assert (E : map statement_key root1
                = map (fun m => (fst (fst m), snd (fst m)))
                    (map marks root1))
      by (rewrite map_map; reflexivity).
    rewrite E, H1, map_map. reflexivity. }
  assert (Hcount : forall j,
    count_key (d_type def) (d_instance def) (firstn j root1)
    = count_key (d_type def) (d_instance def) (firstn j root0)).
  { intros j. now apply count_key_firstn_same_keys. }
  assert (HN : n = count_key (d_type def) (d_instance def) root0).
  { rewrite Hn. now apply count_key_same_keys. }
  assert (HN1 : 1 <= n).
  { rewrite HN. eapply count_key_In; [|exact Hki].
    eapply nth_error_In; eassumption. }
  assert (Hsucc : forall type instance,
    count_key type instance (firstn (S i) root0)
    = count_key type instance (firstn i root0)
      + if is_key type instance d0i then 1 else 0).
  { intros t s. rewrite (firstn_succ_nth root0 i d0i Hd0i), count_key_app.
    simpl. lia. }
  (* the marks after this round *)
  assert (Hmarks2 : forall j d0 d2,
    nth_error root0 j = Some d0 -> nth_error root2 j = Some d2 ->
    d_duplicate d2
    = if (1 <=? count_key (d_type d0) (d_instance d0) (firstn j root0))
         && (1 <=? count_key (d_type d0) (d_instance d0)
                     (firstn (S i) root0))
      then 1 else 0).
  { intros j d0 d2 Hd0 Hd2.
    destruct (map_eq_nth_error statement_key root0 root1 j d0 Hkeys1 Hd0)
      as (d1 & Hd1 & Hk1).
    destruct (map_eq_nth_error statement_key root0 root j d0 Hkeys Hd0)
      as (d & Hd & Hk).
    destruct (map_eq_nth_error marks root root1 j d H1 Hd)
      as (d1' & Hd1' & Hm1).
    rewrite Hd1 in Hd1'. inversion Hd1'; subst d1'. clear Hd1'.
    rewrite (Hnth2 j d1 Hd1) in Hd2. inversion Hd2; subst d2. clear Hd2.
    rewrite ?Z.add_0_l. rewrite Hcount.
    assert (Hdup1 : d_duplicate d1 = d_duplicate d)
      by (unfold marks in Hm1; now inversion Hm1).
    assert (Hkey1 : is_key (d_type def) (d_instance def) d1
                    = is_key (d_type def) (d_instance def) d0)
      by (now apply is_key_statement_key).
    rewrite Hkey1, Hsucc.
    pose proof (count_key_nonneg (d_type d0) (d_instance d0)
                  (firstn i root0)) as Hnn.
    destruct (is_key (d_type def) (d_instance def) d0) eqn:Ekey.
    - apply is_key_true in Ekey. destruct Ekey as [Et Es].
      rewrite Et, Es, Hki.
      destruct (1 <=? count_key (d_type def) (d_instance def)
                        (firstn j root0)) eqn:Ecnt; simpl.
      + rewrite <- Et, <- Es.
        destruct (1 <=? count_key (d_type d0) (d_instance d0)
                          (firstn i root0) + 1) eqn:E2;
          [reflexivity|lia].
      + rewrite Hdup1, (Hmarks j d0 d Hd0 Hd), Et, Es, Ecnt. reflexivity.
    - simpl. rewrite Hdup1, (Hmarks j d0 d Hd0 Hd).
      assert (Eki : is_key (d_type d0) (d_instance d0) d0i = false).
      { rewrite is_key_sym.
        inversion Hk0i as [[Ht Hi]]. rewrite Ht, Hi. exact Ekey. }
      rewrite Eki, Z.add_0_r. reflexivity. }
  assert (Hkeys2 : map statement_key root2 = map statement_key root0).
  { rewrite <- Hkeys1. apply nth_error_ext. intros j.
    rewrite !nth_error_map.
    destruct (nth_error root1 j) as [d1|] eqn:Ed1.
    - rewrite (Hnth2 j d1 Ed1). simpl. now destruct (_ && _).
    - apply nth_error_None in Ed1.
      assert (E : nth_error root2 j = None)
        by (apply nth_error_None; lia).
      now rewrite E. }
  apply safely_bind, safely_deref. intros def2 Hdef2.
  pose proof (Hmarks2 i d0i def2 Hd0i Hdef2) as Hdup2.
  assert (Ekd : d_type d0i = d_type def /\ d_instance d0i = d_instance def)
    by (now apply is_key_true).
  destruct Ekd as [Etd Eid]. rewrite Etd, Eid, Hsucc, Hki in Hdup2.
  pose proof (count_key_nonneg (d_type def) (d_instance def)
                (firstn i root0)) as Hnn.
  assert (E3 : (1 <=? count_key (d_type def) (d_instance def)
                        (firstn i root0) + 1) = true)
    by (apply Z.leb_le; lia).
  rewrite E3, andb_true_r in Hdup2.
  assert (Hkd2 : d_type def2 = d_type def /\ d_instance def2 = d_instance def).
  { destruct (map_eq_nth_error statement_key root0 root2 i d0i Hkeys2 Hd0i)
      as (d2 & Hd2 & Hk2).
    rewrite Hdef2 in Hd2. inversion Hd2; subst d2.
    unfold statement_key in Hk2. inversion Hk2. split; congruence. }
  destruct Hkd2 as [Et2 Ei2].
  destruct (negb (n =? 1) && (d_duplicate def2 =? 0)) eqn:Emsg.
  - apply safely_bind, safely_logprint, safely_ret. cbn [fst].
    split; [exact Hkeys2|]. split; [exact Hmarks2|].
    intros t s. unfold definition_counts at 1. cbn [log filter].
    cbn [is_definition_count_of]. rewrite Et2, Ei2.
    fold (is_key t s def).
    assert (Ek : is_key t s d0i = is_key t s def)
      by (unfold is_key; now rewrite Etd, Eid).
    rewrite Hsucc, Ek.
    pose proof (quiet_definition_counts t s g g1 Hq) as Hq1.
    unfold definition_counts in Hq1 at 1.
    specialize (Hlog t s). rewrite <- Hq1 in Hlog.
    apply andb_true_iff in Emsg. destruct Emsg as [En Ed].
    apply negb_true_iff, Z.eqb_neq in En. apply Z.eqb_eq in Ed.
    rewrite Ed in Hdup2.
    destruct (is_key t s def) eqn:Ekey.
    + apply is_key_true in Ekey. destruct Ekey as [<- <-].
      cbn [List.length]. rewrite Nat2Z.inj_succ, Hlog. rewrite <- HN, E3.
      destruct (1 <=? count_key (d_type def) (d_instance def)
                        (firstn i root0)) eqn:E1; [discriminate|].
      destruct (2 <=? n) eqn:E4; [simpl; lia|lia].
    + rewrite Z.add_0_r. exact Hlog.
  - apply safely_ret. cbn [fst].
    split; [exact Hkeys2|]. split; [exact Hmarks2|].
    intros t s.
    assert (Ek : is_key t s d0i = is_key t s def)
      by (unfold is_key; now rewrite Etd, Eid).
    rewrite Hsucc, Ek, (quiet_definition_counts t s g g1 Hq), (Hlog t s).
    destruct (is_key t s def) eqn:Ekey; [|now rewrite Z.add_0_r].
    apply is_key_true in Ekey. destruct Ekey as [<- <-]. rewrite <- HN.
    apply andb_false_iff in Emsg. rewrite E3.
    destruct (1 <=? count_key (d_type def) (d_instance def)
                      (firstn i root0)) eqn:E1; [reflexivity|].
    destruct Emsg as [Emsg|Emsg].
    + apply negb_false_iff, Z.eqb_eq in Emsg.
      destruct (2 <=? n) eqn:E4; [lia|reflexivity].
    + rewrite Hdup2 in Emsg. discriminate.
Qed.

(** The later phases keep the identities and the marks of the
    statements. *)
Definition keeps_marks (root root' : list definition_t) : Prop :=
  map statement_key root' = map statement_key root
  /\ forall j d d',
       nth_error root j = Some d -> nth_error root' j = Some d' ->
       d_duplicate d = 1 -> d_duplicate d' = 1.

Lemma keeps_marks_refl root : keeps_marks root root.
Proof. split; [reflexivity|]. intros j d d' H1 H2. congruence. Qed.

Lemma keeps_marks_trans r1 r2 r3 :
  keeps_marks r1 r2 -> keeps_marks r2 r3 -> keeps_marks r1 r3.
Proof.
  intros [K1 M1] [K2 M2]. split; [congruence|].
  intros j d d' H1 H3 Hd.
  destruct (map_eq_nth_error statement_key r1 r2 j d K1 H1)
    as (d2 & H2 & _).
  eauto.
Qed.

Lemma keeps_marks_count_definition root type instance root' n :
  checker_count_definition root type instance = (root', n) ->
  keeps_marks root root'.
Proof.
  intros H. apply count_definition_from_spec in H.
  destruct H as (_ & Hlen & Hnth). split.
  - apply nth_error_ext. intros j. rewrite !nth_error_map.
    destruct (nth_error root j) as [d|] eqn:Ed.
    + rewrite (Hnth j d Ed). simpl. now destruct (_ && _).
    + apply nth_error_None in Ed.
      assert (E : nth_error root' j = None) by (apply nth_error_None; lia).
      now rewrite E.
  - intros j d d' Hd Hd' Hdup. rewrite (Hnth j d Hd) in Hd'.
    inversion Hd'. now destruct (_ && _).
Qed.

Lemma quiet_reads {A} (c : M A) g : reads c -> safely c g (fun _ g' => quiet g g').
Proof.
  intros H. apply safely_eq. intros x g' E. apply H in E. subst g'.
  apply quiet_refl.
Qed.

Lemma keeps_validate_strips_def strips def :
  forall root errors g,
    safely (validate_strips_def strips root def errors) g
      (fun r g' => keeps_marks root (fst r) /\ quiet g g').
Proof.
  induction strips as [|strip next IH]; intros root errors g; simpl.
  - apply safely_ret. split; [apply keeps_marks_refl|apply quiet_refl].
  - destruct (String.eqb strip (d_type def)); [|apply IH].
    apply safely_bind.
    eapply safely_weaken; [apply quiet_validate_reference|].
    cbv beta. intros [val|] g1 H1.
    + apply safely_bind, safely_deref. intros ident _.
      destruct (checker_count_definition root "SUBST" ident)
        as [root1 n] eqn:E.
      apply keeps_marks_count_definition in E.
      destruct (n =? 1).
      * eapply safely_weaken; [apply IH|]. cbv beta.
        intros r g2 [H2 H2']. split; [|solve_quiet].
        eapply keeps_marks_trans; eassumption.
      * apply safely_bind, safely_logprint.
        eapply safely_weaken; [apply IH|]. cbv beta.
        intros r g2 [H2 H2']. split.
        -- eapply keeps_marks_trans; eassumption.
        -- eapply quiet_trans; [|exact H2']. solve_quiet.
    + eapply safely_weaken; [apply IH|]. cbv beta.
      intros r g2 [H2 H2']. split; [assumption|solve_quiet].
Qed.

Lemma keeps_marks_length root root' :
  keeps_marks root root' -> List.length root' = List.length root.
Proof.
  intros [K _]. apply (f_equal (@List.length _)) in K.
  now rewrite !length_map in K.
Qed.

Lemma keeps_validate_strips root g :
  safely (checker_validate_strips root) g
    (fun r g' => keeps_marks root (fst r) /\ quiet g g').
Proof.
  unfold checker_validate_strips.
  eapply safely_weaken.
  - apply (for_definitions_inv _
             (fun _ root' _ g' => keeps_marks root root' /\ quiet g g')
             (List.length root)).
    + intros i root' s g' [H _]. now apply keeps_marks_length.
    + intros i root' s g' def [H1 H2] _.
      destruct (d_action def =? 0).
      * eapply safely_weaken; [apply keeps_validate_strips_def|].
        cbv beta. intros r g2 [H3 H4]. split; [|solve_quiet].
        eapply keeps_marks_trans; eassumption.
      * apply safely_ret. auto.
    + reflexivity.
    + split; [apply keeps_marks_refl|apply quiet_refl].
  - cbv beta. auto.
Qed.

Lemma quiet_validate_sub_cycles_from recurse defs :
  (forall sub deps g,
     safely (recurse sub deps) g (fun _ g' => quiet g g')) ->
  forall checked deps errors g,
    safely (validate_sub_cycles_from recurse defs checked deps errors) g
      (fun _ g' => quiet g g').
Proof.
  intros Hr. induction defs as [|def next IH];
    intros checked deps errors g; simpl.
  - apply safely_ret, quiet_refl.
  - run_safely ltac:(first
      [ apply IH | apply Hr
      | apply quiet_reads, reads_find_subcircuit ]);
      solve_quiet.
Qed.

Lemma quiet_validate_sub_cycles fuel :
  forall root type instance deps g,
    safely (checker_validate_sub_cycles fuel root type instance deps) g
      (fun _ g' => quiet g g').
Proof.
  induction fuel as [|fuel IH]; intros root type instance deps g; simpl.
  - exact I.
  - destruct (strlist_contains deps type).
    + run_safely fail. solve_quiet.
    + apply quiet_validate_sub_cycles_from. intros. apply IH.
Qed.

Lemma quiet_validate_subcircuits_from fuel defs :
  forall errors g,
    safely (validate_subcircuits_from fuel defs errors) g
      (fun _ g' => quiet g g').
Proof.
  induction defs as [|def next IH]; intros errors g; simpl.
  - apply safely_ret, quiet_refl.
  - run_safely ltac:(first
      [ apply IH | apply quiet_validate_reference
      | apply quiet_validate_sub_cycles
      | apply quiet_reads, reads_find_subcircuit ]);
      solve_quiet.
Qed.

Lemma reads_count_node_names nodes n :
  forall count, reads (count_node_names nodes n count).
Proof. induction nodes as [|node next IH]; intros count; simpl; prove_reads; auto. Qed.

Lemma reads_count_nodes_from root n :
  forall count, reads (count_nodes_from root n count).
Proof.
  induction root as [|def next IH]; intros count; simpl; prove_reads;
    auto using reads_count_node_names.
Qed.

Lemma reads_first_node def : reads (first_node def).
Proof. unfold first_node. prove_reads. Qed.

Lemma keeps_count_nodesets_from root n :
  forall count g,
    safely (count_nodesets_from count root n) g
      (fun r g' => keeps_marks root (fst r) /\ g' = g).
Proof.
  induction root as [|def next IH]; intros count g; simpl.
  - apply safely_ret. split; [apply keeps_marks_refl|reflexivity].
  - assert (Hcons : forall d r,
      statement_key d = statement_key def ->
      (d_duplicate def = 1 -> d_duplicate d = 1) ->
      keeps_marks next r -> keeps_marks (def :: next) (d :: r)).
    { intros d r Hk Hd [K Mk]. split; [simpl; now rewrite Hk, K|].
      intros [|j] x x' Hx Hx' Hdup; simpl in *.
      - inversion Hx; inversion Hx'; subst. auto.
      - eauto. }
    destruct (negb (d_nodeset def =? 0) && (d_duplicate def =? 0)).
    + apply safely_bind. apply safely_eq. intros node g1 E.
      apply reads_first_node in E. subst g1.
      destruct (String.eqb node n).
      * apply safely_bind. eapply safely_weaken; [apply IH|]. cbv beta.
        intros [r c] g2 [H ->]. apply safely_ret. split; [|reflexivity].
        apply Hcons; [now destruct (1 <? count + 1)| |assumption].
        now destruct (1 <? count + 1).
      * apply safely_bind. eapply safely_weaken; [apply IH|]. cbv beta.
        intros [r c] g2 [H ->]. apply safely_ret. split; [|reflexivity].
        now apply Hcons.
    + apply safely_bind. eapply safely_weaken; [apply IH|]. cbv beta.
      intros [r c] g2 [H ->]. apply safely_ret. split; [|reflexivity].
      now apply Hcons.
Qed.

Lemma keeps_validate_nodesets root g :
  safely (checker_validate_nodesets root) g
    (fun r g' => keeps_marks root (fst r) /\ quiet g g').
Proof.
  unfold checker_validate_nodesets.
  eapply safely_weaken.
  - apply (for_definitions_inv _
             (fun _ root' _ g' => keeps_marks root root' /\ quiet g g')
             (List.length root)).
    + intros i root' s g' [H _]. now apply keeps_marks_length.
    + intros i root' s g' def [H1 H2] _.
      destruct (negb (d_nodeset def =? 0) && (checker_count_nodes def =? 1)).
      * apply safely_bind.
        eapply safely_weaken; [apply quiet_reads, reads_first_node|].
        cbv beta. intros node g1 Hq1.
        apply safely_bind.
        eapply safely_weaken; [apply quiet_reads, reads_count_nodes_from|].
        cbv beta. intros n g2 Hq2.
        apply safely_bind.
        match goal with
        | |- safely ?c g2 _ =>
            assert (Hfirst : safely c g2 (fun _ g' => quiet g2 g'))
        end.
        { run_safely fail; solve_quiet. }
        eapply safely_weaken; [exact Hfirst|]. cbv beta. intros e g3 Hq3.
        apply safely_bind.
        eapply safely_weaken; [apply keeps_count_nodesets_from|].
        cbv beta. intros [root2 c] g4 [Hk ->]. cbn [fst] in Hk.
        assert (keeps_marks root root2)
          by (eapply keeps_marks_trans; eassumption).
        run_safely fail; cbn [fst]; (split; [assumption|solve_quiet]).
      * apply safely_ret. auto.
    + reflexivity.
    + split; [apply keeps_marks_refl|apply quiet_refl].
  - cbv beta. auto.
Qed.

Lemma nth_error_In_firstn {A} (l : list A) i j x :
  (i < j)%nat -> nth_error l i = Some x -> In x (firstn j l).
Proof.
  revert i j. induction l as [|y l IH]; intros [|i] [|j] Hij H;
    simpl in *; try discriminate; try lia.
  - inversion H. now left.
  - right. apply (IH i j); [lia|assumption].
Qed.

(** C8: of the statements of one type and instance name, each one after
    the first is marked as a duplicate when [netlist_checker_intern]
    returns, and the run has printed the message about the number of
    definitions once for a type and instance name that two statements or
    more share, and for no other.  (The message is printed when the loop is
    at the first of the statements, the only one that is not marked
    then.) *)
Theorem duplicates_marked_and_reported_once (fuel : nat)
    (root root' : list definition_t) (errors : Z) (g g' : globals) :
  Forall (fun def => d_duplicate def = 0) root ->
  netlist_checker_intern fuel root g = Some ((root', errors), g') ->
  (forall i j di dj,
     (i < j)%nat -> nth_error root i = Some di ->
     nth_error root j = Some dj -> statement_key di = statement_key dj ->
     exists d', nth_error root' j = Some d' /\ d_duplicate d' = 1)
  /\ (forall type instance,
        definition_counts type instance g'
        = definition_counts type instance g
          + if 2 <=? count_key type instance root then 1 else 0).
Proof.
  intros Hzero Hrun.
  assert (Hinv0 : duplicates_inv root g 0 root g).
  { split; [reflexivity|]. split.
    - intros j d0 d H0 H. rewrite H0 in H. inversion H; subst d.
      rewrite andb_false_r.
      eapply (proj1 (Forall_forall _ root) Hzero), nth_error_In, H0.
    - intros t s. simpl. lia. }
  assert (Hsafe :
    safely (netlist_checker_intern fuel root) g
      (fun r g' =>
         exists root1 g1,
           duplicates_inv root g (List.length root) root1 g1
           /\ keeps_marks root1 (fst r) /\ quiet g1 g')).
  { unfold netlist_checker_intern. apply safely_bind.
    eapply safely_weaken.
    - apply (for_definitions_inv netlist_checker_def
               (fun i root1 _ g1 => duplicates_inv root g i root1 g1)
               (List.length root)).
      + intros i root1 s g1 (K & _). apply (f_equal (@List.length _)) in K.
        now rewrite !length_map in K.
      + intros i root1 s g1 def Hi Hd. now apply duplicates_inv_step.
      + reflexivity.
      + exact Hinv0.
    - cbv beta. intros [root1 e1] g1 H1. cbn [fst snd] in H1.
      apply safely_bind.
      eapply safely_weaken; [apply keeps_validate_strips|]. cbv beta.
      intros [root2 e2] g2 [K2 Q2]. cbn [fst] in K2.
      apply safely_bind.
      eapply safely_weaken; [apply quiet_validate_subcircuits_from|].
      cbv beta. intros e3 g3 Q3.
      apply safely_bind.
      eapply safely_weaken; [apply keeps_validate_nodesets|]. cbv beta.
      intros [root4 e4] g4 [K4 Q4]. cbn [fst] in K4.
      apply safely_ret. exists root1, g1. cbn [fst].
      split; [exact H1|]. split; [|solve_quiet].
      eapply keeps_marks_trans; eassumption. }
  unfold safely in Hsafe. rewrite Hrun in Hsafe. cbn [fst] in Hsafe.
  destruct Hsafe as (root1 & g1 & (K1 & M1 & L1) & [K Mk] & Q).
  rewrite firstn_all in M1, L1. split.
  - intros i j di dj Hij Hdi Hdj Hkey.
    destruct (map_eq_nth_error statement_key root root1 j dj K1 Hdj)
      as (d1 & Hd1 & _).
    destruct (map_eq_nth_error statement_key root1 root' j d1 K Hd1)
      as (d' & Hd' & _).
    exists d'. split; [exact Hd'|].
    apply (Mk j d1 d' Hd1 Hd'). rewrite (M1 j dj d1 Hdj Hd1).
    assert (H1 : 1 <= count_key (d_type dj) (d_instance dj) (firstn j root)).
    { apply (count_key_In _ _ _ di).
      - eapply nth_error_In_firstn; eassumption.
      - unfold statement_key in Hkey. inversion Hkey. apply is_key_self. }
    assert (H2 : 1 <= count_key (d_type dj) (d_instance dj) root).
    { apply (count_key_In _ _ _ dj); [|apply is_key_self].
      eapply nth_error_In; eassumption. }
    apply Z.leb_le in H1, H2. now rewrite H1, H2.
  - intros t s. rewrite (quiet_definition_counts t s g1 g' Q), (L1 t s).
    f_equal.
    destruct (1 <=? count_key t s root) eqn:E1,
             (2 <=? count_key t s root) eqn:E2; try reflexivity; lia.
Qed.

(** ** Cyclic subcircuit definitions (C2) *)

(** The subcircuit types the elements of a subcircuit body instantiate:
    the [Type] references the loop of [checker_validate_sub_cycles]
    follows. *)
Fixpoint body_refs (defs : list definition_t) : list string :=
  match defs with
  | [] => []
  | def :: next =>
      (if String.eqb (d_type def) "Sub" then
         match checker_find_reference def "Type" with
         | Some val =>
             match v_ident val with
             | Some ident => [ident]
             | None => []
             end
         | None => []
         end
       else [])
      ++ body_refs next
  end.

(** The instantiation graph of a list of subcircuits: the edge from the
    subcircuit named [a] to the subcircuit type [b] says that the body of
    [a] has an instance of [b]. *)
Definition instantiates (subcircuits : list definition_t) (a b : string)
  : Prop :=
  exists sub,
    find_subcircuit_in subcircuits (Some a) = Some sub
    /\ In b (body_refs (d_sub sub)).

(** [b] is instantiated, directly or through other subcircuits, by [a] or
    is [a] itself. *)
Definition reaches (subcircuits : list definition_t) : string -> string -> Prop :=
  clos_refl_trans_1n string (instantiates subcircuits).

(** [a] is reachable from itself via instantiation. *)
Definition cyclic (subcircuits : list definition_t) (a : string) : Prop :=
  clos_trans_1n string (instantiates subcircuits) a a.

(** Each subcircuit type instantiated in a subcircuit reachable from [a]
    is in the list of subcircuits. *)
Definition closed_from (subcircuits : list definition_t) (a : string)
  : Prop :=
  forall b c,
    reaches subcircuits a b -> instantiates subcircuits b c ->
    find_subcircuit_in subcircuits (Some c) <> None.

(** The messages about cyclic subcircuits. *)
Definition is_cyclic_subcircuit (d : diag) : Prop :=
  match d with
  | ErrCyclicSubcircuit _ _ _ => True
  | _ => False
  end.

(** The run from [g] to [g'] has printed [errors] messages about cyclic
    subcircuits and has done nothing else. *)
Definition reports_cycles (errors : Z) (g g' : globals) : Prop :=
  definition_root g' = definition_root g
  /\ subcircuit_root g' = subcircuit_root g
  /\ checker_sub_cycles g' = checker_sub_cycles g
  /\ exists l, log g' = l ++ log g
               /\ Z.of_nat (List.length l) = errors
               /\ Forall is_cyclic_subcircuit l.

Lemma reports_cycles_none g : reports_cycles 0 g g.
Proof. repeat split. exists []. auto. Qed.

Lemma reports_cycles_trans e1 e2 g1 g2 g3 :
  reports_cycles e1 g1 g2 -> reports_cycles e2 g2 g3 ->
  reports_cycles (e1 + e2) g1 g3.
Proof.
  intros (A1 & B1 & C1 & l1 & D1 & E1 & F1) (A2 & B2 & C2 & l2 & D2 & E2 & F2).
  repeat split; try congruence.
  exists (l2 ++ l1). split; [|split].
  - rewrite D2, D1. now rewrite app_assoc.
  - rewrite length_app. lia.
  - apply Forall_app. auto.
Qed.

Lemma reports_cycles_zero g g' : reports_cycles 0 g g' -> g' = g.
Proof.
  intros (A & B & C & l & D & E & _).
  destruct l; [|discriminate]. simpl in D.
  destruct g, g'. simpl in *. congruence.
Qed.

Lemma find_subcircuit_in_name subcircuits n sub :
  find_subcircuit_in subcircuits n = Some sub ->
  n = Some (d_instance sub) /\ In sub subcircuits.
Proof.
  unfold find_subcircuit_in. intros H. apply find_some in H.
  destruct H as [Hin Hn]. destruct n as [n|]; [|discriminate].
  apply String.eqb_eq in Hn. subst n. auto.
Qed.

Lemma strlist_contains_In l s : strlist_contains l s = true <-> In s l.
Proof.
  unfold strlist_contains. rewrite existsb_exists. split.
  - intros (x & Hx & E). apply String.eqb_eq in E. now subst x.
  - intros H. exists s. split; [assumption|apply String.eqb_refl].
Qed.

Lemma strlist_contains_not_In l s : strlist_contains l s = false <-> ~ In s l.
Proof.
  rewrite <- strlist_contains_In. now destruct (strlist_contains l s).
Qed.

Lemma reaches_step subcircuits a b c :
  instantiates subcircuits a b -> reaches subcircuits b c ->
  reaches subcircuits a c.
Proof. intros H1 H2. econstructor; eassumption. Qed.

Lemma closed_from_step subcircuits a b :
  closed_from subcircuits a -> instantiates subcircuits a b ->
  closed_from subcircuits b.
Proof.
  intros H Hab x y Hx Hxy. apply (H x y); [|assumption].
  eapply reaches_step; eassumption.
Qed.

(** The names in the list of dependencies are names of subcircuits, each
    one once: the recursion is as deep as there are subcircuits, at
    most. *)
Definition deps_ok (subcircuits : list definition_t) (deps : strlist)
  : Prop :=
  NoDup deps /\ incl deps (map d_instance subcircuits).

Lemma deps_ok_length subcircuits deps :
  deps_ok subcircuits deps ->
  (List.length deps <= List.length subcircuits)%nat.
Proof.
  intros [H1 H2]. rewrite <- (length_map d_instance subcircuits).
  now apply NoDup_incl_length.
Qed.

Lemma deps_ok_append subcircuits deps sub :
  deps_ok subcircuits deps -> In sub subcircuits ->
  ~ In (d_instance sub) deps ->
  deps_ok subcircuits (strlist_append deps (d_instance sub)).
Proof.
  intros [H1 H2] Hin Hn. unfold strlist_append. split.
  - apply NoDup_app; [assumption|repeat constructor; tauto|].
    intros x Hx [<-|[]]. contradiction.
  - apply incl_app; [assumption|]. intros x [<-|[]].
    now apply in_map.
Qed.

Lemma find_reference_pair_ident pairs key val :
  find_reference_pair pairs key = Some val -> v_ident val <> None.
Proof.
  induction pairs as [|pr next IH]; simpl; [discriminate|].
  destruct (String.eqb (p_key pr) key); [|exact IH].
  destruct (v_ident (p_value pr)) eqn:E; [|exact IH].
  intros H. inversion H. subst val. congruence.
Qed.

Lemma body_refs_In def next y :
  In y (body_refs next) -> In y (body_refs (def :: next)).
Proof. intros H. simpl. apply in_or_app. now right. Qed.

(** What each call of [checker_validate_sub_cycles] needs and gives. *)
Definition sub_cycles_post (subs : list definition_t) (deps : strlist)
    (errors : Z) (g : globals) (r : Z * strlist) (g' : globals) : Prop :=
  errors <= fst r /\ deps_ok subs (snd r) /\ incl deps (snd r)
  /\ reports_cycles (fst r - errors) g g'.

Lemma validate_sub_cycles_from_returns subs fuel recurse defs :
  (forall sub deps g,
     subcircuit_root g = subs ->
     find_subcircuit_in subs (Some (d_instance sub)) = Some sub ->
     closed_from subs (d_instance sub) -> deps_ok subs deps ->
     (List.length subs < fuel + List.length deps)%nat ->
     returns (recurse sub deps) g (sub_cycles_post subs deps 0 g)) ->
  forall checked deps errors g,
    subcircuit_root g = subs ->
    (forall y, In y (body_refs defs) ->
               find_subcircuit_in subs (Some y) <> None
               /\ closed_from subs y) ->
    deps_ok subs deps ->
    (List.length subs < fuel + List.length deps)%nat ->
    returns (validate_sub_cycles_from recurse defs checked deps errors) g
      (sub_cycles_post subs deps errors g).
Proof.
  intros Hrec. induction defs as [|def next IH];
    intros checked deps errors g Hg Hrefs Hdeps Hfuel.
  - simpl. apply returns_ret. unfold sub_cycles_post. simpl.
    split; [lia|]. split; [assumption|]. split; [apply incl_refl|].
    rewrite Z.sub_diag. apply reports_cycles_none.
  - assert (Hnext : forall y, In y (body_refs next) ->
                      find_subcircuit_in subs (Some y) <> None
                      /\ closed_from subs y)
      by (intros y Hy; apply Hrefs; now apply body_refs_In).
    simpl. simpl in Hrefs.
    destruct (String.eqb (d_type def) "Sub"); [|now apply IH].
    destruct (checker_find_reference def "Type") as [val|] eqn:Eref;
      [|now apply IH].
    pose proof (find_reference_pair_ident _ _ _ Eref) as Hid.
    destruct (v_ident val) as [ident|]; [|congruence].
    apply returns_bind, returns_ret.
    destruct (strlist_contains checked ident); [now apply IH|].
    destruct (Hrefs ident (or_introl eq_refl)) as [Hknown Hclosed].
    apply returns_bind. unfold checker_find_subcircuit.
    apply returns_bind. unfold returns at 1, get_subcircuit_root.
    apply returns_ret. rewrite Hg.
    destruct (find_subcircuit_in subs (Some ident)) as [sub|] eqn:Esub;
      [|congruence].
    apply returns_bind, returns_ret.
    destruct (find_subcircuit_in_name _ _ _ Esub) as [Hname Hin].
    inversion Hname; subst ident.
    apply returns_bind.
    eapply returns_weaken; [now apply Hrec|].
    intros [error deps2] g2 (He & Hd2 & Hi2 & Hr2). cbn [fst snd] in *.
    rewrite Z.sub_0_r in Hr2.
    assert (Hg2 : subcircuit_root g2 = subs)
      by (destruct Hr2 as (_ & H & _); congruence).
    destruct (error =? 0) eqn:E0.
    + apply Z.eqb_eq in E0. subst error.
      apply reports_cycles_zero in Hr2. subst g2.
      now apply IH.
    + eapply returns_weaken.
      * apply (IH _ deps2 (errors + error) g2); try assumption.
        destruct Hdeps as [Hnd _].
        pose proof (NoDup_incl_length Hnd Hi2). lia.
      * intros [r deps3] g3 (Hr & Hd3 & Hi3 & Hr3). cbn [fst snd] in *.
        unfold sub_cycles_post. cbn [fst snd].
        split; [lia|]. split; [assumption|].
        split; [eapply incl_tran; eassumption|].
        replace (r - errors) with (error + (r - (errors + error))) by lia.
        eapply reports_cycles_trans; eassumption.
Qed.

Lemma validate_sub_cycles_returns subs instance fuel :
  forall sub deps g,
    subcircuit_root g = subs ->
    find_subcircuit_in subs (Some (d_instance sub)) = Some sub ->
    closed_from subs (d_instance sub) -> deps_ok subs deps ->
    (List.length subs < fuel + List.length deps)%nat ->
    returns
      (checker_validate_sub_cycles fuel sub (d_instance sub) instance deps)
      g (sub_cycles_post subs deps 0 g).
Proof.
  induction fuel as [|fuel IH]; intros sub deps g Hg Hsub Hclosed Hdeps Hfuel.
  - pose proof (deps_ok_length _ _ Hdeps). lia.
  - simpl.
    destruct (strlist_contains deps (d_instance sub)) eqn:Ec.
    + apply returns_bind, returns_logprint, returns_ret.
      unfold sub_cycles_post. cbn [fst snd].
      split; [lia|]. split; [assumption|]. split; [apply incl_refl|].
      repeat split.
      exists [ErrCyclicSubcircuit (d_instance sub) instance deps].
      repeat split. repeat constructor.
    + apply strlist_contains_not_In in Ec.
      destruct (find_subcircuit_in_name _ _ _ Hsub) as [_ Hin].
      eapply returns_weaken.
      * apply (validate_sub_cycles_from_returns subs fuel); try assumption.
        -- intros y Hy.
           assert (Hedge : instantiates subs (d_instance sub) y)
             by (exists sub; auto).
           split.
           ++ apply (Hclosed (d_instance sub) y); [constructor|assumption].
           ++ eapply closed_from_step; eassumption.
        -- now apply deps_ok_append.
        -- unfold strlist_append. rewrite length_app. simpl. lia.
      * intros [r deps'] g' (Hr & Hd & Hi & Hrep).
        unfold sub_cycles_post. cbn [fst snd] in *.
        split; [assumption|]. split; [assumption|]. split; [|assumption].
        intros x Hx. apply Hi. unfold strlist_append.
        apply in_or_app. now left.
Qed.

Lemma clos_trans_1n_snoc {A} (R : relation A) x y z :
  clos_trans_1n A R x y -> R y z -> clos_trans_1n A R x z.
Proof.
  induction 1 as [x y H|x y w H _ IH]; intros Hz.
  - eapply Relation_Operators.t1n_trans; [eassumption|]. now constructor.
  - eapply Relation_Operators.t1n_trans; [eassumption|]. now apply IH.
Qed.

Lemma clos_trans_1n_first {A} (R : relation A) x z :
  clos_trans_1n A R x z ->
  exists y, R x y /\ clos_refl_trans_1n A R y z.
Proof.
  induction 1 as [x y H|x y w H _ (v & Hv & Hvw)].
  - exists y. split; [assumption|constructor].
  - exists y. split; [assumption|]. econstructor; eassumption.
Qed.

(** Without a cycle the search returns no error, prints nothing, and
    leaves the name of the subcircuit at the end of the dependencies. *)
Lemma validate_sub_cycles_from_acyclic subs recurse name deps defs :
  (forall sub deps' g,
     subcircuit_root g = subs ->
     find_subcircuit_in subs (Some (d_instance sub)) = Some sub ->
     instantiates subs name (d_instance sub) ->
     deps' = deps ->
     recurse sub deps' g
     = Some ((0, strlist_append deps (d_instance sub)), g)) ->
  (forall y, In y (body_refs defs) ->
             instantiates subs name y
             /\ find_subcircuit_in subs (Some y) <> None) ->
  forall checked g,
    subcircuit_root g = subs ->
    validate_sub_cycles_from recurse defs checked deps 0 g
    = Some ((0, deps), g).
Proof.
  intros Hrec. induction defs as [|def next IH]; intros Hrefs checked g Hg.
  - reflexivity.
  - assert (Hnext : forall y, In y (body_refs next) ->
                      instantiates subs name y
                      /\ find_subcircuit_in subs (Some y) <> None)
      by (intros y Hy; apply Hrefs; now apply body_refs_In).
    simpl. simpl in Hrefs.
    destruct (String.eqb (d_type def) "Sub"); [|now apply IH].
    destruct (checker_find_reference def "Type") as [val|] eqn:Eref;
      [|now apply IH].
    pose proof (find_reference_pair_ident _ _ _ Eref) as Hid.
    destruct (v_ident val) as [ident|]; [|congruence].
    unfold bind at 1. simpl.
    destruct (strlist_contains checked ident); [now apply IH|].
    destruct (Hrefs ident (or_introl eq_refl)) as [Hedge Hknown].
    unfold bind, checker_find_subcircuit, bind, get_subcircuit_root, ret.
    rewrite Hg.
    destruct (find_subcircuit_in subs (Some ident)) as [sub|] eqn:Esub;
      [|congruence].
    destruct (find_subcircuit_in_name _ _ _ Esub) as [Hname Hin].
    inversion Hname; subst ident. simpl.
    rewrite (Hrec sub deps g Hg Esub Hedge eq_refl). simpl.
    now apply IH.
Qed.

Lemma validate_sub_cycles_acyclic subs instance fuel :
  forall sub deps g,
    subcircuit_root g = subs ->
    find_subcircuit_in subs (Some (d_instance sub)) = Some sub ->
    closed_from subs (d_instance sub) -> deps_ok subs deps ->
    (List.length subs < fuel + List.length deps)%nat ->
    (forall b, reaches subs (d_instance sub) b -> ~ cyclic subs b) ->
    (forall d, In d deps ->
               clos_trans_1n string (instantiates subs) d (d_instance sub)) ->
    checker_validate_sub_cycles fuel sub (d_instance sub) instance deps g
    = Some ((0, strlist_append deps (d_instance sub)), g).
Proof.
  induction fuel as [|fuel IH];
    intros sub deps g Hg Hsub Hclosed Hdeps Hfuel Hacyclic Hanc.
  - pose proof (deps_ok_length _ _ Hdeps). lia.
  - simpl.
    destruct (strlist_contains deps (d_instance sub)) eqn:Ec.
    + apply strlist_contains_In in Ec. apply Hanc in Ec.
      exfalso. apply (Hacyclic (d_instance sub)); [constructor|exact Ec].
    + apply strlist_contains_not_In in Ec.
      destruct (find_subcircuit_in_name _ _ _ Hsub) as [_ Hin].
      apply (validate_sub_cycles_from_acyclic subs _ (d_instance sub));
        [| |assumption].
      * intros sub' deps' g' Hg' Hsub' Hedge ->.
        apply IH; try assumption.
        -- eapply closed_from_step; eassumption.
        -- now apply deps_ok_append.
        -- unfold strlist_append. rewrite length_app. simpl. lia.
        -- intros b Hb. apply Hacyclic. eapply reaches_step; eassumption.
        -- unfold strlist_append. intros d Hd. apply in_app_or in Hd.
           destruct Hd as [Hd|[<-|[]]].
           ++ eapply clos_trans_1n_snoc; [now apply Hanc|assumption].
           ++ now constructor.
      * intros y Hy.
        assert (Hedge : instantiates subs (d_instance sub) y)
          by (exists sub; auto).
        split; [assumption|].
        apply (Hclosed (d_instance sub) y); [constructor|assumption].
Qed.

Lemma returns_both {A} (c : M A) g (Q Q' : A -> globals -> Prop) :
  returns c g Q -> returns c g Q' ->
  returns c g (fun x g' => Q x g' /\ Q' x g').
Proof. unfold returns. destruct (c g) as [[x g']|]; tauto. Qed.

(** The search reports an error when an element of the body instantiates
    a subcircuit [y0] whose search reports one. *)
Lemma validate_sub_cycles_from_finds subs fuel recurse D y0 defs :
  (forall sub deps g,
     subcircuit_root g = subs ->
     find_subcircuit_in subs (Some (d_instance sub)) = Some sub ->
     closed_from subs (d_instance sub) -> deps_ok subs deps ->
     (List.length subs < fuel + List.length deps)%nat ->
     returns (recurse sub deps) g (sub_cycles_post subs deps 0 g)) ->
  (forall sub deps g,
     subcircuit_root g = subs ->
     find_subcircuit_in subs (Some y0) = Some sub ->
     closed_from subs (d_instance sub) -> deps_ok subs deps ->
     incl D deps ->
     (List.length subs < fuel + List.length deps)%nat ->
     returns (recurse sub deps) g (fun r _ => 1 <= fst r)) ->
  forall checked deps errors g,
    subcircuit_root g = subs ->
    (forall y, In y (body_refs defs) ->
               find_subcircuit_in subs (Some y) <> None
               /\ closed_from subs y) ->
    deps_ok subs deps -> incl D deps ->
    (List.length subs < fuel + List.length deps)%nat ->
    0 <= errors ->
    (In y0 checked -> 1 <= errors) ->
    In y0 (body_refs defs) \/ 1 <= errors ->
    returns (validate_sub_cycles_from recurse defs checked deps errors) g
      (fun r _ => 1 <= fst r).
Proof.
  intros Hrec Hbad. induction defs as [|def next IH];
    intros checked deps errors g Hg Hrefs Hdeps HD Hfuel He Hchecked Hy0.
  - simpl. apply returns_ret. simpl. destruct Hy0 as [[]|H]. exact H.
  - assert (Hnext : forall y, In y (body_refs next) ->
                      find_subcircuit_in subs (Some y) <> None
                      /\ closed_from subs y)
      by (intros y Hy; apply Hrefs; now apply body_refs_In).
    simpl. simpl in Hrefs, Hy0.
    destruct (String.eqb (d_type def) "Sub"); [|now apply IH].
    destruct (checker_find_reference def "Type") as [val|] eqn:Eref;
      [|now apply IH].
    pose proof (find_reference_pair_ident _ _ _ Eref) as Hid.
    destruct (v_ident val) as [ident|]; [|congruence].
    apply returns_bind, returns_ret.
    destruct (strlist_contains checked ident) eqn:Ec.
    { apply strlist_contains_In in Ec. apply IH; try assumption.
      destruct Hy0 as [[<-|Hy0]|Hy0]; auto. }
    apply strlist_contains_not_In in Ec.
    destruct (Hrefs ident (or_introl eq_refl)) as [Hknown Hclosed].
    apply returns_bind. unfold checker_find_subcircuit.
    apply returns_bind. unfold returns at 1, get_subcircuit_root.
    apply returns_ret. rewrite Hg.
    destruct (find_subcircuit_in subs (Some ident)) as [sub|] eqn:Esub;
      [|congruence].
    apply returns_bind, returns_ret.
    destruct (find_subcircuit_in_name _ _ _ Esub) as [Hname Hin].
    inversion Hname; subst ident.
    apply returns_bind.
    assert (Hrun :
      returns (recurse sub deps) g
        (fun r g' => sub_cycles_post subs deps 0 g r g'
                     /\ (y0 = d_instance sub -> 1 <= fst r))).
    { destruct (String.eqb_spec y0 (d_instance sub)) as [->|Hne].
      - eapply returns_weaken.
        + apply returns_both; [now apply Hrec|now apply Hbad].
        + cbv beta. tauto.
      - eapply returns_weaken; [now apply Hrec|]. cbv beta. tauto. }
    eapply returns_weaken; [exact Hrun|]. clear Hrun.
    intros [error deps2] g2 [(Herr & Hd2 & Hi2 & Hr2) Hfound].
    cbn [fst snd] in *. rewrite Z.sub_0_r in Hr2.
    assert (Hg2 : subcircuit_root g2 = subs)
      by (destruct Hr2 as (_ & H & _); congruence).
    assert (Hin' : forall errors',
      errors <= errors' -> (y0 = d_instance sub -> 1 <= errors') ->
      In y0 (strlist_append checked (d_instance sub)) -> 1 <= errors').
    { intros errors' Hle Hsub' Hy. unfold strlist_append in Hy.
      apply in_app_or in Hy. destruct Hy as [Hy|[<-|[]]]; [|auto].
      specialize (Hchecked Hy). lia. }
    destruct (error =? 0) eqn:E0.
    + apply Z.eqb_eq in E0. subst error.
      apply reports_cycles_zero in Hr2. subst g2.
      apply IH; try assumption.
      * apply Hin'; [lia|]. intros Hy. specialize (Hfound Hy). lia.
      * destruct Hy0 as [[<-|Hy0]|Hy0]; auto.
        specialize (Hfound eq_refl). lia.
    + apply Z.eqb_neq in E0.
      apply IH; try assumption.
      * eapply incl_tran; eassumption.
      * destruct Hdeps as [Hnd _].
        pose proof (NoDup_incl_length Hnd Hi2). lia.
      * lia.
      * apply Hin'; [lia|]. intros Hy. specialize (Hfound Hy). lia.
      * destruct Hy0 as [[<-|Hy0]|Hy0]; auto.
        -- right. specialize (Hfound eq_refl). lia.
        -- right. lia.
Qed.

(** Common part of the two lemmas below: the search from a subcircuit
    reports an error when the search from one of the subcircuits its body
    instantiates does so, whatever the dependencies are. *)
Lemma validate_sub_cycles_child subs instance fuel sub deps g y0 :
  subcircuit_root g = subs ->
  find_subcircuit_in subs (Some (d_instance sub)) = Some sub ->
  closed_from subs (d_instance sub) -> deps_ok subs deps ->
  (List.length subs < S fuel + List.length deps)%nat ->
  instantiates subs (d_instance sub) y0 ->
  (forall sub' deps' g',
     subcircuit_root g' = subs ->
     find_subcircuit_in subs (Some y0) = Some sub' ->
     closed_from subs (d_instance sub') -> deps_ok subs deps' ->
     incl (strlist_append deps (d_instance sub)) deps' ->
     (List.length subs < fuel + List.length deps')%nat ->
     returns
       (checker_validate_sub_cycles fuel sub' (d_instance sub') instance
          deps') g' (fun r _ => 1 <= fst r)) ->
  returns
    (checker_validate_sub_cycles (S fuel) sub (d_instance sub) instance deps)
    g (fun r _ => 1 <= fst r).
Proof.
  intros Hg Hsub Hclosed Hdeps Hfuel Hedge Hbad. simpl.
  destruct (strlist_contains deps (d_instance sub)) eqn:Ec.
  - apply returns_bind, returns_logprint, returns_ret. simpl. lia.
  - apply strlist_contains_not_In in Ec.
    destruct (find_subcircuit_in_name _ _ _ Hsub) as [_ Hin].
    apply (validate_sub_cycles_from_finds subs fuel _
             (strlist_append deps (d_instance sub)) y0); try assumption.
    + intros sub' deps' g' Hg' Hsub' Hc' Hd' Hf'.
      now apply validate_sub_cycles_returns.
    + intros y Hy.
      assert (Hedge' : instantiates subs (d_instance sub) y)
        by (exists sub; auto).
      split.
      * apply (Hclosed (d_instance sub) y); [constructor|assumption].
      * eapply closed_from_step; eassumption.
    + now apply deps_ok_append.
    + apply incl_refl.
    + unfold strlist_append. rewrite length_app. simpl. lia.
    + lia.
    + intros [].
    + left. destruct Hedge as (sub' & Hsub' & Hy).
      rewrite Hsub in Hsub'. now inversion Hsub'.
Qed.

(** The search reports an error when the subcircuit reaches a name of the
    dependencies. *)
Lemma validate_sub_cycles_finds_dep subs instance name d :
  reaches subs name d ->
  forall fuel sub deps g,
    d_instance sub = name ->
    subcircuit_root g = subs ->
    find_subcircuit_in subs (Some (d_instance sub)) = Some sub ->
    closed_from subs (d_instance sub) -> deps_ok subs deps ->
    (List.length subs < fuel + List.length deps)%nat ->
    In d deps ->
    returns
      (checker_validate_sub_cycles fuel sub (d_instance sub) instance deps)
      g (fun r _ => 1 <= fst r).
Proof.
  induction 1 as [name|name y d Hedge Hreach IH];
    intros fuel sub deps g Hname Hg Hsub Hclosed Hdeps Hfuel Hd;
    (destruct fuel as [|fuel];
     [pose proof (deps_ok_length _ _ Hdeps); lia|]).
  - simpl. rewrite Hname.
    apply strlist_contains_In in Hd. rewrite Hd.
    apply returns_bind, returns_logprint, returns_ret. simpl. lia.
  - apply (validate_sub_cycles_child subs instance fuel sub deps g y);
      try assumption.
    + now rewrite Hname.
    + intros sub' deps' g' Hg' Hsub' Hc' Hd' Hi' Hf'.
      destruct (find_subcircuit_in_name _ _ _ Hsub') as [Hy _].
      inversion Hy as [Hy'].
      apply IH; try assumption; try congruence.
      apply Hi'. unfold strlist_append. apply in_or_app. now left.
Qed.

(** The search reports an error when the subcircuit reaches a subcircuit
    that is reachable from itself. *)
Lemma validate_sub_cycles_finds_cycle subs instance name b :
  reaches subs name b -> cyclic subs b ->
  forall fuel sub deps g,
    d_instance sub = name ->
    subcircuit_root g = subs ->
    find_subcircuit_in subs (Some (d_instance sub)) = Some sub ->
    closed_from subs (d_instance sub) -> deps_ok subs deps ->
    (List.length subs < fuel + List.length deps)%nat ->
    returns
      (checker_validate_sub_cycles fuel sub (d_instance sub) instance deps)
      g (fun r _ => 1 <= fst r).
Proof.
  induction 1 as [name|name y b Hedge Hreach IH]; intros Hcyc;
    intros fuel sub deps g Hname Hg Hsub Hclosed Hdeps Hfuel;
    (destruct fuel as [|fuel];
     [pose proof (deps_ok_length _ _ Hdeps); lia|]).
  - apply clos_trans_1n_first in Hcyc. destruct Hcyc as (y & Hedge & Hback).
    apply (validate_sub_cycles_child subs instance fuel sub deps g y);
      try assumption.
    + now rewrite Hname.
    + intros sub' deps' g' Hg' Hsub' Hc' Hd' Hi' Hf'.
      destruct (find_subcircuit_in_name _ _ _ Hsub') as [Hy _].
      inversion Hy as [Hy'].
      apply (validate_sub_cycles_finds_dep subs instance y name);
        try assumption; try congruence.
      apply Hi'. unfold strlist_append. apply in_or_app. right.
      rewrite Hname. now left.
  - apply (validate_sub_cycles_child subs instance fuel sub deps g y);
      try assumption.
    + now rewrite Hname.
    + intros sub' deps' g' Hg' Hsub' Hc' Hd' Hi' Hf'.
      destruct (find_subcircuit_in_name _ _ _ Hsub') as [Hy _].
      inversion Hy as [Hy'].
      apply IH; try assumption; try congruence.
Qed.

(** A check of the whole list of subcircuits that implies [closed_from]. *)
Definition references_resolve (subcircuits : list definition_t) : bool :=
  forallb
    (fun sub =>
       forallb
         (fun y =>
            match find_subcircuit_in subcircuits (Some y) with
            | Some _ => true
            | None => false
            end)
         (body_refs (d_sub sub)))
    subcircuits.

Lemma references_resolve_closed subcircuits a :
  references_resolve subcircuits = true -> closed_from subcircuits a.
Proof.
  intros H b c _ (sub & Hsub & Hc).
  apply find_subcircuit_in_name in Hsub. destruct Hsub as [_ Hin].
  unfold references_resolve in H. rewrite forallb_forall in H.
  specialize (H sub Hin). rewrite forallb_forall in H.
  specialize (H c Hc).
  destruct (find_subcircuit_in subcircuits (Some c)); congruence.
Qed.


(** ** The count of nonlinear statements (C3)

    [checker_count_nonlinearities] looks at [checker_sub_cycles], which
    holds the result of the cycle check made last, whatever subcircuit that
    check was about. *)

(** The statements of the list itself that are marked nonlinear. *)
Definition nonlinear_statements (root : list definition_t) : Z :=
  Z.of_nat
    (List.length (filter (fun def => negb (d_nonlinear def =? 0)) root)).

Lemma reads_count_nonlinearities fuel :
  forall root, reads (checker_count_nonlinearities fuel root).
Proof.
  induction fuel as [|fuel IH]; intros root; simpl; [apply reads_crash|].
  generalize 0. induction root as [|def next IHroot]; intros count; simpl.
  - apply reads_ret.
  - apply reads_bind; [intros g x g' H; now inversion H|]. intros cycles.
    apply reads_bind; [|intros; apply IHroot].
    destruct (cycles <=? 0); [|apply reads_ret].
    destruct (String.eqb (d_type def) "Sub"); [|apply reads_ret].
    apply reads_bind; [apply reads_get_subcircuit|]. intros [sub|].
    + apply reads_bind; [apply IH|]. intros. apply reads_ret.
    + apply reads_ret.
Qed.

(** With a positive flag the subcircuits are left out of the count. *)
Lemma count_nonlinearities_flagged fuel root g :
  0 < checker_sub_cycles g ->
  checker_count_nonlinearities (S fuel) root g
  = Some (nonlinear_statements root, g).
Proof.
  intros Hflag. simpl.
  assert (H : forall count,
             count_nonlinearities_from (checker_count_nonlinearities fuel)
               root count g
             = Some (count + nonlinear_statements root, g)).
  { unfold nonlinear_statements.
    induction root as [|def next IH]; intros count; simpl.
    - unfold ret. now rewrite Z.add_0_r.
    - unfold bind at 1. unfold get_sub_cycles.
      apply Z.leb_gt in Hflag. rewrite Hflag.
      unfold bind, ret. rewrite IH.
      destruct (d_nonlinear def =? 0); cbn [negb List.length];
        rewrite ?Nat2Z.inj_succ; f_equal; f_equal; lia. }
  now rewrite H.
Qed.

(** With a flag that is not positive the count follows the subcircuit
    instances, and does not return when one of them leads to a subcircuit
    that is reachable from itself. *)
Lemma count_nonlinearities_diverges g :
  checker_sub_cycles g <= 0 ->
  forall fuel root,
    (exists a b,
        In a (body_refs root)
        /\ reaches (subcircuit_root g) a b
        /\ cyclic (subcircuit_root g) b) ->
    checker_count_nonlinearities fuel root g = None.
Proof.
  intros Hflag. apply Z.leb_le in Hflag.
  induction fuel as [|fuel IH]; intros root Hroot; [reflexivity|].
  simpl. generalize 0.
  induction root as [|def next IHroot]; intros count.
  { destruct Hroot as (a & b & [] & _). }
  destruct Hroot as (a & b & Hin & Hreach & Hcyc).
  simpl in Hin. apply in_app_or in Hin.
  cbn [count_nonlinearities_from].
  unfold bind at 1. unfold get_sub_cycles. rewrite Hflag.
  unfold bind at 1.
  destruct Hin as [Hhead|Htail].
  - destruct (String.eqb (d_type def) "Sub"); [|destruct Hhead].
    unfold checker_get_subcircuit.
    destruct (checker_find_reference def "Type") as [val|];
      [|destruct Hhead].
    destruct (v_ident val) as [ident|]; [|destruct Hhead].
    destruct Hhead as [->|[]].
    assert (Hedge : exists y,
               instantiates (subcircuit_root g) a y
               /\ reaches (subcircuit_root g) y b).
    { revert Hcyc. destruct Hreach as [|y z Hay Hyz]; intros Hcyc.
      - apply clos_trans_1n_first in Hcyc. exact Hcyc.
      - exists y. auto. }
    destruct Hedge as (y & (sub & Hsub & Hy) & Hyb).
    unfold checker_find_subcircuit, bind, get_subcircuit_root, ret.
    rewrite Hsub. rewrite IH; [reflexivity|].
    exists y, b. auto.
  - match goal with
    | |- match ?c g with _ => _ end = None =>
        assert (Hr : reads c); [|destruct (c g) as [[n g1]|] eqn:E]
    end.
    + destruct (String.eqb (d_type def) "Sub"); [|apply reads_ret].
      apply reads_bind; [apply reads_get_subcircuit|]. intros [sub|].
      * apply reads_bind; [apply reads_count_nonlinearities|].
        intros. apply reads_ret.
      * apply reads_ret.
    + apply Hr in E. subst g1. apply IHroot. exists a, b. auto.
    + reflexivity.
Qed.

(** The action check calls the count with whatever flag the cycle checks
    have left: it does not return when the flag is not positive and a
    statement of the netlist leads to a subcircuit reachable from itself. *)
Lemma validate_actions_diverges fuel root g :
  1 <= checker_count_definitions root None 1 ->
  checker_sub_cycles g <= 0 ->
  (exists a b,
      In a (body_refs root)
      /\ reaches (subcircuit_root g) a b
      /\ cyclic (subcircuit_root g) b) ->
  checker_validate_actions fuel root g = None.
Proof.
  intros Hn Hflag Hcyc. unfold checker_validate_actions.
  apply Z.ltb_ge in Hn. rewrite Hn.
  unfold bind at 1. unfold bind at 1.
  match goal with
  | |- match match ?c g with _ => _ end with _ => _ end = None =>
      assert (Hc : exists e g1,
                 c g = Some (e, g1)
                 /\ checker_sub_cycles g1 = checker_sub_cycles g
                 /\ subcircuit_root g1 = subcircuit_root g)
  end.
  { destruct (1 <=? checker_count_definitions root (Some "SP") 1);
      [|now exists 0, g].
    destruct (checker_count_definitions root (Some "Pac") 0 <? 1);
      [|now exists 0, g].
    eexists _, _. split; [reflexivity|]. split; reflexivity. }
  destruct Hc as (e & g1 & -> & Hf & Hs).
  unfold bind at 1.
  rewrite (count_nonlinearities_diverges g1); [reflexivity| |].
  - now rewrite Hf.
  - now rewrite Hs.
Qed.

(** ** A check for subcircuits without cycles *)

(** Each subcircuit instantiates subcircuits of a lower rank only. *)
Definition ranked (rank : string -> nat) (subcircuits : list definition_t)
  : bool :=
  forallb
    (fun sub =>
       forallb (fun y => (rank y <? rank (d_instance sub))%nat)
         (body_refs (d_sub sub)))
    subcircuits.

Lemma ranked_instantiates rank subcircuits a b :
  ranked rank subcircuits = true -> instantiates subcircuits a b ->
  (rank b < rank a)%nat.
Proof.
  intros H (sub & Hsub & Hb).
  apply find_subcircuit_in_name in Hsub. destruct Hsub as [Ha Hin].
  inversion Ha. unfold ranked in H. rewrite forallb_forall in H.
  specialize (H sub Hin). rewrite forallb_forall in H.
  specialize (H b Hb). now apply Nat.ltb_lt in H.
Qed.


(** ** Error counts and the statements of the netlist

    No check takes an error back, writes to the [action] field of a
    statement, or replaces the statement list of the netlist. *)

(** The statement list of the netlist is the same in [g] and [g']. *)
Definition same_netlist (g g' : globals) : Prop :=
  definition_root g' = definition_root g.

Ltac solve_counts :=
  unfold same_netlist in *; cbn [fst snd definition_root] in *;
  repeat match goal with
         | H : _ /\ _ |- _ => destruct H
         | H : (_ =? _) = true |- _ => apply Z.eqb_eq in H
         | H : (_ =? _) = false |- _ => apply Z.eqb_neq in H
         end;
  repeat split; first [lia | congruence | reflexivity | assumption].

Lemma same_reads {A} (c : M A) g :
  reads c -> safely c g (fun _ g' => same_netlist g g').
Proof.
  intros H. apply safely_eq. intros x g' E. apply H in E. now subst g'.
Qed.

Lemma same_validate_reference def key g :
  safely (checker_validate_reference def key) g
    (fun _ g' => same_netlist g g').
Proof.
  unfold checker_validate_reference. run_safely fail; solve_counts.
Qed.

Lemma counts_check_required def props :
  forall errors g,
    safely (check_required def props errors) g
      (fun r g' => errors <= r /\ same_netlist g g').
Proof.
  induction props as [|prop next IH]; intros errors g; simpl;
    run_safely ltac:(apply IH); solve_counts.
Qed.

Lemma counts_check_optional def props :
  forall errors g,
    safely (check_optional def props errors) g
      (fun r g' => errors <= r /\ same_netlist g g').
Proof.
  induction props as [|prop next IH]; intros errors g; simpl;
    run_safely ltac:(apply IH); solve_counts.
Qed.

Lemma same_values_in_range pr def instance l h vals :
  forall errors g,
    safely (values_in_range pr def instance l h vals errors) g
      (fun _ g' => same_netlist g g').
Proof.
  induction vals as [|val next IH]; intros errors g; simpl;
    run_safely ltac:(apply IH); solve_counts.
Qed.

Lemma same_value_in_prop_range instance def pr prop g :
  safely (checker_value_in_prop_range instance def pr prop) g
    (fun _ g' => same_netlist g g').
Proof.
  unfold checker_value_in_prop_range.
  run_safely ltac:(apply same_values_in_range); solve_counts.
Qed.

Lemma same_value_in_range_props instance def pr props :
  forall errors g,
    safely (value_in_range_props instance def pr props errors) g
      (fun _ g' => same_netlist g g').
Proof.
  induction props as [|prop next IH]; intros errors g; simpl;
    run_safely ltac:(first [apply IH | apply same_value_in_prop_range]);
    solve_counts.
Qed.

Lemma same_value_in_range instance def pr g :
  safely (checker_value_in_range instance def pr) g
    (fun _ g' => same_netlist g g').
Proof.
  unfold checker_value_in_range.
  run_safely ltac:(apply same_value_in_range_props); solve_counts.
Qed.

Lemma same_validate_special_from specials root def ident :
  forall found g,
    safely (validate_special_from specials root def ident found) g
      (fun _ g' => same_netlist g g').
Proof.
  induction specials as [|special next IH]; intros found g; simpl;
    run_safely ltac:(apply IH); solve_counts.
Qed.

Lemma actions_update_value root i j f :
  map d_action (update_value root i j f) = map d_action root.
Proof. unfold update_value. apply map_update. now intros []. Qed.

Lemma actions_count_definition_from type instance root :
  forall count,
    map d_action (fst (count_definition_from count root type instance))
    = map d_action root.
Proof.
  induction root as [|def next IH]; intros count; simpl; [reflexivity|].
  destruct (String.eqb (d_type def) type
            && String.eqb (d_instance def) instance).
  - specialize (IH (count + 1)).
    destruct (count_definition_from (count + 1) next type instance).
    simpl in *. rewrite IH. now destruct (1 <? count + 1), def.
  - specialize (IH count).
    destruct (count_definition_from count next type instance).
    simpl in *. now rewrite IH.
Qed.

Lemma actions_resolve_variable root i j g :
  safely (checker_resolve_variable root i j) g
    (fun r g' =>
       map d_action (fst r) = map d_action root /\ same_netlist g g').
Proof.
  unfold checker_resolve_variable.
  apply safely_bind, safely_deref. intros def _.
  apply safely_bind, safely_deref. intros pr _.
  destruct (v_ident (p_value pr)) as [ident|];
    [|apply safely_ret; split; reflexivity].
  destruct (checker_find_variable root "SW" "Param" (Some ident))
    as [[i' j']|]; cbv beta iota zeta;
  match goal with
  | |- context [checker_find_variable ?r "SW" "Sim" ?x] =>
      destruct (checker_find_variable r "SW" "Sim" x)
  end;
  destruct (checker_find_substrate def (Some ident)); cbv beta iota zeta;
  match goal with
  | |- context [checker_find_variable ?r "Sub" "Type" ?x] =>
      destruct (checker_find_variable r "Sub" "Type" x)
  end;
  (apply safely_bind; eapply safely_weaken;
   [apply same_validate_special_from|]; cbv beta; intros special g1 Hq);
  destruct (special =? 0);
  match goal with
  | |- context [checker_find_variable ?r "SPfile" "File" ?x] =>
      destruct (checker_find_variable r "SPfile" "File" x)
  end;
  cbn [Z.add Z.eqb Pos.add Pos.succ];
  run_safely fail; cbn [fst];
  (split; [now rewrite ?actions_update_value | solve_counts]).
Qed.

Lemma counts_check_pairs available n :
  forall i j root errors g,
    safely (check_pairs available n i j root errors) g
      (fun r g' =>
         errors <= snd r /\ map d_action (fst r) = map d_action root
         /\ same_netlist g g').
Proof.
  induction n as [|n IH]; intros i j root errors g; simpl.
  - apply safely_ret. solve_counts.
  - apply safely_bind, safely_deref. intros def _.
    destruct (nth_error (d_pairs def) j) as [pr|];
      [|apply safely_ret; solve_counts].
    apply safely_bind.
    assert (Hfirst :
      safely
        (if checker_is_property available (p_key pr) then ret errors
         else
           logprint (ErrExtraneous (d_line def) (p_key pr) (d_type def)
                       (d_instance def)) ;;;
           ret (errors + 1)) g
        (fun r g' => errors <= r /\ same_netlist g g')).
    { run_safely fail; solve_counts. }
    eapply safely_weaken; [exact Hfirst|]. cbv beta. intros e1 g1 [H1 H1'].
    destruct (checker_evaluate_scale (p_value pr)) as [value ok].
    apply safely_bind. eapply safely_weaken; [apply same_value_in_range|].
    cbv beta. intros ok2 g2 H2.
    apply safely_bind.
    eapply safely_weaken; [apply actions_resolve_variable|].
    cbv beta. intros [root3 ok3] g3 [H3 H3'].
    eapply safely_weaken; [apply IH|]. cbv beta.
    intros r g4 (H4 & H4' & H4'').
    cbn [fst] in H3. rewrite actions_update_value in H3.
    repeat split.
    + destruct (ok =? 0), (ok2 =? 0), (ok3 =? 0); lia.
    + congruence.
    + unfold same_netlist in *. congruence.
Qed.

Lemma actions_update_available root i ns available n def :
  nth_error root i = Some def ->
  map d_action (update root i (fun _ => set_d_available ns available n def))
  = map d_action root.
Proof.
  intros H. apply (map_update_at d_action root i _ def H). now destruct def.
Qed.

Lemma counts_check_available root i def errors g :
  nth_error root i = Some def ->
  safely (check_available root i def errors) g
    (fun r g' =>
       errors <= snd r /\ map d_action (fst r) = map d_action root
       /\ same_netlist g g').
Proof.
  intros Hd. unfold check_available.
  destruct (checker_find_definition (d_type def) (d_action def))
    as [available|].
  - cbv zeta. apply safely_bind.
    match goal with
    | |- safely ?c g _ =>
        assert (Hfirst : safely c g
                           (fun r g' => errors <= r /\ same_netlist g g'))
    end.
    { run_safely fail; solve_counts. }
    eapply safely_weaken; [exact Hfirst|]. cbv beta. intros e1 g1 [H1 H1'].
    apply safely_bind. eapply safely_weaken; [apply counts_check_required|].
    cbv beta. intros e2 g2 [H2 H2'].
    apply safely_bind. eapply safely_weaken; [apply counts_check_optional|].
    cbv beta. intros e3 g3 [H3 H3'].
    eapply safely_weaken; [apply counts_check_pairs|]. cbv beta.
    intros r g4 (H4 & H4' & H4'').
    rewrite (actions_update_available root i _ _ _ def Hd) in H4'.
    repeat split; [lia|assumption|unfold same_netlist in *; congruence].
  - run_safely fail. solve_counts.
Qed.

Lemma counts_checker_def root i def errors g :
  nth_error root i = Some def ->
  safely (netlist_checker_def root i def errors) g
    (fun r g' =>
       errors <= snd r /\ map d_action (fst r) = map d_action root
       /\ same_netlist g g').
Proof.
  intros Hd. unfold netlist_checker_def.
  apply safely_bind. eapply safely_weaken; [now apply counts_check_available|].
  cbv beta. intros [root1 e1] g1 (H1 & H1' & H1''). cbn [fst snd] in *.
  pose proof (actions_count_definition_from (d_type def) (d_instance def)
                root1 0) as Hc.
  unfold checker_count_definition.
  destruct (count_definition_from 0 root1 (d_type def) (d_instance def))
    as [root2 n]. cbn [fst] in Hc.
  run_safely fail; cbn [fst snd];
    (repeat split;
     [lia|congruence|unfold same_netlist in *; simpl; congruence]).
Qed.

Lemma counts_validate_strips_def strips def :
  forall root errors g,
    safely (validate_strips_def strips root def errors) g
      (fun r g' =>
         errors <= snd r /\ map d_action (fst r) = map d_action root
         /\ same_netlist g g').
Proof.
  induction strips as [|strip next IH]; intros root errors g; simpl.
  - apply safely_ret. solve_counts.
  - destruct (String.eqb strip (d_type def)); [|apply IH].
    apply safely_bind.
    eapply safely_weaken; [apply same_validate_reference|].
    cbv beta. intros [val|] g1 H1.
    + apply safely_bind, safely_deref. intros ident _.
      pose proof (actions_count_definition_from "SUBST" ident root 0) as Hc.
      unfold checker_count_definition.
      destruct (count_definition_from 0 root "SUBST" ident) as [root1 n].
      cbn [fst] in Hc.
      destruct (n =? 1).
      * eapply safely_weaken; [apply IH|]. cbv beta.
        intros r g2 (H2 & H2' & H2'').
        repeat split; [lia|congruence|unfold same_netlist in *; congruence].
      * apply safely_bind, safely_logprint.
        eapply safely_weaken; [apply IH|]. cbv beta.
        intros r g2 (H2 & H2' & H2'').
        repeat split;
          [lia|congruence|unfold same_netlist in *; simpl in *; congruence].
    + eapply safely_weaken; [apply IH|]. cbv beta.
      intros r g2 (H2 & H2' & H2'').
      repeat split; [lia|congruence|unfold same_netlist in *; congruence].
Qed.

(** What a loop over the statements keeps when each round keeps it. *)
Lemma counts_for_definitions
    (body : list definition_t -> nat -> definition_t -> Z
            -> M (list definition_t * Z)) :
  (forall root i def errors g,
     nth_error root i = Some def ->
     safely (body root i def errors) g
       (fun r g' =>
          errors <= snd r /\ map d_action (fst r) = map d_action root
          /\ same_netlist g g')) ->
  forall root errors g,
    safely (for_definitions body (List.length root) 0 root errors) g
      (fun r g' =>
         errors <= snd r /\ map d_action (fst r) = map d_action root
         /\ same_netlist g g').
Proof.
  intros Hbody root errors g.
  eapply safely_weaken.
  - apply (for_definitions_inv body
             (fun _ root' e g' =>
                errors <= e /\ map d_action root' = map d_action root
                /\ same_netlist g g')
             (List.length root)).
    + intros i root' s g' (_ & H & _).
      apply (f_equal (@List.length _)) in H. now rewrite !length_map in H.
    + intros i root' s g' def (H1 & H2 & H3) Hd.
      eapply safely_weaken; [now apply Hbody|]. cbv beta.
      intros r g2 (H4 & H5 & H6).
      repeat split; [lia|congruence|unfold same_netlist in *; congruence].
    + reflexivity.
    + repeat split. lia.
  - cbv beta. auto.
Qed.

Lemma counts_validate_strips root g :
  safely (checker_validate_strips root) g
    (fun r g' =>
       0 <= snd r /\ map d_action (fst r) = map d_action root
       /\ same_netlist g g').
Proof.
  unfold checker_validate_strips. apply counts_for_definitions.
  intros root' i def errors g' _.
  destruct (d_action def =? 0).
  - apply counts_validate_strips_def.
  - apply safely_ret. solve_counts.
Qed.

Lemma counts_validate_sub_cycles_from recurse defs :
  (forall sub deps g,
     safely (recurse sub deps) g
       (fun r g' => 0 <= fst r /\ same_netlist g g')) ->
  forall checked deps errors g,
    safely (validate_sub_cycles_from recurse defs checked deps errors) g
      (fun r g' => errors <= fst r /\ same_netlist g g').
Proof.
  intros Hr. induction defs as [|def next IH];
    intros checked deps errors g; simpl.
  - apply safely_ret. solve_counts.
  - run_safely ltac:(first
      [ apply IH | apply Hr
      | apply same_reads, reads_find_subcircuit ]);
      solve_counts.
Qed.

Lemma counts_validate_sub_cycles fuel :
  forall root type instance deps g,
    safely (checker_validate_sub_cycles fuel root type instance deps) g
      (fun r g' => 0 <= fst r /\ same_netlist g g').
Proof.
  induction fuel as [|fuel IH]; intros root type instance deps g; simpl.
  - exact I.
  - destruct (strlist_contains deps type).
    + run_safely fail. solve_counts.
    + apply counts_validate_sub_cycles_from. intros. apply IH.
Qed.

Lemma counts_validate_subcircuits_from fuel defs :
  forall errors g,
    safely (validate_subcircuits_from fuel defs errors) g
      (fun r g' => errors <= r /\ same_netlist g g').
Proof.
  induction defs as [|def next IH]; intros errors g; simpl.
  - apply safely_ret. solve_counts.
  - run_safely ltac:(first
      [ apply IH | apply same_validate_reference
      | apply counts_validate_sub_cycles
      | apply same_reads, reads_find_subcircuit ]);
      solve_counts.
Qed.

Lemma actions_count_nodesets_from root n :
  forall count g,
    safely (count_nodesets_from count root n) g
      (fun r g' => map d_action (fst r) = map d_action root /\ g' = g).
Proof.
  induction root as [|def next IH]; intros count g; simpl.
  - apply safely_ret. split; reflexivity.
  - destruct (negb (d_nodeset def =? 0) && (d_duplicate def =? 0)).
    + apply safely_bind. apply safely_eq. intros node g1 E.
      apply reads_first_node in E. subst g1.
      destruct (String.eqb node n).
      * apply safely_bind. eapply safely_weaken; [apply IH|]. cbv beta.
        intros [r c] g2 [H ->]. apply safely_ret. split; [|reflexivity].
        cbn [fst map] in *. rewrite H.
        now destruct (1 <? count + 1), def.
      * apply safely_bind. eapply safely_weaken; [apply IH|]. cbv beta.
        intros [r c] g2 [H ->]. apply safely_ret. split; [|reflexivity].
        cbn [fst map] in *. now rewrite H.
    + apply safely_bind. eapply safely_weaken; [apply IH|]. cbv beta.
      intros [r c] g2 [H ->]. apply safely_ret. split; [|reflexivity].
      cbn [fst map] in *. now rewrite H.
Qed.

Lemma counts_validate_nodesets root g :
  safely (checker_validate_nodesets root) g
    (fun r g' =>
       0 <= snd r /\ map d_action (fst r) = map d_action root
       /\ same_netlist g g').
Proof.
  unfold checker_validate_nodesets. apply counts_for_definitions.
  intros root' i def errors g' _.
  destruct (negb (d_nodeset def =? 0) && (checker_count_nodes def =? 1)).
  - apply safely_bind.
    eapply safely_weaken; [apply same_reads, reads_first_node|].
    cbv beta. intros node g1 Hq1.
    apply safely_bind.
    eapply safely_weaken; [apply same_reads, reads_count_nodes_from|].
    cbv beta. intros n g2 Hq2.
    apply safely_bind.
    match goal with
    | |- safely ?c g2 _ =>
        assert (Hfirst : safely c g2
                           (fun r g' => errors <= r /\ same_netlist g2 g'))
    end.
    { run_safely fail; solve_counts. }
    eapply safely_weaken; [exact Hfirst|]. cbv beta. intros e g3 [He Hq3].
    apply safely_bind. unfold checker_count_nodesets.
    eapply safely_weaken; [apply actions_count_nodesets_from|].
    cbv beta. intros [root2 c] g4 [Hk ->]. cbn [fst] in Hk.
    run_safely fail; cbn [fst snd];
      (repeat split;
       [lia|assumption|unfold same_netlist in *; simpl; congruence]).
  - apply safely_ret. solve_counts.
Qed.

Lemma counts_checker_intern fuel root g :
  safely (netlist_checker_intern fuel root) g
    (fun r g' =>
       0 <= snd r /\ map d_action (fst r) = map d_action root
       /\ same_netlist g g').
Proof.
  unfold netlist_checker_intern.
  apply safely_bind.
  eapply safely_weaken;
    [apply counts_for_definitions; intros; now apply counts_checker_def|].
  cbv beta. intros [root1 e1] g1 (H1 & H1' & H1''). cbn [fst snd] in *.
  apply safely_bind. eapply safely_weaken; [apply counts_validate_strips|].
  cbv beta. intros [root2 e2] g2 (H2 & H2' & H2''). cbn [fst snd] in *.
  apply safely_bind. unfold checker_validate_subcircuits.
  eapply safely_weaken; [apply counts_validate_subcircuits_from|].
  cbv beta. intros e3 g3 (H3 & H3').
  apply safely_bind. eapply safely_weaken; [apply counts_validate_nodesets|].
  cbv beta. intros [root4 e4] g4 (H4 & H4' & H4''). cbn [fst snd] in *.
  apply safely_ret. cbn [fst snd].
  repeat split; [lia|congruence|unfold same_netlist in *; congruence].
Qed.

Lemma counts_check_subcircuit_lists fuel n :
  forall i errors g,
    safely (check_subcircuit_lists fuel n i errors) g
      (fun r g' => errors <= r /\ same_netlist g g').
Proof.
  induction n as [|n IH]; intros i errors g; simpl.
  - apply safely_ret. solve_counts.
  - apply safely_bind, safely_get_subcircuit_root.
    destruct (nth_error (subcircuit_root g) i) as [def|];
      [|apply safely_ret; solve_counts].
    apply safely_bind. eapply safely_weaken; [apply counts_checker_intern|].
    cbv beta. intros [sub e] g1 (H1 & _ & H1'). cbn [fst snd] in *.
    apply safely_bind, safely_get_subcircuit_root.
    apply safely_bind. unfold set_subcircuit_root, safely at 1.
    eapply safely_weaken; [apply IH|]. cbv beta. intros r g2 [H2 H2'].
    split; [lia|]. unfold same_netlist in *. simpl in *. congruence.
Qed.

Lemma build_subcircuits_no_action root :
  Forall (fun def => d_action def <> 1) root ->
  forall subcircuits,
    Forall (fun def => d_action def <> 1)
      (fst (build_subcircuits_from root subcircuits)).
Proof.
  induction 1 as [|def next Hd _ IH]; intros subcircuits; simpl.
  - constructor.
  - destruct (String.eqb (d_type def) "Def").
    + destruct (build_subcircuits_def def subcircuits) as [def' subs'].
      apply IH.
    + specialize (IH subcircuits).
      destruct (build_subcircuits_from next subcircuits) as [next' subs'].
      constructor; assumption.
Qed.

Lemma no_action_map root root' :
  map d_action root' = map d_action root ->
  Forall (fun def => d_action def <> 1) root ->
  Forall (fun def => d_action def <> 1) root'.
Proof.
  revert root'. induction root as [|def next IH]; intros [|def' next'] E H;
    simpl in E; try discriminate; constructor;
    inversion E; inversion H; subst.
  - congruence.
  - now apply IH.
Qed.

Lemma safely_get_definition_root g
    (Q : list definition_t -> globals -> Prop) :
  Q (definition_root g) g -> safely get_definition_root g Q.
Proof. intros H. exact H. Qed.

Lemma safely_set_definition_root root g (Q : unit -> globals -> Prop) :
  Q tt (mk_globals root (subcircuit_root g) (checker_sub_cycles g) (log g)) ->
  safely (set_definition_root root) g Q.
Proof. intros H. exact H. Qed.

Lemma safely_set_subcircuit_root subs g (Q : unit -> globals -> Prop) :
  Q tt (mk_globals (definition_root g) subs (checker_sub_cycles g) (log g)) ->
  safely (set_subcircuit_root subs) g Q.
Proof. intros H. exact H. Qed.

(** From the entry point: a netlist without any action is not accepted.
    When [netlist_checker] returns, it returns the failure. *)
Lemma netlist_checker_without_action fuel g :
  Forall (fun def => d_action def <> 1) (definition_root g) ->
  safely (netlist_checker fuel) g (fun r _ => r = -1).
Proof.
  intros Hroot. unfold netlist_checker.
  apply safely_bind, safely_get_definition_root.
  apply safely_bind. unfold checker_build_subcircuits.
  apply safely_bind, safely_get_subcircuit_root.
  pose proof (build_subcircuits_no_action _ Hroot (subcircuit_root g))
    as Hbuilt.
  destruct (build_subcircuits_from (definition_root g) (subcircuit_root g))
    as [root1 subs1]. cbn [fst] in Hbuilt.
  apply safely_bind, safely_set_subcircuit_root. apply safely_ret.
  apply safely_bind, safely_set_definition_root.
  apply safely_bind. eapply safely_weaken; [apply counts_checker_intern|].
  cbv beta. intros [root2 e1] g2 (H1 & H1' & H1''). cbn [fst snd] in *.
  apply safely_bind, safely_set_definition_root.
  apply safely_bind, safely_get_subcircuit_root.
  apply safely_bind. eapply safely_weaken; [apply counts_checker_intern|].
  cbv beta. intros [subs3 e2] g3 (H2 & _ & H2''). cbn [fst snd] in *.
  apply safely_bind, safely_set_subcircuit_root.
  apply safely_bind.
  eapply safely_weaken; [apply counts_check_subcircuit_lists|].
  cbv beta. intros e3 g4 (H3 & H3').
  apply safely_bind, safely_get_definition_root.
  assert (Hroot4 : definition_root g4 = root2).
  { unfold same_netlist in *. simpl in *. congruence. }
  rewrite Hroot4.
  assert (Hnone : Forall (fun def => d_action def <> 1) root2)
    by (eapply no_action_map; eassumption).
  apply safely_bind. apply returns_safely.
  eapply returns_weaken;
    [apply (validate_actions_without_action fuel root2 g4 Hnone)|].
  cbv beta. intros [root5 e] g5 (_ & He & _). cbn [fst snd] in *.
  apply safely_bind, safely_set_definition_root.
  assert (E : (e3 + e =? 0) = false) by (apply Z.eqb_neq; lia).
  rewrite E. apply safely_bind, safely_ret. apply safely_ret. reflexivity.
Qed.

(** C10: on a netlist without any action the action check prints the
    "no actions" message and returns an error count of one at least,
    whatever the statements of the netlist are; and no check takes an
    error back, so that [netlist_checker], when it returns for such a
    netlist, returns the failure. *)
Theorem netlist_without_action_fails (fuel : nat)
    (root : list definition_t) (g : globals) :
  Forall (fun def => d_action def <> 1) root ->
  returns (checker_validate_actions fuel root) g
    (fun r g' => fst r = root /\ 1 <= snd r /\ In ErrNoActions (log g')
                 /\ only_logs g g')
  /\ (definition_root g = root ->
      safely (netlist_checker fuel) g (fun r _ => r = -1)).
Proof.
  intros Hroot. split.
  - now apply validate_actions_without_action.
  - intros Hg. apply netlist_checker_without_action. now rewrite Hg.
Qed.

(** * Further properties of the checker *)

(** ** Looking up values *)

Lemma find_variable_pair_sound pairs key ident :
  forall j0 j,
    find_variable_pair pairs key ident j0 = Some j ->
    exists k pr id,
      j = (j0 + k)%nat /\ nth_error pairs k = Some pr /\ p_key pr = key
      /\ ident = Some id /\ v_ident (p_value pr) = Some id.
Proof.
  induction pairs as [|pr next IH]; intros j0 j H; simpl in H;
    [discriminate|].
  destruct (String.eqb (p_key pr) key) eqn:Ek; simpl in H.
  - destruct (v_ident (p_value pr)) as [a|] eqn:Ea.
    + destruct ident as [b|].
      * destruct (String.eqb a b) eqn:Eab.
        -- inversion H; subst. apply String.eqb_eq in Ek, Eab. subst.
           exists 0%nat, pr, b. rewrite Nat.add_0_r. auto.
        -- apply IH in H. destruct H as (k & p & id & -> & H).
           exists (S k), p, id. split; [lia|exact H].
      * apply IH in H. destruct H as (k & p & id & _ & _ & _ & H & _).
        discriminate.
    + apply IH in H. destruct H as (k & p & id & -> & H).
      exists (S k), p, id. split; [lia|exact H].
  - apply IH in H. destruct H as (k & p & id & -> & H).
    exists (S k), p, id. split; [lia|exact H].
Qed.

Lemma find_variable_pair_none pairs key ident :
  forall j0,
    find_variable_pair pairs key (Some ident) j0 = None <->
    (forall pr, In pr pairs -> p_key pr = key ->
                v_ident (p_value pr) <> Some ident).
Proof.
  induction pairs as [|pr next IH]; intros j0; simpl.
  - split; [intros _ pr []|reflexivity].
  - destruct (String.eqb (p_key pr) key) eqn:Ek; simpl.
    + destruct (v_ident (p_value pr)) as [a|] eqn:Ea.
      * destruct (String.eqb a ident) eqn:Eab.
        -- apply String.eqb_eq in Ek, Eab. subst. split; [discriminate|].
           intros H. exfalso. apply (H pr); auto.
        -- rewrite IH. apply String.eqb_neq in Eab. split.
           ++ intros H p [<-|Hp] Hk; [congruence|auto].
           ++ intros H p Hp. apply H. now right.
      * rewrite IH. split.
        -- intros H p [<-|Hp] Hk; [congruence|auto].
        -- intros H p Hp. apply H. now right.
    + rewrite IH. apply String.eqb_neq in Ek. split.
      * intros H p [<-|Hp] Hk; [congruence|auto].
      * intros H p Hp. apply H. now right.
Qed.

Lemma find_variable_pair_null pairs key :
  forall j0, find_variable_pair pairs key None j0 = None.
Proof.
  induction pairs as [|pr next IH]; intros j0; simpl; [reflexivity|].
  destruct (String.eqb (p_key pr) key); simpl; [|apply IH].
  destruct (v_ident (p_value pr)); apply IH.
Qed.

(** [checker_find_variable] finds a value exactly when some statement of
    the given type has a property with the given key whose value is the
    identifier; the statement it answers with is the first such statement.
    It finds nothing for the identifier [NULL]. *)
Theorem find_variable_finds (root : list definition_t)
    (type key ident : string) :
  (forall i j,
      checker_find_variable root type key (Some ident) = Some (i, j) ->
      (exists def pr,
          nth_error root i = Some def /\ d_type def = type
          /\ nth_error (d_pairs def) j = Some pr /\ p_key pr = key
          /\ v_ident (p_value pr) = Some ident)
      /\ (forall i' def' pr',
             (i' < i)%nat -> nth_error root i' = Some def' ->
             d_type def' = type -> In pr' (d_pairs def') ->
             p_key pr' = key -> v_ident (p_value pr') <> Some ident))
  /\ (checker_find_variable root type key (Some ident) = None <->
      (forall def pr,
          In def root -> d_type def = type -> In pr (d_pairs def) ->
          p_key pr = key -> v_ident (p_value pr) <> Some ident))
  /\ checker_find_variable root type key None = None.
Proof.
  unfold checker_find_variable.
  assert (Hsound : forall i0 i j,
    find_variable_from i0 root type key (Some ident) = Some (i, j) ->
    exists k def pr,
      i = (i0 + k)%nat /\ nth_error root k = Some def /\ d_type def = type
      /\ nth_error (d_pairs def) j = Some pr /\ p_key pr = key
      /\ v_ident (p_value pr) = Some ident
      /\ (forall k' def' pr',
             (k' < k)%nat -> nth_error root k' = Some def' ->
             d_type def' = type -> In pr' (d_pairs def') ->
             p_key pr' = key -> v_ident (p_value pr') <> Some ident)).
  { induction root as [|def next IH]; intros i0 i j H; simpl in H;
      [discriminate|].
    destruct (String.eqb (d_type def) type) eqn:Et.
    - destruct (find_variable_pair (d_pairs def) key (Some ident) 0)
        as [j'|] eqn:Ep.
      + inversion H; subst. apply String.eqb_eq in Et.
        apply find_variable_pair_sound in Ep.
        destruct Ep as (k & pr & id & -> & Hk & Hkey & Hid & Hv).
        inversion Hid; subst id.
        exists 0%nat, def, pr. rewrite Nat.add_0_r.
        repeat match goal with |- _ /\ _ => split end; try assumption;
          try reflexivity.
        intros k' ? ? Hlt. lia.
      + apply IH in H.
        destruct H as (k & d & pr & -> & Hk & Ht & Hj & Hkey & Hv & Hmin).
        exists (S k), d, pr.
        repeat match goal with |- _ /\ _ => split end;
          try assumption; try lia.
        intros [|k'] def' pr' Hlt Hk' Ht' Hin Hkey'; simpl in Hk'.
        * inversion Hk'; subst def'.
          apply (proj1 (find_variable_pair_none _ _ _ _) Ep pr' Hin Hkey').
        * apply (Hmin k' def' pr'); auto. lia.
    - apply IH in H.
      destruct H as (k & d & pr & -> & Hk & Ht & Hj & Hkey & Hv & Hmin).
      exists (S k), d, pr.
      repeat match goal with |- _ /\ _ => split end;
        try assumption; try lia.
      intros [|k'] def' pr' Hlt Hk' Ht' Hin Hkey'; simpl in Hk'.
      * inversion Hk'; subst def'. apply String.eqb_neq in Et. congruence.
      * apply (Hmin k' def' pr'); auto. lia. }
  split; [|split].
  - intros i j H. apply Hsound in H.
    destruct H as (k & d & pr & -> & Hk & Ht & Hj & Hkey & Hv & Hmin).
    simpl. split; [now exists d, pr|exact Hmin].
  - clear Hsound. generalize 0%nat.
    induction root as [|def next IH]; intros i0; simpl.
    + split; [intros _ d pr []|reflexivity].
    + destruct (String.eqb (d_type def) type) eqn:Et.
      * destruct (find_variable_pair (d_pairs def) key (Some ident) 0)
          as [j'|] eqn:Ep.
        -- split; [discriminate|]. intros H. exfalso.
           apply find_variable_pair_sound in Ep.
           destruct Ep as (k & pr & id & _ & Hk & Hkey & Hid & Hv).
           inversion Hid; subst id. apply String.eqb_eq in Et.
           apply (H def pr); auto. eapply nth_error_In; eassumption.
        -- rewrite IH. split.
           ++ intros H d pr [<-|Hd]; [|now apply H].
              intros _. now apply (find_variable_pair_none _ _ _ 0%nat).
           ++ intros H d pr Hd. apply H. now right.
      * rewrite IH. apply String.eqb_neq in Et. split.
        -- intros H d pr [<-|Hd]; [congruence|now apply H].
        -- intros H d pr Hd. apply H. now right.
  - clear Hsound. generalize 0%nat.
    induction root as [|def next IH]; intros i0; simpl; [reflexivity|].
    destruct (String.eqb (d_type def) type); [|apply IH].
    rewrite find_variable_pair_null. apply IH.
Qed.

(** The properties with a given key: [checker_find_property] counts none
    exactly when neither [checker_find_reference] nor
    [checker_find_prop_value] finds one; what the first finds is an
    identifier and what the second finds is not, each under the key in the
    property list of the statement. *)
Theorem find_reference_or_value (def : definition_t) (key : string) :
  (checker_find_property key (d_pairs def) = 0 <->
   checker_find_reference def key = None
   /\ checker_find_prop_value def key = None)
  /\ (forall val,
         checker_find_reference def key = Some val ->
         v_ident val <> None
         /\ exists pr, In pr (d_pairs def) /\ p_key pr = key
                       /\ p_value pr = val)
  /\ (forall j pr,
         checker_find_prop_value def key = Some (j, pr) ->
         nth_error (d_pairs def) j = Some pr /\ p_key pr = key
         /\ v_ident (p_value pr) = None).
Proof.
  unfold checker_find_reference, checker_find_prop_value.
  assert (Hnonneg : forall pairs, 0 <= checker_find_property key pairs).
  { induction pairs as [|pr next IH]; simpl; [lia|].
    destruct (String.eqb (p_key pr) key); lia. }
  split; [|split].
  - generalize 0%nat. induction (d_pairs def) as [|pr next IH]; intros j0;
      simpl; [tauto|].
    pose proof (Hnonneg next).
    destruct (String.eqb (p_key pr) key).
    + split; [lia|]. destruct (v_ident (p_value pr)); intros [? ?];
        discriminate.
    + rewrite Z.add_0_l. apply IH.
  - induction (d_pairs def) as [|pr next IH]; intros val H; simpl in H;
      [discriminate|].
    destruct (String.eqb (p_key pr) key) eqn:Ek.
    + destruct (v_ident (p_value pr)) eqn:Ei.
      * inversion H; subst. apply String.eqb_eq in Ek.
        split; [congruence|]. exists pr. simpl. auto.
      * apply IH in H. destruct H as [H1 (p & Hp & H2)].
        split; [exact H1|]. exists p. simpl. auto.
    + apply IH in H. destruct H as [H1 (p & Hp & H2)].
      split; [exact H1|]. exists p. simpl. auto.
  - assert (H : forall pairs j0 j pr,
               find_prop_value_pair pairs key j0 = Some (j, pr) ->
               exists k, j = (j0 + k)%nat /\ nth_error pairs k = Some pr
                         /\ p_key pr = key /\ v_ident (p_value pr) = None).
    { induction pairs as [|p next IH]; intros j0 j pr H; simpl in H;
        [discriminate|].
      destruct (String.eqb (p_key p) key) eqn:Ek.
      - destruct (v_ident (p_value p)) eqn:Ei.
        + apply IH in H. destruct H as (k & -> & H).
          exists (S k). split; [lia|exact H].
        + inversion H; subst. apply String.eqb_eq in Ek.
          exists 0%nat. rewrite Nat.add_0_r. auto.
      - apply IH in H. destruct H as (k & -> & H).
        exists (S k). split; [lia|exact H]. }
    intros j pr E. apply H in E. destruct E as (k & -> & E). exact E.
Qed.

(** ** Port numbers *)

(** The number of a port definition: the value of its [Num] property,
    cast to [int]. *)
Definition port_number (def : definition_t) : option Z :=
  if is_port def then
    match checker_find_prop_value def "Num" with
    | Some (_, pr) => Some (int_of_double (v_value (p_value pr)))
    | None => None
    end
  else None.

Definition same_number (p : Z) (def : definition_t) : bool :=
  match port_number def with
  | Some q => p =? q
  | None => false
  end.

(** The ports with number [p] in a list. *)
Fixpoint count_same (p : Z) (l : list definition_t) : Z :=
  match l with
  | [] => 0
  | def :: next => (if same_number p def then 1 else 0) + count_same p next
  end.

(** The other ports with the number of the port, summed over the ports of
    [defs]. *)
Fixpoint duplicate_ports (root defs : list definition_t) : Z :=
  match defs with
  | [] => 0
  | def :: next =>
      match port_number def with
      | Some p => count_same p root - 1
      | None => 0
      end
      + duplicate_ports root next
  end.

(** The port numbers of the list, in its order. *)
Definition port_numbers (root : list definition_t) : list Z :=
  flat_map (fun def => match port_number def with
                       | Some p => [p]
                       | None => []
                       end) root.

(** The run has added [n] to the error count, with messages only, and
    with none of them when [n] is zero. *)
Definition counted (errors n : Z) (g : globals) (r : Z) (g' : globals)
  : Prop :=
  r = errors + n /\ only_logs g g' /\ (n = 0 -> g' = g).

Lemma counted_trans e a b g r1 g1 r2 g2 :
  0 <= a -> 0 <= b ->
  counted e a g r1 g1 -> counted r1 b g1 r2 g2 ->
  counted e (a + b) g r2 g2.
Proof.
  intros Ha Hb (E1 & L1 & Z1) (E2 & L2 & Z2). split; [lia|]. split.
  - eapply only_logs_trans; eassumption.
  - intros H. assert (a = 0) by lia. assert (b = 0) by lia.
    rewrite Z2, Z1; auto.
Qed.

Lemma count_same_nonneg p l : 0 <= count_same p l.
Proof.
  induction l as [|d l IH]; simpl; [lia|]. destruct (same_number p d); lia.
Qed.

Lemma count_same_app p l1 l2 :
  count_same p (l1 ++ l2) = count_same p l1 + count_same p l2.
Proof. induction l1 as [|d l IH]; simpl; [reflexivity|]. lia. Qed.

Lemma same_number_self p def :
  port_number def = Some p -> same_number p def = true.
Proof. intros E. unfold same_number. rewrite E. apply Z.eqb_refl. Qed.

Lemma counted_none e g : counted e 0 g e g.
Proof. split; [lia|]. split; [apply only_logs_refl|reflexivity]. Qed.

Lemma counted_message e d g :
  counted e 1 g (e + 1)
    (mk_globals (definition_root g) (subcircuit_root g)
       (checker_sub_cycles g) (d :: log g)).
Proof. split; [lia|]. split; [apply only_logs_logprint|discriminate]. Qed.

Lemma validate_ports_against_step def i p k port errors g :
  k <> i ->
  returns
    (if is_port port && negb (Nat.eqb k i) then
       match checker_find_prop_value port "Num" with
       | Some (_, pr) =>
           if p =? int_of_double (v_value (p_value pr)) then
             logprint (ErrDuplicatePort (d_line def) (d_type def) "Num" p
                         (d_instance def) (d_type port)
                         (d_instance port)) ;;;
             ret (errors + 1)
           else ret errors
       | None => ret errors
       end
     else ret errors) g
    (counted errors (if same_number p port then 1 else 0) g).
Proof.
  intros Hk. apply Nat.eqb_neq in Hk. rewrite Hk.
  unfold same_number, port_number. cbn [negb]. rewrite andb_true_r.
  destruct (is_port port).
  - destruct (checker_find_prop_value port "Num") as [[j pr]|].
    + destruct (p =? int_of_double (v_value (p_value pr))).
      * apply returns_bind, returns_logprint, returns_ret.
        apply counted_message.
      * apply returns_ret, counted_none.
    + apply returns_ret, counted_none.
  - apply returns_ret, counted_none.
Qed.

(** The inner loop over a part of the list that the port at index [i] is
    not in. *)
Lemma validate_ports_against_others def i p :
  forall ports k errors g,
    (forall j, (j < List.length ports)%nat -> (k + j)%nat <> i) ->
    returns (validate_ports_against def i p k ports errors) g
      (counted errors (count_same p ports) g).
Proof.
  induction ports as [|port next IH]; intros k errors g Hout; simpl.
  - apply returns_ret, counted_none.
  - apply returns_bind. eapply returns_weaken.
    + apply validate_ports_against_step.
      specialize (Hout 0%nat). simpl in Hout. lia.
    + cbv beta. intros e1 g1 H1. eapply returns_weaken.
      * apply IH. intros j Hj. specialize (Hout (S j)). simpl in Hout. lia.
      * cbv beta. intros e2 g2 H2.
        eapply counted_trans; try eassumption;
          [destruct (same_number p port); lia|apply count_same_nonneg].
Qed.

(** The inner loop over the whole list: the port at index [i] is left
    out. *)
Lemma validate_ports_against_all def i p l2 :
  forall l1 k errors g d,
    (k + List.length l1)%nat = i ->
    returns (validate_ports_against def i p k (l1 ++ d :: l2) errors) g
      (counted errors (count_same p l1 + count_same p l2) g).
Proof.
  induction l1 as [|port next IH]; intros k errors g d Hi; simpl in *.
  - apply returns_bind.
    replace (Nat.eqb k i) with true by (symmetry; apply Nat.eqb_eq; lia).
    rewrite andb_false_r. apply returns_ret.
    apply validate_ports_against_others. intros j _. lia.
  - apply returns_bind. eapply returns_weaken.
    + apply validate_ports_against_step. lia.
    + cbv beta. intros e1 g1 H1. eapply returns_weaken.
      * apply (IH (S k)). lia.
      * cbv beta. intros e2 g2 H2. rewrite <- Z.add_assoc.
        eapply counted_trans; try eassumption.
        -- destruct (same_number p port); lia.
        -- pose proof (count_same_nonneg p next).
           pose proof (count_same_nonneg p l2). lia.
Qed.

Lemma duplicate_ports_nonneg root :
  forall pre defs, root = pre ++ defs -> 0 <= duplicate_ports root defs.
Proof.
  intros pre defs. revert pre.
  induction defs as [|def next IH]; intros pre E; simpl; [lia|].
  assert (0 <= duplicate_ports root next)
    by (apply (IH (pre ++ [def])); now rewrite <- app_assoc).
  destruct (port_number def) as [p|] eqn:Ep; [|lia].
  assert (Ec : count_same p root
               = count_same p pre + (1 + count_same p next)).
  { rewrite E, count_same_app. cbn [count_same].
    now rewrite (same_number_self p def Ep). }
  rewrite Ec.
  pose proof (count_same_nonneg p pre). pose proof (count_same_nonneg p next).
  lia.
Qed.

Lemma validate_ports_from_counts root :
  forall defs pre errors g,
    root = pre ++ defs ->
    returns (validate_ports_from root defs (List.length pre) errors) g
      (counted errors (duplicate_ports root defs) g).
Proof.
  induction defs as [|def next IH]; intros pre errors g E; simpl.
  - apply returns_ret, counted_none.
  - assert (Enext : root = (pre ++ [def]) ++ next)
      by now rewrite <- app_assoc.
    pose proof (duplicate_ports_nonneg root _ _ Enext) as Hnext.
    apply returns_bind.
    assert (Hfirst :
      returns
        (if is_port def then
           match checker_find_prop_value def "Num" with
           | Some (_, pr) =>
               validate_ports_against def (List.length pre)
                 (int_of_double (v_value (p_value pr))) 0 root errors
           | None => ret errors
           end
         else ret errors) g
        (fun r g' =>
           counted errors
             (match port_number def with
              | Some p => count_same p root - 1
              | None => 0
              end) g r g'
           /\ 0 <= match port_number def with
                   | Some p => count_same p root - 1
                   | None => 0
                   end)).
    { unfold port_number. destruct (is_port def) eqn:Eport.
      - destruct (checker_find_prop_value def "Num") as [[j pr]|] eqn:En.
        + set (p := int_of_double (v_value (p_value pr))).
          assert (Ec : count_same p root - 1
                       = count_same p pre + count_same p next).
          { rewrite E at 1. rewrite count_same_app. cbn [count_same].
            rewrite (same_number_self p def); [lia|].
            unfold port_number. now rewrite Eport, En. }
          rewrite Ec. eapply returns_weaken.
          * rewrite E. apply validate_ports_against_all. reflexivity.
          * cbv beta. intros r g' H. split; [exact H|].
            pose proof (count_same_nonneg p pre).
            pose proof (count_same_nonneg p next). lia.
        + apply returns_ret. split; [apply counted_none|lia].
      - apply returns_ret. split; [apply counted_none|lia]. }
    eapply returns_weaken; [exact Hfirst|]. cbv beta.
    intros e1 g1 [H1 Hpos]. eapply returns_weaken.
    + replace (S (List.length pre)) with (List.length (pre ++ [def]))
        by (rewrite length_app; simpl; lia).
      apply IH. exact Enext.
    + cbv beta. intros e2 g2 H2.
      eapply counted_trans; eassumption.
Qed.

Lemma count_same_count_occ p root :
  count_same p root = Z.of_nat (count_occ Z.eq_dec (port_numbers root) p).
Proof.
  unfold port_numbers. induction root as [|def next IH]; simpl;
    [reflexivity|].
  rewrite count_occ_app, Nat2Z.inj_add, <- IH. f_equal.
  unfold same_number. destruct (port_number def) as [q|]; simpl;
    [|reflexivity].
  destruct (Z.eq_dec q p) as [->|Hne].
  - now rewrite Z.eqb_refl.
  - replace (p =? q) with false; [reflexivity|].
    symmetry. apply Z.eqb_neq. congruence.
Qed.

Lemma duplicate_ports_zero root :
  forall defs,
    incl (port_numbers defs) (port_numbers root) ->
    (duplicate_ports root defs = 0 <->
     forall p, In p (port_numbers defs) ->
               count_occ Z.eq_dec (port_numbers root) p = 1%nat).
Proof.
  induction defs as [|def next IH]; intros Hincl; simpl.
  - split; [intros _ p []|reflexivity].
  - assert (Hnext : incl (port_numbers next) (port_numbers root)).
    { intros p Hp. apply Hincl. unfold port_numbers. simpl.
      apply in_or_app. now right. }
    assert (Hpos : 0 <= duplicate_ports root next).
    { clear - Hnext. induction next as [|d l IH]; simpl; [lia|].
      assert (incl (port_numbers l) (port_numbers root)).
      { intros p Hp. apply Hnext. unfold port_numbers. simpl.
        apply in_or_app. now right. }
      specialize (IH H).
      destruct (port_number d) as [p|] eqn:Ep; [|lia].
      assert (In p (port_numbers root)).
      { apply Hnext. unfold port_numbers. simpl. rewrite Ep. now left. }
      rewrite count_same_count_occ.
      apply (count_occ_In Z.eq_dec) in H0. lia. }
    specialize (IH Hnext).
    unfold port_numbers at 1. simpl. fold (port_numbers next).
    destruct (port_number def) as [p|] eqn:Ep.
    + assert (Hin : In p (port_numbers root)).
      { apply Hincl. unfold port_numbers. simpl. rewrite Ep. now left. }
      rewrite count_same_count_occ.
      pose proof (proj1 (count_occ_In Z.eq_dec _ _) Hin) as Hocc.
      split.
      * intros H q [<-|Hq].
        -- lia.
        -- apply IH; [lia|exact Hq].
      * intros H. rewrite (H p (or_introl eq_refl)).
        assert (duplicate_ports root next = 0)
          by (apply IH; intros q Hq; apply H; now right).
        lia.
    + simpl. exact IH.
Qed.

(** [checker_validate_ports] always returns, prints messages only, and
    counts for each port definition with a [Num] value the other port
    definitions with the same number: a pair of ports with one number is
    counted twice.  The count is zero exactly when the port numbers are
    pairwise different, and nothing is printed then. *)
Theorem validate_ports_unique (root : list definition_t) (g : globals) :
  returns (checker_validate_ports root) g
    (fun errors g' =>
       errors = duplicate_ports root root
       /\ only_logs g g'
       /\ (errors = 0 <-> NoDup (port_numbers root))
       /\ (errors = 0 -> g' = g)).
Proof.
  unfold checker_validate_ports. eapply returns_weaken.
  - apply (validate_ports_from_counts root root [] 0 g). reflexivity.
  - cbv beta. intros errors g' (E & Hlog & Hnone). rewrite Z.add_0_l in E.
    subst errors. split; [reflexivity|]. split; [exact Hlog|].
    split; [split|].
    + intros H. apply (NoDup_count_occ' Z.eq_dec).
      now apply (duplicate_ports_zero root root (incl_refl _)).
    + intros H. apply (duplicate_ports_zero root root (incl_refl _)).
      now apply (NoDup_count_occ' Z.eq_dec).
    + exact Hnone.
Qed.

(** ** Cyclic parameter sweeps *)

(** The test of the loop of [checker_validate_para_cycles]. *)
Definition is_action_named (instance : string) (def : definition_t) : bool :=
  (d_action def =? 1) && String.eqb (d_instance def) instance.

(** The first action of the list with the given instance name. *)
Definition find_action (root : list definition_t) (instance : string)
  : option definition_t :=
  find (is_action_named instance) root.

(** The analysis a parameter sweep refers to. *)
Definition sweep_target (def : definition_t) : option string :=
  if String.eqb (d_type def) "SW" then
    match checker_find_reference def "Sim" with
    | Some val => v_ident val
    | None => None
    end
  else None.

(** The action [a] is a sweep of the action [b]. *)
Definition sweeps (root : list definition_t) (a b : string) : Prop :=
  exists def, find_action root a = Some def /\ sweep_target def = Some b.

(** The instance names of the actions. *)
Definition action_names (root : list definition_t) : list string :=
  map d_instance (filter (fun def => d_action def =? 1) root).

Lemma find_action_In root instance def :
  find_action root instance = Some def ->
  In instance (action_names root) /\ d_instance def = instance.
Proof.
  unfold find_action, action_names. intros H. apply find_some in H.
  destruct H as [Hin H]. unfold is_action_named in H.
  apply andb_prop in H. destruct H as [Ha Hn].
  apply String.eqb_eq in Hn. split; [|exact Hn].
  rewrite <- Hn. apply in_map, filter_In. auto.
Qed.

Lemma find_action_not_In root instance :
  ~ In instance (action_names root) -> find_action root instance = None.
Proof.
  intros H. destruct (find_action root instance) eqn:E; [|reflexivity].
  apply find_action_In in E. tauto.
Qed.

(** With one action of each name at most, the loop ends at the first action
    of the name. *)
Lemma validate_para_cycles_from_unique recurse instance deps g :
  forall defs,
    NoDup (action_names defs) ->
    validate_para_cycles_from recurse defs instance deps g
    = match find_action defs instance with
      | None => Some (0, g)
      | Some def =>
          if strlist_contains deps instance then
            Some (1, mk_globals (definition_root g) (subcircuit_root g)
                       (checker_sub_cycles g)
                       (ErrCyclicSweep instance deps :: log g))
          else
            match sweep_target def with
            | Some b => recurse b (strlist_append deps instance) g
            | None => Some (0, g)
            end
      end.
Proof.
  assert (Hnone : forall defs deps',
             find_action defs instance = None ->
             validate_para_cycles_from recurse defs instance deps' g
             = Some (0, g)).
  { induction defs as [|def next IH]; intros deps' H; simpl in *;
      [reflexivity|].
    unfold is_action_named in H at 1.
    destruct ((d_action def =? 1) && String.eqb (d_instance def) instance);
      [discriminate|]. now apply IH. }
  induction defs as [|def next IH]; intros Hnd; simpl; [reflexivity|].
  unfold find_action, action_names in *. simpl in *.
  unfold is_action_named at 1.
  destruct (d_action def =? 1) eqn:Ea; simpl in *.
  - inversion Hnd as [|? ? Hnotin Hnd']; subst.
    destruct (String.eqb (d_instance def) instance) eqn:En.
    + apply String.eqb_eq in En.
      destruct (strlist_contains deps instance); [reflexivity|].
      assert (Hrest : find_action next instance = None)
        by (apply find_action_not_In; now rewrite <- En).
      unfold sweep_target.
      destruct (String.eqb (d_type def) "SW"); [|now apply Hnone].
      destruct (checker_find_reference def "Sim") as [val|] eqn:Er;
        [|now apply Hnone].
      pose proof (find_reference_pair_ident _ _ _ Er) as Hid.
      destruct (v_ident val) as [b|]; [reflexivity|congruence].
    + now apply IH.
  - now apply IH.
Qed.

(** The dependencies are names of actions, each one once. *)
Definition sweep_deps_ok (root : list definition_t) (deps : strlist)
  : Prop :=
  NoDup deps /\ incl deps (action_names root).

Lemma sweeps_functional root a b c :
  sweeps root a b -> sweeps root a c -> b = c.
Proof. intros (d1 & H1 & T1) (d2 & H2 & T2). congruence. Qed.

(** The run has returned 0 and has left the globals as they were, or it
    has returned 1 and has printed one message about a cyclic sweep. *)
Definition sweep_cycle_result (g : globals) (r : Z) (g' : globals) : Prop :=
  only_logs g g'
  /\ (r = 0 /\ g' = g
      \/ r = 1 /\ exists i deps, log g' = ErrCyclicSweep i deps :: log g).

(** What one call of [checker_validate_para_cycles] gives. *)
Lemma validate_para_cycles_spec root :
  NoDup (action_names root) ->
  forall fuel instance deps g,
    sweep_deps_ok root deps ->
    (List.length (action_names root) < fuel + List.length deps)%nat ->
    exists r g',
      checker_validate_para_cycles fuel root instance deps g = Some (r, g')
      /\ sweep_cycle_result g r g'
      /\ (forall d, In d deps ->
                    clos_refl_trans_1n string (sweeps root) instance d ->
                    r = 1)
      /\ (forall b, clos_refl_trans_1n string (sweeps root) instance b ->
                    clos_trans_1n string (sweeps root) b b -> r = 1)
      /\ ((forall b, clos_refl_trans_1n string (sweeps root) instance b ->
                     ~ clos_trans_1n string (sweeps root) b b) ->
          (forall d, In d deps ->
                     clos_trans_1n string (sweeps root) d instance) ->
          r = 0).
Proof.
  intros Hroot. induction fuel as [|fuel IH];
    intros instance deps g [Hnd Hincl] Hfuel.
  { pose proof (NoDup_incl_length Hnd Hincl). lia. }
  cbn [checker_validate_para_cycles].
  rewrite (validate_para_cycles_from_unique _ _ _ _ root Hroot).
  assert (Hzero : forall g0, sweep_cycle_result g0 0 g0).
  { intros g0. split; [apply only_logs_refl|]. now left. }
  destruct (find_action root instance) as [def|] eqn:Efind.
  - destruct (strlist_contains deps instance) eqn:Ein.
    + apply strlist_contains_In in Ein.
      eexists _, _. split; [reflexivity|]. split.
      { split; [apply only_logs_logprint|]. right. split; [reflexivity|].
        now exists instance, deps. }
      split; [reflexivity|]. split; [reflexivity|].
      intros Hacyclic Hanc. exfalso.
      apply (Hacyclic instance); [constructor|]. now apply Hanc.
    + apply strlist_contains_not_In in Ein.
      destruct (sweep_target def) as [b|] eqn:Et.
      * assert (Hedge : sweeps root instance b) by (exists def; auto).
        destruct (IH b (strlist_append deps instance) g) as
          (r & g' & Hrun & Hres & Hdep & Hcyc & Hnone).
        { split.
          - unfold strlist_append. apply NoDup_app; [assumption| |].
            + repeat constructor. intros [].
            + intros x Hx [<-|[]]. contradiction.
          - unfold strlist_append. apply incl_app; [assumption|].
            intros x [<-|[]]. now apply (find_action_In root _ def). }
        { unfold strlist_append. rewrite length_app. simpl. lia. }
        exists r, g'. split; [exact Hrun|]. split; [exact Hres|].
        split; [|split].
        -- intros d Hd Hreach.
           destruct Hreach as [|y z Hy Hyz]; [contradiction|].
           rewrite (sweeps_functional _ _ _ _ Hy Hedge) in Hyz.
           apply (Hdep z); [|exact Hyz].
           unfold strlist_append. apply in_or_app. now left.
        -- intros c Hreach Hc.
           destruct Hreach as [|y z Hy Hyz].
           ++ apply clos_trans_1n_first in Hc.
              destruct Hc as (y & Hy & Hback).
              rewrite (sweeps_functional _ _ _ _ Hy Hedge) in Hback.
              apply (Hdep instance); [|exact Hback].
              unfold strlist_append. apply in_or_app. right. now left.
           ++ rewrite (sweeps_functional _ _ _ _ Hy Hedge) in Hyz.
              now apply (Hcyc z).
        -- intros Hacyclic Hanc. apply Hnone.
           ++ intros c Hc. apply Hacyclic.
              eapply Relation_Operators.rt1n_trans; eassumption.
           ++ intros d Hd. unfold strlist_append in Hd.
              apply in_app_or in Hd. destruct Hd as [Hd|[<-|[]]].
              ** eapply clos_trans_1n_snoc; [now apply Hanc|exact Hedge].
              ** now apply Relation_Operators.t1n_step.
      * assert (Hnoedge : forall y, ~ sweeps root instance y).
        { intros y (d & Hd & Hy). congruence. }
        exists 0, g. split; [reflexivity|]. split; [apply Hzero|].
        split; [|split].
        -- intros d Hd Hreach. exfalso.
           destruct Hreach as [|y z Hy _]; [contradiction|].
           now apply (Hnoedge y).
        -- intros c Hreach Hc. exfalso.
           destruct Hreach as [|y z Hy _]; [|now apply (Hnoedge y)].
           apply clos_trans_1n_first in Hc. destruct Hc as (y & Hy & _).
           now apply (Hnoedge y).
        -- reflexivity.
  - assert (Hnoedge : forall y, ~ sweeps root instance y).
    { intros y (d & Hd & Hy). congruence. }
    assert (Hnotdep : ~ In instance deps).
    { intros Hd. apply Hincl in Hd.
      unfold find_action, action_names in *.
      apply in_map_iff in Hd. destruct Hd as (x & Hx & Hd).
      apply filter_In in Hd. destruct Hd as [Hd Ha].
      apply (find_none _ _ Efind) in Hd. unfold is_action_named in Hd.
      rewrite Ha, Hx, String.eqb_refl in Hd. discriminate. }
    exists 0, g. split; [reflexivity|]. split; [apply Hzero|].
    split; [|split].
    + intros d Hd Hreach. exfalso.
      destruct Hreach as [|y z Hy _]; [contradiction|].
      now apply (Hnoedge y).
    + intros c Hreach Hc. exfalso.
      destruct Hreach as [|y z Hy _]; [|now apply (Hnoedge y)].
      apply clos_trans_1n_first in Hc. destruct Hc as (y & Hy & _).
      now apply (Hnoedge y).
    + reflexivity.
Qed.

(** [checker_validate_para_cycles], started as [checker_validate_para]
    starts it, on a netlist whose actions have different names: it
    returns, with the result 1 and one message about a cyclic definition
    when the chain of sweeps from [instance] comes back to an action of the
    chain, and with the result 0 and no message when it does not. *)
Theorem para_cycles_reported_iff_cyclic (fuel : nat)
    (root : list definition_t) (instance : string) (g : globals) :
  NoDup (action_names root) ->
  (List.length (action_names root) < fuel)%nat ->
  exists r g',
    checker_validate_para_cycles fuel root instance [] g = Some (r, g')
    /\ sweep_cycle_result g r g'
    /\ ((exists b, clos_refl_trans_1n string (sweeps root) instance b
                   /\ clos_trans_1n string (sweeps root) b b) ->
        r = 1)
    /\ ((forall b, clos_refl_trans_1n string (sweeps root) instance b ->
                   ~ clos_trans_1n string (sweeps root) b b) ->
        r = 0 /\ g' = g).
Proof.
  intros Hroot Hfuel.
  destruct (validate_para_cycles_spec root Hroot fuel instance [] g)
    as (r & g' & Hrun & Hres & _ & Hcyc & Hnone).
  - split; [constructor|intros x []].
  - simpl. lia.
  - exists r, g'. split; [exact Hrun|]. split; [exact Hres|]. split.
    + intros (b & Hb & Hc). now apply (Hcyc b).
    + intros H. assert (E : r = 0) by (apply Hnone; [exact H|intros d []]).
      split; [exact E|]. destruct Hres as [_ [[_ Hg]|[Hr _]]]; [exact Hg|].
      lia.
Qed.

(** ** The list of subcircuits *)

Definition is_def (def : definition_t) : bool := String.eqb (d_type def) "Def".

(** The subcircuit definitions in a statement list, those inside of
    subcircuit definitions included. *)
Fixpoint nested_defs (def : definition_t) : nat :=
  if String.eqb (d_type def) "Def"
  then S (list_sum (map nested_defs (d_sub def)))
  else 0.

Fixpoint def_size (def : definition_t) : nat :=
  S (list_sum (map def_size (d_sub def))).

Lemma nested_defs_eq def :
  nested_defs def
  = if String.eqb (d_type def) "Def"
    then S (list_sum (map nested_defs (d_sub def)))
    else 0%nat.
Proof. now destruct def. Qed.

Lemma build_subcircuits_def_eq def subcircuits :
  build_subcircuits_def def subcircuits
  = let '(sub, subcircuits) :=
      build_subcircuits_from (d_sub def) subcircuits in
    (set_d_sub sub def, subcircuits).
Proof.
  destruct def as [ty inst nodes pairs sub sc dup act subst nl ns line cp nc
                   dfn].
  cbn [build_subcircuits_def d_sub].
  match goal with
  | |- (let '(_, _) := ?f sub subcircuits in _) = _ =>
      assert (E : forall l s, f l s = build_subcircuits_from l s)
  end.
  { induction l as [|d l IH]; intros s; [reflexivity|].
    cbn [build_subcircuits_from].
    destruct (String.eqb (d_type d) "Def").
    - destruct (build_subcircuits_def d s) as [d' s']. apply IH.
    - rewrite IH. reflexivity. }
  rewrite E. reflexivity.
Qed.

(** What [build_subcircuits_from] makes of a statement list. *)
Definition built (root subcircuits : list definition_t)
    (r : list definition_t * list definition_t) : Prop :=
  fst r = filter (fun def => negb (is_def def)) root
  /\ exists new,
       snd r = new ++ subcircuits
       /\ List.length new = list_sum (map nested_defs root)
       /\ Forall (fun def => is_def def = true
                             /\ forallb (fun d => negb (is_def d)) (d_sub def)
                                = true) new.

Lemma build_subcircuits_from_built n :
  forall root subcircuits,
    (list_sum (map def_size root) <= n)%nat ->
    built root subcircuits (build_subcircuits_from root subcircuits).
Proof.
  induction n as [|n IHn]; intros root subcircuits Hn.
  - destruct root as [|def next].
    + split; [reflexivity|]. exists []. repeat split. constructor.
    + exfalso. destruct def. simpl in Hn. lia.
  - revert subcircuits Hn.
    induction root as [|def next IH]; intros subcircuits Hn.
    + split; [reflexivity|]. exists []. repeat split. constructor.
    + assert (Hsize : (list_sum (map def_size (d_sub def)) <= n
                       /\ list_sum (map def_size next) <= S n)%nat).
      { destruct def. simpl in *. lia. }
      destruct Hsize as [Hsub Hnext].
      cbn [build_subcircuits_from]. unfold built. cbn [filter map list_sum].
      unfold is_def at 1 3. rewrite (nested_defs_eq def).
      destruct (String.eqb (d_type def) "Def") eqn:Edef.
      * rewrite build_subcircuits_def_eq.
        pose proof (IHn (d_sub def) subcircuits Hsub) as Hbody.
        destruct (build_subcircuits_from (d_sub def) subcircuits)
          as [sub subs1].
        destruct Hbody as [Hb1 (new1 & Hb2 & Hb3 & Hb4)].
        cbn [fst snd] in *.
        pose proof (IH (set_d_sub sub def :: subs1) Hnext) as Hrest.
        destruct (build_subcircuits_from next (set_d_sub sub def :: subs1))
          as [root2 subs2].
        destruct Hrest as [Hr1 (new2 & Hr2 & Hr3 & Hr4)].
        cbn [fst snd negb] in *. split; [exact Hr1|].
        exists (new2 ++ set_d_sub sub def :: new1). split; [|split].
        -- rewrite Hr2, Hb2. now rewrite <- app_assoc.
        -- rewrite length_app. simpl. lia.
        -- apply Forall_app. split; [exact Hr4|].
           constructor; [|exact Hb4]. split.
           ++ unfold is_def. now destruct def.
           ++ replace (d_sub (set_d_sub sub def)) with sub
                by now destruct def.
              rewrite Hb1. apply forallb_forall. intros d Hd.
              apply filter_In in Hd. apply Hd.
      * pose proof (IH subcircuits Hnext) as Hrest.
        destruct (build_subcircuits_from next subcircuits) as [root2 subs2].
        destruct Hrest as [Hr1 (new2 & Hr2 & Hr3 & Hr4)].
        cbn [fst snd negb] in *. split; [now rewrite Hr1|].
        exists new2. auto.
Qed.

(** Without a subcircuit definition inside of another one, the new
    subcircuits are the definitions of the list, the last one first. *)
Lemma build_subcircuits_from_flat :
  forall root subcircuits,
    Forall (fun def => forallb (fun d => negb (is_def d)) (d_sub def) = true)
      root ->
    snd (build_subcircuits_from root subcircuits)
    = rev (filter is_def root) ++ subcircuits.
Proof.
  induction root as [|def next IH]; intros subcircuits Hflat;
    [reflexivity|].
  inversion Hflat as [|? ? Hdef Hnext]; subst.
  cbn [build_subcircuits_from filter]. unfold is_def at 1.
  destruct (String.eqb (d_type def) "Def") eqn:Edef.
  - rewrite build_subcircuits_def_eq.
    assert (Hbody : forall l s,
               forallb (fun d => negb (is_def d)) l = true ->
               build_subcircuits_from l s = (l, s)).
    { induction l as [|d l IHl]; intros s Hl; [reflexivity|].
      simpl in Hl. apply andb_prop in Hl. destruct Hl as [Hd Hl].
      cbn [build_subcircuits_from]. unfold is_def in Hd.
      destruct (String.eqb (d_type d) "Def"); [discriminate|].
      now rewrite IHl. }
    rewrite (Hbody _ _ Hdef).
    replace (set_d_sub (d_sub def) def) with def by now destruct def.
    specialize (IH (def :: subcircuits) Hnext).
    destruct (build_subcircuits_from next (def :: subcircuits))
      as [root2 subs2].
    cbn [snd] in *. rewrite IH. cbn [rev]. now rewrite <- app_assoc.
  - specialize (IH subcircuits Hnext).
    destruct (build_subcircuits_from next subcircuits) as [root2 subs2].
    exact IH.
Qed.

Lemma find_subcircuit_in_last l2 d rest name :
  d_instance d = name ->
  (forall d', In d' l2 -> d_instance d' <> name) ->
  find_subcircuit_in (rev l2 ++ d :: rest) (Some name) = Some d.
Proof.
  intros Hd Hl2. unfold find_subcircuit_in.
  assert (H : forall l, (forall d', In d' l -> d_instance d' <> name) ->
                        find (fun def => String.eqb (d_instance def) name)
                          (l ++ d :: rest) = Some d).
  { induction l as [|x l IH]; intros Hl; simpl.
    - rewrite Hd. now rewrite String.eqb_refl.
    - replace (String.eqb (d_instance x) name) with false.
      + apply IH. intros d' Hd'. apply Hl. now right.
      + symmetry. apply String.eqb_neq. apply Hl. now left. }
  apply H. intros d' Hd'. apply Hl2. now apply in_rev.
Qed.

(** [checker_build_subcircuits] always returns.  The list it returns is
    the given list without its subcircuit definitions, the other statements
    in their order.  Each subcircuit definition of the list, also one
    inside of another subcircuit definition, is put in front of the list of
    subcircuits, and the body of none of them has a subcircuit definition
    left.  When no definition is nested, the new subcircuits are the
    definitions of the list in reverse order, so that of the definitions
    with one name [checker_find_subcircuit] finds the last one of the
    list. *)
Theorem build_subcircuits_splits (root : list definition_t) (g : globals) :
  exists new,
    checker_build_subcircuits root g
    = Some (filter (fun def => negb (is_def def)) root,
            mk_globals (definition_root g) (new ++ subcircuit_root g)
              (checker_sub_cycles g) (log g))
    /\ List.length new = list_sum (map nested_defs root)
    /\ Forall (fun def => is_def def = true
                          /\ forallb (fun d => negb (is_def d)) (d_sub def)
                             = true) new
    /\ (Forall (fun def => forallb (fun d => negb (is_def d)) (d_sub def)
                           = true) root ->
        new = rev (filter is_def root)
        /\ forall l1 d l2,
             root = l1 ++ d :: l2 -> is_def d = true ->
             (forall d', In d' l2 -> is_def d' = true ->
                         d_instance d' <> d_instance d) ->
             find_subcircuit_in (new ++ subcircuit_root g)
               (Some (d_instance d)) = Some d).
Proof.
  unfold checker_build_subcircuits, bind, get_subcircuit_root.
  pose proof (build_subcircuits_from_built _ root (subcircuit_root g)
                (Nat.le_refl _)) as Hbuilt.
  pose proof (build_subcircuits_from_flat root (subcircuit_root g)) as Hflat.
  destruct (build_subcircuits_from root (subcircuit_root g)) as [root1 subs1].
  destruct Hbuilt as [H1 (new & H2 & H3 & H4)]. cbn [fst snd] in *.
  exists new. subst root1 subs1. split; [reflexivity|].
  split; [exact H3|]. split; [exact H4|].
  intros Hroot. specialize (Hflat Hroot).
  apply app_inv_tail in Hflat. split; [exact Hflat|].
  intros l1 d l2 E Hd Hl2. rewrite Hflat, E, filter_app. cbn [filter].
  rewrite Hd, rev_app_distr. cbn [rev]. rewrite <- !app_assoc. cbn [app].
  apply find_subcircuit_in_last; [reflexivity|].
  intros d' Hd'. apply filter_In in Hd'. now apply Hl2.
Qed.

(** ** Translating the nodes of a subcircuit element *)

Definition named (n : node_t) : Prop := n_node n <> None.

Lemma xlat_node_names nt ni i nodes g nodes' g' :
  xlat_node nt ni i nodes g = Some (nodes', g') ->
  map n_node nodes' = map n_node nodes /\ g' = g.
Proof.
  intros H. split.
  - apply xlat_node_pure in H. subst nodes'. rewrite map_map.
    apply map_ext. intros n.
    destruct (n_node n) as [name|] eqn:E; [|exact E].
    destruct (n_node nt) as [formal|]; [|exact E].
    destruct (String.eqb name formal); [reflexivity|exact E].
  - now apply reads_xlat_node in H.
Qed.

Lemma xlat_node_returns nt ni i g :
  named nt -> named ni ->
  forall nodes,
    Forall named nodes -> exists nodes', xlat_node nt ni i nodes g
                                         = Some (nodes', g).
Proof.
  unfold named. intros Hnt Hni. induction 1 as [|n next Hn _ IH]; simpl.
  - now exists [].
  - destruct IH as (next' & IH). unfold bind, ret.
    destruct (n_node n) as [name|]; [|congruence].
    destruct (n_node nt) as [formal|]; [|congruence].
    destruct (n_node ni) as [actual|]; [|congruence]. simpl.
    destruct (String.eqb name formal); simpl; rewrite IH; eauto.
Qed.

Lemma xlat_nodes_short ntype :
  forall ninst i nodes g,
    (List.length ninst < List.length ntype)%nat ->
    xlat_nodes ntype ninst i nodes g = None.
Proof.
  induction ntype as [|nt ntype IH]; intros [|ni ninst] i nodes g H;
    simpl in *; try lia; [reflexivity|].
  unfold bind. destruct (xlat_node nt ni i nodes g) as [[nodes1 g1]|];
    [|reflexivity].
  apply IH. lia.
Qed.

Lemma xlat_nodes_returns ntype :
  forall ninst i nodes g,
    (List.length ntype <= List.length ninst)%nat ->
    Forall named ntype -> Forall named (firstn (List.length ntype) ninst) ->
    Forall named nodes ->
    exists nodes', xlat_nodes ntype ninst i nodes g = Some (nodes', g).
Proof.
  induction ntype as [|nt ntype IH];
    intros [|ni ninst] i nodes g Hlen Htype Hinst Hnodes; simpl in *;
    try lia; try (now exists nodes).
  inversion Htype; inversion Hinst; subst.
  destruct (xlat_node_returns nt ni i g H1 H5 nodes Hnodes) as (nodes1 & E).
  unfold bind. rewrite E. apply IH; try assumption; [lia|].
  apply xlat_node_names in E. destruct E as [E _].
  clear - E Hnodes. unfold named in *. revert nodes1 E.
  induction Hnodes as [|n l Hn _ IHl]; intros [|n1 l1] E; simpl in E;
    try discriminate; constructor.
  - inversion E. congruence.
  - apply IHl. now inversion E.
Qed.

(** [checker_xlat_subcircuit_nodes] does not return for an instance with
    fewer nodes than the subcircuit, and returns when the instance has as
    many nodes at least and no node name is missing.  It writes to the
    translation fields only: the node names of the element stay, and
    [checker_cleanup_xlat_nodes] gives back the element as it was before the
    translation. *)
Theorem xlat_subcircuit_nodes_round_trip (type inst sub : definition_t)
    (g : globals) :
  ((List.length (d_nodes inst) < List.length (d_nodes type))%nat ->
   checker_xlat_subcircuit_nodes type inst sub g = None)
  /\ ((List.length (d_nodes type) <= List.length (d_nodes inst))%nat ->
      Forall named (d_nodes type) ->
      Forall named (firstn (List.length (d_nodes type)) (d_nodes inst)) ->
      Forall named (d_nodes sub) ->
      exists sub', checker_xlat_subcircuit_nodes type inst sub g
                   = Some (sub', g))
  /\ (forall sub' g',
         checker_xlat_subcircuit_nodes type inst sub g = Some (sub', g') ->
         g' = g
         /\ map n_node (d_nodes sub') = map n_node (d_nodes sub)
         /\ (Forall clean (d_nodes sub) ->
             checker_cleanup_xlat_nodes sub' = sub)).
Proof.
  split; [|split].
  - intros H. unfold checker_xlat_subcircuit_nodes, bind.
    rewrite (xlat_nodes_short _ _ _ _ _ H). reflexivity.
  - intros Hlen Htype Hinst Hsub.
    destruct (xlat_nodes_returns (d_nodes type) (d_nodes inst) 1
                (d_nodes sub) g Hlen Htype Hinst Hsub) as (nodes & E).
    unfold checker_xlat_subcircuit_nodes, bind. rewrite E.
    eexists. reflexivity.
  - intros sub' g' H.
    pose proof (reads_xlat_subcircuit_nodes type inst sub g sub' g' H) as Hg.
    apply xlat_subcircuit_nodes_pure in H. subst sub'.
    assert (Hnames :
      map n_node (map (xlat_pure (d_nodes type) (d_nodes inst) 1)
                    (d_nodes sub))
      = map n_node (d_nodes sub)).
    { rewrite map_map. apply map_ext. intros n. apply xlat_pure_name. }
    split; [exact Hg|]. split; [now destruct sub|].
    intros Hclean. unfold checker_cleanup_xlat_nodes.
    assert (Hback :
      map (fun n => mk_node (n_node n) None 0)
        (map (xlat_pure (d_nodes type) (d_nodes inst) 1) (d_nodes sub))
      = d_nodes sub).
    { rewrite map_map. rewrite <- (map_id (d_nodes sub)) at 2.
      apply map_ext_in. intros n Hn. rewrite xlat_pure_name.
      rewrite Forall_forall in Hclean. destruct (Hclean n Hn) as [Hx Hnr].
      destruct n. simpl in *. now subst. }
    destruct sub. simpl in *. now rewrite Hback.
Qed.

(** ** The copies the expansion makes *)

(** The copy [c] of the subcircuit element [e]: the type, the properties
    (the list itself, which the copy shares with the element), the action
    class and the marks the checker has set are those of the element. *)
Definition copy_of (e c : definition_t) : Prop :=
  d_type c = d_type e /\ d_pairs c = d_pairs e /\ d_action c = d_action e
  /\ d_nonlinear c = d_nonlinear e /\ d_substrate c = d_substrate e
  /\ d_nodeset c = d_nodeset e /\ d_define c = d_define e.

(** A statement made by the expansion: no subcircuit instance, marked as a
    copy, and the copy of an element of the body of an available
    subcircuit, whose name it carries. *)
Definition expanded_copy (subcircuits : list definition_t)
    (c : definition_t) : Prop :=
  d_type c <> "Sub" /\ d_copy c = 1
  /\ exists sub e,
       In sub subcircuits /\ In e (d_sub sub)
       /\ d_subcircuit c = Some (d_instance sub) /\ copy_of e c.

Lemma expanded_copy_set_nodes subcircuits nodes c :
  expanded_copy subcircuits c ->
  expanded_copy subcircuits (set_d_nodes nodes c).
Proof. destruct c. exact (fun H => H). Qed.

Lemma copy_circuit_nodes_all_shape type inst def instances :
  forall copy g copy' g',
    copy_circuit_nodes_all type inst def instances copy g
    = Some (copy', g') ->
    Forall2 (fun c c' => exists nodes, c' = set_d_nodes nodes c) copy copy'.
Proof.
  induction copy as [|c next IH]; intros g copy' g'; simpl.
  - unfold ret. intros H. inversion H. constructor.
  - unfold bind, checker_copy_circuit_nodes, bind, ret.
    destruct (copy_circuit_nodes_in _ _ _ _ _ g) as [[nodes g1]|];
      [|discriminate].
    destruct (copy_circuit_nodes_all type inst def instances next g1)
      as [[next' g2]|] eqn:E; [|discriminate].
    intros H. inversion H; subst. constructor; [eauto|].
    eapply IH. eassumption.
Qed.

Lemma find_subcircuit_in_In subcircuits n sub :
  find_subcircuit_in subcircuits n = Some sub -> In sub subcircuits.
Proof. intros H. now apply find_subcircuit_in_name in H. Qed.

Lemma get_subcircuit_In def g sub g' :
  checker_get_subcircuit def g = Some (Some sub, g') ->
  In sub (subcircuit_root g) /\ g' = g.
Proof.
  unfold checker_get_subcircuit.
  destruct (checker_find_reference def "Type") as [val|];
    [|unfold ret; discriminate].
  unfold checker_find_subcircuit, bind, get_subcircuit_root, ret.
  intros H. inversion H; subst. split; [|reflexivity].
  eapply find_subcircuit_in_In. eassumption.
Qed.

Lemma copy_subcircuits_from_copies subcircuits recurse type inst :
  In type subcircuits ->
  (forall sub def instances g copy g',
     In sub subcircuits -> subcircuit_root g = subcircuits ->
     recurse sub def instances g = Some (copy, g') ->
     g' = g /\ Forall (expanded_copy subcircuits) copy) ->
  forall defs instances root g copy g',
    incl defs (d_sub type) ->
    subcircuit_root g = subcircuits ->
    Forall (expanded_copy subcircuits) root ->
    copy_subcircuits_from recurse type inst defs instances root g
    = Some (copy, g') ->
    g' = g /\ Forall (expanded_copy subcircuits) copy.
Proof.
  intros Htype Hrec.
  induction defs as [|def next IH];
    intros instances root g copy g' Hdefs Hg Hroot; simpl.
  - unfold ret. intros H. inversion H; subst. auto.
  - assert (Hdef : In def (d_sub type)) by (apply Hdefs; now left).
    assert (Hnext : incl next (d_sub type))
      by (intros x Hx; apply Hdefs; now right).
    unfold bind at 1.
    destruct (checker_xlat_subcircuit_nodes type inst def g)
      as [[def' g1]|] eqn:Ex; [|discriminate].
    pose proof (reads_xlat_subcircuit_nodes _ _ _ _ _ _ Ex). subst g1.
    apply xlat_subcircuit_nodes_shape in Ex. destruct Ex as (nodes & ->).
    replace (d_type (set_d_nodes nodes def)) with (d_type def)
      by now destruct def.
    destruct (String.eqb (d_type def) "Sub") eqn:Esub.
    + unfold bind at 1.
      destruct (checker_get_subcircuit (set_d_nodes nodes def) g)
        as [[[sub|] g2]|] eqn:Eg; try discriminate.
      apply get_subcircuit_In in Eg. destruct Eg as [Hsub ->].
      rewrite Hg in Hsub. unfold bind at 1. cbn [deref ret].
      unfold bind at 1.
      match goal with
      | |- context [recurse sub ?d ?i g] =>
          destruct (recurse sub d i g) as [[rcopy g3]|] eqn:Er;
            [|discriminate]
      end.
      apply Hrec in Er; [|assumption..]. destruct Er as [-> Hrcopy].
      unfold bind at 1.
      destruct rcopy as [|c rcopy].
      * cbn [ret]. now apply IH.
      * unfold bind at 1.
        match goal with
        | |- context [copy_circuit_nodes_all ?a ?b ?c ?d ?e g] =>
            destruct (copy_circuit_nodes_all a b c d e g)
              as [[ncopy g4]|] eqn:En; [|discriminate]
        end.
        pose proof (reads_copy_circuit_nodes_all _ _ _ _ _ _ _ _ En).
        subst g4. apply copy_circuit_nodes_all_shape in En.
        cbn [ret]. apply IH; try assumption.
        apply Forall_app. split; [|assumption].
        clear - En Hrcopy. induction En as [|x y l l' Hxy _ IHl];
          [constructor|].
        inversion Hrcopy; subst. constructor; [|now apply IHl].
        destruct Hxy as (n & ->). now apply expanded_copy_set_nodes.
    + unfold bind at 1.
      match goal with
      | |- context [checker_copy_subcircuit_nodes ?a ?b ?c ?d ?e g] =>
          destruct (checker_copy_subcircuit_nodes a b c d e g)
            as [[c1 g2]|] eqn:Ec; [|discriminate]
      end.
      pose proof (reads_copy_subcircuit_nodes _ _ _ _ _ _ _ _ Ec).
      subst g2. apply copy_subcircuit_nodes_shape in Ec.
      destruct Ec as (n2 & ->).
      apply IH; try assumption.
      constructor; [|assumption].
      apply expanded_copy_set_nodes.
      apply String.eqb_neq in Esub.
      split; [now destruct def|]. split; [reflexivity|].
      exists type, def. split; [assumption|]. split; [assumption|].
      split; [reflexivity|]. destruct def. repeat split.
Qed.

Lemma copy_subcircuits_copies subcircuits fuel :
  forall type inst instances g copy g',
    In type subcircuits -> subcircuit_root g = subcircuits ->
    checker_copy_subcircuits fuel type inst instances g = Some (copy, g') ->
    g' = g /\ Forall (expanded_copy subcircuits) copy.
Proof.
  induction fuel as [|fuel IH]; intros type inst instances g copy g' Ht Hg;
    simpl; [unfold crash; discriminate|].
  apply (copy_subcircuits_from_copies subcircuits); try assumption.
  - apply incl_refl.
  - constructor.
Qed.

Lemma filter_not_sub l :
  Forall not_sub l ->
  filter (fun def => negb (String.eqb (d_type def) "Sub")) l = l.
Proof.
  induction 1 as [|def next Hd _ IH]; simpl; [reflexivity|].
  apply String.eqb_neq in Hd. rewrite Hd. simpl. now rewrite IH.
Qed.

Lemma expand_subcircuits_loop_flat subcircuits fuel :
  forall before rest g r g',
    subcircuit_root g = subcircuits ->
    Forall not_sub before ->
    expand_subcircuits_loop fuel before rest g = Some (r, g') ->
    g' = g
    /\ exists copies,
         r = copies ++ before
               ++ filter (fun def => negb (String.eqb (d_type def) "Sub"))
                    rest
         /\ Forall (expanded_copy subcircuits) copies.
Proof.
  induction fuel as [|fuel IH]; intros before rest g r g' Hg Hbefore;
    simpl; [unfold crash; discriminate|].
  destruct rest as [|def next].
  - unfold ret. intros H. inversion H; subst. split; [reflexivity|].
    exists []. rewrite app_nil_r. split; [reflexivity|constructor].
  - cbn [filter]. destruct (String.eqb (d_type def) "Sub") eqn:Esub.
    + unfold bind at 1.
      destruct (checker_get_subcircuit def g) as [[[sub|] g1]|] eqn:Eg;
        try discriminate.
      apply get_subcircuit_In in Eg. destruct Eg as [Hsub ->].
      rewrite Hg in Hsub. unfold bind at 1. cbn [deref ret].
      unfold bind at 1.
      destruct (checker_copy_subcircuits fuel sub def None g)
        as [[copy g2]|] eqn:Ec; [|discriminate].
      apply (copy_subcircuits_copies subcircuits) in Ec; try assumption.
      destruct Ec as [-> Hcopy]. cbn [negb].
      destruct copy as [|c copy].
      * now apply IH.
      * intros H. apply IH in H; try assumption.
        -- destruct H as [-> (copies & -> & Hcopies)].
           split; [reflexivity|]. exists (copies ++ c :: copy). split.
           ++ rewrite filter_app, (filter_not_sub before Hbefore).
              now rewrite <- !app_assoc.
           ++ apply Forall_app. auto.
        -- eapply Forall_impl; [|exact Hcopy]. intros x Hx. apply Hx.
    + cbn [negb]. intros H. apply IH in H; try assumption.
      * destruct H as [-> (copies & -> & Hcopies)].
        split; [reflexivity|]. exists copies. split; [|assumption].
        now rewrite <- !app_assoc.
      * apply Forall_app. split; [assumption|]. constructor; [|constructor].
        now apply String.eqb_neq in Esub.
Qed.

(** When [checker_expand_subcircuits] returns, the globals are as they
    were and the list has no subcircuit instance left: it is made of
    copies of elements of the available subcircuits, each marked as a copy
    and sharing the properties of its element, followed by the statements
    of the given list that are no subcircuit instances, in their order. *)
Theorem expand_subcircuits_flat (fuel : nat) (root r : list definition_t)
    (g g' : globals) :
  checker_expand_subcircuits fuel root g = Some (r, g') ->
  g' = g
  /\ Forall not_sub r
  /\ exists copies,
       r = copies
             ++ filter (fun def => negb (String.eqb (d_type def) "Sub")) root
       /\ Forall (expanded_copy (subcircuit_root g)) copies.
Proof.
  unfold checker_expand_subcircuits. intros H.
  apply (expand_subcircuits_loop_flat (subcircuit_root g)) in H;
    [|reflexivity|constructor].
  destruct H as [-> (copies & -> & Hcopies)]. split; [reflexivity|].
  split.
  - apply Forall_app. split.
    + eapply Forall_impl; [|exact Hcopies]. intros x Hx. apply Hx.
    + cbn [app]. apply Forall_forall. intros x Hx. apply filter_In in Hx.
      destruct Hx as [_ Hx]. apply negb_true_iff in Hx.
      now apply String.eqb_neq in Hx.
  - exists copies. auto.
Qed.

(** ** What the validation leaves as it is *)

(** The parts of a statement the validation never writes to: all but the
    marks ([duplicate], [nodeset], [nonlinear], [substrate], [define],
    [ncount]) and the values of the properties. *)
Definition shape (def : definition_t) :=
  (d_type def, d_instance def, d_nodes def, d_sub def, d_subcircuit def,
   d_action def, d_line def, d_copy def, map p_key (d_pairs def)).

(** The statement list of the netlist and the list of subcircuits are the
    same in [g] and [g']. *)
Definition same_roots (g g' : globals) : Prop :=
  definition_root g' = definition_root g
  /\ subcircuit_root g' = subcircuit_root g.

Ltac solve_roots :=
  unfold same_roots in *;
  cbn [fst snd definition_root subcircuit_root] in *;
  repeat match goal with
         | H : _ /\ _ |- _ => destruct H
         end;
  repeat split; first [congruence | reflexivity | assumption].

Lemma roots_reads {A} (c : M A) g :
  reads c -> safely c g (fun _ g' => same_roots g g').
Proof.
  intros H. apply safely_eq. intros x g' E. apply H in E. now subst g'.
Qed.

Lemma roots_validate_reference def key g :
  safely (checker_validate_reference def key) g
    (fun _ g' => same_roots g g').
Proof.
  unfold checker_validate_reference. run_safely fail; solve_roots.
Qed.

Lemma roots_check_required def props :
  forall errors g,
    safely (check_required def props errors) g
      (fun _ g' => same_roots g g').
Proof.
  induction props as [|prop next IH]; intros errors g; simpl;
    run_safely ltac:(apply IH); solve_roots.
Qed.

Lemma roots_check_optional def props :
  forall errors g,
    safely (check_optional def props errors) g
      (fun _ g' => same_roots g g').
Proof.
  induction props as [|prop next IH]; intros errors g; simpl;
    run_safely ltac:(apply IH); solve_roots.
Qed.

Lemma roots_values_in_range pr def instance l h vals :
  forall errors g,
    safely (values_in_range pr def instance l h vals errors) g
      (fun _ g' => same_roots g g').
Proof.
  induction vals as [|val next IH]; intros errors g; simpl;
    run_safely ltac:(apply IH); solve_roots.
Qed.

Lemma roots_value_in_prop_range instance def pr prop g :
  safely (checker_value_in_prop_range instance def pr prop) g
    (fun _ g' => same_roots g g').
Proof.
  unfold checker_value_in_prop_range.
  run_safely ltac:(apply roots_values_in_range); solve_roots.
Qed.

Lemma roots_value_in_range_props instance def pr props :
  forall errors g,
    safely (value_in_range_props instance def pr props errors) g
      (fun _ g' => same_roots g g').
Proof.
  induction props as [|prop next IH]; intros errors g; simpl;
    run_safely ltac:(first [apply IH | apply roots_value_in_prop_range]);
    solve_roots.
Qed.

Lemma roots_value_in_range instance def pr g :
  safely (checker_value_in_range instance def pr) g
    (fun _ g' => same_roots g g').
Proof.
  unfold checker_value_in_range.
  run_safely ltac:(apply roots_value_in_range_props); solve_roots.
Qed.

Lemma roots_validate_special_from specials root def ident :
  forall found g,
    safely (validate_special_from specials root def ident found) g
      (fun _ g' => same_roots g g').
Proof.
  induction specials as [|special next IH]; intros found g; simpl;
    run_safely ltac:(apply IH); solve_roots.
Qed.

Lemma shape_set_value j f def :
  shape (set_d_pairs (update (d_pairs def) j
                        (fun pr => set_p_value (f (p_value pr)) pr)) def)
  = shape def.
Proof.
  unfold shape. destruct def. cbn. f_equal.
  apply map_update. now intros [].
Qed.

Lemma shape_update_value root i j f :
  map shape (update_value root i j f) = map shape root.
Proof.
  unfold update_value. apply map_update. intros def.
  apply shape_set_value.
Qed.

Lemma shape_count_definition_from type instance root :
  forall count,
    map shape (fst (count_definition_from count root type instance))
    = map shape root.
Proof.
  induction root as [|def next IH]; intros count; simpl; [reflexivity|].
  destruct (String.eqb (d_type def) type
            && String.eqb (d_instance def) instance).
  - specialize (IH (count + 1)).
    destruct (count_definition_from (count + 1) next type instance).
    simpl in *. rewrite IH. now destruct (1 <? count + 1), def.
  - specialize (IH count).
    destruct (count_definition_from count next type instance).
    simpl in *. now rewrite IH.
Qed.

Lemma shape_resolve_variable root i j g :
  safely (checker_resolve_variable root i j) g
    (fun r g' => map shape (fst r) = map shape root /\ same_roots g g').
Proof.
  unfold checker_resolve_variable.
  apply safely_bind, safely_deref. intros def _.
  apply safely_bind, safely_deref. intros pr _.
  destruct (v_ident (p_value pr)) as [ident|];
    [|apply safely_ret; split; [reflexivity|solve_roots]].
  destruct (checker_find_variable root "SW" "Param" (Some ident))
    as [[i' j']|]; cbv beta iota zeta;
  match goal with
  | |- context [checker_find_variable ?r "SW" "Sim" ?x] =>
      destruct (checker_find_variable r "SW" "Sim" x)
  end;
  destruct (checker_find_substrate def (Some ident)); cbv beta iota zeta;
  match goal with
  | |- context [checker_find_variable ?r "Sub" "Type" ?x] =>
      destruct (checker_find_variable r "Sub" "Type" x)
  end;
  (apply safely_bind; eapply safely_weaken;
   [apply roots_validate_special_from|]; cbv beta; intros special g1 Hq);
  destruct (special =? 0);
  match goal with
  | |- context [checker_find_variable ?r "SPfile" "File" ?x] =>
      destruct (checker_find_variable r "SPfile" "File" x)
  end;
  cbn [Z.add Z.eqb Pos.add Pos.succ];
  run_safely fail; cbn [fst];
  (split; [now rewrite ?shape_update_value | solve_roots]).
Qed.

Lemma shape_check_pairs available n :
  forall i j root errors g,
    safely (check_pairs available n i j root errors) g
      (fun r g' => map shape (fst r) = map shape root /\ same_roots g g').
Proof.
  induction n as [|n IH]; intros i j root errors g; simpl.
  - apply safely_ret. split; [reflexivity|solve_roots].
  - apply safely_bind, safely_deref. intros def _.
    destruct (nth_error (d_pairs def) j) as [pr|];
      [|apply safely_ret; split; [reflexivity|solve_roots]].
    apply safely_bind.
    assert (Hfirst :
      safely
        (if checker_is_property available (p_key pr) then ret errors
         else
           logprint (ErrExtraneous (d_line def) (p_key pr) (d_type def)
                       (d_instance def)) ;;;
           ret (errors + 1)) g
        (fun _ g' => same_roots g g')).
    { run_safely fail; solve_roots. }
    eapply safely_weaken; [exact Hfirst|]. cbv beta. intros e1 g1 H1.
    destruct (checker_evaluate_scale (p_value pr)) as [value ok].
    apply safely_bind. eapply safely_weaken; [apply roots_value_in_range|].
    cbv beta. intros ok2 g2 H2.
    apply safely_bind.
    eapply safely_weaken; [apply shape_resolve_variable|].
    cbv beta. intros [root3 ok3] g3 [H3 H3'].
    eapply safely_weaken; [apply IH|]. cbv beta.
    intros r g4 (H4 & H4').
    cbn [fst] in H3. rewrite shape_update_value in H3.
    split; [congruence|solve_roots].
Qed.

Lemma shape_update_available root i ns available n def :
  nth_error root i = Some def ->
  map shape (update root i (fun _ => set_d_available ns available n def))
  = map shape root.
Proof.
  intros H. apply (map_update_at shape root i _ def H). now destruct def.
Qed.

Lemma shape_check_available root i def errors g :
  nth_error root i = Some def ->
  safely (check_available root i def errors) g
    (fun r g' => map shape (fst r) = map shape root /\ same_roots g g').
Proof.
  intros Hd. unfold check_available.
  destruct (checker_find_definition (d_type def) (d_action def))
    as [available|].
  - cbv zeta. apply safely_bind.
    match goal with
    | |- safely ?c g _ =>
        assert (Hfirst : safely c g (fun _ g' => same_roots g g'))
    end.
    { run_safely fail; solve_roots. }
    eapply safely_weaken; [exact Hfirst|]. cbv beta. intros e1 g1 H1.
    apply safely_bind. eapply safely_weaken; [apply roots_check_required|].
    cbv beta. intros e2 g2 H2.
    apply safely_bind. eapply safely_weaken; [apply roots_check_optional|].
    cbv beta. intros e3 g3 H3.
    eapply safely_weaken; [apply shape_check_pairs|]. cbv beta.
    intros r g4 (H4 & H4').
    rewrite (shape_update_available root i _ _ _ def Hd) in H4.
    split; [assumption|solve_roots].
  - run_safely fail. split; [reflexivity|solve_roots].
Qed.

Lemma shape_checker_def root i def errors g :
  nth_error root i = Some def ->
  safely (netlist_checker_def root i def errors) g
    (fun r g' => map shape (fst r) = map shape root /\ same_roots g g').
Proof.
  intros Hd. unfold netlist_checker_def.
  apply safely_bind. eapply safely_weaken; [now apply shape_check_available|].
  cbv beta. intros [root1 e1] g1 (H1 & H1'). cbn [fst snd] in *.
  pose proof (shape_count_definition_from (d_type def) (d_instance def)
                root1 0) as Hc.
  unfold checker_count_definition.
  destruct (count_definition_from 0 root1 (d_type def) (d_instance def))
    as [root2 n]. cbn [fst] in Hc.
  run_safely fail; cbn [fst snd]; (split; [congruence|solve_roots]).
Qed.

(** What a loop over the statements keeps when each round keeps it. *)
Lemma shape_for_definitions {L : Type}
    (body : list definition_t -> nat -> definition_t -> L
            -> M (list definition_t * L)) :
  (forall root i def s g,
     nth_error root i = Some def ->
     safely (body root i def s) g
       (fun r g' => map shape (fst r) = map shape root /\ same_roots g g')) ->
  forall root s g,
    safely (for_definitions body (List.length root) 0 root s) g
      (fun r g' => map shape (fst r) = map shape root /\ same_roots g g').
Proof.
  intros Hbody root s g.
  eapply safely_weaken.
  - apply (for_definitions_inv body
             (fun _ root' _ g' =>
                map shape root' = map shape root /\ same_roots g g')
             (List.length root)).
    + intros i root' s' g' [E _].
      apply (f_equal (@List.length _)) in E. now rewrite !length_map in E.
    + intros i root' s' g' def [E E'] Hd.
      eapply safely_weaken; [now apply Hbody|]. cbv beta.
      intros r g2 [E2 E2']. split; [congruence|solve_roots].
    + reflexivity.
    + split; [reflexivity|solve_roots].
  - cbv beta. auto.
Qed.

Lemma shape_validate_strips_def strips def :
  forall root errors g,
    safely (validate_strips_def strips root def errors) g
      (fun r g' => map shape (fst r) = map shape root /\ same_roots g g').
Proof.
  induction strips as [|strip next IH]; intros root errors g; simpl.
  - apply safely_ret. split; [reflexivity|solve_roots].
  - destruct (String.eqb strip (d_type def)); [|apply IH].
    apply safely_bind.
    eapply safely_weaken; [apply roots_validate_reference|].
    cbv beta. intros [val|] g1 H1.
    + apply safely_bind, safely_deref. intros ident _.
      pose proof (shape_count_definition_from "SUBST" ident root 0) as Hc.
      unfold checker_count_definition.
      destruct (count_definition_from 0 root "SUBST" ident) as [root1 n].
      cbn [fst] in Hc.
      destruct (n =? 1).
      * eapply safely_weaken; [apply IH|]. cbv beta.
        intros r g2 (H2 & H2'). split; [congruence|solve_roots].
      * apply safely_bind, safely_logprint.
        eapply safely_weaken; [apply IH|]. cbv beta.
        intros r g2 (H2 & H2'). split; [congruence|solve_roots].
    + eapply safely_weaken; [apply IH|]. cbv beta.
      intros r g2 (H2 & H2'). split; [congruence|solve_roots].
Qed.

Lemma shape_validate_strips root g :
  safely (checker_validate_strips root) g
    (fun r g' => map shape (fst r) = map shape root /\ same_roots g g').
Proof.
  unfold checker_validate_strips. apply shape_for_definitions.
  intros root' i def errors g' _.
  destruct (d_action def =? 0).
  - apply shape_validate_strips_def.
  - apply safely_ret. split; [reflexivity|solve_roots].
Qed.

Lemma roots_validate_sub_cycles_from recurse defs :
  (forall sub deps g,
     safely (recurse sub deps) g (fun _ g' => same_roots g g')) ->
  forall checked deps errors g,
    safely (validate_sub_cycles_from recurse defs checked deps errors) g
      (fun _ g' => same_roots g g').
Proof.
  intros Hr. induction defs as [|def next IH];
    intros checked deps errors g; simpl.
  - apply safely_ret. solve_roots.
  - run_safely ltac:(first
      [ apply IH | apply Hr
      | apply roots_reads, reads_find_subcircuit ]);
      solve_roots.
Qed.

Lemma roots_validate_sub_cycles fuel :
  forall root type instance deps g,
    safely (checker_validate_sub_cycles fuel root type instance deps) g
      (fun _ g' => same_roots g g').
Proof.
  induction fuel as [|fuel IH]; intros root type instance deps g; simpl.
  - exact I.
  - destruct (strlist_contains deps type).
    + run_safely fail. solve_roots.
    + apply roots_validate_sub_cycles_from. intros. apply IH.
Qed.

Lemma roots_validate_subcircuits_from fuel defs :
  forall errors g,
    safely (validate_subcircuits_from fuel defs errors) g
      (fun _ g' => same_roots g g').
Proof.
  induction defs as [|def next IH]; intros errors g; simpl.
  - apply safely_ret. solve_roots.
  - run_safely ltac:(first
      [ apply IH | apply roots_validate_reference
      | apply roots_validate_sub_cycles
      | apply roots_reads, reads_find_subcircuit ]);
      solve_roots.
Qed.

Lemma shape_count_nodesets_from root n :
  forall count g,
    safely (count_nodesets_from count root n) g
      (fun r g' => map shape (fst r) = map shape root /\ g' = g).
Proof.
  induction root as [|def next IH]; intros count g; simpl.
  - apply safely_ret. split; reflexivity.
  - destruct (negb (d_nodeset def =? 0) && (d_duplicate def =? 0)).
    + apply safely_bind. apply safely_eq. intros node g1 E.
      apply reads_first_node in E. subst g1.
      destruct (String.eqb node n).
      * apply safely_bind. eapply safely_weaken; [apply IH|]. cbv beta.
        intros [r c] g2 [H ->]. apply safely_ret. split; [|reflexivity].
        cbn [fst map] in *. rewrite H.
        now destruct (1 <? count + 1), def.
      * apply safely_bind. eapply safely_weaken; [apply IH|]. cbv beta.
        intros [r c] g2 [H ->]. apply safely_ret. split; [|reflexivity].
        cbn [fst map] in *. now rewrite H.
    + apply safely_bind. eapply safely_weaken; [apply IH|]. cbv beta.
      intros [r c] g2 [H ->]. apply safely_ret. split; [|reflexivity].
      cbn [fst map] in *. now rewrite H.
Qed.

Lemma shape_validate_nodesets root g :
  safely (checker_validate_nodesets root) g
    (fun r g' => map shape (fst r) = map shape root /\ same_roots g g').
Proof.
  unfold checker_validate_nodesets. apply shape_for_definitions.
  intros root' i def errors g' _.
  destruct (negb (d_nodeset def =? 0) && (checker_count_nodes def =? 1)).
  - apply safely_bind.
    eapply safely_weaken; [apply roots_reads, reads_first_node|].
    cbv beta. intros node g1 Hq1.
    apply safely_bind.
    eapply safely_weaken; [apply roots_reads, reads_count_nodes_from|].
    cbv beta. intros n g2 Hq2.
    apply safely_bind.
    match goal with
    | |- safely ?c g2 _ =>
        assert (Hfirst : safely c g2 (fun _ g' => same_roots g2 g'))
    end.
    { run_safely fail; solve_roots. }
    eapply safely_weaken; [exact Hfirst|]. cbv beta. intros e g3 Hq3.
    apply safely_bind. unfold checker_count_nodesets.
    eapply safely_weaken; [apply shape_count_nodesets_from|].
    cbv beta. intros [root2 c] g4 [Hk ->]. cbn [fst] in Hk.
    run_safely fail; cbn [fst snd]; (split; [assumption|solve_roots]).
  - apply safely_ret. split; [reflexivity|solve_roots].
Qed.

Lemma shape_checker_intern fuel root g :
  safely (netlist_checker_intern fuel root) g
    (fun r g' => map shape (fst r) = map shape root /\ same_roots g g').
Proof.
  unfold netlist_checker_intern.
  apply safely_bind.
  eapply safely_weaken;
    [apply shape_for_definitions; intros; now apply shape_checker_def|].
  cbv beta. intros [root1 e1] g1 (H1 & H1'). cbn [fst snd] in *.
  apply safely_bind. eapply safely_weaken; [apply shape_validate_strips|].
  cbv beta. intros [root2 e2] g2 (H2 & H2'). cbn [fst snd] in *.
  apply safely_bind. unfold checker_validate_subcircuits.
  eapply safely_weaken; [apply roots_validate_subcircuits_from|].
  cbv beta. intros e3 g3 H3.
  apply safely_bind. eapply safely_weaken; [apply shape_validate_nodesets|].
  cbv beta. intros [root4 e4] g4 (H4 & H4'). cbn [fst snd] in *.
  apply safely_ret. cbn [fst snd]. split; [congruence|solve_roots].
Qed.

(** When [netlist_checker_intern] returns, the list has the statements it
    had, in their order: the checker has written to the marks and to the
    values of properties only.  It has counted no error back, and has
    replaced neither the statement list of the netlist nor the list of
    subcircuits. *)
Theorem checker_intern_annotates (fuel : nat) (root root' : list definition_t)
    (errors : Z) (g g' : globals) :
  netlist_checker_intern fuel root g = Some (root', errors, g') ->
  map shape root' = map shape root
  /\ List.length root' = List.length root
  /\ 0 <= errors
  /\ definition_root g' = definition_root g
  /\ subcircuit_root g' = subcircuit_root g.
Proof.
  intros H.
  pose proof (shape_checker_intern fuel root g) as Hshape.
  pose proof (counts_checker_intern fuel root g) as Hcount.
  unfold safely in *. rewrite H in *. cbn [fst snd] in *.
  destruct Hcount as (H1 & _ & _). destruct Hshape as (Hs & Hd & Hr).
  split; [exact Hs|].
  split; [|repeat split; assumption].
  apply (f_equal (@List.length _)) in Hs.
  now rewrite !length_map in Hs.
Qed.

(** ** The netlist the checker leaves *)

Lemma roots_validate_para_cycles_from recurse defs instance :
  (forall ident deps g,
     safely (recurse ident deps) g (fun _ g' => same_roots g g')) ->
  forall deps g,
    safely (validate_para_cycles_from recurse defs instance deps) g
      (fun _ g' => same_roots g g').
Proof.
  intros Hr. induction defs as [|def next IH]; intros deps g; simpl;
    run_safely ltac:(first [apply IH | apply Hr]); solve_roots.
Qed.

Lemma roots_validate_para_cycles fuel root :
  forall instance deps g,
    safely (checker_validate_para_cycles fuel root instance deps) g
      (fun _ g' => same_roots g g').
Proof.
  induction fuel as [|fuel IH]; intros instance deps g; simpl.
  - exact I.
  - apply roots_validate_para_cycles_from. intros. apply IH.
Qed.

Lemma roots_validate_para_from fuel root defs :
  forall errors g,
    safely (validate_para_from fuel root defs errors) g
      (fun _ g' => same_roots g g').
Proof.
  induction defs as [|def next IH]; intros errors g; simpl;
    run_safely ltac:(first
      [ apply IH | apply roots_validate_reference
      | apply roots_validate_para_cycles ]);
    solve_roots.
Qed.

Lemma roots_validate_ports_against def i p ports :
  forall k errors g,
    safely (validate_ports_against def i p k ports errors) g
      (fun _ g' => same_roots g g').
Proof.
  induction ports as [|port next IH]; intros k errors g; simpl;
    run_safely ltac:(apply IH); solve_roots.
Qed.

Lemma roots_validate_ports_from root defs :
  forall i errors g,
    safely (validate_ports_from root defs i errors) g
      (fun _ g' => same_roots g g').
Proof.
  induction defs as [|def next IH]; intros i errors g; simpl;
    run_safely ltac:(first [apply IH | apply roots_validate_ports_against]);
    solve_roots.
Qed.

Lemma roots_prop_value def key errors g :
  safely (required_prop_value def key errors) g
    (fun _ g' => same_roots g g')
  /\ safely (extraneous_prop_value def key errors) g
       (fun _ g' => same_roots g g').
Proof.
  unfold required_prop_value, extraneous_prop_value.
  split; run_safely fail; solve_roots.
Qed.

Lemma find_prop_value_pair_nth pairs key :
  forall j0 j pr,
    find_prop_value_pair pairs key j0 = Some (j, pr) ->
    (j0 <= j)%nat /\ nth_error pairs (j - j0) = Some pr.
Proof.
  induction pairs as [|pr0 next IH]; intros j0 j pr H; simpl in H;
    [discriminate|].
  assert (Hnext : find_prop_value_pair next key (S j0) = Some (j, pr) ->
                  (j0 <= j)%nat /\ nth_error (pr0 :: next) (j - j0) = Some pr).
  { intros H'. apply IH in H'. destruct H' as [Hle H']. split; [lia|].
    replace (j - j0)%nat with (S (j - S j0)) by lia. exact H'. }
  destruct (String.eqb (p_key pr0) key); [|now apply Hnext].
  destruct (v_ident (p_value pr0)); [now apply Hnext|].
  inversion H; subst. split; [lia|]. now rewrite Nat.sub_diag.
Qed.

Lemma find_prop_value_nth def key j pr :
  checker_find_prop_value def key = Some (j, pr) ->
  nth_error (d_pairs def) j = Some pr.
Proof.
  intros H. apply find_prop_value_pair_nth in H.
  now rewrite Nat.sub_0_r in H.
Qed.

Lemma shape_set_pair j pr pr' def :
  nth_error (d_pairs def) j = Some pr -> p_key pr' = p_key pr ->
  shape (set_d_pairs (update (d_pairs def) j (fun _ => pr')) def)
  = shape def.
Proof.
  intros Hj Hk. unfold shape. destruct def. cbn in *. f_equal.
  now apply (map_update_at p_key _ j _ pr).
Qed.

Lemma shape_validate_lists_body def errors g :
  safely (validate_lists_body def errors) g
    (fun r g' => shape (fst r) = shape def /\ same_roots g g').
Proof.
  unfold validate_lists_body.
  destruct ((d_action def =? 1)
            && (String.eqb (d_type def) "SW" || String.eqb (d_type def) "AC"
                || String.eqb (d_type def) "SP"));
    [|apply safely_ret; split; [reflexivity|solve_roots]].
  apply safely_bind, safely_deref. intros val _.
  destruct (opt_streq (v_ident val) "const" || opt_streq (v_ident val) "list").
  - apply safely_bind.
    match goal with
    | |- safely ?c g _ =>
        assert (Hfirst : safely c g
                  (fun r g' => shape (fst r) = shape def /\ same_roots g g'))
    end.
    { destruct (checker_find_prop_value def "Values") as [[j pr]|] eqn:Ev.
      - apply find_prop_value_nth in Ev.
        apply safely_bind.
        match goal with
        | |- safely ?c g _ =>
            assert (Hc : safely c g (fun _ g' => same_roots g g'))
        end.
        { run_safely fail; solve_roots. }
        eapply safely_weaken; [exact Hc|]. cbv beta. intros e1 g1 H1.
        cbn [evaluate_scale_chain].
        destruct (checker_evaluate_scale (set_v_var TAG_VECTOR (p_value pr)))
          as [v ok].
        destruct (evaluate_scale_chain (p_next pr)
                    (if ok =? 0 then e1 + 1 else e1)) as [vals e2].
        apply safely_ret. cbn [fst]. split; [|solve_roots].
        apply (shape_set_pair j pr); [assumption|]. now destruct pr.
      - run_safely fail. split; [reflexivity|solve_roots]. }
    eapply safely_weaken; [exact Hfirst|]. cbv beta.
    intros [def1 e1] g1 [H1 H1']. cbn [fst] in H1.
    run_safely ltac:(apply roots_prop_value).
    cbn [fst]. split; [assumption|solve_roots].
  - destruct (opt_streq (v_ident val) "lin" || opt_streq (v_ident val) "log").
    + run_safely ltac:(apply roots_prop_value).
      cbn [fst]. split; [reflexivity|solve_roots].
    + apply safely_ret. split; [reflexivity|solve_roots].
Qed.

Lemma shape_validate_lists_from root :
  forall errors g,
    safely (validate_lists_from root errors) g
      (fun r g' => map shape (fst r) = map shape root /\ same_roots g g').
Proof.
  induction root as [|def next IH]; intros errors g; simpl.
  - apply safely_ret. split; [reflexivity|solve_roots].
  - apply safely_bind.
    eapply safely_weaken; [apply shape_validate_lists_body|].
    cbv beta. intros [def1 e1] g1 [H1 H1']. cbn [fst] in H1.
    apply safely_bind. eapply safely_weaken; [apply IH|].
    cbv beta. intros [next1 e2] g2 [H2 H2']. cbn [fst] in H2.
    apply safely_ret. cbn [fst map]. split; [congruence|solve_roots].
Qed.

Lemma shape_validate_actions fuel root g :
  safely (checker_validate_actions fuel root) g
    (fun r g' => map shape (fst r) = map shape root /\ same_roots g g').
Proof.
  unfold checker_validate_actions.
  apply safely_bind.
  match goal with
  | |- safely ?c g _ =>
      assert (Hfirst : safely c g (fun _ g' => same_roots g g'))
  end.
  { run_safely ltac:(apply roots_reads, reads_count_nonlinearities);
      solve_roots. }
  eapply safely_weaken; [exact Hfirst|]. cbv beta. intros e1 g1 H1.
  apply safely_bind. unfold checker_validate_para.
  eapply safely_weaken; [apply roots_validate_para_from|].
  cbv beta. intros e2 g2 H2.
  apply safely_bind. unfold checker_validate_ports.
  eapply safely_weaken; [apply roots_validate_ports_from|].
  cbv beta. intros e3 g3 H3.
  apply safely_bind. unfold checker_validate_lists.
  eapply safely_weaken; [apply shape_validate_lists_from|].
  cbv beta. intros [root4 e4] g4 [H4 H4']. cbn [fst] in H4.
  apply safely_ret. cbn [fst]. split; [assumption|solve_roots].
Qed.

(** The types of the elements of the body of a subcircuit. *)
Definition body_types (def : definition_t) : list string :=
  map d_type (d_sub def).

Lemma shape_types root root' :
  map shape root' = map shape root -> map d_type root' = map d_type root.
Proof.
  revert root'. induction root as [|def next IH]; intros [|def' next'] E;
    simpl in *; try discriminate; [reflexivity|].
  inversion E. f_equal; try congruence; now apply IH.
Qed.

Lemma shape_body_types root root' :
  map shape root' = map shape root ->
  map body_types root' = map body_types root.
Proof.
  revert root'. induction root as [|def next IH]; intros [|def' next'] E;
    simpl in *; try discriminate; [reflexivity|].
  inversion E. f_equal; try (unfold body_types; congruence); now apply IH.
Qed.

Lemma shape_filter (p : definition_t -> bool) root :
  (forall d d', shape d' = shape d -> p d' = p d) ->
  forall root',
    map shape root' = map shape root ->
    map shape (filter p root') = map shape (filter p root).
Proof.
  intros Hp. induction root as [|def next IH]; intros [|def' next'] E;
    cbn [map filter] in *; try discriminate; [reflexivity|].
  assert (E1 : shape def' = shape def) by congruence.
  assert (E2 : map shape next' = map shape next) by congruence.
  rewrite (Hp def def' E1).
  destruct (p def); cbn [map]; rewrite ?E1, (IH _ E2); reflexivity.
Qed.

Lemma body_types_check_subcircuit_lists fuel n :
  forall i errors g,
    safely (check_subcircuit_lists fuel n i errors) g
      (fun _ g' =>
         definition_root g' = definition_root g
         /\ map body_types (subcircuit_root g')
            = map body_types (subcircuit_root g)).
Proof.
  induction n as [|n IH]; intros i errors g; simpl.
  - apply safely_ret. split; reflexivity.
  - apply safely_bind, safely_get_subcircuit_root.
    destruct (nth_error (subcircuit_root g) i) as [def|] eqn:Ei;
      [|apply safely_ret; split; reflexivity].
    apply safely_bind. eapply safely_weaken; [apply shape_checker_intern|].
    cbv beta. intros [sub e] g1 (H1 & H1' & H1''). cbn [fst snd] in *.
    apply safely_bind, safely_get_subcircuit_root.
    apply safely_bind. unfold set_subcircuit_root, safely at 1.
    eapply safely_weaken; [apply IH|]. cbv beta. intros r g2 [H2 H2'].
    cbn [definition_root subcircuit_root] in *.
    split; [congruence|]. rewrite H2', H1''.
    apply (map_update_at body_types _ i _ def Ei).
    unfold body_types. destruct def. cbn [set_d_sub d_sub].
    now apply shape_types.
Qed.

(** No body of a subcircuit of the list has a subcircuit definition. *)
Definition flat_bodies (subcircuits : list definition_t) : Prop :=
  Forall (fun types => ~ In "Def" types) (map body_types subcircuits).

Lemma flat_bodies_built new :
  Forall (fun def => is_def def = true
                     /\ forallb (fun d => negb (is_def d)) (d_sub def)
                        = true) new ->
  flat_bodies new.
Proof.
  unfold flat_bodies. induction 1 as [|def next [_ Hd] _ IH]; simpl;
    constructor; [|assumption].
  unfold body_types. intros Hin. apply in_map_iff in Hin.
  destruct Hin as (d & Ed & Hin).
  rewrite forallb_forall in Hd. specialize (Hd d Hin).
  unfold is_def in Hd. rewrite Ed in Hd. discriminate.
Qed.

Lemma flat_bodies_element subcircuits sub e :
  flat_bodies subcircuits -> In sub subcircuits -> In e (d_sub sub) ->
  d_type e <> "Def".
Proof.
  unfold flat_bodies. intros H Hsub He Ed.
  rewrite Forall_forall in H.
  apply (H (body_types sub)); [now apply in_map|].
  unfold body_types. rewrite <- Ed. now apply in_map.
Qed.

(** A statement of a netlist ready for the analyses: no subcircuit
    definition and no subcircuit instance. *)
Definition plain (def : definition_t) : bool :=
  negb (String.eqb (d_type def) "Def") && negb (String.eqb (d_type def) "Sub").

Lemma netlist_checker_result fuel g :
  subcircuit_root g = [] ->
  safely (netlist_checker fuel) g
    (fun r g' =>
       (r = -1 /\
        map shape (definition_root g')
        = map shape (filter (fun def => negb (is_def def))
                       (definition_root g)))
       \/ (r = 0 /\
           exists copies rest,
             definition_root g' = copies ++ rest
             /\ Forall (fun c => plain c = true /\ d_copy c = 1
                                 /\ d_subcircuit c <> None) copies
             /\ map shape rest
                = map shape (filter plain (definition_root g)))).
Proof.
  intros Hsubs. unfold netlist_checker.
  apply safely_bind, safely_get_definition_root.
  apply safely_bind. unfold checker_build_subcircuits.
  apply safely_bind, safely_get_subcircuit_root.
  pose proof (build_subcircuits_from_built _ (definition_root g)
                (subcircuit_root g) (Nat.le_refl _)) as Hbuilt.
  destruct (build_subcircuits_from (definition_root g) (subcircuit_root g))
    as [root1 subs1].
  destruct Hbuilt as [Hroot1 (new & Hsubs1 & _ & Hnew)].
  cbn [fst snd] in Hroot1, Hsubs1. rewrite Hsubs, app_nil_r in Hsubs1.
  subst subs1. apply flat_bodies_built in Hnew.
  apply safely_bind, safely_set_subcircuit_root. apply safely_ret.
  apply safely_bind, safely_set_definition_root.
  apply safely_bind. eapply safely_weaken; [apply shape_checker_intern|].
  cbv beta. intros [root2 e1] g2 (H1 & H1' & H1''). cbn [fst snd] in *.
  cbn [definition_root subcircuit_root] in H1', H1''.
  apply safely_bind, safely_set_definition_root.
  apply safely_bind, safely_get_subcircuit_root.
  cbn [subcircuit_root]. rewrite H1''.
  apply safely_bind. eapply safely_weaken; [apply shape_checker_intern|].
  cbv beta. intros [subs3 e2] g3 (H2 & H2' & H2''). cbn [fst snd] in *.
  cbn [definition_root subcircuit_root] in H2', H2''.
  apply safely_bind, safely_set_subcircuit_root.
  apply safely_bind.
  eapply safely_weaken; [apply body_types_check_subcircuit_lists|].
  cbv beta. intros e3 g4 (H3 & H3').
  cbn [definition_root subcircuit_root] in H3, H3'.
  apply safely_bind, safely_get_definition_root. rewrite H3.
  apply safely_bind. eapply safely_weaken; [apply shape_validate_actions|].
  cbv beta. intros [root5 e4] g5 (H4 & H4' & H4''). cbn [fst snd] in *.
  assert (Hshape : map shape root5
                   = map shape (filter (fun def => negb (is_def def))
                                  (definition_root g)))
    by (rewrite <- Hroot1; congruence).
  assert (Hflat : flat_bodies (subcircuit_root g5)).
  { unfold flat_bodies in *. rewrite H4'', H3'.
    now rewrite (shape_body_types _ _ H2). }
  apply safely_bind, safely_set_definition_root.
  destruct (e3 + e4 =? 0) eqn:Ee.
  - apply safely_bind.
    + apply safely_bind, safely_get_definition_root.
      cbn [definition_root]. apply safely_bind.
      apply safely_eq. intros r g6 E.
      unfold checker_expand_subcircuits in E.
      apply (expand_subcircuits_loop_flat (subcircuit_root g5)) in E;
        [|reflexivity|constructor].
      destruct E as [-> (copies & -> & Hcopies)].
      apply safely_set_definition_root. apply safely_ret.
      right. split; [reflexivity|]. cbn [definition_root app].
      exists copies,
        (filter (fun def => negb (String.eqb (d_type def) "Sub")) root5).
      split; [reflexivity|]. split.
      * eapply Forall_impl; [|exact Hcopies].
        intros c (Hsub & Hcopy & sub & e & Hin & He & Hname & Hof).
        cbn [subcircuit_root] in Hin.
        pose proof (flat_bodies_element _ sub e Hflat Hin He) as Hdef.
        destruct Hof as (Htype & _).
        split; [|split; [assumption|congruence]].
        unfold plain. apply andb_true_iff. split; apply negb_true_iff;
          apply String.eqb_neq; congruence.
      * erewrite shape_filter; [|now intros d d' Ed; inversion Ed|exact Hshape].
        f_equal. clear. induction (definition_root g) as [|def next IH];
          simpl; [reflexivity|].
        unfold plain, is_def.
        destruct (String.eqb (d_type def) "Def"); simpl; [assumption|].
        destruct (String.eqb (d_type def) "Sub"); simpl;
          [assumption|now f_equal].
  - apply safely_bind, safely_ret. apply safely_ret.
    left. split; [reflexivity|]. exact Hshape.
Qed.

(** When [netlist_checker] returns for a netlist as the parser leaves it,
    it returns 0 or -1.  With -1 the netlist is the parsed one without its
    subcircuit definitions, nothing expanded.  With 0 the netlist has no
    subcircuit definition and no subcircuit instance left: it is made of
    copies of subcircuit elements, each marked as a copy and carrying the
    name of a subcircuit, followed by the other statements of the parsed
    netlist in their order.  In both cases the checker has written to the
    marks and to the values of properties of the parsed statements only. *)
Theorem netlist_checker_flattens (fuel : nat) (g g' : globals) (r : Z) :
  subcircuit_root g = [] ->
  netlist_checker fuel g = Some (r, g') ->
  (r = -1 /\
   map shape (definition_root g')
   = map shape (filter (fun def => negb (is_def def)) (definition_root g)))
  \/ (r = 0 /\
      forallb plain (definition_root g') = true /\
      exists copies rest,
        definition_root g' = copies ++ rest
        /\ Forall (fun c => d_copy c = 1 /\ d_subcircuit c <> None) copies
        /\ map shape rest = map shape (filter plain (definition_root g))).
Proof.
  intros Hsubs H.
  pose proof (netlist_checker_result fuel g Hsubs) as Hr.
  unfold safely in Hr. rewrite H in Hr.
  destruct Hr as [Hr|(-> & copies & rest & E & Hcopies & Hrest)];
    [now left|right].
  split; [reflexivity|]. split.
  - rewrite E, forallb_app. apply andb_true_iff. split.
    + apply forallb_forall. intros c Hc.
      rewrite Forall_forall in Hcopies. now apply Hcopies.
    + assert (Ht : map d_type rest
                   = map d_type (filter plain (definition_root g)))
        by now apply shape_types.
      assert (Hp : forall l, forallb plain l
                             = forallb (fun t => negb (String.eqb t "Def")
                                                 && negb (String.eqb t "Sub"))
                                 (map d_type l))
        by (induction l as [|d l IH]; simpl; [reflexivity|now rewrite IH]).
      rewrite Hp, Ht, <- Hp. apply forallb_forall. intros d Hd.
      apply filter_In in Hd. apply Hd.
  - exists copies, rest. split; [assumption|]. split; [|assumption].
    eapply Forall_impl; [|exact Hcopies]. intros c Hc. apply Hc.
Qed.

(** ** What an accepted statement list satisfies *)

(** The statement fits its catalog entry: the type is known for the action
    class of the statement, the number of nodes is the one of the entry (one
    at least where the entry leaves the number open), each required
    property is given once, each optional property once at most, and no
    other property is given. *)
Definition well_formed (def : definition_t) : Prop :=
  exists available,
    checker_find_definition (d_type def) (d_action def) = Some available
    /\ (if a_nodes available =? PROP_NODES
        then 1 <= checker_count_nodes def
        else a_nodes available = checker_count_nodes def)
    /\ Forall (fun prop =>
                 checker_find_property (prop_key prop) (d_pairs def) = 1)
         (a_required available)
    /\ Forall (fun prop =>
                 checker_find_property (prop_key prop) (d_pairs def) <= 1)
         (a_optional available)
    /\ Forall (fun key => checker_is_property available key = true)
         (map p_key (d_pairs def)).

Lemma safely_both {A} (c : M A) g (Q Q' : A -> globals -> Prop) :
  safely c g Q -> safely c g Q' ->
  safely c g (fun x g' => Q x g' /\ Q' x g').
Proof. unfold safely. destruct (c g) as [[x g']|]; tauto. Qed.

Lemma safely_any {A} (c : M A) g : safely c g (fun _ _ => True).
Proof. unfold safely. now destruct (c g) as [[x g']|]. Qed.

Lemma skipn_cons_nth {A} (l : list A) :
  forall j x, nth_error l j = Some x -> skipn j l = x :: skipn (S j) l.
Proof.
  induction l as [|y l IH]; intros [|j] x H; simpl in *; try discriminate.
  - now inversion H.
  - now apply IH.
Qed.

Lemma find_property_keys key pairs pairs' :
  map p_key pairs' = map p_key pairs ->
  checker_find_property key pairs' = checker_find_property key pairs.
Proof.
  revert pairs'. induction pairs as [|pr next IH]; intros [|pr' next'] E;
    cbn [map] in E; try discriminate; [reflexivity|].
  injection E as E1 E2. simpl. now rewrite E1, (IH _ E2).
Qed.

Lemma shape_parts d d' :
  shape d' = shape d ->
  d_type d' = d_type d /\ d_action d' = d_action d
  /\ d_nodes d' = d_nodes d
  /\ map p_key (d_pairs d') = map p_key (d_pairs d).
Proof. unfold shape. intros E. inversion E. auto. Qed.

Lemma well_formed_shape d d' :
  shape d' = shape d -> well_formed d -> well_formed d'.
Proof.
  intros E (available & H1 & H2 & H3 & H4 & H5).
  apply shape_parts in E. destruct E as (Et & Ea & En & Ek).
  exists available. unfold checker_count_nodes in *.
  rewrite Et, Ea, En, Ek.
  repeat split; try assumption.
  - eapply Forall_impl; [|exact H3]. intros prop Hp. cbv beta in *.
    now rewrite (find_property_keys _ _ _ Ek).
  - eapply Forall_impl; [|exact H4]. intros prop Hp. cbv beta in *.
    now rewrite (find_property_keys _ _ _ Ek).
Qed.

Lemma shape_nth root root' i def :
  map shape root' = map shape root -> nth_error root i = Some def ->
  exists def', nth_error root' i = Some def' /\ shape def' = shape def.
Proof.
  intros E H.
  pose proof (map_nth_error shape i root H) as Hs. rewrite <- E in Hs.
  rewrite nth_error_map in Hs.
  destruct (nth_error root' i) as [def'|]; [|discriminate].
  exists def'. split; [reflexivity|]. simpl in Hs. congruence.
Qed.

Lemma check_required_zero def props :
  forall errors g,
    safely (check_required def props errors) g
      (fun r _ =>
         errors <= r
         /\ (r = errors ->
             Forall (fun prop =>
                       checker_find_property (prop_key prop) (d_pairs def)
                       = 1) props)).
Proof.
  induction props as [|prop next IH]; intros errors g; simpl.
  - apply safely_ret. split; [lia|constructor].
  - destruct (checker_find_property (prop_key prop) (d_pairs def) =? 1)
      eqn:E.
    + apply safely_bind, safely_ret.
      eapply safely_weaken; [apply IH|]. cbv beta. intros r g' [H1 H2].
      split; [assumption|]. intros Hr. constructor; [|now apply H2].
      now apply Z.eqb_eq.
    + apply safely_bind. apply safely_bind, safely_logprint.
      apply safely_ret.
      eapply safely_weaken; [apply IH|]. cbv beta. intros r g' [H1 H2].
      split; lia.
Qed.

Lemma check_optional_zero def props :
  forall errors g,
    safely (check_optional def props errors) g
      (fun r _ =>
         errors <= r
         /\ (r = errors ->
             Forall (fun prop =>
                       checker_find_property (prop_key prop) (d_pairs def)
                       <= 1) props)).
Proof.
  induction props as [|prop next IH]; intros errors g; simpl.
  - apply safely_ret. split; [lia|constructor].
  - destruct (2 <=? checker_find_property (prop_key prop) (d_pairs def))
      eqn:E.
    + apply safely_bind. apply safely_bind, safely_logprint.
      apply safely_ret.
      eapply safely_weaken; [apply IH|]. cbv beta. intros r g' [H1 H2].
      split; lia.
    + apply safely_bind, safely_ret.
      eapply safely_weaken; [apply IH|]. cbv beta. intros r g' [H1 H2].
      split; [assumption|]. intros Hr. constructor; [|now apply H2].
      apply Z.leb_gt in E. lia.
Qed.

Lemma check_pairs_zero available n :
  forall i j root errors g,
    safely (check_pairs available n i j root errors) g
      (fun r _ =>
         snd r = errors ->
         forall def,
           nth_error root i = Some def ->
           (List.length (d_pairs def) <= j + n)%nat ->
           Forall (fun key => checker_is_property available key = true)
             (skipn j (map p_key (d_pairs def)))).
Proof.
  induction n as [|n IH]; intros i j root errors g; simpl.
  - apply safely_ret. intros _ def _ Hlen.
    rewrite skipn_all2; [constructor|]. rewrite length_map. lia.
  - apply safely_bind, safely_deref. intros def Hd.
    destruct (nth_error (d_pairs def) j) as [pr|] eqn:Ej.
    2:{ apply safely_ret. intros _ def' Hd' _.
        assert (def' = def) by congruence. subst def'.
        apply nth_error_None in Ej.
        rewrite skipn_all2; [constructor|]. rewrite length_map. lia. }
    apply safely_bind.
    assert (Hfirst :
      safely
        (if checker_is_property available (p_key pr) then ret errors
         else
           logprint (ErrExtraneous (d_line def) (p_key pr) (d_type def)
                       (d_instance def)) ;;;
           ret (errors + 1)) g
        (fun r _ =>
           errors <= r
           /\ (r = errors -> checker_is_property available (p_key pr)
                             = true))).
    { destruct (checker_is_property available (p_key pr)).
      - apply safely_ret. split; [lia|reflexivity].
      - apply safely_bind, safely_logprint. apply safely_ret. split; lia. }
    eapply safely_weaken; [exact Hfirst|]. cbv beta. intros e1 g1 [H1 H1'].
    destruct (checker_evaluate_scale (p_value pr)) as [value ok].
    apply safely_bind. eapply safely_weaken; [apply safely_any|].
    cbv beta. intros ok2 g2 _.
    apply safely_bind.
    eapply safely_weaken; [apply shape_resolve_variable|].
    cbv beta. intros [root3 ok3] g3 [H3 _].
    cbn [fst] in H3. rewrite shape_update_value in H3.
    eapply safely_weaken;
      [apply safely_both; [apply IH|apply counts_check_pairs]|].
    cbv beta. intros r g4 (H4 & H4' & _) Hr def' Hd' Hlen.
    assert (def' = def) by congruence. subst def'.
    assert (He : e1 = errors /\ snd r = (if ok3 =? 0
                   then (if ok2 =? 0
                         then (if ok =? 0 then e1 + 1 else e1) + 1
                         else if ok =? 0 then e1 + 1 else e1) + 1
                   else if ok2 =? 0
                        then (if ok =? 0 then e1 + 1 else e1) + 1
                        else if ok =? 0 then e1 + 1 else e1))
      by (destruct (ok =? 0), (ok2 =? 0), (ok3 =? 0); lia).
    destruct He as [He1 He2].
    destruct (shape_nth _ _ _ _ H3 Hd) as (def3 & Hd3 & Es).
    apply shape_parts in Es. destruct Es as (_ & _ & _ & Ek).
    specialize (H4 He2 def3 Hd3).
    rewrite Ek in H4.
    assert (Hl3 : List.length (d_pairs def3) = List.length (d_pairs def)).
    { apply (f_equal (@List.length _)) in Ek.
      now rewrite !length_map in Ek. }
    rewrite Hl3 in H4. specialize (H4 ltac:(lia)).
    pose proof (map_nth_error p_key j (d_pairs def) Ej) as Hk.
    rewrite (skipn_cons_nth _ _ _ Hk).
    constructor; [now apply H1'|exact H4].
Qed.

Lemma check_available_zero root i def errors g :
  nth_error root i = Some def ->
  safely (check_available root i def errors) g
    (fun r _ => snd r = errors -> well_formed def).
Proof.
  intros Hd. unfold check_available.
  destruct (checker_find_definition (d_type def) (d_action def))
    as [available|] eqn:Ea.
  2:{ apply safely_bind, safely_logprint. apply safely_ret.
      cbn [snd]. lia. }
  cbv zeta. apply safely_bind.
  match goal with
  | |- safely ?c g _ =>
      assert (Hfirst :
        safely c g
          (fun r _ =>
             errors <= r
             /\ (r = errors ->
                 if a_nodes available =? PROP_NODES
                 then 1 <= checker_count_nodes def
                 else a_nodes available = checker_count_nodes def)))
  end.
  { destruct (a_nodes available =? PROP_NODES).
    - destruct (checker_count_nodes def <? 1) eqn:En.
      + apply safely_bind, safely_logprint. apply safely_ret. split; lia.
      + apply safely_ret. split; [lia|]. intros _. apply Z.ltb_ge in En.
        lia.
    - destruct (a_nodes available =? checker_count_nodes def) eqn:En.
      + apply safely_ret. split; [lia|]. intros _. now apply Z.eqb_eq.
      + apply safely_bind, safely_logprint. apply safely_ret. split; lia. }
  eapply safely_weaken; [exact Hfirst|]. cbv beta. intros e1 g1 [H1 H1'].
  assert (Ep : forall ns n,
             d_pairs (set_d_available ns available n def) = d_pairs def)
    by now destruct def.
  apply safely_bind. eapply safely_weaken; [apply check_required_zero|].
  cbv beta. intros e2 g2 [H2 H2']. rewrite Ep in H2'.
  apply safely_bind. eapply safely_weaken; [apply check_optional_zero|].
  cbv beta. intros e3 g3 [H3 H3']. rewrite Ep in H3'.
  eapply safely_weaken;
    [apply safely_both; [apply check_pairs_zero|apply counts_check_pairs]|].
  cbv beta. intros r g4 (H4 & H4' & _) Hr.
  exists available. split; [exact Ea|].
  split; [apply H1'; lia|]. split; [apply H2'; lia|].
  split; [apply H3'; lia|].
  rewrite Ep in H4.
  assert (Hi : nth_error
                 (update root i
                    (fun _ =>
                       set_d_available
                         (if String.eqb (d_type def) "NodeSet" then 1 else 0)
                         available (checker_count_nodes def) def)) i
               = Some (set_d_available
                         (if String.eqb (d_type def) "NodeSet" then 1 else 0)
                         available (checker_count_nodes def) def)).
  { clear - Hd. revert i Hd. induction root as [|d root IH]; intros [|i] Hd;
      simpl in *; try discriminate; [reflexivity|now apply IH]. }
  specialize (H4 ltac:(lia) _ Hi). rewrite Ep in H4.
  apply (H4 (Nat.le_refl _)).
Qed.

Lemma checker_def_zero root i def errors g :
  nth_error root i = Some def ->
  safely (netlist_checker_def root i def errors) g
    (fun r _ => snd r = errors -> well_formed def).
Proof.
  intros Hd. unfold netlist_checker_def.
  apply safely_bind.
  eapply safely_weaken;
    [apply safely_both;
     [now apply check_available_zero|now apply counts_check_available]|].
  cbv beta. intros [root1 e1] g1 (H1 & H1' & _). cbn [fst snd] in *.
  unfold checker_count_definition.
  destruct (count_definition_from 0 root1 (d_type def) (d_instance def))
    as [root2 n].
  run_safely fail; cbn [fst snd]; intros Hr; apply H1; lia.
Qed.

Lemma for_definitions_zero root g :
  safely (for_definitions netlist_checker_def (List.length root) 0 root 0) g
    (fun r _ => 0 <= snd r /\ (snd r = 0 -> Forall well_formed root)).
Proof.
  eapply safely_weaken.
  - apply (for_definitions_inv netlist_checker_def
             (fun i root' e _ =>
                map shape root' = map shape root /\ 0 <= e
                /\ (e = 0 -> Forall well_formed (firstn i root)))
             (List.length root)).
    + intros i root' s g' (E & _).
      apply (f_equal (@List.length _)) in E. now rewrite !length_map in E.
    + intros i root' e g' def' (E & He & Hw) Hd'.
      eapply safely_weaken;
        [apply safely_both;
         [now apply checker_def_zero
         |apply safely_both;
          [now apply shape_checker_def|now apply counts_checker_def]]|].
      cbv beta. intros r g2 (H1 & (H2 & _) & H3 & _).
      split; [congruence|]. split; [lia|]. intros Hr.
      destruct (shape_nth _ _ _ _ (eq_sym E) Hd') as (def & Hd & Es).
      rewrite (firstn_succ_nth _ _ _ Hd).
      apply Forall_app. split; [apply Hw; lia|].
      constructor; [|constructor].
      apply (well_formed_shape def'); [assumption|apply H1; lia].
    + reflexivity.
    + split; [reflexivity|]. split; [lia|]. intros _. constructor.
  - cbv beta. intros r g' (_ & H1 & H2). split; [assumption|].
    intros Hr. specialize (H2 Hr). now rewrite firstn_all in H2.
Qed.

(** When [netlist_checker_intern] returns without an error, each statement
    of the list fits its catalog entry: its type is known, it has the
    number of nodes of the entry, each required property once, each optional
    property once at most, and no property the entry does not have.  This
    holds for the statements given and for the statements returned. *)
Theorem checker_intern_accepts (fuel : nat) (root root' : list definition_t)
    (g g' : globals) :
  netlist_checker_intern fuel root g = Some (root', 0, g') ->
  Forall well_formed root /\ Forall well_formed root'.
Proof.
  intros H.
  assert (Hs : safely (netlist_checker_intern fuel root) g
                 (fun r _ => snd r = 0 -> Forall well_formed root)).
  { unfold netlist_checker_intern.
    apply safely_bind.
    eapply safely_weaken; [apply for_definitions_zero|].
    cbv beta. intros [root1 e1] g1 (H1 & H1'). cbn [fst snd] in *.
    apply safely_bind. eapply safely_weaken; [apply counts_validate_strips|].
    cbv beta. intros [root2 e2] g2 (H2 & _). cbn [fst snd] in *.
    apply safely_bind. unfold checker_validate_subcircuits.
    eapply safely_weaken; [apply counts_validate_subcircuits_from|].
    cbv beta. intros e3 g3 (H3 & _).
    apply safely_bind.
    eapply safely_weaken; [apply counts_validate_nodesets|].
    cbv beta. intros [root4 e4] g4 (H4 & _). cbn [fst snd] in *.
    apply safely_ret. cbn [snd]. intros Hr. apply H1'. lia. }
  pose proof (shape_checker_intern fuel root g) as Hshape.
  unfold safely in Hs, Hshape. rewrite H in Hs, Hshape. cbn [fst snd] in *.
  specialize (Hs eq_refl). destruct Hshape as [Hshape _].
  split; [assumption|].
  clear - Hs Hshape. revert root' Hshape.
  induction Hs as [|def next Hd _ IH]; intros [|def' next'] E;
    cbn [map] in E; try discriminate; constructor.
  - apply (well_formed_shape def); [congruence|assumption].
  - apply IH. congruence.
Qed.

(** ** The range check of a property *)

(** The run has printed [n] messages and has done nothing else. *)
Definition logged (n : Z) (g g' : globals) : Prop :=
  definition_root g' = definition_root g
  /\ subcircuit_root g' = subcircuit_root g
  /\ checker_sub_cycles g' = checker_sub_cycles g
  /\ exists l, log g' = l ++ log g /\ Z.of_nat (List.length l) = n.

Lemma logged_none g : logged 0 g g.
Proof. repeat split. now exists []. Qed.

Lemma logged_message d g :
  logged 1 g (mk_globals (definition_root g) (subcircuit_root g)
                (checker_sub_cycles g) (d :: log g)).
Proof. repeat split. now exists [d]. Qed.

Lemma logged_trans a b g g1 g2 :
  logged a g g1 -> logged b g1 g2 -> logged (a + b) g g2.
Proof.
  intros (H1 & H2 & H3 & l1 & H4 & H5) (K1 & K2 & K3 & l2 & K4 & K5).
  repeat split; try congruence.
  exists (l2 ++ l1). rewrite K4, H4, app_assoc. split; [reflexivity|].
  rewrite length_app. lia.
Qed.

Lemma logged_nonneg n g g' : logged n g g' -> 0 <= n.
Proof. intros (_ & _ & _ & l & _ & H). lia. Qed.

Lemma logged_zero g g' : logged 0 g g' -> g' = g.
Proof.
  intros (H1 & H2 & H3 & l & H4 & H5).
  destruct l; [|simpl in H5; lia].
  destruct g, g'. simpl in *. congruence.
Qed.

(** The value is inside of the range: neither below the lower nor above the
    upper bound. *)
Definition in_range (l h : float) (val : value_t) : bool :=
  negb (PrimFloat.ltb (v_value val) l || PrimFloat.ltb h (v_value val)).

(** What the catalog property asks of the property of a statement. *)
Definition prop_accepts (pr : pair_t) (prop : property_t) : bool :=
  if PROP_IS_VAL prop then
    (PROP_IS_LST prop || match p_next pr with [] => true | _ => false end)
    && match prop_range prop with
       | Some (l, h) => forallb (in_range l h) (p_value pr :: p_next pr)
       | None => true
       end
    && (negb (PROP_IS_INT prop)
        || PrimFloat.eqb (modf (v_value (p_value pr))) 0%float)
  else
    match v_ident (p_value pr) with
    | Some _ => true
    | None => false
    end.

(** The run has added the number of its messages to the error count, and
    none when [ok] holds only. *)
Definition tallied (errors : Z) (ok : bool) (g : globals) (r : Z)
    (g' : globals) : Prop :=
  exists n, r = errors + n /\ logged n g g' /\ (n = 0 <-> ok = true).

Lemma tallied_ok errors g : tallied errors true g errors g.
Proof.
  exists 0. split; [lia|]. split; [apply logged_none|tauto].
Qed.

Lemma tallied_message errors d g :
  tallied errors false g (errors + 1)
    (mk_globals (definition_root g) (subcircuit_root g)
       (checker_sub_cycles g) (d :: log g)).
Proof.
  exists 1. split; [lia|]. split; [apply logged_message|].
  split; [lia|discriminate].
Qed.

Lemma tallied_trans e a b g r1 g1 r2 g2 :
  tallied e a g r1 g1 -> tallied r1 b g1 r2 g2 ->
  tallied e (a && b) g r2 g2.
Proof.
  intros (n1 & E1 & L1 & Z1) (n2 & E2 & L2 & Z2).
  exists (n1 + n2). split; [lia|]. split; [eapply logged_trans; eassumption|].
  apply logged_nonneg in L1, L2. rewrite andb_true_iff.
  split.
  - intros H. split; [apply Z1|apply Z2]; lia.
  - intros [Ha Hb]. apply Z1 in Ha. apply Z2 in Hb. lia.
Qed.

Lemma values_in_range_tallied pr def instance l h vals :
  forall errors g,
    returns (values_in_range pr def instance l h vals errors) g
      (tallied errors (forallb (in_range l h) vals) g).
Proof.
  induction vals as [|val next IH]; intros errors g; simpl.
  - apply returns_ret, tallied_ok.
  - apply returns_bind. unfold in_range at 1.
    destruct (PrimFloat.ltb (v_value val) l || PrimFloat.ltb h (v_value val)).
    + apply returns_bind, returns_logprint. apply returns_ret.
      eapply returns_weaken; [apply IH|]. cbv beta. intros r g' H.
      eapply tallied_trans; [apply tallied_message|exact H].
    + apply returns_ret.
      eapply returns_weaken; [apply IH|]. cbv beta. intros r g' H.
      eapply tallied_trans; [apply tallied_ok|exact H].
Qed.

Lemma value_in_prop_range_tallied instance def pr prop g :
  returns (checker_value_in_prop_range instance def pr prop) g
    (tallied 0 (prop_accepts pr prop) g).
Proof.
  unfold checker_value_in_prop_range, prop_accepts.
  destruct (PROP_IS_VAL prop).
  - apply returns_bind.
    match goal with
    | |- returns ?c g _ =>
        assert (H1 : returns c g
                  (tallied 0 (PROP_IS_LST prop
                              || match p_next pr with
                                 | [] => true
                                 | _ => false
                                 end) g))
    end.
    { destruct (PROP_IS_LST prop); simpl; [apply returns_ret, tallied_ok|].
      destruct (p_next pr).
      - apply returns_ret, tallied_ok.
      - apply returns_bind, returns_logprint. apply returns_ret.
        apply (tallied_message 0). }
    eapply returns_weaken; [exact H1|]. cbv beta. intros e1 g1 T1.
    apply returns_bind.
    match goal with
    | |- returns ?c g1 _ =>
        assert (H2 : returns c g1
                  (tallied e1
                     match prop_range prop with
                     | Some (l, h) =>
                         forallb (in_range l h) (p_value pr :: p_next pr)
                     | None => true
                     end g1))
    end.
    { destruct (prop_range prop) as [[l h]|].
      - apply values_in_range_tallied.
      - apply returns_ret, tallied_ok. }
    eapply returns_weaken; [exact H2|]. cbv beta. intros e2 g2 T2.
    pose proof (tallied_trans _ _ _ _ _ _ _ _ T1 T2) as T12.
    destruct (PROP_IS_INT prop); simpl.
    + destruct (PrimFloat.eqb (modf (v_value (p_value pr))) 0%float).
      * apply returns_ret.
        apply (tallied_trans _ _ true _ _ _ _ _ T12), tallied_ok.
      * apply returns_bind, returns_logprint. apply returns_ret.
        apply (tallied_trans _ _ false _ _ _ _ _ T12), tallied_message.
    + apply returns_ret.
      apply (tallied_trans _ _ true _ _ _ _ _ T12), tallied_ok.
  - destruct (v_ident (p_value pr)).
    + apply returns_ret, tallied_ok.
    + apply returns_bind, returns_logprint. apply returns_ret.
      apply (tallied_message 0).
Qed.

(** The catalog properties with the key of the property all accept it. *)
Definition props_accept (pr : pair_t) (props : list property_t) : bool :=
  forallb (fun prop =>
             negb (String.eqb (prop_key prop) (p_key pr))
             || prop_accepts pr prop) props.

Lemma value_in_range_props_tallied instance def pr props :
  forall errors g,
    returns (value_in_range_props instance def pr props errors) g
      (tallied errors (props_accept pr props) g).
Proof.
  induction props as [|prop next IH]; intros errors g; simpl.
  - apply returns_ret, tallied_ok.
  - apply returns_bind.
    destruct (String.eqb (prop_key prop) (p_key pr)); simpl.
    + apply returns_bind.
      eapply returns_weaken; [apply value_in_prop_range_tallied|].
      cbv beta. intros e g1 (n & -> & L & Hz). apply returns_ret.
      eapply returns_weaken; [apply IH|]. cbv beta. intros r g2 T.
      apply (tallied_trans errors _ _ g (errors + (0 + n)) g1 r g2);
        [|exact T].
      exists n. split; [lia|]. split; assumption.
    + apply returns_ret. apply IH.
Qed.

(** [checker_value_in_range] always returns, with 1 or 0.  It returns 1,
    and prints nothing, when each required and each optional property of
    the catalog entry that has the key of the property accepts it: a value
    property takes a list of values only where lists are allowed, no value
    below or above the range, and a whole number where an integer is asked
    for; any other property takes an identifier.  Otherwise it returns 0,
    and has printed messages and done nothing else.  A key the entry does
    not have is accepted. *)
Theorem value_in_range_accepts (instance : string) (def : define_t)
    (pr : pair_t) (g : globals) :
  returns (checker_value_in_range instance def pr) g
    (fun r g' =>
       exists n,
         logged n g g'
         /\ r = (if n =? 0 then 1 else 0)
         /\ (n = 0 <->
             props_accept pr (a_required def ++ a_optional def) = true)
         /\ (n = 0 -> g' = g))
  /\ (checker_is_property def (p_key pr) = false ->
      props_accept pr (a_required def ++ a_optional def) = true).
Proof.
  split.
  - unfold checker_value_in_range.
    apply returns_bind.
    eapply returns_weaken; [apply value_in_range_props_tallied|].
    cbv beta. intros e1 g1 T1.
    apply returns_bind.
    eapply returns_weaken; [apply value_in_range_props_tallied|].
    cbv beta. intros e2 g2 T2. apply returns_ret.
    destruct (tallied_trans _ _ _ _ _ _ _ _ T1 T2) as (n & -> & L & Hz).
    exists n. split; [assumption|]. split; [reflexivity|].
    unfold props_accept in *. rewrite forallb_app. split; [assumption|].
    intros ->. now apply logged_zero.
  - unfold checker_is_property, props_accept. intros H.
    apply orb_false_iff in H. destruct H as [H1 H2].
    rewrite forallb_app. apply andb_true_iff.
    assert (Hnone : forall props,
               existsb (fun p => String.eqb (prop_key p) (p_key pr)) props
               = false ->
               forallb (fun prop =>
                          negb (String.eqb (prop_key prop) (p_key pr))
                          || prop_accepts pr prop) props = true).
    { induction props as [|prop next IH]; simpl; [reflexivity|].
      intros H. apply orb_false_iff in H. destruct H as [-> H].
      now apply IH. }
    split; now apply Hnone.
Qed.

(** ** The rules for sweep lists *)

Definition has_value (def : definition_t) (key : string) : bool :=
  match checker_find_prop_value def key with
  | Some _ => true
  | None => false
  end.

(** What [checker_validate_lists] asks of a statement.  A sweep of the type
    [const] or [list] has its values in [Values], a [const] sweep one value
    only, and has no [Start], [Stop] or [Points]; a sweep of the type [lin]
    or [log] has [Start], [Stop] and [Points] and no [Values].  Nothing is
    asked of a sweep of another type, nor of any other statement. *)
Definition list_accepts (def : definition_t) : bool :=
  if is_sweep_action def then
    match checker_find_reference def "Type" with
    | Some val =>
        let type := v_ident val in
        if opt_streq type "const" || opt_streq type "list" then
          match checker_find_prop_value def "Values" with
          | Some (_, pr) =>
              negb (opt_streq type "const")
              || match p_next pr with [] => true | _ => false end
          | None => false
          end
          && negb (has_value def "Start") && negb (has_value def "Stop")
          && negb (has_value def "Points")
        else if opt_streq type "lin" || opt_streq type "log" then
          has_value def "Start" && has_value def "Stop"
          && has_value def "Points" && negb (has_value def "Values")
        else true
    | None => true
    end
  else true.

Lemma evaluate_scale_ok value : snd (checker_evaluate_scale value) = 1.
Proof.
  unfold checker_evaluate_scale. destruct (v_scale value); [|reflexivity].
  now destruct (scale_prefix s (v_value value)) as [[? ?] ?].
Qed.

Lemma evaluate_scale_ident value :
  v_ident (fst (checker_evaluate_scale value)) = v_ident value.
Proof.
  unfold checker_evaluate_scale. destruct (v_scale value).
  - destruct (scale_prefix s (v_value value)) as [[rest val] factor].
    destruct rest; now destruct value.
  - now destruct value.
Qed.

Lemma evaluate_scale_chain_errors vals :
  forall errors, snd (evaluate_scale_chain vals errors) = errors.
Proof.
  induction vals as [|val next IH]; intros errors; simpl; [reflexivity|].
  pose proof (evaluate_scale_ok val) as Hok.
  destruct (checker_evaluate_scale val) as [v ok]. simpl in Hok. subst ok.
  specialize (IH errors). simpl.
  destruct (evaluate_scale_chain next errors) as [vals e]. exact IH.
Qed.

Lemma find_prop_value_update pairs key pr pr' :
  p_key pr' = p_key pr ->
  v_ident (p_value pr') = v_ident (p_value pr) ->
  forall j j0,
    nth_error pairs j = Some pr ->
    (find_prop_value_pair (update pairs j (fun _ => pr')) key j0 = None
     <-> find_prop_value_pair pairs key j0 = None).
Proof.
  intros Hk Hi. induction pairs as [|pr0 next IH]; intros [|j] j0 Hj;
    simpl in *; try discriminate.
  - inversion Hj; subst pr0. rewrite Hk, Hi.
    destruct (String.eqb (p_key pr) key); [|reflexivity].
    destruct (v_ident (p_value pr)); [reflexivity|].
    split; discriminate.
  - destruct (String.eqb (p_key pr0) key); [|now apply IH].
    destruct (v_ident (p_value pr0)); [now apply IH|reflexivity].
Qed.

Lemma has_value_update def key j pr pr' :
  nth_error (d_pairs def) j = Some pr ->
  p_key pr' = p_key pr ->
  v_ident (p_value pr') = v_ident (p_value pr) ->
  has_value (set_d_pairs (update (d_pairs def) j (fun _ => pr')) def) key
  = has_value def key.
Proof.
  intros Hj Hk Hi. unfold has_value, checker_find_prop_value.
  pose proof (find_prop_value_update (d_pairs def) key pr pr' Hk Hi j 0%nat Hj)
    as H.
  replace (d_pairs (set_d_pairs (update (d_pairs def) j (fun _ => pr')) def))
    with (update (d_pairs def) j (fun _ => pr')) by now destruct def.
  destruct (find_prop_value_pair (update (d_pairs def) j (fun _ => pr')) key 0),
    (find_prop_value_pair (d_pairs def) key 0); try reflexivity.
  - destruct H as [_ H]. now specialize (H eq_refl).
  - destruct H as [H _]. now specialize (H eq_refl).
Qed.

Lemma required_prop_value_tallied def key errors g :
  returns (required_prop_value def key errors) g
    (tallied errors (has_value def key) g).
Proof.
  unfold required_prop_value, has_value.
  destruct (checker_find_prop_value def key).
  - apply returns_ret, tallied_ok.
  - apply returns_bind, returns_logprint. apply returns_ret.
    apply tallied_message.
Qed.

Lemma extraneous_prop_value_tallied def key errors g :
  returns (extraneous_prop_value def key errors) g
    (tallied errors (negb (has_value def key)) g).
Proof.
  unfold extraneous_prop_value, has_value.
  destruct (checker_find_prop_value def key).
  - apply returns_bind, returns_logprint. apply returns_ret.
    apply tallied_message.
  - apply returns_ret, tallied_ok.
Qed.

Lemma validate_lists_body_tallied def errors g :
  (is_sweep_action def = true -> checker_find_reference def "Type" <> None) ->
  returns (validate_lists_body def errors) g
    (fun r g' => tallied errors (list_accepts def) g (snd r) g').
Proof.
  intros Htype. unfold validate_lists_body, list_accepts.
  fold (is_sweep_action def).
  destruct (is_sweep_action def); [|apply returns_ret, tallied_ok].
  destruct (checker_find_reference def "Type") as [val|];
    [|now exfalso; apply Htype].
  apply returns_bind, returns_ret. cbv zeta.
  destruct (opt_streq (v_ident val) "const" || opt_streq (v_ident val) "list").
  - apply returns_bind.
    match goal with
    | |- returns ?c g _ =>
        assert (Hfirst :
          returns c g
            (fun r g' =>
               tallied errors
                 match checker_find_prop_value def "Values" with
                 | Some (_, pr) =>
                     negb (opt_streq (v_ident val) "const")
                     || match p_next pr with [] => true | _ => false end
                 | None => false
                 end g (snd r) g'
               /\ forall key, has_value (fst r) key = has_value def key))
    end.
    { destruct (checker_find_prop_value def "Values") as [[j pr]|] eqn:Ev.
      - apply find_prop_value_nth in Ev.
        apply returns_bind.
        match goal with
        | |- returns ?c g _ =>
            assert (Hc :
              returns c g
                (tallied errors
                   (negb (opt_streq (v_ident val) "const")
                    || match p_next pr with [] => true | _ => false end) g))
        end.
        { destruct (opt_streq (v_ident val) "const"); simpl.
          - destruct (p_next pr).
            + apply returns_ret, tallied_ok.
            + apply returns_bind, returns_logprint. apply returns_ret.
              apply tallied_message.
          - apply returns_ret, tallied_ok. }
        eapply returns_weaken; [exact Hc|]. cbv beta. intros e1 g1 T1.
        cbn [evaluate_scale_chain].
        pose proof (evaluate_scale_ok (set_v_var TAG_VECTOR (p_value pr)))
          as Hok.
        pose proof (evaluate_scale_ident (set_v_var TAG_VECTOR (p_value pr)))
          as Hid.
        destruct (checker_evaluate_scale (set_v_var TAG_VECTOR (p_value pr)))
          as [v ok].
        cbn [fst snd] in Hok, Hid. subst ok. cbn [Z.eqb].
        pose proof (evaluate_scale_chain_errors (p_next pr) e1) as He.
        destruct (evaluate_scale_chain (p_next pr) e1) as [vals e2].
        cbn [snd] in He. subst e2.
        apply returns_ret. cbn [fst snd]. split; [exact T1|].
        intros key. apply (has_value_update def key j pr); [assumption| |].
        + now destruct pr.
        + destruct pr as [k pv pn]. cbn [p_value set_p_next set_p_value].
          rewrite Hid. now destruct pv.
      - apply returns_bind, returns_logprint. apply returns_ret.
        cbn [fst snd]. split; [apply tallied_message|reflexivity]. }
    eapply returns_weaken; [exact Hfirst|]. cbv beta.
    intros [def1 e1] g1 [T1 Hsame]. cbn [fst snd] in *.
    apply returns_bind.
    eapply returns_weaken; [apply extraneous_prop_value_tallied|].
    cbv beta. intros e2 g2 T2. rewrite Hsame in T2.
    apply returns_bind.
    eapply returns_weaken; [apply extraneous_prop_value_tallied|].
    cbv beta. intros e3 g3 T3. rewrite Hsame in T3.
    apply returns_bind.
    eapply returns_weaken; [apply extraneous_prop_value_tallied|].
    cbv beta. intros e4 g4 T4. rewrite Hsame in T4.
    apply returns_ret. cbn [snd].
    exact (tallied_trans _ _ _ _ _ _ _ _
             (tallied_trans _ _ _ _ _ _ _ _
                (tallied_trans _ _ _ _ _ _ _ _ T1 T2) T3) T4).
  - destruct (opt_streq (v_ident val) "lin" || opt_streq (v_ident val) "log").
    + apply returns_bind.
      eapply returns_weaken; [apply required_prop_value_tallied|].
      cbv beta. intros e1 g1 T1.
      apply returns_bind.
      eapply returns_weaken; [apply required_prop_value_tallied|].
      cbv beta. intros e2 g2 T2.
      apply returns_bind.
      eapply returns_weaken; [apply required_prop_value_tallied|].
      cbv beta. intros e3 g3 T3.
      apply returns_bind.
      eapply returns_weaken; [apply extraneous_prop_value_tallied|].
      cbv beta. intros e4 g4 T4.
      apply returns_ret. cbn [snd].
      exact (tallied_trans _ _ _ _ _ _ _ _
               (tallied_trans _ _ _ _ _ _ _ _
                  (tallied_trans _ _ _ _ _ _ _ _ T1 T2) T3) T4).
    + apply returns_ret, tallied_ok.
Qed.

Lemma validate_lists_from_tallied root :
  Forall (fun def => is_sweep_action def = true ->
                     checker_find_reference def "Type" <> None) root ->
  forall errors g,
    returns (validate_lists_from root errors) g
      (fun r g' => tallied errors (forallb list_accepts root) g (snd r) g').
Proof.
  induction 1 as [|def next Hd _ IH]; intros errors g; simpl.
  - apply returns_ret, tallied_ok.
  - apply returns_bind.
    eapply returns_weaken; [now apply validate_lists_body_tallied|].
    cbv beta. intros [def1 e1] g1 T1. cbn [snd] in T1.
    apply returns_bind. eapply returns_weaken; [apply IH|].
    cbv beta. intros [next1 e2] g2 T2. cbn [snd] in T2.
    apply returns_ret. cbn [snd]. eapply tallied_trans; eassumption.
Qed.

(** When each SW, AC and SP action of the list has a [Type] reference,
    [checker_validate_lists] returns.  The number of errors it returns is
    the number of messages it has printed, and it is zero exactly when each
    sweep follows the rules for its type: [const] and [list] sweeps give
    [Values] (a [const] sweep a single one) and none of [Start], [Stop] and
    [Points]; [lin] and [log] sweeps give [Start], [Stop] and [Points] and
    no [Values]; a sweep of any other type is not looked at.  The list
    returned has the statements of the given list, with the values of
    properties changed only. *)
Theorem validate_lists_rules (root : list definition_t) (g : globals) :
  Forall (fun def => is_sweep_action def = true ->
                     checker_find_reference def "Type" <> None) root ->
  returns (checker_validate_lists root) g
    (fun r g' =>
       map shape (fst r) = map shape root
       /\ logged (snd r) g g'
       /\ (snd r = 0 <-> forallb list_accepts root = true)).
Proof.
  intros Htype. unfold checker_validate_lists.
  eapply returns_weaken.
  - apply returns_and.
    + now apply validate_lists_from_tallied.
    + apply shape_validate_lists_from.
  - cbv beta. intros r g' [(n & E & L & Hz) [Hs _]].
    rewrite Z.add_0_l in E. subst n. auto.
Qed.

(** ** Microstrip components and their substrates *)

(** The statement without its mark of a duplicate. *)
Definition without_duplicate (def : definition_t) : definition_t :=
  set_d_duplicate 0 def.

Definition is_strip (def : definition_t) : bool :=
  (d_action def =? 0)
  && existsb (fun strip => String.eqb strip (d_type def)) strip_available.

(** The substrate of the statement: its [Subst] property names a substrate
    definition of the list, and one only. *)
Definition substrate_defined (root : list definition_t)
    (def : definition_t) : bool :=
  match checker_find_reference def "Subst" with
  | Some val =>
      match v_ident val with
      | Some ident => count_key "SUBST" ident root =? 1
      | None => false
      end
  | None => false
  end.

Definition strip_accepts (root : list definition_t) (def : definition_t)
  : bool :=
  negb (is_strip def) || substrate_defined root def.

Lemma for_definitions_returns {L : Type}
    (body : list definition_t -> nat -> definition_t -> L
            -> M (list definition_t * L))
    (Inv : nat -> list definition_t -> L -> globals -> Prop) (N : nat) :
  (forall i root s g, Inv i root s g -> List.length root = N) ->
  (forall i root s g def,
     Inv i root s g -> nth_error root i = Some def ->
     returns (body root i def s) g
       (fun r g' => Inv (S i) (fst r) (snd r) g')) ->
  forall n i root s g,
    (i + n = N)%nat -> Inv i root s g ->
    returns (for_definitions body n i root s) g
      (fun r g' => Inv N (fst r) (snd r) g').
Proof.
  intros Hlen Hbody. induction n as [|n IH]; intros i root s g Hn Hinv;
    simpl.
  - apply returns_ret. simpl. now replace N with i by lia.
  - destruct (nth_error root i) as [def|] eqn:E.
    + apply returns_bind. eapply returns_weaken; [now apply Hbody|].
      cbv beta. intros [root1 s1] g1 H1. apply IH; [lia|exact H1].
    + apply nth_error_None in E. apply Hlen in Hinv. lia.
Qed.

Lemma without_duplicate_count_definition_from type instance root :
  forall count,
    map without_duplicate
      (fst (count_definition_from count root type instance))
    = map without_duplicate root.
Proof.
  induction root as [|def next IH]; intros count; simpl; [reflexivity|].
  destruct (String.eqb (d_type def) type
            && String.eqb (d_instance def) instance).
  - specialize (IH (count + 1)).
    destruct (count_definition_from (count + 1) next type instance).
    simpl in *. rewrite IH. now destruct (1 <? count + 1), def.
  - specialize (IH count).
    destruct (count_definition_from count next type instance).
    simpl in *. now rewrite IH.
Qed.

Lemma without_duplicate_keys root root' :
  map without_duplicate root' = map without_duplicate root ->
  map statement_key root' = map statement_key root.
Proof.
  intros E. apply (f_equal (map statement_key)) in E.
  rewrite !map_map in E.
  assert (Hk : forall l,
             map (fun x => statement_key (without_duplicate x)) l
             = map statement_key l)
    by (intros l; apply map_ext; now intros []).
  now rewrite !Hk in E.
Qed.

Lemma without_duplicate_parts d d' :
  without_duplicate d' = without_duplicate d ->
  d_type d' = d_type d /\ d_instance d' = d_instance d
  /\ d_action d' = d_action d /\ d_pairs d' = d_pairs d
  /\ d_line d' = d_line d.
Proof. destruct d, d'. unfold without_duplicate. cbn. intros E.
  inversion E. auto.
Qed.

Lemma strip_accepts_same root root' d d' :
  map without_duplicate root' = map without_duplicate root ->
  without_duplicate d' = without_duplicate d ->
  strip_accepts root' d' = strip_accepts root d.
Proof.
  intros Er Ed. apply without_duplicate_keys in Er.
  apply without_duplicate_parts in Ed.
  destruct Ed as (Et & _ & Ea & Ep & _).
  unfold strip_accepts, is_strip, substrate_defined, checker_find_reference.
  rewrite Et, Ea, Ep.
  destruct (find_reference_pair (d_pairs d) "Subst") as [val|];
    [|reflexivity].
  destruct (v_ident val) as [ident|]; [|reflexivity].
  now rewrite (count_key_same_keys "SUBST" ident root' root Er).
Qed.

Lemma validate_strips_def_other strips def :
  existsb (fun strip => String.eqb strip (d_type def)) strips = false ->
  forall root errors g,
    validate_strips_def strips root def errors g = Some (root, errors, g).
Proof.
  induction strips as [|strip next IH]; intros H root errors g; simpl in *;
    [reflexivity|].
  apply orb_false_iff in H. destruct H as [-> H]. now apply IH.
Qed.

Lemma validate_strips_def_tallied strips def :
  NoDup strips ->
  forall root errors g,
    returns (validate_strips_def strips root def errors) g
      (fun r g' =>
         map without_duplicate (fst r) = map without_duplicate root
         /\ tallied errors
              (negb (existsb (fun strip => String.eqb strip (d_type def))
                       strips)
               || substrate_defined root def) g (snd r) g').
Proof.
  induction 1 as [|strip next Hnot Hnext IH]; intros root errors g; simpl.
  - apply returns_ret. split; [reflexivity|apply tallied_ok].
  - destruct (String.eqb strip (d_type def)) eqn:Es; [|apply IH].
    apply String.eqb_eq in Es. subst strip.
    assert (Hrest : existsb (fun strip => String.eqb strip (d_type def)) next
                    = false).
    { destruct (existsb (fun strip => String.eqb strip (d_type def)) next)
        eqn:E; [|reflexivity].
      apply existsb_exists in E. destruct E as (s & Hin & Hs).
      apply String.eqb_eq in Hs. now subst s. }
    cbn [negb orb]. unfold substrate_defined, checker_validate_reference.
    destruct (checker_find_reference def "Subst") as [val|] eqn:Er.
    + apply returns_bind, returns_ret.
      pose proof (find_reference_pair_ident _ _ _ Er) as Hid.
      destruct (v_ident val) as [ident|]; [|congruence].
      apply returns_bind, returns_ret.
      pose proof (without_duplicate_count_definition_from "SUBST" ident root
                    0) as Hw.
      unfold checker_count_definition.
      destruct (count_definition_from 0 root "SUBST" ident) as [root1 n]
        eqn:Ec.
      apply count_definition_from_spec in Ec. destruct Ec as (-> & _).
      cbn [fst] in Hw. rewrite Z.add_0_l.
      destruct (count_key "SUBST" ident root =? 1).
      * unfold returns.
        rewrite (validate_strips_def_other next def Hrest).
        split; [assumption|apply tallied_ok].
      * apply returns_bind, returns_logprint. unfold returns.
        rewrite (validate_strips_def_other next def Hrest).
        split; [assumption|apply tallied_message].
    + apply returns_bind. apply returns_bind, returns_logprint.
      apply returns_ret. unfold returns.
      rewrite (validate_strips_def_other next def Hrest).
      split; [reflexivity|apply tallied_message].
Qed.

Lemma strip_available_NoDup : NoDup strip_available.
Proof.
  unfold strip_available.
  repeat (constructor; [simpl; intuition discriminate|]). constructor.
Qed.

Lemma without_duplicate_nth root root' i def :
  map without_duplicate root' = map without_duplicate root ->
  nth_error root' i = Some def ->
  exists def0, nth_error root i = Some def0
               /\ without_duplicate def = without_duplicate def0.
Proof.
  intros E H.
  pose proof (map_nth_error without_duplicate i root' H) as Hs.
  rewrite E in Hs. rewrite nth_error_map in Hs.
  destruct (nth_error root i) as [def0|]; [|discriminate].
  exists def0. split; [reflexivity|]. simpl in Hs. congruence.
Qed.

(** [checker_validate_strips] always returns.  The number of errors it
    returns is the number of messages it has printed, and it is zero
    exactly when each microstrip component of the list (a statement that is
    no action and has one of the types of [strip_available]) has a [Subst]
    reference that names one substrate definition of the list, and one only.
    The check writes to the marks of duplicates only. *)
Theorem validate_strips_accepts (root : list definition_t) (g : globals) :
  returns (checker_validate_strips root) g
    (fun r g' =>
       map without_duplicate (fst r) = map without_duplicate root
       /\ logged (snd r) g g'
       /\ (snd r = 0 <-> forallb (strip_accepts root) root = true)).
Proof.
  unfold checker_validate_strips.
  eapply returns_weaken.
  - apply (for_definitions_returns _
             (fun i root' e g' =>
                map without_duplicate root' = map without_duplicate root
                /\ tallied 0 (forallb (strip_accepts root) (firstn i root))
                     g e g')
             (List.length root)).
    + intros i root' s g' (E & _).
      apply (f_equal (@List.length _)) in E. now rewrite !length_map in E.
    + intros i root' e g' def (E & T) Hd.
      destruct (without_duplicate_nth _ _ _ _ E Hd) as (def0 & Hd0 & Ed).
      rewrite (firstn_succ_nth _ _ _ Hd0), forallb_app.
      cbn [forallb]. rewrite andb_true_r.
      rewrite <- (strip_accepts_same root root' def0 def E Ed).
      unfold strip_accepts, is_strip.
      destruct (d_action def =? 0).
      * eapply returns_weaken;
          [apply validate_strips_def_tallied, strip_available_NoDup|].
        cbv beta. intros r g2 [E2 T2]. split; [congruence|].
        eapply tallied_trans; [exact T|exact T2].
      * apply returns_ret. cbn [fst snd]. split; [assumption|].
        eapply tallied_trans; [exact T|apply tallied_ok].
    + reflexivity.
    + split; [reflexivity|apply tallied_ok].
  - cbv beta. intros r g' (E & n & En & L & Hz).
    rewrite firstn_all in Hz. rewrite Z.add_0_l in En. subst n. auto.
Qed.

(** ** The rules for parameter sweeps *)

(** The run has added the number of its messages to the error count, and
    none when [P] holds only. *)
Definition tally (errors : Z) (P : Prop) (g : globals) (r : Z)
    (g' : globals) : Prop :=
  exists n, r = errors + n /\ logged n g g' /\ (n = 0 <-> P).

Lemma tally_ok errors (P : Prop) g : P -> tally errors P g errors g.
Proof.
  intros H. exists 0. split; [lia|]. split; [apply logged_none|tauto].
Qed.

Lemma tally_message errors (P : Prop) d g :
  ~ P ->
  tally errors P g (errors + 1)
    (mk_globals (definition_root g) (subcircuit_root g)
       (checker_sub_cycles g) (d :: log g)).
Proof.
  intros H. exists 1. split; [lia|]. split; [apply logged_message|].
  split; [lia|tauto].
Qed.

Lemma tally_trans e (P Q : Prop) g r1 g1 r2 g2 :
  tally e P g r1 g1 -> tally r1 Q g1 r2 g2 -> tally e (P /\ Q) g r2 g2.
Proof.
  intros (n1 & E1 & L1 & Z1) (n2 & E2 & L2 & Z2).
  exists (n1 + n2). split; [lia|]. split; [eapply logged_trans; eassumption|].
  apply logged_nonneg in L1, L2. split.
  - intros H. split; [apply Z1|apply Z2]; lia.
  - intros [Ha Hb]. apply Z1 in Ha. apply Z2 in Hb. lia.
Qed.

Lemma tally_iff e (P Q : Prop) g r g' :
  (P <-> Q) -> tally e P g r g' -> tally e Q g r g'.
Proof. intros H (n & E & L & Hz). exists n. tauto. Qed.

(** No chain of sweeps from the action [a] comes back to an action of the
    chain. *)
Definition acyclic_from (root : list definition_t) (a : string) : Prop :=
  forall b,
    clos_refl_trans_1n string (sweeps root) a b ->
    ~ clos_trans_1n string (sweeps root) b b.

(** What [checker_validate_para] asks of a statement: a parameter sweep
    refers by [Sim] to an action that is not the sweep itself, that is the
    only action of its name, and from which no chain of sweeps comes back
    to itself. *)
Definition sweep_accepts (root : list definition_t) (def : definition_t)
  : Prop :=
  (d_action def =? 1) && String.eqb (d_type def) "SW" = true ->
  exists val ident,
    checker_find_reference def "Sim" = Some val
    /\ v_ident val = Some ident
    /\ d_instance def <> ident
    /\ checker_count_action root ident = 1
    /\ acyclic_from root ident.

Lemma validate_para_cycles_tally root fuel ident g :
  NoDup (action_names root) ->
  (List.length (action_names root) < fuel)%nat ->
  returns (checker_validate_para_cycles fuel root ident []) g
    (tally 0 (acyclic_from root ident) g).
Proof.
  intros Hroot Hfuel.
  destruct (validate_para_cycles_spec root Hroot fuel ident [] g)
    as (r & g' & Hrun & Hres & _ & Hcyc & Hnone).
  - split; [constructor|intros x []].
  - simpl. lia.
  - apply returns_eq. exists r, g'. split; [exact Hrun|].
    destruct Hres as [Hlogs [[-> ->]|[-> (i & deps & Hlog)]]].
    + apply tally_ok. intros b Hb Hc. specialize (Hcyc b Hb Hc). lia.
    + exists 1. split; [lia|]. split.
      * destruct Hlogs as (H1 & H2 & H3 & _). repeat split; try assumption.
        exists [ErrCyclicSweep i deps]. now rewrite Hlog.
      * split; [lia|]. intros Ha.
        assert (1 = 0) by (apply Hnone; [exact Ha|intros d []]). lia.
Qed.

Lemma validate_para_from_tally root fuel :
  NoDup (action_names root) ->
  (List.length (action_names root) < fuel)%nat ->
  forall defs errors g,
    returns (validate_para_from fuel root defs errors) g
      (tally errors (Forall (sweep_accepts root) defs) g).
Proof.
  intros Hroot Hfuel. induction defs as [|def next IH]; intros errors g;
    simpl.
  - apply returns_ret, tally_ok. constructor.
  - destruct ((d_action def =? 1) && String.eqb (d_type def) "SW") eqn:Esw.
    2:{ eapply returns_weaken; [apply IH|]. cbv beta. intros r g'.
        apply tally_iff. split.
        - intros H. constructor; [|assumption].
          unfold sweep_accepts. rewrite Esw. discriminate.
        - intros H. now inversion H. }
    unfold checker_validate_reference.
    destruct (checker_find_reference def "Sim") as [val|] eqn:Er.
    + apply returns_bind, returns_ret.
      pose proof (find_reference_pair_ident _ _ _ Er) as Hid.
      destruct (v_ident val) as [ident|] eqn:Ei; [|congruence].
      apply returns_bind, returns_ret.
      apply returns_bind.
      match goal with
      | |- returns ?c g _ =>
          assert (H1 : returns c g
                         (tally errors (d_instance def <> ident) g))
      end.
      { destruct (String.eqb (d_instance def) ident) eqn:E.
        - apply String.eqb_eq in E.
          apply returns_bind, returns_logprint. apply returns_ret.
          apply tally_message. tauto.
        - apply String.eqb_neq in E. apply returns_ret. now apply tally_ok. }
      eapply returns_weaken; [exact H1|]. cbv beta. intros e1 g1 T1.
      apply returns_bind.
      match goal with
      | |- returns ?c g1 _ =>
          assert (H2 : returns c g1
                         (tally e1 (checker_count_action root ident = 1) g1))
      end.
      { destruct (checker_count_action root ident =? 1) eqn:E.
        - apply Z.eqb_eq in E. apply returns_ret. now apply tally_ok.
        - apply Z.eqb_neq in E.
          apply returns_bind, returns_logprint. apply returns_ret.
          now apply tally_message. }
      eapply returns_weaken; [exact H2|]. cbv beta. intros e2 g2 T2.
      apply returns_bind.
      eapply returns_weaken;
        [now apply validate_para_cycles_tally|].
      cbv beta. intros e3 g3 (n3 & E3 & L3 & Z3).
      eapply returns_weaken; [apply IH|]. cbv beta. intros r g4 T4.
      assert (T3 : tally e2 (acyclic_from root ident) g2 (e2 + e3) g3)
        by (exists n3; split; [lia|tauto]).
      pose proof (tally_trans _ _ _ _ _ _ _ _
                    (tally_trans _ _ _ _ _ _ _ _
                       (tally_trans _ _ _ _ _ _ _ _ T1 T2) T3) T4) as T.
      revert T. apply tally_iff. split.
      * intros (((Ha & Hb) & Hc) & Hd). constructor; [|assumption].
        intros _. exists val, ident. auto.
      * intros H. inversion H as [|? ? Hdef Hnext]; subst.
        destruct (Hdef Esw) as (val' & ident' & E1 & E2 & Ha & Hb & Hc).
        assert (val' = val) by congruence. subst val'.
        assert (ident' = ident) by congruence. subst ident'. auto.
    + apply returns_bind. apply returns_bind, returns_logprint.
      apply returns_ret.
      eapply returns_weaken; [apply IH|]. cbv beta. intros r g' T.
      assert (T0 : tally errors False g (errors + 1)
                     (mk_globals (definition_root g) (subcircuit_root g)
                        (checker_sub_cycles g)
                        (ErrNoReference (d_line def) "Sim" (d_type def)
                           (d_instance def) :: log g)))
        by (apply tally_message; tauto).
      pose proof (tally_trans _ _ _ _ _ _ _ _ T0 T) as T1.
      revert T1. apply tally_iff. split; [tauto|].
      intros H. exfalso. inversion H as [|? ? Hdef Hnext]; subst.
      destruct (Hdef Esw) as (val' & ident' & E1 & _). congruence.
Qed.

(** On a netlist whose actions have different names, and with fuel for
    the number of actions, [checker_validate_para] returns.  The number of
    errors it returns is the number of messages it has printed, and it is
    zero exactly when each parameter sweep of the list has a [Sim]
    reference to an action that is not the sweep itself, that is the only
    action of its name, and from which no chain of sweeps comes back to an
    action of the chain. *)
Theorem validate_para_accepts (fuel : nat) (root : list definition_t)
    (g : globals) :
  NoDup (action_names root) ->
  (List.length (action_names root) < fuel)%nat ->
  returns (checker_validate_para fuel root) g
    (fun r g' =>
       logged r g g'
       /\ (r = 0 <-> Forall (sweep_accepts root) root)).
Proof.
  intros Hroot Hfuel. unfold checker_validate_para.
  eapply returns_weaken; [now apply validate_para_from_tally|].
  cbv beta. intros r g' (n & E & L & Hz).
  rewrite Z.add_0_l in E. subst n. auto.
Qed.

(** ** What an accepted list of actions satisfies *)

Lemma duplicate_ports_none root :
  duplicate_ports root root = 0 -> NoDup (port_numbers root).
Proof.
  intros H. apply (NoDup_count_occ' Z.eq_dec).
  now apply (duplicate_ports_zero root root (incl_refl _)).
Qed.

(** The requirements of the analyses: an action at least, a port for an
    S-parameter analysis, one DC analysis at most, and a DC analysis when an
    AC or S-parameter analysis meets [c] nonlinear components. *)
Definition actions_sound (root : list definition_t) (c : Z) : Prop :=
  1 <= checker_count_definitions root None 1
  /\ (1 <= checker_count_definitions root (Some "SP") 1 ->
      1 <= checker_count_definitions root (Some "Pac") 0)
  /\ checker_count_definitions root (Some "DC") 1 <= 1
  /\ (1 <= checker_count_definitions root (Some "SP") 1
           + checker_count_definitions root (Some "AC") 1 ->
      1 <= c -> 1 <= checker_count_definitions root (Some "DC") 1).

Lemma validate_actions_first fuel root g :
  safely
    (if checker_count_definitions root None 1 <? 1 then
       logprint ErrNoActions ;;;
       ret 1
     else
       let a := checker_count_definitions root (Some "SP") 1 in
       errors <-
         (if 1 <=? a then
            let n := checker_count_definitions root (Some "Pac") 0 in
            if n <? 1 then logprint (ErrNoPac n) ;;; ret 1 else ret 0
          else ret 0) ;;
       let a := a + checker_count_definitions root (Some "AC") 1 in
       c <- checker_count_nonlinearities fuel root ;;
       let n := checker_count_definitions root (Some "DC") 1 in
       errors <-
         (if 1 <? n then logprint (ErrManyDC n) ;;; ret (errors + 1)
          else ret errors) ;;
       (if (1 <=? a) && (1 <=? c) && (n <? 1) then
          logprint (ErrDCRequired c) ;;; ret (errors + 1)
        else ret errors)) g
    (fun e g' =>
       0 <= e
       /\ (e = 0 ->
           g' = g
           /\ exists c,
                checker_count_nonlinearities fuel root g = Some (c, g)
                /\ actions_sound root c)).
Proof.
  destruct (checker_count_definitions root None 1 <? 1) eqn:En.
  { apply safely_bind, safely_logprint. apply safely_ret. split; lia. }
  apply Z.ltb_ge in En. cbv zeta.
  apply safely_bind.
  match goal with
  | |- safely ?c g _ =>
      assert (H1 : safely c g
                (fun e g' =>
                   0 <= e
                   /\ (e = 0 ->
                       g' = g
                       /\ (1 <= checker_count_definitions root (Some "SP") 1
                           -> 1 <= checker_count_definitions root
                                     (Some "Pac") 0))))
  end.
  { destruct (1 <=? checker_count_definitions root (Some "SP") 1) eqn:Ea.
    - destruct (checker_count_definitions root (Some "Pac") 0 <? 1) eqn:Ep.
      + apply safely_bind, safely_logprint. apply safely_ret. split; lia.
      + apply safely_ret. apply Z.ltb_ge in Ep. split; [lia|]. intros _.
        split; [reflexivity|lia].
    - apply safely_ret. apply Z.leb_gt in Ea. split; [lia|]. intros _.
      split; [reflexivity|lia]. }
  eapply safely_weaken; [exact H1|]. cbv beta. intros e1 g1 [He1 Hz1].
  apply safely_bind. apply safely_eq. intros c g2 Ec.
  pose proof (reads_count_nonlinearities fuel root _ _ _ Ec) as Hg2.
  subst g2.
  apply safely_bind.
  match goal with
  | |- safely ?c g1 _ =>
      assert (H2 : safely c g1
                (fun e g' =>
                   e1 <= e
                   /\ (e = e1 ->
                       g' = g1
                       /\ checker_count_definitions root (Some "DC") 1 <= 1)))
  end.
  { destruct (1 <? checker_count_definitions root (Some "DC") 1) eqn:Ed.
    - apply safely_bind, safely_logprint. apply safely_ret. split; lia.
    - apply safely_ret. apply Z.ltb_ge in Ed. split; [lia|]. intros _.
      split; [reflexivity|lia]. }
  eapply safely_weaken; [exact H2|]. cbv beta. intros e2 g2 [He2 Hz2].
  destruct ((1 <=? checker_count_definitions root (Some "SP") 1
                   + checker_count_definitions root (Some "AC") 1)
            && (1 <=? c)
            && (checker_count_definitions root (Some "DC") 1 <? 1)) eqn:Er.
  - apply safely_bind, safely_logprint. apply safely_ret. split; lia.
  - apply safely_ret. split; [lia|]. intros Hz.
    destruct (Hz1 ltac:(lia)) as [-> Hpac].
    destruct (Hz2 ltac:(lia)) as [-> Hdc].
    split; [reflexivity|]. exists c. split; [exact Ec|].
    repeat split; try assumption.
    intros Ha Hc. apply andb_false_iff in Er.
    destruct Er as [Er|Er]; [apply andb_false_iff in Er; destruct Er as [Er|Er]|];
      try apply Z.leb_gt in Er; try apply Z.ltb_ge in Er; lia.
Qed.

(** When, on a netlist whose actions have different names,
    [checker_validate_actions] returns without an error, it has printed
    nothing and has changed nothing but values of properties, and the
    netlist has what the analyses need: an action, a port for an
    S-parameter analysis, one DC analysis at most and one where an AC or
    S-parameter analysis meets nonlinear components; each parameter sweep
    refers to another action and no chain of sweeps is cyclic; the numbers
    of the ports are pairwise different; and each sweep list follows the
    rules of its type. *)
Theorem validate_actions_accepted (fuel : nat)
    (root root' : list definition_t) (g g' : globals) :
  NoDup (action_names root) ->
  (List.length (action_names root) < fuel)%nat ->
  checker_validate_actions fuel root g = Some (root', 0, g') ->
  g' = g
  /\ map shape root' = map shape root
  /\ (exists c,
        checker_count_nonlinearities fuel root g = Some (c, g)
        /\ actions_sound root c)
  /\ Forall (sweep_accepts root) root
  /\ NoDup (port_numbers root)
  /\ forallb list_accepts root = true.
Proof.
  intros Hroot Hfuel Hrun.
  pose proof (shape_validate_actions fuel root g) as Hshape.
  unfold safely in Hshape. rewrite Hrun in Hshape. cbn [fst] in Hshape.
  destruct Hshape as [Hshape _].
  revert Hrun. unfold checker_validate_actions. cbv zeta.
  unfold bind at 1.
  pose proof (validate_actions_first fuel root g) as H1.
  unfold safely in H1.
  match type of H1 with
  | match ?c g with _ => _ end => destruct (c g) as [[e1 g1]|]
  end; [|discriminate].
  destruct H1 as [He1 Hz1].
  unfold bind at 1.
  pose proof (validate_para_from_tally root fuel Hroot Hfuel root 0 g1) as H2.
  unfold returns in H2. unfold checker_validate_para.
  destruct (validate_para_from fuel root root 0 g1) as [[e2 g2]|];
    [|contradiction].
  destruct H2 as (n2 & E2 & L2 & Z2). rewrite Z.add_0_l in E2. subst n2.
  unfold bind at 1.
  pose proof (validate_ports_from_counts root root [] 0 g2 eq_refl) as H3.
  unfold returns in H3. unfold checker_validate_ports.
  cbn [List.length] in H3.
  destruct (validate_ports_from root root 0 0 g2) as [[e3 g3]|];
    [|contradiction].
  destruct H3 as (E3 & _ & Z3). rewrite Z.add_0_l in E3.
  pose proof (duplicate_ports_nonneg root [] root eq_refl) as He3.
  unfold bind at 1. unfold checker_validate_lists.
  destruct (validate_lists_from root 0 g3) as [[[root4 e4] g4]|] eqn:E4;
    [|discriminate].
  assert (Htype : Forall (fun def =>
                            is_sweep_action def = true ->
                            checker_find_reference def "Type" <> None) root)
    by (apply (validate_lists_from_returns root 0 g3); eauto).
  pose proof (validate_lists_from_tallied root Htype 0 g3) as H4.
  unfold returns in H4. rewrite E4 in H4. cbn [snd] in H4.
  destruct H4 as (n4 & En4 & L4 & Z4). rewrite Z.add_0_l in En4. subst n4.
  unfold ret. intros Hrun. inversion Hrun; subst root4 g4.
  pose proof (logged_nonneg _ _ _ L2) as He2.
  pose proof (logged_nonneg _ _ _ L4) as He4.
  assert (e1 = 0 /\ e2 = 0 /\ e3 = 0 /\ e4 = 0) as (-> & -> & -> & ->)
    by lia.
  destruct (Hz1 eq_refl) as [-> Hsound].
  apply logged_zero in L2. subst g2.
  rewrite (Z3 (eq_sym E3)) in *.
  apply logged_zero in L4.
  split; [assumption|]. split; [assumption|]. split; [assumption|].
  split; [now apply Z2|]. split; [now apply duplicate_ports_none|].
  now apply Z4.
Qed.

(** ** The rules for subcircuit instances *)

(** The run has printed [n] messages and has left the netlist and the list
    of subcircuits as they were. *)
Definition printed (n : Z) (g g' : globals) : Prop :=
  definition_root g' = definition_root g
  /\ subcircuit_root g' = subcircuit_root g
  /\ exists l, log g' = l ++ log g /\ Z.of_nat (List.length l) = n.

Lemma printed_none g : printed 0 g g.
Proof. repeat split. now exists []. Qed.

Lemma printed_trans a b g g1 g2 :
  printed a g g1 -> printed b g1 g2 -> printed (a + b) g g2.
Proof.
  intros (H1 & H2 & l1 & H4 & H5) (K1 & K2 & l2 & K4 & K5).
  repeat split; try congruence.
  exists (l2 ++ l1). rewrite K4, H4, app_assoc. split; [reflexivity|].
  rewrite length_app. lia.
Qed.

Lemma printed_nonneg n g g' : printed n g g' -> 0 <= n.
Proof. intros (_ & _ & l & _ & H). lia. Qed.

(** The run has added the number of its messages to the error count, and
    none when [P] holds only. *)
Definition judged (errors : Z) (P : Prop) (g : globals) (r : Z)
    (g' : globals) : Prop :=
  exists n, r = errors + n /\ printed n g g' /\ (n = 0 <-> P).

Lemma judged_ok errors (P : Prop) g : P -> judged errors P g errors g.
Proof.
  intros H. exists 0. split; [lia|]. split; [apply printed_none|tauto].
Qed.

Lemma judged_message errors (P : Prop) d g :
  ~ P ->
  judged errors P g (errors + 1)
    (mk_globals (definition_root g) (subcircuit_root g)
       (checker_sub_cycles g) (d :: log g)).
Proof.
  intros H. exists 1. split; [lia|]. split.
  - repeat split. now exists [d].
  - split; [lia|tauto].
Qed.

Lemma judged_trans e (P Q : Prop) g r1 g1 r2 g2 :
  judged e P g r1 g1 -> judged r1 Q g1 r2 g2 -> judged e (P /\ Q) g r2 g2.
Proof.
  intros (n1 & E1 & L1 & Z1) (n2 & E2 & L2 & Z2).
  exists (n1 + n2). split; [lia|].
  split; [eapply printed_trans; eassumption|].
  apply printed_nonneg in L1, L2. split.
  - intros H. split; [apply Z1|apply Z2]; lia.
  - intros [Ha Hb]. apply Z1 in Ha. apply Z2 in Hb. lia.
Qed.

Lemma judged_iff e (P Q : Prop) g r g' :
  (P <-> Q) -> judged e P g r g' -> judged e Q g r g'.
Proof. intros H (n & E & L & Hz). exists n. tauto. Qed.

(** No subcircuit that the subcircuit [a] reaches via instantiation is
    reachable from itself. *)
Definition acyclic_subcircuit (subcircuits : list definition_t)
    (a : string) : Prop :=
  forall b, reaches subcircuits a b -> ~ cyclic subcircuits b.

(** What [checker_validate_subcircuits] asks of a statement: a subcircuit
    instance refers by [Type] to a subcircuit of the list that has as many
    nodes as the instance and whose definition is not cyclic. *)
Definition instance_accepts (subcircuits : list definition_t)
    (def : definition_t) : Prop :=
  d_type def = "Sub" ->
  exists val sub,
    checker_find_reference def "Type" = Some val
    /\ find_subcircuit_in subcircuits (v_ident val) = Some sub
    /\ checker_count_nodes def = checker_count_nodes sub
    /\ acyclic_subcircuit subcircuits (d_instance sub).

Lemma validate_sub_cycles_judged subs fuel sub instance g :
  subcircuit_root g = subs ->
  references_resolve subs = true ->
  (List.length subs < fuel)%nat ->
  find_subcircuit_in subs (Some (d_instance sub)) = Some sub ->
  returns (checker_validate_sub_cycles fuel sub (d_instance sub) instance [])
    g
    (fun r g' =>
       reports_cycles (fst r) g g'
       /\ (fst r = 0 <-> acyclic_subcircuit subs (d_instance sub))).
Proof.
  intros Hg Hres Hfuel Hsub.
  pose proof (references_resolve_closed subs (d_instance sub) Hres)
    as Hclosed.
  assert (Hdeps : deps_ok subs []) by (split; [constructor|intros x []]).
  assert (Hbound : (List.length subs < fuel + List.length (@nil string))%nat)
    by (simpl; lia).
  pose proof (validate_sub_cycles_returns subs instance fuel sub [] g Hg Hsub
                Hclosed Hdeps Hbound) as Hret.
  assert (Hcyc : forall b,
             reaches subs (d_instance sub) b -> cyclic subs b ->
             returns
               (checker_validate_sub_cycles fuel sub (d_instance sub)
                  instance []) g (fun r _ => 1 <= fst r)).
  { intros b Hreach Hb.
    now apply (validate_sub_cycles_finds_cycle subs instance
                 (d_instance sub) b Hreach Hb fuel sub [] g). }
  pose proof (validate_sub_cycles_acyclic subs instance fuel sub [] g Hg Hsub
                Hclosed Hdeps Hbound) as Hnone.
  unfold returns in *.
  destruct (checker_validate_sub_cycles fuel sub (d_instance sub) instance []
              g) as [[[errors deps] g']|]; [|contradiction].
  destruct Hret as (_ & _ & _ & Hrep). cbn [fst snd] in *.
  rewrite Z.sub_0_r in Hrep. split; [exact Hrep|]. split.
  - intros -> b Hreach Hb. specialize (Hcyc b Hreach Hb). lia.
  - intros Ha.
    assert (E : Some (errors, deps, g')
                = Some (0, strlist_append [] (d_instance sub), g))
      by (apply Hnone; [exact Ha|intros d []]).
    congruence.
Qed.

Lemma validate_subcircuits_from_judged subs fuel :
  references_resolve subs = true ->
  (List.length subs < fuel)%nat ->
  forall defs errors g,
    subcircuit_root g = subs ->
    returns (validate_subcircuits_from fuel defs errors) g
      (judged errors (Forall (instance_accepts subs) defs) g).
Proof.
  intros Hres Hfuel. induction defs as [|def next IH]; intros errors g Hg;
    simpl.
  - apply returns_ret, judged_ok. constructor.
  - destruct (String.eqb (d_type def) "Sub") eqn:Esub.
    2:{ eapply returns_weaken; [now apply IH|]. cbv beta. intros r g'.
        apply judged_iff. apply String.eqb_neq in Esub. split.
        - intros H. constructor; [|assumption]. intros E. contradiction.
        - intros H. now inversion H. }
    apply String.eqb_eq in Esub.
    unfold checker_validate_reference.
    destruct (checker_find_reference def "Type") as [val|] eqn:Er.
    + apply returns_bind, returns_ret.
      apply returns_bind. unfold checker_find_subcircuit.
      apply returns_bind. unfold returns at 1, get_subcircuit_root.
      apply returns_ret. rewrite Hg.
      destruct (find_subcircuit_in subs (v_ident val)) as [sub|] eqn:Ef.
      * destruct (find_subcircuit_in_name _ _ _ Ef) as [Hname _].
        assert (Hsub : find_subcircuit_in subs (Some (d_instance sub))
                       = Some sub) by now rewrite <- Hname.
        apply returns_bind.
        match goal with
        | |- returns ?c g _ =>
            assert (H1 : returns c g
                           (judged errors
                              (checker_count_nodes def
                               = checker_count_nodes sub) g))
        end.
        { destruct (checker_count_nodes def =? checker_count_nodes sub)
            eqn:E.
          - apply Z.eqb_eq in E. apply returns_ret. now apply judged_ok.
          - apply Z.eqb_neq in E.
            apply returns_bind, returns_logprint. apply returns_ret.
            now apply judged_message. }
        eapply returns_weaken; [exact H1|]. cbv beta. intros e1 g1 T1.
        assert (Hg1 : subcircuit_root g1 = subs).
        { destruct T1 as (n & _ & (_ & H & _) & _). congruence. }
        apply returns_bind.
        eapply returns_weaken;
          [apply (validate_sub_cycles_judged subs); assumption|].
        cbv beta. intros [err deps] g2 [Hrep Hz]. cbn [fst] in Hrep, Hz.
        apply returns_bind. unfold returns at 1, set_sub_cycles.
        eapply returns_weaken; [apply IH|].
        { cbn [subcircuit_root]. destruct Hrep as (_ & H & _). congruence. }
        cbv beta. intros r g3 T3.
        assert (T2 : judged e1 (acyclic_subcircuit subs (d_instance sub)) g1
                       (e1 + err)
                       (mk_globals (definition_root g2) (subcircuit_root g2)
                          err (log g2))).
        { exists err. split; [reflexivity|]. split; [|exact Hz].
          destruct Hrep as (H1' & H2' & _ & l & Hl & Hn & _).
          repeat split; try assumption. exists l. split; assumption. }
        pose proof (judged_trans _ _ _ _ _ _ _ _
                      (judged_trans _ _ _ _ _ _ _ _ T1 T2) T3) as T.
        revert T. apply judged_iff. split.
        -- intros ((Ha & Hb) & Hc). constructor; [|assumption].
           intros _. exists val, sub. auto.
        -- intros H. inversion H as [|? ? Hdef Hnext]; subst.
           destruct (Hdef Esub) as (val' & sub' & E1 & E2 & Ha & Hb).
           assert (val' = val) by congruence. subst val'.
           assert (sub' = sub) by congruence. subst sub'. auto.
      * pose proof (find_reference_pair_ident _ _ _ Er) as Hid.
        destruct (v_ident val) as [ident|] eqn:Ei; [|congruence].
        apply returns_bind, returns_ret.
        apply returns_bind, returns_logprint.
        eapply returns_weaken; [now apply IH|]. cbv beta. intros r g' T.
        assert (T0 : judged errors False g (errors + 1)
                       (mk_globals (definition_root g) (subcircuit_root g)
                          (checker_sub_cycles g)
                          (ErrNoSuchSubcircuit (d_line def) ident (d_type def)
                             (d_instance def) :: log g)))
          by (apply judged_message; tauto).
        pose proof (judged_trans _ _ _ _ _ _ _ _ T0 T) as T1.
        revert T1. apply judged_iff. split; [tauto|].
        intros H. exfalso. inversion H as [|? ? Hdef Hnext]; subst.
        destruct (Hdef Esub) as (val' & sub' & E1 & E2 & _).
        assert (val' = val) by congruence. subst val'.
        rewrite Ei in E2. congruence.
    + apply returns_bind. apply returns_bind, returns_logprint.
      apply returns_ret.
      eapply returns_weaken; [now apply IH|]. cbv beta. intros r g' T.
      assert (T0 : judged errors False g (errors + 1)
                     (mk_globals (definition_root g) (subcircuit_root g)
                        (checker_sub_cycles g)
                        (ErrNoReference (d_line def) "Type" (d_type def)
                           (d_instance def) :: log g)))
        by (apply judged_message; tauto).
      pose proof (judged_trans _ _ _ _ _ _ _ _ T0 T) as T1.
      revert T1. apply judged_iff. split; [tauto|].
      intros H. exfalso. inversion H as [|? ? Hdef Hnext]; subst.
      destruct (Hdef Esub) as (val' & sub' & E1 & _). congruence.
Qed.

(** When each subcircuit type named in the body of a subcircuit is
    defined, and with fuel for the number of subcircuits,
    [checker_validate_subcircuits] returns.  It leaves the netlist and the
    list of subcircuits as they were, the number of errors it returns is
    the number of messages it has printed, and it is zero exactly when
    each subcircuit instance of the list has a [Type] reference to a
    subcircuit of the list of subcircuits that has as many nodes as the
    instance and reaches no subcircuit that instantiates itself, directly
    or through other subcircuits. *)
Theorem validate_subcircuits_accepts (fuel : nat) (root : list definition_t)
    (g : globals) :
  references_resolve (subcircuit_root g) = true ->
  (List.length (subcircuit_root g) < fuel)%nat ->
  returns (checker_validate_subcircuits fuel root) g
    (fun r g' =>
       printed r g g'
       /\ (r = 0 <-> Forall (instance_accepts (subcircuit_root g)) root)).
Proof.
  intros Hres Hfuel. unfold checker_validate_subcircuits.
  eapply returns_weaken;
    [now apply (validate_subcircuits_from_judged (subcircuit_root g))|].
  cbv beta. intros r g' (n & E & L & Hz).
  rewrite Z.add_0_l in E. subst n. auto.
Qed.

(** ** The count of nonlinear statements without cycles *)

Lemma nonlinear_statements_cons def next :
  nonlinear_statements (def :: next)
  = (if d_nonlinear def =? 0 then 0 else 1) + nonlinear_statements next.
Proof.
  unfold nonlinear_statements. cbn [filter].
  destruct (d_nonlinear def =? 0); cbn [negb List.length];
    rewrite ?Nat2Z.inj_succ; lia.
Qed.

Lemma count_nonlinearities_ranked rank subs :
  ranked rank subs = true ->
  forall n root g,
    subcircuit_root g = subs ->
    (forall y, In y (body_refs root) -> (rank y < n)%nat) ->
    exists c,
      nonlinear_statements root <= c
      /\ forall fuel,
           (n < fuel)%nat ->
           checker_count_nonlinearities fuel root g = Some (c, g).
Proof.
  intros Hrank. induction n as [n IHn] using lt_wf_ind.
  intros root g Hg Hroot.
  assert (Hloop :
    exists c,
      nonlinear_statements root <= c
      /\ forall fuel count,
           (n <= fuel)%nat ->
           count_nonlinearities_from (checker_count_nonlinearities fuel)
             root count g
           = Some (count + c, g)).
  { induction root as [|def next IH].
    - exists 0. split; [unfold nonlinear_statements; simpl; lia|].
      intros fuel count _. simpl. unfold ret. now rewrite Z.add_0_r.
    - destruct IH as (c & Hc & Hnext).
      { intros y Hy. apply Hroot. now apply body_refs_In. }
      rewrite nonlinear_statements_cons.
      assert (Hhead :
        exists e,
          0 <= e
          /\ forall fuel count,
               (n <= fuel)%nat ->
               (if checker_sub_cycles g <=? 0 then
                  if String.eqb (d_type def) "Sub" then
                    sub <- checker_get_subcircuit def ;;
                    match sub with
                    | Some sub =>
                        k <- checker_count_nonlinearities fuel (d_sub sub) ;;
                        ret (count + k)
                    | None => ret count
                    end
                  else ret count
                else ret count) g
               = Some (count + e, g)).
      { destruct (checker_sub_cycles g <=? 0);
          [|exists 0; split; [lia|]; intros; unfold ret;
            now rewrite Z.add_0_r].
        destruct (String.eqb (d_type def) "Sub") eqn:Esub;
          [|exists 0; split; [lia|]; intros; unfold ret;
            now rewrite Z.add_0_r].
        unfold checker_get_subcircuit.
        destruct (checker_find_reference def "Type") as [val|] eqn:Er;
          [|exists 0; split; [lia|]; intros; unfold bind, ret;
            now rewrite Z.add_0_r].
        unfold checker_find_subcircuit, bind, get_subcircuit_root, ret.
        rewrite Hg.
        destruct (find_subcircuit_in subs (v_ident val)) as [sub|] eqn:Ef;
          [|exists 0; split; [lia|]; intros; now rewrite Z.add_0_r].
        destruct (find_subcircuit_in_name _ _ _ Ef) as [Hname _].
        assert (Hy : (rank (d_instance sub) < n)%nat).
        { apply Hroot. simpl. rewrite Esub, Er, Hname. now left. }
        destruct (IHn (rank (d_instance sub)) Hy (d_sub sub) g Hg)
          as (k & Hk & Hrun).
        { intros z Hz. apply (ranked_instantiates rank subs); [assumption|].
          exists sub. split; [now rewrite <- Hname|exact Hz]. }
        exists k. split.
        - pose proof (Zle_0_nat
                        (List.length
                           (filter (fun def => negb (d_nonlinear def =? 0))
                              (d_sub sub)))) as H0.
          unfold nonlinear_statements in Hk. lia.
        - intros fuel count Hfuel. rewrite Hrun by lia. reflexivity. }
      destruct Hhead as (e & He & Hhead).
      exists ((if d_nonlinear def =? 0 then 0 else 1) + e + c).
      split; [lia|].
      intros fuel count Hfuel. cbn [count_nonlinearities_from].
      unfold bind at 1. unfold get_sub_cycles.
      unfold bind at 1. rewrite (Hhead fuel _ Hfuel).
      rewrite (Hnext fuel _ Hfuel). f_equal. f_equal.
      destruct (d_nonlinear def =? 0); lia. }
  destruct Hloop as (c & Hc & Hloop). exists c. split; [exact Hc|].
  intros [|fuel] Hfuel; [lia|]. simpl.
  rewrite (Hloop fuel 0) by lia. reflexivity.
Qed.

(** When the subcircuits can be ranked so that each one instantiates
    subcircuits of a lower rank only (no subcircuit reaches itself),
    [checker_count_nonlinearities] returns whatever the flag of the cycle
    check is: with more fuel than the ranks of the subcircuits the list
    instantiates it returns a count that does not depend on the fuel, leaves
    the globals as they are, and counts each statement of the list itself
    that is marked nonlinear. *)
Theorem count_nonlinearities_returns (rank : string -> nat) (n : nat)
    (root : list definition_t) (g : globals) :
  ranked rank (subcircuit_root g) = true ->
  (forall y, In y (body_refs root) -> (rank y < n)%nat) ->
  exists c,
    nonlinear_statements root <= c
    /\ (0 < checker_sub_cycles g -> c = nonlinear_statements root)
    /\ forall fuel,
         (n < fuel)%nat ->
         checker_count_nonlinearities fuel root g = Some (c, g).
Proof.
  intros Hrank Hroot.
  destruct (count_nonlinearities_ranked rank (subcircuit_root g) Hrank n root
              g eq_refl Hroot) as (c & Hc & Hrun).
  exists c. split; [exact Hc|]. split; [|exact Hrun].
  intros Hflag. specialize (Hrun (S n) (Nat.lt_succ_diag_r n)).
  rewrite (count_nonlinearities_flagged n root g Hflag) in Hrun.
  congruence.
Qed.

(** ** Nodesets without nodes *)

(** [checker_count_nodesets] reads the first node of each nodeset that is
    not marked as a duplicate: it does not return when one of them has no
    node. *)
Lemma count_nodesets_from_crashes root n :
  (exists def,
      In def root /\ d_nodeset def <> 0 /\ d_duplicate def = 0
      /\ d_nodes def = []) ->
  forall count g, count_nodesets_from count root n g = None.
Proof.
  induction root as [|def next IH]; intros (ns & Hin & Hns & Hdup & Hnodes);
    [destruct Hin|]. intros count g.
  cbn [count_nodesets_from].
  destruct Hin as [->|Hin].
  - apply Z.eqb_neq in Hns. rewrite Hns, Hdup. cbn [negb Z.eqb andb].
    unfold bind, first_node, bind. now rewrite Hnodes.
  - assert (Hnext : forall count g, count_nodesets_from count next n g = None)
      by (apply IH; exists ns; auto).
    destruct (negb (d_nodeset def =? 0) && (d_duplicate def =? 0)).
    + unfold bind at 1.
      destruct (first_node def g) as [[node g1]|]; [|reflexivity].
      destruct (String.eqb node n); unfold bind; now rewrite Hnext.
    + unfold bind. now rewrite Hnext.
Qed.

Lemma for_definitions_crashes
    (body : list definition_t -> nat -> definition_t -> Z
            -> M (list definition_t * Z)) (root : list definition_t)
    (test : definition_t -> bool) :
  (forall i def errors g,
     test def = true -> body root i def errors g = None) ->
  (forall i def errors g,
     test def = false -> body root i def errors g = Some (root, errors, g)) ->
  forall n i errors g,
    (i + n = List.length root)%nat ->
    (exists k def, (i <= k)%nat /\ nth_error root k = Some def
                   /\ test def = true) ->
    for_definitions body n i root errors g = None.
Proof.
  intros Hcrash Hskip. induction n as [|n IH];
    intros i errors g Hlen (k & def & Hk & Hdef & Htest).
  - assert (Hlt : (k < List.length root)%nat)
      by (apply nth_error_Some; congruence). lia.
  - cbn [for_definitions].
    destruct (nth_error root i) as [d|] eqn:Ei.
    2:{ apply nth_error_None in Ei. lia. }
    unfold bind. destruct (test d) eqn:Et.
    + now rewrite Hcrash.
    + rewrite Hskip by assumption. apply IH; [lia|].
      exists k, def. split; [|auto].
      destruct (Nat.eq_dec i k) as [->|]; [congruence|lia].
Qed.

Lemma validate_nodesets_none root :
  Forall (fun def => d_nodeset def = 0) root ->
  forall n i errors g,
    for_definitions
      (fun root _ def errors =>
         if negb (d_nodeset def =? 0) && (checker_count_nodes def =? 1) then
           node <- first_node def ;;
           n <- checker_count_nodes_in root node ;;
           errors <-
             (if n <=? 0 then
                logprint (ErrNoSuchNode (d_line def) node (d_type def)
                            (d_instance def)) ;;;
                ret (errors + 1)
              else ret errors) ;;
           '(root, n) <- checker_count_nodesets root node ;;
           if 1 <? n then
             logprint (ErrNodeNotUnique (d_line def) node (d_type def)
                         (d_instance def)) ;;;
             ret (root, errors + 1)
           else ret (root, errors)
         else ret (root, errors)) n i root errors g
    = Some (root, errors, g).
Proof.
  intros Hroot. induction n as [|n IH]; intros i errors g;
    cbn [for_definitions]; [reflexivity|].
  destruct (nth_error root i) as [def|] eqn:Ei; [|reflexivity].
  rewrite Forall_forall in Hroot.
  rewrite (Hroot def (nth_error_In _ _ Ei)). cbn [Z.eqb negb andb].
  unfold bind at 1. unfold ret at 1. apply IH.
Qed.

(** [checker_validate_nodesets] leaves a list without nodesets alone: no
    error, no message.  It does not return for a list that has a nodeset
    with one node and a nodeset without any node that is not marked as a
    duplicate: looking for other nodesets of the node, it reads the first
    node of each unmarked nodeset without looking whether there is one. *)
Theorem validate_nodesets_needs_nodes (root : list definition_t)
    (g : globals) :
  (Forall (fun def => d_nodeset def = 0) root ->
   checker_validate_nodesets root g = Some (root, 0, g))
  /\ (forall without one,
         In without root -> d_nodeset without <> 0 ->
         d_duplicate without = 0 -> d_nodes without = [] ->
         In one root -> d_nodeset one <> 0 -> checker_count_nodes one = 1 ->
         checker_validate_nodesets root g = None).
Proof.
  split.
  - intros Hroot. unfold checker_validate_nodesets.
    now apply validate_nodesets_none.
  - intros ns0 ns1 Hin0 Hns0 Hdup0 Hnodes0 Hin1 Hns1 Hone.
    unfold checker_validate_nodesets.
    apply (for_definitions_crashes _ root
             (fun def => negb (d_nodeset def =? 0)
                         && (checker_count_nodes def =? 1))).
    + intros i def errors g0 Ht. rewrite Ht.
      unfold bind at 1.
      destruct (first_node def g0) as [[node g1]|]; [|reflexivity].
      unfold bind at 1.
      destruct (checker_count_nodes_in root node g1) as [[n g2]|];
        [|reflexivity].
      unfold bind at 1.
      assert (Herr : exists e g3,
                 (if n <=? 0 then
                    logprint (ErrNoSuchNode (d_line def) node (d_type def)
                                (d_instance def)) ;;;
                    ret (errors + 1)
                  else ret errors) g2 = Some (e, g3))
        by (destruct (n <=? 0); eexists _, _; reflexivity).
      destruct Herr as (e & g3 & ->).
      unfold bind at 1. unfold checker_count_nodesets.
      rewrite count_nodesets_from_crashes; [reflexivity|].
      exists ns0. auto.
    + intros i def errors g0 Ht. now rewrite Ht.
    + reflexivity.
    + apply In_nth_error in Hin1. destruct Hin1 as (k & Hk).
      exists k, ns1. split; [lia|]. split; [exact Hk|].
      apply Z.eqb_neq in Hns1. apply Z.eqb_eq in Hone.
      now rewrite Hns1, Hone.
Qed.

End Checker.

(** * Sample netlists

    The statements of some small netlists, a catalog for them, and the
    checker run on them. *)

Definition node_named (name : string) : node_t := mk_node (Some name) None 0.

Definition ident_value (ident : string) : value_t :=
  mk_value (Some ident) 0%float None None TAG_UNKNOWN 0.

Definition number_value (value : float) (scale : option string) : value_t :=
  mk_value None value scale None TAG_UNKNOWN 0.

(** A statement as the parser leaves it. *)
Definition statement (type instance : string) (nodes : list string)
    (pairs : list pair_t) (action : Z) (body : list definition_t)
  : definition_t :=
  mk_definition type instance (map node_named nodes) pairs body None 0 action
    0 0 0 0 0 0 None.

(** A resistor, a nonlinear diode, subcircuit instances and definitions
    and the DC and AC analyses. *)
Definition sample_catalog : list define_t :=
  [ mk_define "R" 2 0 0 0 [mk_property "R" true false false None] [];
    mk_define "Diode" 2 0 0 1 [] [];
    mk_define "Sub" PROP_NODES 0 0 0
      [mk_property "Type" false false false None] [];
    mk_define "Def" PROP_NODES 0 0 0 [] [];
    mk_define "DC" 0 1 0 0 [] [];
    mk_define "AC" 0 1 0 0
      [mk_property "Type" false false false None;
       mk_property "Start" true false false None;
       mk_property "Stop" true false false None;
       mk_property "Points" true true false None] [] ].

(** The functions of the C library, as far as the samples need them:
    [pow 10 0.3] rounded to the nearest double. *)
Definition sample_pow (x y : float) : float := 1.9952623149688795%float.
Definition sample_modf (x : float) : float := 0%float.
Definition sample_int (x : float) : Z := 0.

(** The state the checker starts in: the parsed netlist, no subcircuits,
    no cycles found, nothing printed. *)
Definition parsed (root : list definition_t) : globals :=
  mk_globals root [] 0 [].

Definition resistor (instance : string) (nodes : list string)
  : definition_t :=
  statement "R" instance nodes [mk_pair "R" (number_value 1 (Some "k")) []] 0
    [].

Definition diode (instance : string) (nodes : list string) : definition_t :=
  statement "Diode" instance nodes [] 0 [].

Definition instance_of (type instance : string) (nodes : list string)
  : definition_t :=
  statement "Sub" instance nodes [mk_pair "Type" (ident_value type) []] 0 [].

Definition subcircuit (type : string) (nodes : list string)
    (body : list definition_t) : definition_t :=
  statement "Def" type nodes [] 0 body.

Definition dc_analysis (instance : string) : definition_t :=
  statement "DC" instance [] [] 1 [].

Definition ac_analysis (instance : string) : definition_t :=
  statement "AC" instance []
    [mk_pair "Type" (ident_value "lin") [];
     mk_pair "Start" (number_value 1 (Some "k")) [];
     mk_pair "Stop" (number_value 10 (Some "k")) [];
     mk_pair "Points" (number_value 5 None) []] 1 [].

(** ** Unit scales *)


(** ** Netlists without actions *)

Definition no_action_netlist : list definition_t :=
  [resistor "R1" ["in"; "out"]; resistor "R2" ["out"; "gnd"]].

(** Two resistors and no action: the action check fails, and so does the
    checker. *)
Lemma netlist_without_action_fails_witness :
  Forall (fun def => d_action def <> 1) no_action_netlist
  /\ returns
       (checker_validate_actions sample_pow sample_int 4 no_action_netlist)
       (parsed no_action_netlist)
       (fun r g' =>
          fst r = no_action_netlist /\ 1 <= snd r
          /\ In ErrNoActions (log g')
          /\ only_logs (parsed no_action_netlist) g')
  /\ returns
       (netlist_checker sample_catalog sample_pow sample_modf sample_int 4)
       (parsed no_action_netlist) (fun r _ => r = -1).
Proof.
  assert (H : Forall (fun def => d_action def <> 1) no_action_netlist)
    by (repeat constructor; simpl; lia).
  split; [exact H|].
  destruct (netlist_without_action_fails sample_catalog sample_pow
              sample_modf sample_int 4 no_action_netlist
              (parsed no_action_netlist) H) as [Hactions Hchecker].
  split; [exact Hactions|].
  specialize (Hchecker eq_refl). unfold safely in Hchecker.
  unfold returns.
  destruct (netlist_checker sample_catalog sample_pow sample_modf sample_int
              4 (parsed no_action_netlist)) as [[r g']|] eqn:E;
    [exact Hchecker|].
  vm_compute in E. discriminate E.
Defined.

(** ** Resolution of identifiers *)

(** [X1] names the subcircuit [T]; [R1] names a value that nothing
    defines. *)
Definition reference_netlist : list definition_t :=
  [ instance_of "T" "X1" ["a"];
    statement "R" "R1" ["a"; "b"] [mk_pair "R" (ident_value "rval") []] 0 [];
    dc_analysis "DC1" ].


(** None of the six domains has [rval]: the error is printed. *)
Example resolve_variable_unresolved :
  resolution_domains reference_netlist
    (statement "R" "R1" ["a"; "b"] [mk_pair "R" (ident_value "rval") []] 0 [])
    "rval"
  = [false; false; false; false; false; false]
  /\ option_map (fun r => (snd (fst r), log (snd r)))
       (checker_resolve_variable reference_netlist 1 0
          (parsed reference_netlist))
     = Some (0, [ErrNoSuchVariable 0 "rval" "R" "R1"]).
Proof. split; reflexivity. Qed.

(** ** Expansion of a subcircuit instance *)

Definition divider : definition_t :=
  subcircuit "T" ["p"]
    [resistor "R1" ["p"; "n"]; resistor "R2" ["n"; "gnd"]].

Definition divider_netlist : list definition_t :=
  [ resistor "R0" ["a"; "gnd"];
    instance_of "T" "X1" ["a"];
    resistor "R9" ["a"; "b"];
    divider;
    dc_analysis "DC1" ].

(** The checker accepts the netlist and puts the copies of the body of [T]
    in front of the other statements, [R2] before [R1]: they do not take
    the place of [X1] between [R0] and [R9], and are not in the order of
    the body. *)
Lemma expansion_reverses_body_order :
  option_map
    (fun r => (fst r, map d_instance (definition_root (snd r))))
    (netlist_checker sample_catalog sample_pow sample_modf sample_int 8
       (parsed divider_netlist))
  = Some (0, ["T.X1.R2"; "T.X1.R1"; "R0"; "R9"; "DC1"])
  /\ option_map
       (fun r => (fst r, map d_instance (definition_root (snd r))))
       (netlist_checker sample_catalog sample_pow sample_modf sample_int 8
          (parsed divider_netlist))
     <> Some (0, ["R0"; "T.X1.R1"; "T.X1.R2"; "R9"; "DC1"]).
Proof.
  split.
  - vm_compute. reflexivity.
  - intros H. vm_compute in H. discriminate H.
Qed.

(** The state the expansion of [X1] starts in. *)
Definition divider_globals : globals :=
  mk_globals
    [resistor "R0" ["a"; "gnd"]; instance_of "T" "X1" ["a"];
     resistor "R9" ["a"; "b"]]
    [divider] 0 [].

Definition divider_copies : list definition_t :=
  Eval vm_compute in
    match
      checker_copy_subcircuits 1 divider (instance_of "T" "X1" ["a"]) None
        divider_globals
    with
    | Some (copy, _) => copy
    | None => []
    end.

(** The expansion of [X1] between [R0] and [R9]. *)
Lemma expansion_puts_reversed_copies_in_front_witness :
  (Forall not_sub [resistor "R0" ["a"; "gnd"]]
   /\ Forall not_sub [resistor "R9" ["a"; "b"]]
   /\ d_type (instance_of "T" "X1" ["a"]) = "Sub"
   /\ checker_get_subcircuit (instance_of "T" "X1" ["a"]) divider_globals
      = Some (Some divider, divider_globals)
   /\ checker_copy_subcircuits 1 divider (instance_of "T" "X1" ["a"]) None
        divider_globals
      = Some (divider_copies, divider_globals)
   /\ (0 + 2 * 1 + 1 + 3 <= 6)%nat)
  /\ checker_expand_subcircuits 6
       ([resistor "R0" ["a"; "gnd"]]
          ++ instance_of "T" "X1" ["a"] :: [resistor "R9" ["a"; "b"]])
       divider_globals
     = Some (divider_copies
               ++ [resistor "R0" ["a"; "gnd"]] ++ [resistor "R9" ["a"; "b"]],
             divider_globals)
  /\ map d_instance divider_copies = ["T.X1.R2"; "T.X1.R1"].
Proof.
  assert (H1 : Forall not_sub [resistor "R0" ["a"; "gnd"]])
    by (repeat constructor; unfold not_sub; simpl; discriminate).
  assert (H2 : Forall not_sub [resistor "R9" ["a"; "b"]])
    by (repeat constructor; unfold not_sub; simpl; discriminate).
  assert (H3 : d_type (instance_of "T" "X1" ["a"]) = "Sub") by reflexivity.
  assert (H4 : checker_get_subcircuit (instance_of "T" "X1" ["a"])
                 divider_globals
               = Some (Some divider, divider_globals)) by reflexivity.
  assert (H5 : checker_copy_subcircuits 1 divider
                 (instance_of "T" "X1" ["a"]) None divider_globals
               = Some (divider_copies, divider_globals))
    by (vm_compute; reflexivity).
  assert (H6 : (0 + 2 * 1 + 1 + 3 <= 6)%nat) by (simpl; lia).
  split; [repeat split; assumption|].
  destruct (expansion_puts_reversed_copies_in_front 0 6 divider_globals
              [resistor "R0" ["a"; "gnd"]] [resistor "R9" ["a"; "b"]]
              (instance_of "T" "X1" ["a"]) divider divider_copies
              H1 H2 H3 H4 H5 H6) as (Hexpand & _ & Hnames).
  split; [exact Hexpand|].
  apply Hnames.
  repeat constructor; unfold not_sub; simpl; discriminate.
Defined.

(** ** Nested expansion *)

(** [Inner] has the formal node [q], the internal node [n1] and a resistor
    to [gnd]; [OuterT] wires its formal node [p] straight to the instance
    [innerInst] of [Inner]; [outer] is an instance of [OuterT] on the
    node [ext]. *)
Definition Inner : definition_t :=
  subcircuit "Inner" ["q"]
    [resistor "R1" ["q"; "n1"]; resistor "R2" ["n1"; "gnd"]].

Definition OuterT : definition_t :=
  subcircuit "OuterT" ["p"]
    [instance_of "Inner" "innerInst" ["p"]; resistor "R3" ["p"; "m"]].

Definition nested_globals : globals :=
  mk_globals [instance_of "OuterT" "outer" ["ext"]] [OuterT; Inner] 0 [].

Definition nested_copies : list definition_t :=
  Eval vm_compute in
    match
      checker_copy_subcircuits 2 OuterT (instance_of "OuterT" "outer" ["ext"])
        None nested_globals
    with
    | Some (copy, _) => copy
    | None => []
    end.

Example nested_copies_names :
  map (fun def => (d_instance def, map n_node (d_nodes def))) nested_copies
  = [ ("OuterT.outer.R3", [Some "ext"; Some "OuterT.outer.m"]);
      ("Inner.outer.innerInst.R2",
       [Some "Inner.outer.innerInst.n1"; Some "gnd"]);
      ("Inner.outer.innerInst.R1",
       [Some "ext"; Some "Inner.outer.innerInst.n1"]) ].
Proof. reflexivity. Qed.

(** The copy of [R1] of [Inner] made for [outer]: its node [q] is the
    node [ext] of [outer], its node [n1] gets the qualified name. *)
Lemma nested_copy_node_names_witness :
  (In (instance_of "Inner" "innerInst" ["p"]) (d_sub OuterT)
   /\ d_type (instance_of "Inner" "innerInst" ["p"]) = "Sub"
   /\ checker_get_subcircuit (instance_of "Inner" "innerInst" ["p"])
        nested_globals
      = Some (Some Inner, nested_globals)
   /\ In (resistor "R1" ["q"; "n1"]) (d_sub Inner)
   /\ not_sub (resistor "R1" ["q"; "n1"])
   /\ Forall clean (d_nodes (resistor "R1" ["q"; "n1"]))
   /\ Forall clean (d_nodes (instance_of "Inner" "innerInst" ["p"]))
   /\ checker_copy_subcircuits 2 OuterT
        (instance_of "OuterT" "outer" ["ext"]) None nested_globals
      = Some (nested_copies, nested_globals))
  /\ exists c n0 n1,
       In c nested_copies
       /\ d_instance c = "Inner.outer.innerInst.R1"
       /\ nth_error (d_nodes c) 0 = Some n0 /\ n_node n0 = Some "ext"
       /\ nth_error (d_nodes c) 1 = Some n1
       /\ n_node n1 = Some "Inner.outer.innerInst.n1".
Proof.
  assert (H1 : In (instance_of "Inner" "innerInst" ["p"]) (d_sub OuterT))
    by (left; reflexivity).
  assert (H2 : d_type (instance_of "Inner" "innerInst" ["p"]) = "Sub")
    by reflexivity.
  assert (H3 : checker_get_subcircuit (instance_of "Inner" "innerInst" ["p"])
                 nested_globals
               = Some (Some Inner, nested_globals)) by reflexivity.
  assert (H4 : In (resistor "R1" ["q"; "n1"]) (d_sub Inner))
    by (left; reflexivity).
  assert (H5 : not_sub (resistor "R1" ["q"; "n1"]))
    by (unfold not_sub; simpl; discriminate).
  assert (H6 : Forall clean (d_nodes (resistor "R1" ["q"; "n1"])))
    by (repeat constructor).
  assert (H7 : Forall clean
                 (d_nodes (instance_of "Inner" "innerInst" ["p"])))
    by (repeat constructor).
  assert (H8 : checker_copy_subcircuits 2 OuterT
                 (instance_of "OuterT" "outer" ["ext"]) None nested_globals
               = Some (nested_copies, nested_globals))
    by (vm_compute; reflexivity).
  split; [repeat split; assumption|].
  destruct (nested_copy_node_names 2 nested_globals nested_globals OuterT
              (instance_of "OuterT" "outer" ["ext"]) Inner
              (instance_of "Inner" "innerInst" ["p"])
              (resistor "R1" ["q"; "n1"]) nested_copies
              H1 H2 H3 H4 H5 H6 H7 H8) as (c & Hin & Hname & _ & Hnodes).
  destruct (Hnodes 0%nat (node_named "q") "q" eq_refl eq_refl)
    as (n0 & Hn0 & _ & _ & Hport).
  destruct (Hnodes 1%nat (node_named "n1") "n1" eq_refl eq_refl)
    as (n1 & Hn1 & Hinternal & _).
  exists c, n0, n1. repeat split; try assumption.
  - assert (Hq : last_formal (d_nodes Inner) "q" 0).
    { exists [], (node_named "q"), []. repeat split. intros []. }
    assert (Hp : last_formal (d_nodes OuterT) "p" 0).
    { exists [], (node_named "p"), []. repeat split. intros []. }
    destruct (Hport 0%nat (node_named "p") "p" Hq eq_refl eq_refl)
      as (Hext & _).
    exact (Hext 0%nat (node_named "ext") "ext" Hp eq_refl eq_refl).
  - apply Hinternal.
    + intros [H|[]]. discriminate H.
    + discriminate.
Defined.

(** The resistor of [Inner] to [gnd] stays on [gnd]. *)
Example nested_copy_keeps_gnd :
  exists c n1,
    In c nested_copies
    /\ d_instance c = "Inner.outer.innerInst.R2"
    /\ nth_error (d_nodes c) 1 = Some n1 /\ n_node n1 = Some "gnd".
Proof.
  exists (nth 1 nested_copies Inner), (node_named "gnd").
  repeat split. right. left. reflexivity.
Qed.

(** ** Duplicate definitions *)

Definition duplicate_netlist : list definition_t :=
  [ resistor "R1" ["a"; "b"]; resistor "R1" ["b"; "gnd"];
    resistor "R1" ["a"; "gnd"]; dc_analysis "DC1" ].

Definition duplicate_root : list definition_t :=
  Eval vm_compute in
    match
      netlist_checker_intern sample_catalog sample_pow sample_modf 2
        duplicate_netlist (parsed duplicate_netlist)
    with
    | Some (root, _, _) => root
    | None => []
    end.

Definition duplicate_globals : globals :=
  Eval vm_compute in
    match
      netlist_checker_intern sample_catalog sample_pow sample_modf 2
        duplicate_netlist (parsed duplicate_netlist)
    with
    | Some (_, g) => g
    | None => parsed duplicate_netlist
    end.

(** Three resistors named [R1]: the second and the third one are marked,
    and one message is printed. *)
Lemma duplicates_marked_and_reported_once_witness :
  (Forall (fun def => d_duplicate def = 0) duplicate_netlist
   /\ netlist_checker_intern sample_catalog sample_pow sample_modf 2
        duplicate_netlist (parsed duplicate_netlist)
      = Some (duplicate_root, 1, duplicate_globals))
  /\ map d_duplicate duplicate_root = [0; 1; 1; 0]
  /\ (exists d', nth_error duplicate_root 2 = Some d' /\ d_duplicate d' = 1)
  /\ definition_counts "R" "R1" duplicate_globals = 1
  /\ log duplicate_globals = [ErrDefinitionCount 3 "R" "R1"].
Proof.
  assert (H1 : Forall (fun def => d_duplicate def = 0) duplicate_netlist)
    by (repeat constructor).
  assert (H2 : netlist_checker_intern sample_catalog sample_pow sample_modf 2
                 duplicate_netlist (parsed duplicate_netlist)
               = Some (duplicate_root, 1, duplicate_globals))
    by (vm_compute; reflexivity).
  split; [split; assumption|].
  destruct (duplicates_marked_and_reported_once sample_catalog sample_pow
              sample_modf 2 duplicate_netlist duplicate_root 1
              (parsed duplicate_netlist) duplicate_globals H1 H2)
    as (Hmarked & Hcount).
  split; [reflexivity|]. split; [|split].
  - exact (Hmarked 1%nat 2%nat (resistor "R1" ["b"; "gnd"])
             (resistor "R1" ["a"; "gnd"]) (Nat.lt_succ_diag_r 1)
             eq_refl eq_refl eq_refl).
  - exact (Hcount "R" "R1").
  - reflexivity.
Defined.

(** ** Cyclic subcircuits *)

(** [A] instantiates [B], and [B] instantiates [A]. *)
Definition loop_A : definition_t :=
  subcircuit "A" ["p"] [instance_of "B" "XB" ["p"]].

Definition loop_B : definition_t :=
  subcircuit "B" ["p"]
    [resistor "R1" ["p"; "gnd"]; instance_of "A" "XA" ["p"]].

Definition loop_globals : globals :=
  mk_globals [instance_of "A" "X1" ["in"]] [loop_A; loop_B] 0 [].

(** [A] instantiates [B] twice and [D]; [B] instantiates [C], and [C]
    instantiates [D]: no cycle, at depth three. *)
Definition chain_A : definition_t :=
  subcircuit "A" ["p"]
    [ instance_of "B" "XB1" ["p"]; instance_of "D" "XD" ["p"];
      instance_of "B" "XB2" ["p"] ].

Definition chain_B : definition_t :=
  subcircuit "B" ["p"] [instance_of "C" "XC" ["p"]].

Definition chain_C : definition_t :=
  subcircuit "C" ["p"] [instance_of "D" "XD" ["p"]].

Definition chain_D : definition_t :=
  subcircuit "D" ["p"] [resistor "R1" ["p"; "gnd"]].

Definition chain_globals : globals :=
  mk_globals [instance_of "A" "X1" ["in"]]
    [chain_D; chain_A; chain_C; chain_B] 0 [].

Definition chain_rank (name : string) : nat :=
  if String.eqb name "A" then 3
  else if String.eqb name "B" then 2
  else if String.eqb name "C" then 1
  else 0.

Example sub_cycles_of_loop :
  checker_validate_sub_cycles 3 loop_A "A" "X1" [] loop_globals
  = Some (1, ["A"; "B"],
          mk_globals [instance_of "A" "X1" ["in"]] [loop_A; loop_B] 0
            [ErrCyclicSubcircuit "A" "X1" ["A"; "B"]]).
Proof. reflexivity. Qed.

Example sub_cycles_of_chain :
  checker_validate_sub_cycles 5 chain_A "A" "X1" [] chain_globals
  = Some (0, ["A"], chain_globals).
Proof. reflexivity. Qed.


(** ** The count of nonlinear statements *)

Lemma bind_some {A B} (c : M A) (k : A -> M B) g x g' :
  c g = Some (x, g') -> bind c k g = k x g'.
Proof. intros H. unfold bind. now rewrite H. Qed.

Lemma bind_none {A B} (c : M A) (k : A -> M B) g :
  c g = None -> bind c k g = None.
Proof. intros H. unfold bind. now rewrite H. Qed.

(** [A] instantiates itself; the checker looks at the body of [B], which
    instantiates [C] and is without cycles, last. *)
Definition self_netlist : list definition_t :=
  [ instance_of "A" "X1" ["in"];
    dc_analysis "DC1";
    subcircuit "B" ["p"] [instance_of "C" "XB" ["p"]];
    subcircuit "C" ["p"] [resistor "R1" ["p"; "gnd"]];
    subcircuit "A" ["p"] [instance_of "A" "XA" ["p"]] ].

(** The diode is in the subcircuit [B], which has no cycle and is
    instantiated by [X1]; the subcircuit [Z] instantiates itself and is not
    instantiated in the netlist.  There is an AC analysis and no DC
    analysis. *)
Definition diode_netlist (others : list definition_t)
  : list definition_t :=
  [ instance_of "B" "X1" ["in"];
    ac_analysis "AC1";
    subcircuit "B" ["p"] [diode "D1" ["p"; "gnd"]] ] ++ others.

Definition self_Z : definition_t :=
  subcircuit "Z" ["p"] [instance_of "Z" "XZ" ["p"]].

(** What a run gives: the result, the messages, newest first, and the
    flag. *)
Definition outcome (r : option (Z * globals)) : option (Z * list diag * Z) :=
  option_map (fun r => (fst r, log (snd r), checker_sub_cycles (snd r))) r.

(** The run on [self_netlist] does not return: the validation of the
    lists returns with two errors and the flag at zero, and the action check
    follows [X1] into [A] again and again. *)
Lemma self_netlist_diverges fuel :
    netlist_checker sample_catalog sample_pow sample_modf sample_int fuel
      (parsed self_netlist)
    = None.
Proof.
  destruct fuel as [|[|fuel]]; [reflexivity|reflexivity|].
  unfold netlist_checker.
  do 10 (erewrite bind_some by (cbv; reflexivity); cbv beta iota zeta).
  apply bind_none. apply validate_actions_diverges.
  - apply Z.leb_le. reflexivity.
  - apply Z.leb_le. reflexivity.
  - exists "A", "A". split; [left; reflexivity|]. split; [constructor|].
    apply Relation_Operators.t1n_step.
    eexists. split; [reflexivity|]. left. reflexivity.
Qed.

(** The same statements with the definition of [A] first, so that the
    checker looks at the body of [A] last. *)
Definition self_netlist_reordered : list definition_t :=
  [ instance_of "A" "X1" ["in"];
    dc_analysis "DC1";
    subcircuit "A" ["p"] [instance_of "A" "XA" ["p"]];
    subcircuit "C" ["p"] [resistor "R1" ["p"; "gnd"]];
    subcircuit "B" ["p"] [instance_of "C" "XB" ["p"]] ].

(** C3: the count of nonlinear statements is not gated by the cycles found
    for the subcircuit it is about to enter, but by the result of the cycle
    check made last.  On [self_netlist] the last check is about [B] and
    finds no cycle: the count enters the subcircuit [A], which instantiates
    itself and for which two cycle errors have been printed, and the checker
    does not return, whatever the depth allowed to the recursion; with the
    definitions in another order it returns the failure.  On
    [diode_netlist] the last check is about [Z] and finds a cycle: the count
    does not enter [B], for which no cycle has been found, the diode in it
    is not counted, and the missing DC analysis is not reported, as it is
    without the unused subcircuit [Z]. *)
Theorem nonlinearities_gated_by_last_cycle_check :
  (forall fuel,
      netlist_checker sample_catalog sample_pow sample_modf sample_int fuel
        (parsed self_netlist)
      = None)
  /\ outcome
       (netlist_checker sample_catalog sample_pow sample_modf sample_int 5
          (parsed self_netlist_reordered))
     = Some (-1,
             [ ErrCyclicSubcircuit "A" "XA" ["A"];
               ErrCyclicSubcircuit "A" "X1" ["A"] ], 1)
  /\ outcome
       (netlist_checker sample_catalog sample_pow sample_modf sample_int 5
          (parsed (diode_netlist [self_Z])))
     = Some (-1, [ErrCyclicSubcircuit "Z" "XZ" ["Z"]], 1)
  /\ outcome
       (netlist_checker sample_catalog sample_pow sample_modf sample_int 5
          (parsed (diode_netlist [])))
     = Some (-1, [ErrDCRequired 1], 0)
  /\ outcome
       (netlist_checker sample_catalog sample_pow sample_modf sample_int 5
          (parsed (diode_netlist [dc_analysis "DC1"])))
     = Some (0, [], 0).
Proof.
  split; [exact self_netlist_diverges|].
  repeat split; vm_compute; reflexivity.
Qed.

(** * Further samples *)

(** ** Parameter sweeps *)

(** A linear parameter sweep of the action [sim]. *)
Definition sweep (instance sim : string) : definition_t :=
  statement "SW" instance []
    [mk_pair "Sim" (ident_value sim) [];
     mk_pair "Type" (ident_value "lin") [];
     mk_pair "Start" (number_value 1 None) [];
     mk_pair "Stop" (number_value 10 None) [];
     mk_pair "Points" (number_value 5 None) []] 1 [].

(** [SW1] sweeps [SW2], which sweeps the DC analysis. *)
Definition sweep_netlist : list definition_t :=
  [ resistor "R1" ["a"; "gnd"];
    sweep "SW1" "SW2"; sweep "SW2" "DC1"; dc_analysis "DC1" ].

(** [SWA] sweeps [SWB], which sweeps [SWA]. *)
Definition cyclic_sweep_netlist : list definition_t :=
  [ sweep "SWA" "SWB"; sweep "SWB" "SWA"; dc_analysis "DC1" ].

Lemma action_names_sweep_netlist :
  NoDup (action_names sweep_netlist).
Proof.
  unfold action_names. simpl.
  repeat (constructor; [simpl; intuition discriminate|]). constructor.
Qed.

Lemma action_names_cyclic_sweep_netlist :
  NoDup (action_names cyclic_sweep_netlist).
Proof.
  unfold action_names. simpl.
  repeat (constructor; [simpl; intuition discriminate|]). constructor.
Qed.

(** The cycle of [SWA] and [SWB] is found from [SWA], with one message. *)
Lemma para_cycles_reported_iff_cyclic_witness :
  NoDup (action_names cyclic_sweep_netlist)
  /\ (List.length (action_names cyclic_sweep_netlist) < 4)%nat
  /\ exists g',
       checker_validate_para_cycles 4 cyclic_sweep_netlist "SWA" []
         (parsed cyclic_sweep_netlist)
       = Some (1, g')
       /\ sweep_cycle_result (parsed cyclic_sweep_netlist) 1 g'.
Proof.
  split; [exact action_names_cyclic_sweep_netlist|].
  assert (Hfuel : (List.length (action_names cyclic_sweep_netlist) < 4)%nat)
    by (simpl; lia).
  split; [exact Hfuel|].
  destruct (para_cycles_reported_iff_cyclic 4 cyclic_sweep_netlist "SWA"
              (parsed cyclic_sweep_netlist)
              action_names_cyclic_sweep_netlist Hfuel)
    as (r & g' & Hrun & Hres & Hcyc & _).
  assert (Hab : sweeps cyclic_sweep_netlist "SWA" "SWB")
    by (eexists; split; reflexivity).
  assert (Hba : sweeps cyclic_sweep_netlist "SWB" "SWA")
    by (eexists; split; reflexivity).
  assert (Hr : r = 1).
  { apply Hcyc. exists "SWA". split; [constructor|].
    eapply Relation_Operators.t1n_trans; [exact Hab|].
    apply Relation_Operators.t1n_step. exact Hba. }
  subst r. exists g'. split; assumption.
Defined.

(** The sweeps of [sweep_netlist] are accepted. *)
Lemma validate_para_accepts_witness :
  NoDup (action_names sweep_netlist)
  /\ (List.length (action_names sweep_netlist) < 5)%nat
  /\ returns (checker_validate_para 5 sweep_netlist) (parsed sweep_netlist)
       (fun r g' =>
          logged r (parsed sweep_netlist) g'
          /\ (r = 0 <-> Forall (sweep_accepts sweep_netlist) sweep_netlist)).
Proof.
  split; [exact action_names_sweep_netlist|].
  assert (Hfuel : (List.length (action_names sweep_netlist) < 5)%nat)
    by (simpl; lia).
  split; [exact Hfuel|].
  exact (validate_para_accepts 5 sweep_netlist (parsed sweep_netlist)
           action_names_sweep_netlist Hfuel).
Defined.

Lemma sweep_netlist_types :
  Forall (fun def => is_sweep_action def = true ->
                     checker_find_reference def "Type" <> None)
    sweep_netlist.
Proof. repeat constructor; simpl; discriminate. Qed.

(** The sweep lists of [sweep_netlist] follow the rules: no error. *)
Lemma validate_lists_rules_witness :
  Forall (fun def => is_sweep_action def = true ->
                     checker_find_reference def "Type" <> None)
    sweep_netlist
  /\ returns (checker_validate_lists sample_pow sweep_netlist)
       (parsed sweep_netlist)
       (fun r g' =>
          map shape (fst r) = map shape sweep_netlist
          /\ logged (snd r) (parsed sweep_netlist) g'
          /\ (snd r = 0 <-> forallb list_accepts sweep_netlist = true)).
Proof.
  split; [exact sweep_netlist_types|].
  exact (validate_lists_rules sample_pow sweep_netlist (parsed sweep_netlist)
           sweep_netlist_types).
Defined.

(** The statements [checker_validate_actions] returns for [sweep_netlist]. *)
Definition sweep_netlist_validated : list definition_t :=
  Eval vm_compute in
    match
      checker_validate_actions sample_pow sample_int 5 sweep_netlist
        (parsed sweep_netlist)
    with
    | Some (root, _, _) => root
    | None => []
    end.

(** The actions of [sweep_netlist] are accepted. *)
Lemma validate_actions_accepted_witness :
  NoDup (action_names sweep_netlist)
  /\ (List.length (action_names sweep_netlist) < 5)%nat
  /\ checker_validate_actions sample_pow sample_int 5 sweep_netlist
       (parsed sweep_netlist)
     = Some (sweep_netlist_validated, 0, parsed sweep_netlist)
  /\ map shape sweep_netlist_validated = map shape sweep_netlist
  /\ Forall (sweep_accepts sweep_netlist) sweep_netlist
  /\ NoDup (port_numbers sample_int sweep_netlist)
  /\ forallb list_accepts sweep_netlist = true.
Proof.
  split; [exact action_names_sweep_netlist|].
  assert (Hfuel : (List.length (action_names sweep_netlist) < 5)%nat)
    by (simpl; lia).
  split; [exact Hfuel|].
  assert (Hrun : checker_validate_actions sample_pow sample_int 5
                   sweep_netlist (parsed sweep_netlist)
                 = Some (sweep_netlist_validated, 0, parsed sweep_netlist))
    by (vm_compute; reflexivity).
  split; [exact Hrun|].
  destruct (validate_actions_accepted sample_pow sample_int 5 sweep_netlist
              sweep_netlist_validated (parsed sweep_netlist)
              (parsed sweep_netlist) action_names_sweep_netlist Hfuel Hrun)
    as (_ & Hshape & _ & Hsweeps & Hports & Hlists).
  repeat split; assumption.
Defined.

(** ** The checker on a plain netlist *)

Definition plain_netlist : list definition_t :=
  [ resistor "R1" ["in"; "out"]; resistor "R2" ["out"; "gnd"];
    dc_analysis "DC1" ].

(** The statements and the globals [netlist_checker_intern] returns for
    [plain_netlist]. *)
Definition plain_netlist_checked : list definition_t :=
  Eval vm_compute in
    match
      netlist_checker_intern sample_catalog sample_pow sample_modf 4
        plain_netlist (parsed plain_netlist)
    with
    | Some (root, _, _) => root
    | None => []
    end.

Lemma plain_netlist_run :
  netlist_checker_intern sample_catalog sample_pow sample_modf 4
    plain_netlist (parsed plain_netlist)
  = Some (plain_netlist_checked, 0, parsed plain_netlist).
Proof. vm_compute. reflexivity. Qed.

(** The two resistors and the DC analysis are what the checker got, with
    the values folded and the marks set. *)
Lemma checker_intern_annotates_witness :
  netlist_checker_intern sample_catalog sample_pow sample_modf 4
    plain_netlist (parsed plain_netlist)
  = Some (plain_netlist_checked, 0, parsed plain_netlist)
  /\ map shape plain_netlist_checked = map shape plain_netlist
  /\ List.length plain_netlist_checked = List.length plain_netlist.
Proof.
  split; [exact plain_netlist_run|].
  destruct (checker_intern_annotates sample_catalog sample_pow sample_modf 4
              plain_netlist plain_netlist_checked 0 (parsed plain_netlist)
              (parsed plain_netlist) plain_netlist_run)
    as (Hshape & Hlen & _).
  split; assumption.
Defined.

(** Each statement of [plain_netlist] fits its catalog entry. *)
Lemma checker_intern_accepts_witness :
  netlist_checker_intern sample_catalog sample_pow sample_modf 4
    plain_netlist (parsed plain_netlist)
  = Some (plain_netlist_checked, 0, parsed plain_netlist)
  /\ Forall (well_formed sample_catalog) plain_netlist
  /\ Forall (well_formed sample_catalog) plain_netlist_checked.
Proof.
  split; [exact plain_netlist_run|].
  exact (checker_intern_accepts sample_catalog sample_pow sample_modf 4
           plain_netlist plain_netlist_checked (parsed plain_netlist)
           (parsed plain_netlist) plain_netlist_run).
Defined.

(** ** The checker on a netlist with a subcircuit *)

(** The globals [netlist_checker] leaves for [divider_netlist]. *)
Definition divider_checked : globals :=
  Eval vm_compute in
    match
      netlist_checker sample_catalog sample_pow sample_modf sample_int 8
        (parsed divider_netlist)
    with
    | Some (_, g) => g
    | None => parsed []
    end.

Lemma divider_netlist_run :
  netlist_checker sample_catalog sample_pow sample_modf sample_int 8
    (parsed divider_netlist)
  = Some (0, divider_checked).
Proof. vm_compute. reflexivity. Qed.

(** The netlist with the divider is accepted, and no subcircuit definition
    or instance is left in it. *)
Lemma netlist_checker_flattens_witness :
  subcircuit_root (parsed divider_netlist) = []
  /\ netlist_checker sample_catalog sample_pow sample_modf sample_int 8
       (parsed divider_netlist)
     = Some (0, divider_checked)
  /\ forallb plain (definition_root divider_checked) = true
  /\ exists copies rest,
       definition_root divider_checked = copies ++ rest
       /\ Forall (fun c => d_copy c = 1 /\ d_subcircuit c <> None) copies
       /\ map shape rest
          = map shape (filter plain (definition_root (parsed divider_netlist))).
Proof.
  split; [reflexivity|]. split; [exact divider_netlist_run|].
  destruct (netlist_checker_flattens sample_catalog sample_pow sample_modf
              sample_int 8 (parsed divider_netlist) divider_checked 0
              eq_refl divider_netlist_run) as [[H _]|[_ H]];
    [discriminate H|exact H].
Defined.

(** The expansion of [X1] between [R0] and [R9]: two copies of elements of
    [T] and the two resistors. *)
Lemma expand_subcircuits_flat_witness :
  checker_expand_subcircuits 6
    [resistor "R0" ["a"; "gnd"]; instance_of "T" "X1" ["a"];
     resistor "R9" ["a"; "b"]] divider_globals
  = Some (divider_copies
            ++ [resistor "R0" ["a"; "gnd"]; resistor "R9" ["a"; "b"]],
          divider_globals)
  /\ Forall not_sub
       (divider_copies
          ++ [resistor "R0" ["a"; "gnd"]; resistor "R9" ["a"; "b"]])
  /\ exists copies,
       divider_copies
         ++ [resistor "R0" ["a"; "gnd"]; resistor "R9" ["a"; "b"]]
       = copies
           ++ filter (fun def => negb (String.eqb (d_type def) "Sub"))
                [resistor "R0" ["a"; "gnd"]; instance_of "T" "X1" ["a"];
                 resistor "R9" ["a"; "b"]]
       /\ Forall (expanded_copy (subcircuit_root divider_globals)) copies.
Proof.
  assert (Hrun :
    checker_expand_subcircuits 6
      [resistor "R0" ["a"; "gnd"]; instance_of "T" "X1" ["a"];
       resistor "R9" ["a"; "b"]] divider_globals
    = Some (divider_copies
              ++ [resistor "R0" ["a"; "gnd"]; resistor "R9" ["a"; "b"]],
            divider_globals)) by (vm_compute; reflexivity).
  split; [exact Hrun|].
  destruct (expand_subcircuits_flat 6 _ _ _ _ Hrun) as (_ & Hflat & Hcopies).
  split; assumption.
Defined.

(** ** Subcircuit instances *)

(** The instance [X1] of the divider is accepted by the check of the
    subcircuit instances. *)
Lemma validate_subcircuits_accepts_witness :
  references_resolve (subcircuit_root divider_globals) = true
  /\ (List.length (subcircuit_root divider_globals) < 2)%nat
  /\ returns
       (checker_validate_subcircuits 2 (definition_root divider_globals))
       divider_globals
       (fun r g' =>
          printed r divider_globals g'
          /\ (r = 0 <->
              Forall (instance_accepts (subcircuit_root divider_globals))
                (definition_root divider_globals))).
Proof.
  assert (H1 : references_resolve (subcircuit_root divider_globals) = true)
    by reflexivity.
  assert (H2 : (List.length (subcircuit_root divider_globals) < 2)%nat)
    by (simpl; lia).
  split; [exact H1|]. split; [exact H2|].
  exact (validate_subcircuits_accepts 2 (definition_root divider_globals)
           divider_globals H1 H2).
Defined.

(** The subcircuits of [chain_globals] are ranked by [chain_rank]: the
    count of nonlinear statements returns from the instance of [A]. *)
Lemma count_nonlinearities_returns_witness :
  ranked chain_rank (subcircuit_root chain_globals) = true
  /\ (forall y, In y (body_refs (definition_root chain_globals)) ->
                (chain_rank y < 4)%nat)
  /\ exists c,
       nonlinear_statements (definition_root chain_globals) <= c
       /\ forall fuel,
            (4 < fuel)%nat ->
            checker_count_nonlinearities fuel (definition_root chain_globals)
              chain_globals
            = Some (c, chain_globals).
Proof.
  assert (H1 : ranked chain_rank (subcircuit_root chain_globals) = true)
    by reflexivity.
  assert (H2 : forall y,
             In y (body_refs (definition_root chain_globals)) ->
             (chain_rank y < 4)%nat).
  { intros y Hy. simpl in Hy. destruct Hy as [Hy|[]]. subst y.
    unfold chain_rank. simpl. lia. }
  split; [exact H1|]. split; [exact H2|].
  destruct (count_nonlinearities_returns chain_rank 4
              (definition_root chain_globals) chain_globals H1 H2)
    as (c & Hc & _ & Hrun).
  exists c. split; assumption.
Defined.

(** ** Nodesets *)

(** A nodeset as the checker has marked it. *)
Definition nodeset (instance : string) (nodes : list string)
  : definition_t :=
  mk_definition "NodeSet" instance (map node_named nodes)
    [mk_pair "U" (number_value 1 None) []] [] None 0 0 0 0 1 0 0 0 None.

(** [NS1] has no node, [NS2] is a nodeset of the node [n1]. *)
Definition nodeset_netlist : list definition_t :=
  [ resistor "R1" ["n1"; "gnd"]; nodeset "NS1" []; nodeset "NS2" ["n1"] ].

(** The check of the nodesets does not return for [nodeset_netlist]. *)
Lemma validate_nodesets_needs_nodes_witness :
  checker_validate_nodesets nodeset_netlist (parsed nodeset_netlist) = None.
Proof.
  destruct (validate_nodesets_needs_nodes nodeset_netlist
              (parsed nodeset_netlist)) as [_ H].
  apply (H (nodeset "NS1" []) (nodeset "NS2" ["n1"])).
  - right. left. reflexivity.
  - discriminate.
  - reflexivity.
  - reflexivity.
  - right. right. left. reflexivity.
  - discriminate.
  - reflexivity.
Defined.
